(** * The conversation engine of violet-conversations, embedded in Rocq

    Source: [src/lib/conversationEngine.js].  The development follows the
    file top-down: generic utilities, [OutputMgr], [ScriptParser],
    [ShortJSON], the goal bookkeeping of [ConversationEngine] and the goal
    loop and dispatch of [InputMgr]; then the registration utilities, the
    tables that a script declares, and the Dialogflow export of
    [src/lib/googlePlatform.js].

    Conventions of the embedding.
    - A JavaScript string is a list of characters ([str]); characters are
      the 8-bit [ascii] of the Standard Library, so the model covers
      Latin-1 text.
    - A JavaScript object is an insertion-ordered association list with
      update in place ([obj]); this is the enumeration order of
      [Object.keys] for property names that are not array indices.  Looking
      up a missing property gives [JUndefined]; prototype properties are
      not modelled.
    - A regular expression built with [new RegExp] from a goal name is
      modelled for names without regex metacharacters, where the name
      stands for itself.
    - Mutable state is passed explicitly. *)

From Stdlib Require Import Strings.String Strings.Ascii.
From Stdlib Require Import List Bool Arith ZArith QArith Lia Lqa Permutation.
Import ListNotations.

Local Open Scope nat_scope.
Local Open Scope list_scope.

(** ** Strings and characters *)

Definition str : Type := list ascii.

Definition lit (s : string) : str := list_ascii_of_string s.
Arguments lit : simpl never.

Definition code (c : ascii) : nat := nat_of_ascii c.

(** [[a-z]], [[A-Z]], [[0-9]], [[a-zA-Z]], and the word characters [\w]. *)
Definition is_lower (c : ascii) : bool := (97 <=? code c) && (code c <=? 122).
Definition is_upper (c : ascii) : bool := (65 <=? code c) && (code c <=? 90).
Definition is_digit (c : ascii) : bool := (48 <=? code c) && (code c <=? 57).
Definition is_alpha (c : ascii) : bool := is_upper c || is_lower c.
Definition is_word (c : ascii) : bool :=
  is_alpha c || is_digit c || Ascii.eqb c "_".

(** [\s] restricted to Latin-1: tab, line feed, vertical tab, form feed,
    carriage return, space and no-break space. *)
Definition is_space (c : ascii) : bool :=
  ((9 <=? code c) && (code c <=? 13)) || (code c =? 32) || (code c =? 160).

Fixpoint str_eqb (a b : str) : bool :=
  match a, b with
  | [], [] => true
  | x :: a', y :: b' => Ascii.eqb x y && str_eqb a' b'
  | _, _ => false
  end.

(** [s.toLowerCase()] on Latin-1 text: the capital letters are [A-Z] and
    the codes 192 to 222 but for the multiplication sign, 215; the small
    letter is 32 places further on. *)
Definition is_capital (c : ascii) : bool :=
  is_upper c
  || ((192 <=? code c) && (code c <=? 222) && negb (code c =? 215)).

Definition lower_char (c : ascii) : ascii :=
  if is_capital c then ascii_of_nat (code c + 32) else c.
Definition toLowerCase (s : str) : str := map lower_char s.

(** [t] is a prefix of [s]. *)
Fixpoint starts_with (t s : str) : bool :=
  match t, s with
  | [], _ => true
  | x :: t', y :: s' => Ascii.eqb x y && starts_with t' s'
  | _ :: _, [] => false
  end.

(** [s.indexOf(t)]: position of the first occurrence, if any. *)
Fixpoint indexOf (s t : str) : option nat :=
  if starts_with t s then Some 0
  else match s with
       | [] => None
       | _ :: s' => option_map S (indexOf s' t)
       end.

(** [s.substring(a)] and [s.substring(0, b)] for in-range arguments are
    [skipn a s] and [firstn b s]. *)

(** [s.split(sep)] for a one-character separator: never empty. *)
Fixpoint split (sep : ascii) (s : str) : list str :=
  match s with
  | [] => [[]]
  | c :: s' =>
      if Ascii.eqb c sep then [] :: split sep s'
      else match split sep s' with
           | w :: ws => (c :: w) :: ws
           | [] => [[c]]
           end
  end.

(** [arr.join(sep)] on an array of strings. *)
Fixpoint join (sep : str) (l : list str) : str :=
  match l with
  | [] => []
  | [x] => x
  | x :: l' => x ++ sep ++ join sep l'
  end.

(** All characters of a string satisfy a class; the [+] variants also ask
    for a non-empty string, as in [[a-z]+]. *)
Definition all_chars (p : ascii -> bool) (s : str) : bool := forallb p s.
Definition nonempty (s : str) : bool :=
  match s with [] => false | _ => true end.
Definition alpha_word (s : str) : bool := nonempty s && all_chars is_alpha s.
Definition lower_word (s : str) : bool := nonempty s && all_chars is_lower s.

(** ** JavaScript values and objects *)

Inductive jsval : Type :=
  | JUndefined
  | JBool (b : bool)
  | JStr (s : str).

(** Truthiness, as tested by [if (v)] and [!v]. *)
Definition truthy (v : jsval) : bool :=
  match v with
  | JUndefined => false
  | JBool b => b
  | JStr s => nonempty s
  end.

(** String coercion, as done by [+] with a string and by property keys. *)
Definition to_string (v : jsval) : str :=
  match v with
  | JUndefined => lit "undefined"
  | JBool true => lit "true"
  | JBool false => lit "false"
  | JStr s => s
  end.

Definition obj : Type := list (str * jsval).

Fixpoint obj_get (o : obj) (p : str) : jsval :=
  match o with
  | [] => JUndefined
  | (q, v) :: o' => if str_eqb q p then v else obj_get o' p
  end.

(** [o[p] = v]: an existing property keeps its place, a new one goes last. *)
Fixpoint obj_set (o : obj) (p : str) (v : jsval) : obj :=
  match o with
  | [] => [(p, v)]
  | (q, w) :: o' => if str_eqb q p then (q, v) :: o' else (q, w) :: obj_set o' p v
  end.

Definition obj_keys (o : obj) : list str := map fst o.

(** A table keyed by strings ([tbl[k]] and [tbl[k] = v]). *)
Fixpoint lookup {A : Type} (tbl : list (str * A)) (k : str) : option A :=
  match tbl with
  | [] => None
  | (q, v) :: tbl' => if str_eqb q k then Some v else lookup tbl' k
  end.

Fixpoint assign {A : Type} (tbl : list (str * A)) (k : str) (v : A)
  : list (str * A) :=
  match tbl with
  | [] => [(k, v)]
  | (q, w) :: tbl' =>
      if str_eqb q k then (q, v) :: tbl' else (q, w) :: assign tbl' k v
  end.

(** [arr.forEach((x, ndx) => ...)] threading the state the callback
    mutates. *)
Fixpoint forEachNdx {A St : Type} (f : St -> A -> nat -> St)
  (l : list A) (ndx : nat) (s : St) : St :=
  match l with
  | [] => s
  | x :: l' => forEachNdx f l' (S ndx) (f s x ndx)
  end.

(** ** Generic utilities *)

(** [topInArr]: the element [ndx] places from the end. *)
Definition topInArr {A : Type} (arr : list A) (ndx : Z) : option A :=
  if (length arr =? 0) || (Z.of_nat (length arr) <=? ndx)%Z then None
  else nth_error arr (Z.to_nat (Z.of_nat (length arr) - ndx - 1)).

Fixpoint set_nth {A : Type} (arr : list A) (i : nat) (x : A) : list A :=
  match arr, i with
  | [], _ => []
  | _ :: arr', O => x :: arr'
  | y :: arr', S i' => y :: set_nth arr' i' x
  end.

(** [updateArr]: [None] stands for the [false] the source returns without
    touching the array. *)
Definition updateArr {A : Type} (arr : list A) (ndx : Z) (newVal : A)
  : option (list A) :=
  if (length arr =? 0) || (ndx <? 0)%Z || (Z.of_nat (length arr) <=? ndx)%Z
  then None
  else Some (set_nth arr (Z.to_nat (Z.of_nat (length arr) - ndx - 1)) newVal).

(** ** Regular expressions

    The source uses a handful of fixed patterns.  Each is embedded as a
    [matcher]: given the character before the current position (none at the
    start of the input) and the remaining input, it yields the length of the
    match that the backtracking engine finds at this position, if any. *)

Definition matcher : Type := option ascii -> str -> option nat.

Definition opt_word (c : option ascii) : bool :=
  match c with
  | Some x => is_word x
  | None => false
  end.

(** [\b]: exactly one of the two neighbours is a word character. *)
Definition word_boundary (prev : option ascii) (rest : str) : bool :=
  xorb (opt_word prev) (opt_word (hd_error rest)).

(** The character before offset [e] of [s], where [prev] comes before [s]. *)
Definition char_before (prev : option ascii) (s : str) (e : nat) : option ascii :=
  match e with
  | 0 => prev
  | S e' => nth_error s e'
  end.

(** [regex.exec(s)] without the [g] flag: index and length of the leftmost
    match. *)
Fixpoint find_first (m : matcher) (prev : option ascii) (s : str)
  : option (nat * nat) :=
  match m prev s with
  | Some n => Some (0, n)
  | None =>
      match s with
      | [] => None
      | c :: s' =>
          match find_first m (Some c) s' with
          | Some (i, n) => Some (S i, n)
          | None => None
          end
      end
  end.

(** [s.replace(regex, repl)] without the [g] flag. *)
Definition replace_first (m : matcher) (repl : str) (s : str) : str :=
  match find_first m None s with
  | Some (i, n) => firstn i s ++ repl ++ skipn (i + n) s
  | None => s
  end.

(** [s.match(regex)] with the [g] flag, for a pattern that matches no empty
    string: the matched texts, left to right, without overlap.  [skip]
    counts the characters still covered by the last match. *)
Fixpoint match_all_from (m : matcher) (skip : nat) (prev : option ascii)
  (s : str) : list str :=
  match s with
  | [] => []
  | c :: s' =>
      match skip with
      | S k => match_all_from m k (Some c) s'
      | 0 =>
          match m prev s with
          | Some (S n) => firstn (S n) s :: match_all_from m n (Some c) s'
          | _ => match_all_from m 0 (Some c) s'
          end
      end
  end.

Definition match_all (m : matcher) (s : str) : list str :=
  match_all_from m 0 None s.

(** [s.replace(regex, repl)] with the [g] flag, for such a pattern. *)
Fixpoint replace_all_from (m : matcher) (repl : str) (skip : nat)
  (prev : option ascii) (s : str) : str :=
  match s with
  | [] => []
  | c :: s' =>
      match skip with
      | S k => replace_all_from m repl k (Some c) s'
      | 0 =>
          match m prev s with
          | Some (S n) => repl ++ replace_all_from m repl n (Some c) s'
          | _ => c :: replace_all_from m repl 0 (Some c) s'
          end
      end
  end.

Definition replace_all (m : matcher) (repl : str) (s : str) : str :=
  replace_all_from m repl 0 None s.

(** The greedy extent of [[class]*]. *)
Fixpoint run (p : ascii -> bool) (s : str) : nat :=
  match s with
  | c :: s' => if p c then S (run p s') else 0
  | [] => 0
  end.

(** Backtracking into a greedy [[class]*] before the literal [t]. *)
Fixpoint give_back_to (t : str) (s : str) (e : nat) : option nat :=
  if starts_with t (skipn e s) then Some e
  else match e with
       | 0 => None
       | S e' => give_back_to t s e'
       end.

(** A literal pattern. *)
Definition re_lit (t : str) : matcher :=
  fun _ s => if starts_with t s then Some (length t) else None.

(** [/\s&\s/] *)
Definition re_amp : matcher :=
  fun _ s => match s with
             | a :: b :: c :: _ =>
                 if is_space a && Ascii.eqb b "&" && is_space c then Some 3 else None
             | _ => None
             end.

(** [/[,?]/] *)
Definition re_punct : matcher :=
  fun _ s => match s with
             | c :: _ => if Ascii.eqb c "," || Ascii.eqb c "?" then Some 1 else None
             | [] => None
             end.

(** [/(\d+)/] *)
Definition re_digits : matcher :=
  fun _ s => match run is_digit s with
             | 0 => None
             | n => Some n
             end.

(** The class of [paramsRE]: letters, digits, white space and
    [_ , + - * / \ . ( ) ']. *)
Definition is_param_char (c : ascii) : bool :=
  is_alpha c || is_digit c || is_space c
  || existsb (Ascii.eqb c)
       ["_"; ","; "+"; "-"; "*"; "/"; "\"; "."; "("; ")"; "'"]%char.

(** [paramsRE]: two opening brackets, the class repeated, two closing
    brackets. *)
Definition re_params : matcher :=
  fun _ s =>
    if starts_with (lit "[[") s then
      let body := skipn 2 s in
      match give_back_to (lit "]]") body (run is_param_char body) with
      | Some e => Some (2 + e + 2)
      | None => None
      end
    else None.

(** [/\|[a-zA-Z]*}/] *)
Definition re_var : matcher :=
  fun _ s =>
    match s with
    | c :: body =>
        if Ascii.eqb c "|" then
          match give_back_to (lit "}") body (run is_alpha body) with
          | Some e => Some (1 + e + 1)
          | None => None
          end
        else None
    | [] => None
    end.

(** [/;$/] and [/^;/]. *)
Definition re_semi_end : matcher :=
  fun _ s => match s with
             | [c] => if Ascii.eqb c ";" then Some 1 else None
             | _ => None
             end.
Definition re_semi_start : matcher :=
  fun prev s => match prev, s with
                | None, c :: _ => if Ascii.eqb c ";" then Some 1 else None
                | _, _ => None
                end.

(** [\bNAME\b] *)
Definition re_word (name : str) : matcher :=
  fun prev s =>
    if word_boundary prev s && starts_with name s
       && word_boundary (char_before prev s (length name)) (skipn (length name) s)
    then Some (length name) else None.

(** The greedy extent of [(:[a-z]* )*]: a colon opens a group, lower-case
    letters extend an open group. *)
Fixpoint attr_run (opened : bool) (s : str) : nat :=
  match s with
  | [] => 0
  | c :: s' =>
      if Ascii.eqb c ":" then S (attr_run true s')
      else if opened && is_lower c then S (attr_run true s')
      else 0
  end.

(** Backtracking into [(:[a-z]* )*] before a [\b]: every prefix of the greedy
    extent is itself a sequence of groups, and the engine gives characters
    back one at a time until the boundary holds. *)
Fixpoint give_back (prev : option ascii) (s : str) (e : nat) : option nat :=
  if word_boundary (char_before prev s e) (skipn e s) then Some e
  else match e with
       | 0 => None
       | S e' => give_back prev s e'
       end.

(** [\bNAME(:[a-z]* )*\b] *)
Definition re_clear (name : str) : matcher :=
  fun prev s =>
    if word_boundary prev s && starts_with name s then
      let rest := skipn (length name) s in
      match give_back (char_before prev s (length name)) rest (attr_run false rest) with
      | Some e => Some (length name + e)
      | None => None
      end
    else None.

(** ** OutputMgr

    The fragments handed to [say], [prompt] and [ask] are the strings that
    [_pickAndInterpolate] returns; the random pick ([utils.getRand]) and
    the session store it interpolates from are not part of this file.  The
    counter [asked] is kept as an exact rational. *)

Module OutputMgr.

Definition dquote : ascii := ascii_of_nat 34.

Definition pauseStr : str :=
  lit " <break time=" ++ [dquote] ++ lit "500ms" ++ [dquote] ++ lit "/> ".

Record t : Type := mk {
    spokenRate : option str;
    asked : Q;
    sayQueue : list str;
    askQueue : list str;
    keepConversationRunning : bool;
    speaking : bool
  }.

Definition create : t :=
  mk None 0 [] [] true false.

Definition initialize (o : t) : t :=
  mk (spokenRate o) 0 [] [] true (speaking o).

Definition setSpeaking (o : t) : t :=
  mk (spokenRate o) (asked o) (sayQueue o) (askQueue o)
     (keepConversationRunning o) true.

Definition clearSpeaking (o : t) : t :=
  mk (spokenRate o) (asked o) (sayQueue o) (askQueue o)
     (keepConversationRunning o) false.

Definition isSpeaking (o : t) : bool := speaking o.

Definition say (o : t) (fragment : str) (quick : bool) : t :=
  let q := if (0 <? length (sayQueue o)) && negb quick
           then sayQueue o ++ [pauseStr] else sayQueue o in
  mk (spokenRate o) (asked o) (q ++ [fragment]) (askQueue o)
     (keepConversationRunning o) (speaking o).

Definition prompt (o : t) (fragment : str) : t :=
  mk (spokenRate o) (asked o + 0.34) (sayQueue o) (askQueue o ++ [fragment])
     (keepConversationRunning o) (speaking o).

Definition ask (o : t) (fragment : str) : t :=
  mk (spokenRate o) (asked o + 1) (sayQueue o) (askQueue o ++ [fragment])
     (keepConversationRunning o) (speaking o).

(** The first loop of [sendFromQueue], over the say queue. *)
Definition build_say (sayQ : list str) (outBuffer : str) : str :=
  fold_left
    (fun outBuffer s =>
       if length outBuffer =? 0 then s else outBuffer ++ lit " " ++ s)
    sayQ outBuffer.

(** The second loop, over the ask queue. *)
Definition build_ask (askQ : list str) (outBuffer : str) : str :=
  forEachNdx
    (fun outBuffer s ndx =>
       if length outBuffer =? 0 then s
       else if ndx =? 0 then outBuffer ++ pauseStr ++ s
       else if ndx =? length askQ - 1 then outBuffer ++ lit " or " ++ s
       else outBuffer ++ lit ", " ++ s)
    askQ 0 outBuffer.

Definition prosody (rate : str) (outBuffer : str) : str :=
  lit "<prosody rate=" ++ [dquote] ++ rate ++ [dquote] ++ lit ">"
  ++ outBuffer ++ lit "</prosody>".

(** What a flush does to the platform request. *)
Record sent : Type := mkSent {
    outBuffer : str;
    said : option str;
    shouldEndSession : option bool
  }.

Definition sendFromQueue (o : t) (potResponses : option str) : t * sent :=
  let sayQ := match potResponses with
              | Some fragment => if nonempty fragment then sayQueue o ++ [fragment]
                                 else sayQueue o
              | None => sayQueue o
              end in
  let buf := build_ask (askQueue o) (build_say sayQ []) in
  let buf := match spokenRate o with
             | Some rate => if nonempty rate then prosody rate buf else buf
             | None => buf
             end in
  let buf := replace_all re_amp (lit " and ") buf in
  (mk (spokenRate o) (asked o) sayQ (askQueue o)
      (keepConversationRunning o) (speaking o),
   mkSent buf
     (if nonempty buf then Some buf else None)
     (if keepConversationRunning o then Some false else None)).

End OutputMgr.

(** ** Output utilities and ScriptParser *)

Module ScriptParser.

Definition _interpolate (originalStr foundStr : str) (foundStrPos : nat)
  (replaceStr : str) : str :=
  firstn foundStrPos originalStr ++ replaceStr
  ++ skipn (foundStrPos + length foundStr) originalStr.

(** [regex.exec(s)]: index, matched text and first group, the group being
    cut out of the matched text by [group]. *)
Definition exec (m : matcher) (group : str -> str) (s : str)
  : option (nat * str * str) :=
  match find_first m None s with
  | Some (i, n) =>
      let m0 := firstn n (skipn i s) in Some (i, m0, group m0)
  | None => None
  end.

(** [_interpolateParamsFromStore]: the [while] loop replaces the leftmost
    match until none is left.  The store may keep state of its own;
    [None] means the fuel ran out first. *)
Fixpoint _interpolateParamsFromStore {St : Type} (fuel : nat)
  (varExtractionRE : str -> option (nat * str * str))
  (get : St -> str -> St * str) (store : St) (s : str) : option (St * str) :=
  match varExtractionRE s with
  | None => Some (store, s)
  | Some (index, m0, m1) =>
      match fuel with
      | 0 => None
      | S fuel' =>
          let (store', replaceStr) := get store m1 in
          _interpolateParamsFromStore fuel' varExtractionRE get store'
            (_interpolate s m0 index replaceStr)
      end
  end.

(** Mapping a function that may run out of fuel and threads a state. *)
Fixpoint map_state {St A B : Type} (f : St -> A -> option (St * B))
  (st : St) (l : list A) : option (St * list B) :=
  match l with
  | [] => Some (st, [])
  | x :: l' =>
      match f st x with
      | None => None
      | Some (st1, y) =>
          match map_state f st1 l' with
          | None => None
          | Some (st2, ys) => Some (st2, y :: ys)
          end
      end
  end.

Section Punctuation.

(** [utils.getNumAsStr], which spells a number out, is not part of this
    file. *)
Variable getNumAsStr : str -> str.

Definition forPunctuation (fuel : nat) (userSpeech : list str)
  : option (list str) :=
  let userSpeech := map (replace_all re_punct []) userSpeech in
  match map_state
          (fun (_ : unit) userSpeechItem =>
             _interpolateParamsFromStore fuel (exec re_digits (fun m0 => m0))
               (fun st num => (st, getNumAsStr num)) tt userSpeechItem)
          tt userSpeech with
  | Some (_, userSpeech) => Some userSpeech
  | None => None
  end.

End Punctuation.

(** A declared input type: a platform type name, or an object with a
    [type] and optional [values] or [sampleValues]. *)
Inductive keyType : Type :=
  | TypeName (typeName : str)
  | TypeObj (type : jsval) (values : option (list str))
      (sampleValues : option (list str)).

Definition keyTypes : Type := list (str * keyType).

(** [keyTypes[name]] as a condition, for a name that is not inherited:
    under [constructor] and the like a table without an entry of its own
    gives the inherited value, which counts as true. *)
Definition declared (kt : keyTypes) (name : str) : bool :=
  match lookup kt name with
  | Some (TypeName typeName) => nonempty typeName
  | Some (TypeObj _ _ _) => true
  | None => false
  end.

Fixpoint drop_space (s : str) : str :=
  match s with
  | c :: s' => if is_space c then drop_space s' else s
  | [] => []
  end.

(** [v.trim()] *)
Definition trim (s : str) : str := rev (drop_space (rev (drop_space s))).

(** The [get] of [literalSampleValuesStore]; it updates the table.  The
    trimmed values are written into the type object of the name, which is
    kept here as the entry of that name: an object that [addInputTypes]
    was given under two names is trimmed under both. *)
Definition literalSampleValues (kt : keyTypes) (inStr : str) : keyTypes * str :=
  match lookup kt inStr with
  | Some (TypeObj ty vals (Some sampleValues)) =>
      let trimmed := map trim sampleValues in
      (assign kt inStr (TypeObj ty vals (Some trimmed)),
       lit "{" ++ join (lit "|") trimmed ++ lit "|" ++ inStr ++ lit "}")
  | _ =>
      (if declared kt inStr then kt
       else assign kt inStr (TypeName (lit "AMAZON.LITERAL")),
       lit "{" ++ lit "-" ++ lit "|" ++ inStr ++ lit "}")
  end.

(** The first group of [paramsRE]: the match without its brackets. *)
Definition param_name (m0 : str) : str :=
  firstn (length m0 - 4) (skipn 2 m0).

Definition forSlots (fuel : nat) (kt : keyTypes) (userSpeech : list str)
  : option (keyTypes * list str) :=
  map_state
    (fun kt userSpeechItem =>
       _interpolateParamsFromStore fuel (exec re_params param_name)
         literalSampleValues kt userSpeechItem)
    kt userSpeech.

(** The body of the [for] loop of [forPhraseEquivalents] for one item:
    every push goes to the end of [userSpeech]. *)
Definition expand_item (phraseEquivalents : list (list str))
  (userSpeechItem : str) (userSpeech : list str) : list str :=
  fold_left
    (fun userSpeech equivSets =>
       forEachNdx
         (fun userSpeech phrase phraseNdx =>
            match indexOf (toLowerCase userSpeechItem) (toLowerCase phrase) with
            | None => userSpeech
            | Some phrasePos =>
                forEachNdx
                  (fun userSpeech phraseToInclude phraseToIncludeNdx =>
                     if phraseToIncludeNdx =? phraseNdx then userSpeech
                     else userSpeech
                          ++ [_interpolate userSpeechItem phrase phrasePos
                                phraseToInclude])
                  equivSets 0 userSpeech
            end)
         equivSets 0 userSpeech)
    phraseEquivalents userSpeech.

(** [for (ndx = ...; ndx < max; ndx++)] with [todo] iterations left. *)
Fixpoint expand_from (phraseEquivalents : list (list str)) (todo ndx : nat)
  (userSpeech : list str) : list str :=
  match todo with
  | 0 => userSpeech
  | S todo' =>
      match nth_error userSpeech ndx with
      | Some userSpeechItem =>
          expand_from phraseEquivalents todo' (S ndx)
            (expand_item phraseEquivalents userSpeechItem userSpeech)
      | None => userSpeech
      end
  end.

Definition forPhraseEquivalents (phraseEquivalents : list (list str))
  (userSpeech : list str) : list str :=
  expand_from phraseEquivalents (length userSpeech) 0 userSpeech.

(** What [expectedParams[ev]] ends up holding. *)
Definition param_type (k : keyType) : jsval :=
  match k with
  | TypeName typeName => JStr typeName
  | TypeObj ty _ _ => ty
  end.

Definition extractParamsFromSpeech (kt : keyTypes) (userSpeech : list str)
  : obj :=
  fold_left
    (fun expectedParams speechStr =>
       fold_left
         (fun expectedParams extractedVar =>
            let ev := removelast (tl extractedVar) in
            if length ev =? 0 then expectedParams
            else if declared kt ev then
              match lookup kt ev with
              | Some k => obj_set expectedParams ev (param_type k)
              | None => expectedParams
              end
            else expectedParams)
         (match_all re_var speechStr) expectedParams)
    userSpeech [].

Section Pipeline.

Variable getNumAsStr : str -> str.

(** The parsing steps of [_registerIntentDef]: the table as slot rewriting
    leaves it, the utterances and the slots handed to the platforms. *)
Definition registerIntentDef_params (fuel : nat) (kt : keyTypes)
  (phraseEquivalents : list (list str)) (userSpeech : list str)
  : option (keyTypes * list str * obj) :=
  match forPunctuation getNumAsStr fuel userSpeech with
  | None => None
  | Some userSpeech =>
      match forSlots fuel kt userSpeech with
      | None => None
      | Some (kt, userSpeech) =>
          let userSpeech := forPhraseEquivalents phraseEquivalents userSpeech in
          Some (kt, userSpeech, extractParamsFromSpeech kt userSpeech)
      end
  end.

End Pipeline.

End ScriptParser.

(** ** ShortJSON *)

Module ShortJSON.

Definition sjnToArr (s : str) : list str :=
  match s with
  | [] => []
  | _ => split ";" s
  end.

(** [join] turns an [undefined] element into the empty string and
    coerces the others. *)
Definition join_elem (v : jsval) : str :=
  match v with
  | JUndefined => []
  | _ => to_string v
  end.

Definition arrToSJN (arr : list jsval) : str :=
  join (lit ";") (map join_elem arr).

Definition arrToArrObj_item (arrItem : str) : obj :=
  forEachNdx
    (fun arrObj arrObjProp ndx =>
       if ndx =? 0 then obj_set arrObj (lit "key") (JStr arrObjProp)
       else obj_set arrObj arrObjProp (JBool true))
    (split ":" arrItem) 0 [].

Definition arrToArrObj (arr : list str) : list obj :=
  map arrToArrObj_item arr.

Definition arrObjToArr_item (arrObjItem : obj) : jsval :=
  fold_left
    (fun arrItem arrObjProp =>
       if str_eqb arrObjProp (lit "key") then arrItem
       else if truthy (obj_get arrObjItem arrObjProp)
            then JStr (to_string arrItem ++ lit ":" ++ arrObjProp)
            else arrItem)
    (obj_keys arrObjItem)
    (obj_get arrObjItem (lit "key")).

Definition arrObjToArr (arrObj : list obj) : list jsval :=
  map arrObjToArr_item arrObj.

Definition arrToArrObjKey (arr : list str) : list jsval :=
  map (fun i => obj_get i (lit "key")) (arrToArrObj arr).

Definition arrPush (arr : str) (s : str) : str :=
  match arr with
  | [] => s
  | _ => arr ++ lit ";" ++ s
  end.

(** [str] is spliced into the pattern; see the conventions above. *)
Definition inSJN (sjnArr : str) (s : str) : bool :=
  match find_first (re_word s) None sjnArr with
  | Some _ => true
  | None => false
  end.

Definition clearInSJN (sjnArr : str) (s : str) : str :=
  replace_first re_semi_start []
    (replace_first re_semi_end []
       (replace_first (re_lit (lit ";;")) (lit ";")
          (replace_first (re_clear s) [] sjnArr))).

End ShortJSON.

(** ** ConversationEngine: the goal stack in the session

    The session slot [convoGoalState] holds the encoded stack; an unset
    slot and the empty string behave alike everywhere, so the slot is a
    string.  [goalStateChanged] is the field of the per-turn [Response]
    that the goal loop reads. *)

Module ConversationEngine.

Record turn : Type := mkTurn {
    outputMgr : OutputMgr.t;
    convoGoalState : str;
    goalStateChanged : bool
  }.

Definition set_goals (t : turn) (s : str) : turn :=
  mkTurn (outputMgr t) s (goalStateChanged t).

Definition set_output (t : turn) (o : OutputMgr.t) : turn :=
  mkTurn o (convoGoalState t) (goalStateChanged t).

Definition set_changed (t : turn) (b : bool) : turn :=
  mkTurn (outputMgr t) (convoGoalState t) b.

Definition _getGoalsRaw (t : turn) : str := convoGoalState t.

Definition getGoalNames (t : turn) : list jsval :=
  ShortJSON.arrToArrObjKey (ShortJSON.sjnToArr (_getGoalsRaw t)).

Definition getGoalStates (t : turn) : list obj :=
  ShortJSON.arrToArrObj (ShortJSON.sjnToArr (_getGoalsRaw t)).

Definition setGoalStates (t : turn) (goalObjsArr : list obj) : turn :=
  set_goals t (ShortJSON.arrToSJN (ShortJSON.arrObjToArr goalObjsArr)).

Definition appendGoal (t : turn) (goalName : str) : turn :=
  set_goals t (ShortJSON.arrPush (_getGoalsRaw t) goalName).

(** [goalName] is whatever a frame's [key] holds; it is spliced into the
    pattern as a string. *)
Definition clearGoal (t : turn) (goalName : jsval) : turn :=
  if negb (truthy goalName) then t
  else
    let curGoals := _getGoalsRaw t in
    let updatedGoals := ShortJSON.clearInSJN curGoals (to_string goalName) in
    if length curGoals =? length updatedGoals then t
    else set_goals t updatedGoals.

Definition hasGoal (t : turn) (goalName : str) : bool :=
  ShortJSON.inSJN (_getGoalsRaw t) goalName.

(** The alert raised when nothing is being spoken belongs to a plug-in and
    leaves the turn alone. *)
Definition addGoal (t : turn) (goalName : str) : turn :=
  appendGoal t goalName.

Definition clearAllGoals (t : turn) : turn := setGoalStates t [].

Definition mostRecentGoalStates (t : turn) (goalNdx : Z) : option obj :=
  topInArr (getGoalStates t) goalNdx.

Definition updateMostRecentGoalStates (t : turn) (goalNdx : Z)
  (goalWithState : obj) : turn :=
  match updateArr (getGoalStates t) goalNdx goalWithState with
  | Some goals => setGoalStates t goals
  | None => t
  end.

End ConversationEngine.

(** ** Author callbacks

    A resolver is author code.  It looks at the turn, acts on it and
    returns a plain value. *)

Module Callback.
Import ConversationEngine.

Inductive result : Type :=
  | RUndefined
  | RNull
  | RBool (b : bool)
  | RNum (n : Z).

(** Modelled from the spec: the [Response] facade handed to a callback
    ([response.js]) is not among the sources.  Per the spec its [say],
    [prompt] and [ask] route to the OutputManager, its [addGoal] and
    [clearGoal] manage the stack, and setting [goalStateChanged] resets the
    loop cursor, so that what a resolver pushed or removed is seen in the
    next round.  An [action] is one such call; [perform] runs the method of
    this file it routes to and, for a call that manages the stack, sets
    [goalStateChanged], whether the stack has changed or not. *)
Inductive action : Type :=
  | Say (fragment : str) (quick : bool)
  | Prompt (fragment : str)
  | Ask (fragment : str)
  | AddGoal (goalName : str)
  | ClearGoal (goalName : str)
  | ClearAllGoals
  | MarkGoalStateChanged.

Definition resolver : Type := turn -> list action * result.

Definition perform (t : turn) (a : action) : turn :=
  match a with
  | Say fragment quick => set_output t (OutputMgr.say (outputMgr t) fragment quick)
  | Prompt fragment => set_output t (OutputMgr.prompt (outputMgr t) fragment)
  | Ask fragment => set_output t (OutputMgr.ask (outputMgr t) fragment)
  | AddGoal goalName => set_changed (addGoal t goalName) true
  | ClearGoal goalName => set_changed (clearGoal t (JStr goalName)) true
  | ClearAllGoals => set_changed (clearAllGoals t) true
  | MarkGoalStateChanged => set_changed t true
  end.

(** Calling [resolveCB(response)]. *)
Definition call (cb : resolver) (t : turn) : turn * result :=
  (fold_left perform (fst (cb t)) t, snd (cb t)).

End Callback.

(** ** InputMgr *)

Module InputMgr.
Import ConversationEngine Callback.

(** A goal definition as the loop reads it: [prompt] and [ask] hold the
    fragment that reaches the output queue, and are [None] when the
    definition has no such (truthy) property. *)
Record goalDef : Type := mkGoal {
    resolve : option resolver;
    prompt : option str;
    ask : option str
  }.

Definition registeredGoals : Type := list (str * goalDef).

(** [result==true || result==undefined] *)
Definition succeeded (r : result) : bool :=
  match r with
  | RUndefined | RNull => true
  | RBool b => b
  | RNum n => (n =? 1)%Z
  end.

Definition removeGoal (t : turn) (goalName : jsval) : turn := clearGoal t goalName.

Definition resolveGoal (resolveCB : resolver) (goalNameToResolve : jsval)
  (t : turn) : turn :=
  let (t1, r) := call resolveCB t in
  if succeeded r then removeGoal t1 goalNameToResolve else t1.

Definition goalDefQueryable (goalDef : goalDef) : bool :=
  match prompt goalDef, ask goalDef with
  | None, None => false
  | _, _ => true
  end.

(** The variables of [_followGoals] that the loop closes over.  Frames are
    decoded afresh on every access, so a frame is known by the allocation it
    came from: [allocated] counts them and [lastGoalWithState] remembers
    one. *)
Record loop : Type := mkLoop {
    tn : turn;
    moreGoalsToSeek : bool;
    lastGoalWithState : option nat;
    goalNdx : Z;
    allocated : nat
  }.

Definition same_object (a : nat) (b : option nat) : bool :=
  match b with
  | Some r => a =? r
  | None => false
  end.

Definition loop_cond (l : loop) : bool :=
  match Qlt_le_dec (OutputMgr.asked (outputMgr (tn l))) 1 with
  | left _ => moreGoalsToSeek l
  | right _ => false
  end.

Definition loop_body (goals : registeredGoals) (l : loop) : loop :=
  let t := if goalStateChanged (tn l) then set_changed (tn l) false else tn l in
  let ndx := ((if goalStateChanged (tn l) then -1 else goalNdx l) + 1)%Z in
  let ref := allocated l in
  let last := lastGoalWithState l in
  match mostRecentGoalStates t ndx with
  | None => mkLoop t false last ndx (S ref)
  | Some goalWithState =>
      if same_object ref last then mkLoop t false last ndx (S ref)
      else
        let key := obj_get goalWithState (lit "key") in
        match lookup goals (to_string key) with
        | None => mkLoop t false (Some ref) ndx (S ref)
        | Some tgtGoalDef =>
            let t' :=
              match resolve tgtGoalDef with
              | Some cb => resolveGoal cb key t
              | None =>
                  if goalDefQueryable tgtGoalDef then
                    if truthy (obj_get goalWithState (lit "queried")) then t
                    else
                      let t1 :=
                        match prompt tgtGoalDef, ask tgtGoalDef with
                        | Some f, _ => set_output t (OutputMgr.prompt (outputMgr t) f)
                        | None, Some f => set_output t (OutputMgr.ask (outputMgr t) f)
                        | None, None => t
                        end in
                      updateMostRecentGoalStates t1 ndx
                        (obj_set goalWithState (lit "queried") (JBool true))
                  else t
              end in
            mkLoop t' true (Some ref) ndx (S ref)
        end
  end.

(** Modelled from the spec: [utils.promiseWhile] is not among the sources;
    the spec's goal loop reads [while asked < 1: ...], a loop that runs its
    body for as long as the condition holds.  The result carries the number
    of iterations; [None] means the fuel ran out first. *)
Fixpoint promiseWhile {St : Type} (fuel : nat) (cond : St -> bool)
  (body : St -> St) (s : St) : option (St * nat) :=
  if cond s then
    match fuel with
    | 0 => None
    | S fuel' =>
        match promiseWhile fuel' cond body (body s) with
        | Some (s', n) => Some (s', S n)
        | None => None
        end
    end
  else Some (s, 0).

Definition loop_start (t : turn) : loop := mkLoop t true None (-1) 0.

Definition _followGoals (fuel : nat) (goals : registeredGoals) (t : turn)
  (goalName : jsval) (intentResolveCB : option resolver) : option (loop * nat) :=
  let t0 := match intentResolveCB with
            | Some cb => resolveGoal cb goalName t
            | None => t
            end in
  promiseWhile fuel loop_cond (loop_body goals) (loop_start t0).

(** The [Response] is built anew, so its [goalStateChanged] starts unset;
    the session, and with it the stack, is the one of the request. *)
Definition _processIntent (fuel : nat) (goals : registeredGoals) (t : turn)
  (goalName : jsval) (intentResolveCB : option resolver)
  : option (turn * OutputMgr.sent) :=
  let t := mkTurn (OutputMgr.initialize (OutputMgr.setSpeaking (outputMgr t)))
             (convoGoalState t) false in
  match _followGoals fuel goals t goalName intentResolveCB with
  | None => None
  | Some (l, _) =>
      let (o, out) := OutputMgr.sendFromQueue (outputMgr (tn l)) None in
      Some (set_output (tn l) (OutputMgr.clearSpeaking (OutputMgr.initialize o)), out)
  end.

(** An intent definition as the dispatch reads it. *)
Record intentDef : Type := mkIntent {
    name : option str;
    goal : option str;
    intent_resolve : resolver
  }.

(** [intentDef.goal && intentDef.goal == currentGoalState.key], on a goal
    name and a key that are strings; a key that is not a string (a frame
    that carries a flag called key) matches nothing here. *)
Definition goal_matches (d : intentDef) (currentGoalState : obj) : bool :=
  match goal d, obj_get currentGoalState (lit "key") with
  | Some g, JStr k => nonempty g && str_eqb g k
  | _, _ => false
  end.

(** The inner [for] loop: the first definition scoped to this frame. *)
Fixpoint first_scoped (intentDefArr : list intentDef) (currentGoalState : obj)
  : option intentDef :=
  match intentDefArr with
  | [] => None
  | d :: rest =>
      if goal_matches d currentGoalState then Some d
      else first_scoped rest currentGoalState
  end.

(** The outer [while (true)] loop from depth [ndx] on; [fuel] bounds the
    depths visited. *)
Fixpoint walk_goals (fuel : nat) (t : turn) (intentDefArr : list intentDef)
  (ndx : Z) : option (option intentDef) :=
  match fuel with
  | 0 => None
  | S fuel' =>
      match mostRecentGoalStates t ndx with
      | None => Some None
      | Some currentGoalState =>
          match first_scoped intentDefArr currentGoalState with
          | Some d => Some (Some d)
          | None => walk_goals fuel' t intentDefArr (ndx + 1)%Z
          end
      end
  end.

(** The choice made by [processAllIntents]: the definition handed to
    [_processIntent] and whether the warning was logged.  Reading
    [intentDefArr[0]] of an empty array throws; that is [None].  The turn
    is the one with the request slots already copied into the session. *)
Definition select_intent (t : turn) (intentDefArr : list intentDef)
  : option (intentDef * bool) :=
  match intentDefArr with
  | [d] => Some (d, false)
  | _ =>
      match walk_goals (S (length (getGoalStates t))) t intentDefArr 0 with
      | Some (Some d) => Some (d, false)
      | Some None =>
          match intentDefArr with
          | d :: _ => Some (d, true)
          | [] => None
          end
      | None => None
      end
  end.

Definition processAllIntents (fuel : nat) (goals : registeredGoals) (t : turn)
  (intentDefArr : list intentDef) : option (turn * OutputMgr.sent) :=
  match select_intent t intentDefArr with
  | Some (d, _) =>
      _processIntent fuel goals t
        (match goal d with Some g => JStr g | None => JUndefined end)
        (Some (intent_resolve d))
  | None => None
  end.

End InputMgr.

(** ** Registration utilities

    The counter [_registeredIntents] is a variable of the module; it is
    passed in and handed back. *)

Module Naming.

Definition validChars : str := lit "ABCDEFGHIJKLMNOPQRSTUVWXYZ".

(** The digits of [n] in base [radix], most significant first; [fuel]
    bounds their number. *)
Fixpoint digits (radix fuel n : nat) : list nat :=
  match fuel with
  | 0 => [n]
  | S fuel' =>
      if n <? radix then [n]
      else digits radix fuel' (n / radix) ++ [n mod radix]
  end.

(** The character that [toString] writes for a digit: [0-9], then
    [a-z]. *)
Definition digit_char (d : nat) : ascii :=
  ascii_of_nat (if d <? 10 then 48 + d else 87 + d).

(** [n.toString(radix)] for a natural number [n]. *)
Definition toString_radix (n radix : nat) : str :=
  map digit_char (digits radix n n).

(** [parseInt(c, radix)] for a string [c] of one character; [None] is
    [NaN]. *)
Definition parseInt_char (c : ascii) (radix : nat) : option nat :=
  let value := if is_digit c then Some (code c - 48)
               else if is_lower c then Some (code c - 87)
               else if is_upper c then Some (code c - 55)
               else None in
  match value with
  | Some d => if d <? radix then Some d else None
  | None => None
  end.

(** [s.charAt(pos)]: [NaN] counts as position 0, and a position past the
    end gives the empty string. *)
Definition charAt (s : str) (pos : option nat) : str :=
  match nth_error s (match pos with Some i => i | None => 0 end) with
  | Some c => [c]
  | None => []
  end.

Definition _getAlphabeticStr (_registeredIntents : nat) : str * nat :=
  let indices := toString_radix _registeredIntents (length validChars) in
  (fold_left
     (fun retStr c =>
        retStr ++ charAt validChars (parseInt_char c (length validChars)))
     indices (lit "Intent"),
   S _registeredIntents).

Definition _genIntentName : nat -> str * nat := _getAlphabeticStr.

End Naming.

(** ** ConversationEngine: the conversational object model

    The tables that a script fills through [respondTo], [defineGoal],
    [addInputTypes] and [addPhraseEquivalents], and that [registerIntents]
    reads.  An intent definition is kept as the dispatch reads it
    ([InputMgr.intentDef]) beside what it is [expecting]; a goal definition
    as the goal loop reads it ([InputMgr.goalDef]). *)

Module Convo.

(** What [expecting] may hold: one utterance or an array of them. *)
Inductive expectingArg : Type :=
  | One (userSpeechItem : str)
  | Several (userSpeech : list str).

Record intentObj : Type := mkIntentObj {
    expecting : expectingArg;
    def : InputMgr.intentDef
  }.

(** A goal object; [respondsTo] is its property [respondTo], an array
    that is empty where the property is missing. *)
Record goalObj : Type := mkGoalObj {
    goal : str;
    goalDef : InputMgr.goalDef;
    respondsTo : list intentObj
  }.

Record t : Type := mk {
    phraseEquivalents : list (list str);
    keyTypes : ScriptParser.keyTypes;
    registeredGoals : InputMgr.registeredGoals;
    userSpeechDef : list (str * list InputMgr.intentDef);
    allIntents : list (list str)
  }.

(** The tables as the constructor leaves them. *)
Definition create : t := mk [] [] [] [] [].

(** [if (!Array.isArray(intentDef.expecting)) intentDef.expecting =
    [intentDef.expecting]] *)
Definition as_array (e : expectingArg) : list str :=
  match e with
  | One userSpeechItem => [userSpeechItem]
  | Several userSpeech => userSpeech
  end.

(** The [forEach] of [respondTo] over the utterances of one definition. *)
Definition index_speech (intentDef : InputMgr.intentDef)
  (userSpeechDef : list (str * list InputMgr.intentDef)) (userSpeech : list str)
  : list (str * list InputMgr.intentDef) :=
  fold_left
    (fun userSpeechDef userSpeechItem =>
       match lookup userSpeechDef userSpeechItem with
       | Some defs => assign userSpeechDef userSpeechItem (defs ++ [intentDef])
       | None => assign userSpeechDef userSpeechItem [intentDef]
       end)
    userSpeech userSpeechDef.

(** [respondTo] called with an intent definition as its one argument. *)
Definition respondTo (c : t) (intentDef : intentObj) : t :=
  let userSpeech := as_array (expecting intentDef) in
  mk (phraseEquivalents c) (keyTypes c) (registeredGoals c)
     (index_speech (def intentDef) (userSpeechDef c) userSpeech)
     (allIntents c ++ [userSpeech]).

(** [intentDef.goal = goalObj.goal].  The goal is written into the object
    that [defineGoal] was handed, and that object is indexed; it is kept
    here as a definition of its own, which is what the tables hold when no
    other declaration is handed the same object. *)
Definition scoped_to (goalName : str) (intentDef : intentObj) : intentObj :=
  mkIntentObj (expecting intentDef)
    (InputMgr.mkIntent (InputMgr.name (def intentDef)) (Some goalName)
       (InputMgr.intent_resolve (def intentDef))).

Definition defineGoal (c : t) (goalObj : goalObj) : t :=
  let c := mk (phraseEquivalents c) (keyTypes c)
              (assign (registeredGoals c) (goal goalObj) (goalDef goalObj))
              (userSpeechDef c) (allIntents c) in
  fold_left (fun c intentDef => respondTo c (scoped_to (goal goalObj) intentDef))
    (respondsTo goalObj) c.

Definition addInputTypes (c : t) (_keyTypes : ScriptParser.keyTypes) : t :=
  mk (phraseEquivalents c)
     (fold_left (fun keyTypes entry => assign keyTypes (fst entry) (snd entry))
        _keyTypes (keyTypes c))
     (registeredGoals c) (userSpeechDef c) (allIntents c).

Definition addPhraseEquivalents (c : t) (_phraseEquivalents : list (list str))
  : t :=
  mk (phraseEquivalents c ++ map (map toLowerCase) _phraseEquivalents)
     (keyTypes c) (registeredGoals c) (userSpeechDef c) (allIntents c).

(** One call of [platforms.regIntent], without the handler: the handler
    hands the request to [processAllIntents] with the [intentDefArr] kept
    here. *)
Record regIntent : Type := mkRegIntent {
    idName : str;
    utterances : list str;
    slots : option obj;
    intentDefArr : list InputMgr.intentDef
  }.

(** What registering goes through: the table of input types, the counter
    of generated names and the calls made to the platforms. *)
Record registrar : Type := mkRegistrar {
    types : ScriptParser.keyTypes;
    _registeredIntents : nat;
    regIntents : list regIntent
  }.

(** The first name that is not [undefined] among the definitions. *)
Fixpoint first_name (intentDefArr : list InputMgr.intentDef) : option str :=
  match intentDefArr with
  | [] => None
  | d :: rest =>
      match InputMgr.name d with
      | Some idName => Some idName
      | None => first_name rest
      end
  end.

Section Registering.

Variable getNumAsStr : str -> str.
Variable fuel : nat.

(** [None] when the parser runs out of fuel. *)
Definition _registerIntentDef (phraseEquivalents : list (list str))
  (r : registrar) (userSpeech : list str)
  (intentDefArr : list InputMgr.intentDef) : option registrar :=
  match ScriptParser.registerIntentDef_params getNumAsStr fuel (types r)
          phraseEquivalents userSpeech with
  | None => None
  | Some (keyTypes, userSpeech, expectedParams) =>
      let slots := if 0 <? length (obj_keys expectedParams)
                   then Some expectedParams else None in
      let (idName, counter) :=
        match first_name intentDefArr with
        | Some idName => (idName, _registeredIntents r)
        | None => Naming._genIntentName (_registeredIntents r)
        end in
      Some (mkRegistrar keyTypes counter
              (regIntents r ++ [mkRegIntent idName userSpeech slots intentDefArr]))
  end.

End Registering.

(** The [forEach] of the first pass over the utterances of one intent: the
    utterances that one definition only is indexed under, and the
    definitions of the last of them.  Reading the [length] of a missing
    entry throws; that is [None]. *)
Fixpoint unique_speech (userSpeechDef : list (str * list InputMgr.intentDef))
  (intentsUserSpeech : list str)
  (userSpeech : list str) (intentDefArr : list InputMgr.intentDef)
  : option (list str * list InputMgr.intentDef) :=
  match intentsUserSpeech with
  | [] => Some (userSpeech, intentDefArr)
  | userSpeechItem :: rest =>
      match lookup userSpeechDef userSpeechItem with
      | None => None
      | Some defs =>
          if length defs =? 1
          then unique_speech userSpeechDef rest (userSpeech ++ [userSpeechItem]) defs
          else unique_speech userSpeechDef rest userSpeech intentDefArr
      end
  end.

(** The calls of [_registerIntentDef] that the first pass makes. *)
Fixpoint first_pass (userSpeechDef : list (str * list InputMgr.intentDef))
  (allIntents : list (list str))
  : option (list (list str * list InputMgr.intentDef)) :=
  match allIntents with
  | [] => Some []
  | intentsUserSpeech :: rest =>
      match unique_speech userSpeechDef intentsUserSpeech [] [] with
      | None => None
      | Some (userSpeech, intentDefArr) =>
          match first_pass userSpeechDef rest with
          | None => None
          | Some calls =>
              Some (if 0 <? length userSpeech
                    then (userSpeech, intentDefArr) :: calls else calls)
          end
      end
  end.

(** The calls that the second pass makes, for the global intents. *)
Definition second_pass (userSpeechDef : list (str * list InputMgr.intentDef))
  : list (list str * list InputMgr.intentDef) :=
  flat_map
    (fun entry =>
       if length (snd entry) =? 1 then [] else [([fst entry], snd entry)])
    userSpeechDef.

(** The calls of [platforms.regCustomSlot]. *)
Definition custom_slots (keyTypes : ScriptParser.keyTypes)
  : list (jsval * list str) :=
  flat_map
    (fun entry =>
       match snd entry with
       | ScriptParser.TypeObj type (Some values) _ => [(type, values)]
       | _ => []
       end)
    keyTypes.

Section RegisteringAll.

Variable getNumAsStr : str -> str.
Variable fuel : nat.

Fixpoint register_calls (phraseEquivalents : list (list str))
  (calls : list (list str * list InputMgr.intentDef)) (r : registrar)
  : option registrar :=
  match calls with
  | [] => Some r
  | (userSpeech, intentDefArr) :: rest =>
      match _registerIntentDef getNumAsStr fuel phraseEquivalents r userSpeech
              intentDefArr with
      | None => None
      | Some r' => register_calls phraseEquivalents rest r'
      end
  end.

(** [_registerIntents] on the tables of [_getIntentsDef], with the counter
    of generated names as it stands: the calls to [regIntent] in order, the
    counter afterwards and the custom slots registered at the end. *)
Definition _registerIntents (c : t) (counter : nat)
  : option (registrar * list (jsval * list str)) :=
  match first_pass (userSpeechDef c) (allIntents c) with
  | None => None
  | Some calls =>
      match register_calls (phraseEquivalents c)
              (calls ++ second_pass (userSpeechDef c))
              (mkRegistrar (keyTypes c) counter []) with
      | None => None
      | Some r => Some (r, custom_slots (types r))
      end
  end.

End RegisteringAll.

End Convo.

(** Frames in the shape the spec gives them: an own [key] holding a word of
    [[A-Za-z]+], every other property a flag named by a word of [[a-z]+]
    and set to [true]. *)
Fixpoint nodupb (l : list str) : bool :=
  match l with
  | [] => true
  | x :: l' => negb (existsb (str_eqb x) l') && nodupb l'
  end.

Definition is_key (p : str) : bool := str_eqb p (lit "key").

Definition frame_ok (o : obj) : bool :=
  nodupb (obj_keys o)
  && match obj_get o (lit "key") with
     | JStr k => alpha_word k
     | _ => false
     end
  && forallb (fun pv => is_key (fst pv)
                        || (lower_word (fst pv)
                            && match snd pv with JBool true => true | _ => false end)) o.

(** The frame lists its [key] first, as every decoded frame does. *)
Definition key_first (o : obj) : bool :=
  match o with
  | (p, _) :: _ => is_key p
  | [] => false
  end.

(** The flag names of a frame, in enumeration order. *)
Definition flag_names (o : obj) : list str :=
  filter (fun p => negb (is_key p)) (obj_keys o).

Definition flag_entry (f : str) : str * jsval := (f, JBool true).

(** The text of a frame: its key, then [:flag] for each flag. *)
Definition frame_text (k : str) (fs : list str) : str := join (lit ":") (k :: fs).

(** The text of a well-formed frame list: one [frame_text] per frame. *)
Definition frame_key (o : obj) : str := to_string (obj_get o (lit "key")).

Definition frames_text (L : list obj) : list str :=
  map (fun o => frame_text (frame_key o) (flag_names o)) L.

(** A stack of three frames, one queried with its flag enumerated before
    its key. *)
Definition sample_frames : list obj :=
  [ [(lit "key", JStr (lit "checkIn"))];
    [(lit "queried", JBool true); (lit "key", JStr (lit "bloodSugar"))];
    [(lit "key", JStr (lit "feetWounds")); (lit "queried", JBool true)] ].

(** The fragments of the ask queue after the first, as the spec words it:
    each preceded by a comma, the last by [or]. *)
Fixpoint ask_tail (qs : list str) : str :=
  match qs with
  | [] => []
  | [q] => lit " or " ++ q
  | q :: qs' => lit ", " ++ q ++ ask_tail qs'
  end.

(** The utterances one item gives rise to, as the spec words the expansion:
    for each equivalent set, for each phrase of the set found in the item,
    the item with each other phrase of the set put in its place. *)
Fixpoint alternatives (item phrase : str) (pos phraseNdx : nat)
  (set : list str) (ndx : nat) : list str :=
  match set with
  | [] => []
  | p :: set' =>
      (if ndx =? phraseNdx then []
       else [ScriptParser._interpolate item phrase pos p])
      ++ alternatives item phrase pos phraseNdx set' (S ndx)
  end.

Fixpoint per_phrase (item : str) (set phrases : list str) (ndx : nat)
  : list str :=
  match phrases with
  | [] => []
  | phrase :: rest =>
      match indexOf (toLowerCase item) (toLowerCase phrase) with
      | None => []
      | Some pos => alternatives item phrase pos ndx set 0
      end
      ++ per_phrase item set rest (S ndx)
  end.

Definition expansions (phraseEquivalents : list (list str)) (item : str)
  : list str :=
  flat_map (fun set => per_phrase item set set 0) phraseEquivalents.

(** The walk of [processAllIntents] as the spec words it, over the frames
    from the top of the stack down: the first frame that some definition is
    scoped to decides, and for that frame the first such definition. *)
Fixpoint walk_spec (intentDefArr : list InputMgr.intentDef)
  (topDown : list obj) : option InputMgr.intentDef :=
  match topDown with
  | [] => None
  | frame :: below =>
      match InputMgr.first_scoped intentDefArr frame with
      | Some d => Some d
      | None => walk_spec intentDefArr below
      end
  end.

(** ** Vocabulary for the goal loop *)

(** Occurrences of a character. *)
Definition countc (c : ascii) (s : str) : nat :=
  length (filter (Ascii.eqb c) s).

(** [r] is no longer than [s] and has no more semicolons. *)
Definition shrinks (r s : str) : Prop :=
  length r <= length s /\ countc ";" r <= countc ";" s.

Definition no_semi (s : str) : Prop := ~ In ";"%char s.


(** The counter of the turn. *)
Definition asked_of (t : ConversationEngine.turn) : Q :=
  OutputMgr.asked (ConversationEngine.outputMgr t).

(** The number of frames on the stack. *)
Definition frames_of (t : ConversationEngine.turn) : nat :=
  length (ConversationEngine.getGoalStates t).

(** The closed-over variables after [n] rounds of "test the condition, run
    the body". *)
Fixpoint loop_after (goals : InputMgr.registeredGoals) (n : nat)
  (l : InputMgr.loop) : InputMgr.loop :=
  match n with
  | 0 => l
  | S n' =>
      if InputMgr.loop_cond l
      then loop_after goals n' (InputMgr.loop_body goals l)
      else l
  end.

(** A resolver that asks at most one question's worth per call. *)
Definition modest (cb : Callback.resolver) : Prop :=
  forall t, (asked_of (fst (Callback.call cb t)) <= asked_of t + 1)%Q.



Definition all_resolvers (P : Callback.resolver -> Prop)
  (goals : InputMgr.registeredGoals) : Prop :=
  forall k def cb,
    lookup goals k = Some def -> InputMgr.resolve def = Some cb -> P cb.

(** ** Vocabulary for scanning a string *)

(** A search result moved [n] places to the right. *)
Definition shift (n : nat) (r : option (nat * nat)) : option (nat * nat) :=
  match r with
  | Some (i, len) => Some (n + i, len)
  | None => None
  end.

(** The pattern matches at no position of [region], which is followed by
    [rest] and preceded by [prev]. *)
Fixpoint no_match (m : matcher) (prev : option ascii) (region rest : str)
  : Prop :=
  match region with
  | [] => True
  | c :: region' =>
      m prev (c :: region' ++ rest) = None /\ no_match m (Some c) region' rest
  end.

(** The character a scan has behind it after [s]. *)
Fixpoint last_char (prev : option ascii) (s : str) : option ascii :=
  match s with
  | [] => prev
  | c :: s' => last_char (Some c) s'
  end.

(** Every semicolon is followed by a character that is not one. *)
Fixpoint tidy (s : str) : bool :=
  match s with
  | [] => true
  | c :: s' =>
      (if Ascii.eqb c ";"
       then match s' with
            | [] => false
            | d :: _ => negb (Ascii.eqb d ";")
            end
       else true)
      && tidy s'
  end.

(** The text of the flags of a frame. *)
Definition attrs_text (fs : list str) : str :=
  concat (map (fun f => lit ":" ++ f) fs).

(** The text of the frames before a given one: each followed by its
    semicolon. *)
Definition prefix_text (texts : list str) : str :=
  concat (map (fun w => w ++ lit ";") texts).

(** The text after a given frame. *)
Definition tail_text (texts : list str) : str :=
  match texts with
  | [] => []
  | _ => lit ";" ++ join (lit ";") texts
  end.

(** The frame remembered from an earlier round was allocated before the
    frame of this round. *)
Definition remembered_is_older (l : InputMgr.loop) : Prop :=
  match InputMgr.lastGoalWithState l with
  | Some r => r < InputMgr.allocated l
  | None => True
  end.

(** A tail that does not go on with a letter: the end of the text or a
    separator. *)
Definition ends_word (rest : str) : Prop :=
  match rest with
  | [] => True
  | c :: _ => is_word c = false
  end.

(** A tail that a frame ends before: the end of the text or a semicolon. *)
Definition ends_frame (rest : str) : Prop :=
  match rest with
  | [] => True
  | c :: _ => c = ";"%char
  end.

(** A text between semicolons: not empty and without one. *)
Definition piece (w : str) : Prop := w <> [] /\ no_semi w.

(** Some frame of the list has [k] as its key or as one of its flags. *)
Definition has_word (k : str) (L : list obj) : bool :=
  existsb (fun o => str_eqb (frame_key o) k
                    || existsb (str_eqb k) (flag_names o)) L.

(** ** Sample goal tables *)





(** A goal whose resolver asks two questions. *)
Definition greedy_goals : InputMgr.registeredGoals :=
  [(lit "g",
    InputMgr.mkGoal
      (Some (fun _ => ([Callback.Ask (lit "Which day?");
                        Callback.Ask (lit "Which city?")],
                       Callback.RBool false)))
      None None)].

Definition stack_g : ConversationEngine.turn :=
  ConversationEngine.mkTurn OutputMgr.create (lit "g") false.

(** The goals of a flight enquiry: a resolver that says the answer and two
    prompts. *)
Definition flight_goals : InputMgr.registeredGoals :=
  [(lit "flightArrivalTime",
    InputMgr.mkGoal
      (Some (fun _ => ([Callback.Say (lit "It arrives at noon.") false],
                       Callback.RBool true)))
      None None);
   (lit "airline", InputMgr.mkGoal None (Some (lit "What airline?")) None);
   (lit "city", InputMgr.mkGoal None (Some (lit "What city?")) None)].

Definition flight_stack : ConversationEngine.turn :=
  ConversationEngine.mkTurn OutputMgr.create
    (lit "flightArrivalTime;airline;city") false.

(** A resolver goal [k] that succeeds at once and a prompt goal [x]; the
    stack holds [k] twice, below and above [x]. *)
Definition done_cb : Callback.resolver := fun _ => ([], Callback.RBool true).

Definition twice_goals : InputMgr.registeredGoals :=
  [(lit "k", InputMgr.mkGoal (Some done_cb) None None);
   (lit "x", InputMgr.mkGoal None (Some (lit "What x?")) None)].

Definition stack_kxk : ConversationEngine.turn :=
  ConversationEngine.mkTurn OutputMgr.create (lit "k;x;k") false.

(** The frames [x:queried] and [k]. *)
Definition frame_x_queried : obj :=
  [(lit "key", JStr (lit "x")); (lit "queried", JBool true)].

Definition frame_k : obj := [(lit "key", JStr (lit "k"))].

Definition stack_xk : ConversationEngine.turn :=
  ConversationEngine.mkTurn OutputMgr.create (lit "x:queried;k") false.

(** ** Sample inputs *)

(** A flush after [say('Sure.')] and three prompts. *)
Definition sample_output : OutputMgr.t :=
  OutputMgr.mk None 1.02 [lit "Sure."] [lit "p1"; lit "p2"; lit "p3"] true true.

(** An author who writes the group [{town|city}] where [city] is a
    declared input type. *)
Definition sample_keyTypes : ScriptParser.keyTypes :=
  [(lit "city", ScriptParser.TypeName (lit "AMAZON.US_CITY"))].

Definition sample_speech : list str := [lit "I live in the {town|city}"].

(** The utterance [Yes] registered by the goals [A] and [B] and once without
    a goal; the stack holds [A] below [B]. *)
Definition yes_for (g : option str) : InputMgr.intentDef :=
  InputMgr.mkIntent None g (fun _ => ([], Callback.RUndefined)).

Definition yes_defs : list InputMgr.intentDef :=
  [yes_for None; yes_for (Some (lit "A")); yes_for (Some (lit "B"))].

Definition stack_A_B : ConversationEngine.turn :=
  ConversationEngine.mkTurn OutputMgr.create (lit "A;B") false.


(** ** Vocabulary for intent names *)

(** The capital letters at the places [ds] of the alphabet. *)
Definition letters (ds : list nat) : str :=
  map (fun d => ascii_of_nat (65 + d)) ds.

(** ** Vocabulary for the say queue *)

(** What separates a fragment from the text said before it: a space for a
    quick fragment, the pause between two spaces otherwise. *)
Definition say_separator (quick : bool) : str :=
  if quick then lit " " else lit " " ++ OutputMgr.pauseStr ++ lit " ".

(** The text of fragments said one after the other, each with its [quick]
    flag. *)
Definition said_text (first : str) (rest : list (str * bool)) : str :=
  first ++ concat (map (fun fq => say_separator (snd fq) ++ fst fq) rest).

(** ** Vocabulary for the goal stack *)

(** The frame that decoding gives back for a well-formed frame: the key
    first, then the flags. *)
Definition decoded (o : obj) : obj :=
  (lit "key", JStr (frame_key o)) :: map flag_entry (flag_names o).

(** The frame of a goal that was just pushed. *)
Definition plain_frame (g : str) : obj := [(lit "key", JStr g)].

(** The encoded stack of a list of frames. *)
Definition encoded (L : list obj) : str :=
  ShortJSON.arrToSJN (ShortJSON.arrObjToArr L).

(** The flag that the goal loop sets on a frame it has prompted for. *)
Definition queried_entry : str * jsval := flag_entry (lit "queried").

(** A goal table entry without a resolver that prompts or asks. *)
Definition asks_with (def : InputMgr.goalDef) (o : OutputMgr.t) : OutputMgr.t :=
  match InputMgr.prompt def, InputMgr.ask def with
  | Some f, _ => OutputMgr.prompt o f
  | None, Some f => OutputMgr.ask o f
  | None, None => o
  end.

(** ** Vocabulary for counting questions *)



(** The stack [zzz] holds a goal that the flight table does not define. *)
Definition stack_zzz : ConversationEngine.turn :=
  ConversationEngine.mkTurn OutputMgr.create (lit "airline;zzz") false.



(** ** Vocabulary for the script parser *)

Definition is_punct (c : ascii) : bool := Ascii.eqb c "," || Ascii.eqb c "?".

Definition no_digit (s : str) : bool := forallb (fun c => negb (is_digit c)) s.

(** An utterance without its commas and question marks. *)
Definition strip_punct (s : str) : str := filter (fun c => negb (is_punct c)) s.

(** An utterance read once from left to right, every maximal run of digits
    replaced by what [spell] gives for it; [skip] counts the digits still
    to pass of the run just replaced. *)
Fixpoint spell_from (spell : str -> str) (skip : nat) (s : str) : str :=
  match s with
  | [] => []
  | c :: s' =>
      match skip with
      | S k => spell_from spell k s'
      | 0 =>
          match run is_digit s with
          | S n => spell (firstn (S n) s) ++ spell_from spell n s'
          | 0 => c :: spell_from spell 0 s'
          end
      end
  end.

Definition spell_numbers (spell : str -> str) (s : str) : str :=
  spell_from spell 0 s.

(** The number of digits of a string. *)
Definition count_digits (s : str) : nat := length (filter is_digit s).

(** An utterance as its author writes it: stretches of text and slots
    [[[name]]]. *)
Inductive segment : Type :=
  | Text (t : str)
  | Slot (name : str).

Definition written (segs : list segment) : str :=
  concat (map (fun seg => match seg with
                          | Text t => t
                          | Slot name => lit "[[" ++ name ++ lit "]]"
                          end) segs).

(** What stands before the name in a rewritten slot: the sample values of
    the declared type, trimmed and separated by bars, or a dash. *)
Definition samples_of (kt : ScriptParser.keyTypes) (name : str) : str :=
  match lookup kt name with
  | Some (ScriptParser.TypeObj _ _ (Some sampleValues)) =>
      join (lit "|") (map ScriptParser.trim sampleValues)
  | _ => lit "-"
  end.

Definition rewritten (kt : ScriptParser.keyTypes) (segs : list segment) : str :=
  concat (map (fun seg => match seg with
                          | Text t => t
                          | Slot name =>
                              lit "{" ++ samples_of kt name ++ lit "|" ++ name
                              ++ lit "}"
                          end) segs).

Definition slot_names (segs : list segment) : list str :=
  flat_map (fun seg => match seg with
                       | Text _ => []
                       | Slot name => [name]
                       end) segs.

(** Text without an opening bracket. *)
Definition plain_text (t : str) : bool :=
  forallb (fun c => negb (Ascii.eqb c "[")) t.

(** The texts hold no opening bracket and the names are made of the
    characters that [paramsRE] accepts. *)
Definition template_ok (segs : list segment) : bool :=
  forallb (fun seg => match seg with
                      | Text t => plain_text t
                      | Slot name => all_chars is_param_char name
                      end) segs.

(** No declared sample value holds an opening bracket. *)
Definition samples_plain (kt : ScriptParser.keyTypes) : bool :=
  forallb (fun entry => match snd entry with
                        | ScriptParser.TypeObj _ _ (Some sampleValues) =>
                            forallb plain_text sampleValues
                        | _ => true
                        end) kt.

(** The table [kt] as slot rewriting has left it after meeting the names
    [seen], when it started from [kt0]. *)
Definition rewriting_from (kt0 kt : ScriptParser.keyTypes) (seen : list str)
  : Prop :=
  (forall n, samples_of kt n = samples_of kt0 n)
  /\ (forall n, ScriptParser.declared kt0 n = true ->
        ScriptParser.declared kt n = true
        /\ option_map ScriptParser.param_type (lookup kt n)
           = option_map ScriptParser.param_type (lookup kt0 n))
  /\ (forall n, In n seen -> ScriptParser.declared kt n = true)
  /\ (forall n, ScriptParser.declared kt0 n = false -> In n seen ->
        lookup kt n = Some (ScriptParser.TypeName (lit "AMAZON.LITERAL")))
  /\ (forall n, ~ In n seen -> lookup kt n = lookup kt0 n).

(** A table with one literal type that has sample values, and two
    utterances; the slot [who] is not declared. *)
Definition sample_table : ScriptParser.keyTypes :=
  [(lit "itemName",
    ScriptParser.TypeObj (JStr (lit "AMAZON.LITERAL")) None
      (Some [lit " Call Chris"; lit "Book an appointment "]))].

Definition sample_templates : list (list segment) :=
  [[Text (lit "I want to "); Slot (lit "itemName"); Text (lit " today")];
   [Text (lit "Ask "); Slot (lit "who"); Text (lit " to "); Slot (lit "itemName")]].

(** The type that the slots of an intent give for a slot name: the declared
    type, or [AMAZON.LITERAL] for a name that slot rewriting had to
    declare. *)
Definition slot_type (kt : ScriptParser.keyTypes) (name : str) : jsval :=
  match lookup kt name with
  | Some k => if ScriptParser.declared kt name then ScriptParser.param_type k
              else JStr (lit "AMAZON.LITERAL")
  | None => JStr (lit "AMAZON.LITERAL")
  end.

(** The name is a key of the map and holds its declared type. *)
Definition holds (kt : ScriptParser.keyTypes) (name : str) (acc : obj) : Prop :=
  In name (obj_keys acc)
  /\ forall k, lookup kt name = Some k ->
               obj_get acc name = ScriptParser.param_type k.

(** ** Vocabulary for declaring intents *)

(** A call that a script makes to declare what it responds to.  Every call
    is handed objects of its own, as a script of object literals does: no
    intent object is given to two calls, so that the [goal] which
    [defineGoal] writes into an intent is seen under that goal's intents
    only. *)
Inductive declaration : Type :=
  | RespondTo (intentDef : Convo.intentObj)
  | DefineGoal (goalObj : Convo.goalObj)
  | AddInputTypes (keyTypes : ScriptParser.keyTypes)
  | AddPhraseEquivalents (phraseEquivalents : list (list str)).

Definition declare (c : Convo.t) (d : declaration) : Convo.t :=
  match d with
  | RespondTo intentDef => Convo.respondTo c intentDef
  | DefineGoal goalObj => Convo.defineGoal c goalObj
  | AddInputTypes keyTypes => Convo.addInputTypes c keyTypes
  | AddPhraseEquivalents phraseEquivalents =>
      Convo.addPhraseEquivalents c phraseEquivalents
  end.

(** The tables after a script's declarations. *)
Definition declared_by (script : list declaration) : Convo.t :=
  fold_left declare script Convo.create.

(** The intent definitions that a script declares, those of a goal scoped to
    the goal. *)
Definition intents_of (script : list declaration) : list Convo.intentObj :=
  flat_map (fun d => match d with
                     | RespondTo intentDef => [intentDef]
                     | DefineGoal goalObj =>
                         map (Convo.scoped_to (Convo.goal goalObj))
                           (Convo.respondsTo goalObj)
                     | AddInputTypes _ | AddPhraseEquivalents _ => []
                     end) script.

Definition speech_of (intentDef : Convo.intentObj) : list str :=
  Convo.as_array (Convo.expecting intentDef).

(** The definitions that list an utterance, in the order they were
    declared, each once for every time it lists the utterance. *)
Definition defs_for (userSpeechItem : str) (intents : list Convo.intentObj)
  : list InputMgr.intentDef :=
  flat_map (fun intentDef =>
              map (fun _ => Convo.def intentDef)
                (filter (str_eqb userSpeechItem) (speech_of intentDef)))
    intents.

(** The number of times an utterance is listed. *)
Definition uses (intents : list Convo.intentObj) (userSpeechItem : str) : nat :=
  length (defs_for userSpeechItem intents).

Definition used_once (intents : list Convo.intentObj) (userSpeechItem : str)
  : bool :=
  uses intents userSpeechItem =? 1.

(** An entry of a table: absent when there is nothing to hold. *)
Definition entry {A : Type} (l : list A) : option (list A) :=
  match l with
  | [] => None
  | _ => Some l
  end.

(** The table indexes the definitions of [intents]. *)
Definition indexes (userSpeechDef : list (str * list InputMgr.intentDef))
  (intents : list Convo.intentObj) : Prop :=
  (forall item, lookup userSpeechDef item = entry (defs_for item intents))
  /\ NoDup (map fst userSpeechDef).

(** What the tables hold after some intents were declared. *)
Definition holds_intents (c : Convo.t) (intents : list Convo.intentObj) : Prop :=
  indexes (Convo.userSpeechDef c) intents
  /\ Convo.allIntents c = map speech_of intents.

(** The rounds that the two parser loops need for an utterance: one per
    character at most for the digits, one per opening bracket at most for
    the slots of what the first loop leaves. *)
Definition rounds_for (getNumAsStr : str -> str) (u : str) : nat :=
  Nat.max (length u)
    (countc "[" (spell_numbers getNumAsStr (strip_punct u))).

(** A script that declares an input type, an intent with two utterances
    and a goal whose intent shares one of them. *)
Definition sample_script : list declaration :=
  [AddInputTypes sample_table;
   RespondTo (Convo.mkIntentObj
                (Convo.Several [lit "Book [[itemName]], please"; lit "Yes"])
                (yes_for None));
   DefineGoal (Convo.mkGoalObj (lit "A")
                 (InputMgr.mkGoal None (Some (lit "Are you sure?")) None)
                 [Convo.mkIntentObj (Convo.One (lit "Yes")) (yes_for None)])].

(** ** Names of a table

    The tables of the source are JavaScript objects.  Looked up under a
    name that every object inherits from [Object.prototype], a table
    without an entry of its own gives the inherited value and not
    [undefined]; an assignment to [__proto__] makes no entry; and a name
    made of digits is enumerated before the names that are not.  The
    embedding stands for a table whose names are none of these. *)
Definition inherited_names : list str :=
  [lit "constructor"; lit "hasOwnProperty"; lit "isPrototypeOf";
   lit "propertyIsEnumerable"; lit "toLocaleString"; lit "toString";
   lit "valueOf"; lit "__proto__"; lit "__defineGetter__";
   lit "__defineSetter__"; lit "__lookupGetter__"; lit "__lookupSetter__"].

Definition inherited (name : str) : bool :=
  existsb (str_eqb name) inherited_names.

(** A name made of digits. *)
Definition index_like (name : str) : bool :=
  nonempty name && all_chars is_digit name.

(** A name that a table holds as it was given and where it was given. *)
Definition own_name (name : str) : bool :=
  negb (inherited name) && negb (index_like name).

(** The utterances that a script lists. *)
Definition utterances_of (script : list declaration) : list str :=
  flat_map speech_of (intents_of script).

(** The input types that a script declares, in the order of their
    declaration, and the sets of equivalent phrases. *)
Definition types_of (script : list declaration) : ScriptParser.keyTypes :=
  flat_map (fun d => match d with
                     | AddInputTypes keyTypes => keyTypes
                     | _ => []
                     end) script.

Definition phrases_of (script : list declaration) : list (list str) :=
  flat_map (fun d => match d with
                     | AddPhraseEquivalents phraseEquivalents => phraseEquivalents
                     | _ => []
                     end) script.

(** What was declared last for a name. *)
Definition last_declared {A : Type} (entries : list (str * A)) (name : str)
  : option A :=
  lookup (rev entries) name.

(** ** GooglePlatform: the Dialogflow export

    Source: [src/lib/googlePlatform.js].  [regIntent] keeps the parameters
    of an intent under its name; [genConfigIntents] writes for every intent
    kept a file that describes it and a file of sample utterances.  The
    intents kept are listed in the order of [Object.keys], and a file is
    kept as the object handed to [JSON.stringify].  [Math.random] is an
    oracle: [drawn] gives, for the intent, the utterance and the piece at
    hand, the number that [guessSamples] reads from it; an exception is
    [None]. *)

Module GooglePlatform.

Definition violetToPlatformTypeMap : list (str * str) :=
  [(lit "number", lit "@sys.number");
   (lit "firstName", lit "@sys.given-name");
   (lit "date", lit "@sys.date");
   (lit "time", lit "@sys.time");
   (lit "phoneNumber", lit "@sys.phone-number");
   (lit "phrase", lit "@sys.any")].

(** The text of a sample: a string, or the number that [guessSamples]
    draws. *)
Inductive sample : Type :=
  | Num (n : nat)
  | Txt (s : str).

(** [Math.floor(Math.random() * 100)] is [drawn] brought below 100. *)
Definition guessSamples (drawn : nat) (violetType : jsval) : sample :=
  match violetType with
  | JStr s => if str_eqb s (lit "number") then Num (drawn mod 100)
              else Txt (lit "UNKNOWN TYPE")
  | _ => Txt (lit "UNKNOWN TYPE")
  end.

(** The parameters that the engine hands to [regIntent]. *)
Record intentParams : Type := mkParams {
    utterances : list str;
    slots : option obj
  }.

Record parameter : Type := mkParameter {
    isList : bool;
    name : str;
    value : str;
    dataType : option str
  }.

(** [intentInfo]; [responses] holds the [parameters] of its one
    response. *)
Record intentInfo : Type := mkInfo {
    intentName : str;
    auto : bool;
    webhookUsed : bool;
    responses : option (list parameter)
  }.

(** [guData]; [alias] and [meta] are missing on a piece of text. *)
Record guData : Type := mkData {
    userDefined : bool;
    alias : option str;
    meta : option str;
    text : sample
  }.

Record gUtteranceInfo : Type := mkUtterance {
    data : list guData;
    isTemplate : bool;
    count : nat
  }.

Inductive file : Type :=
  | IntentFile (fileName : str) (jsonBody : intentInfo)
  | UserSaysFile (fileName : str) (jsonBody : list gUtteranceInfo).

Definition is_brace (c : ascii) : bool := Ascii.eqb c "{" || Ascii.eqb c "}".

(** [utterance.split(/[{}]/)] *)
Fixpoint split_braces (s : str) : list str :=
  match s with
  | [] => [[]]
  | c :: s' =>
      if is_brace c then [] :: split_braces s'
      else match split_braces s' with
           | w :: ws => (c :: w) :: ws
           | [] => [[c]]
           end
  end.

(** [violetToPlatformTypeMap[slots[name]]] *)
Definition platform_type (slots : obj) (name : str) : option str :=
  lookup violetToPlatformTypeMap (to_string (obj_get slots name)).

(** The [forEach] over the pieces of an utterance, from the piece at
    [ndx] on.  Reading a property of [slots] where the intent has none
    throws. *)
Fixpoint pieces (slots : option obj) (drawn : nat -> nat) (us : list str)
  (ndx : nat) (data : list guData) : option (list guData) :=
  match us with
  | [] => Some data
  | u :: us' =>
      if length u =? 0 then pieces slots drawn us' (S ndx) data
      else if ndx mod 2 =? 0
      then pieces slots drawn us' (S ndx)
             (data ++ [mkData false None None (Txt u)])
      else
        let nameMarker := indexOf u (lit "|") in
        let alias := match nameMarker with
                     | None => u
                     | Some nameMarker => skipn (nameMarker + 1) u
                     end in
        match slots with
        | None => None
        | Some slots' =>
            let meta := platform_type slots' alias in
            let text :=
              if starts_with (lit "-|") u
              then guessSamples (drawn ndx) (obj_get slots' alias)
              else Txt (match nameMarker with
                        | None => []
                        | Some nameMarker => firstn nameMarker u
                        end) in
            pieces slots drawn us' (S ndx)
              (data ++ [mkData false (Some alias) meta text])
        end
  end.

(** The [forEach] over the utterances of an intent, from the utterance at
    [ndx] on. *)
Fixpoint usersays (slots : option obj) (drawn : nat -> nat -> nat)
  (utterances : list str) (ndx : nat) (gUtterances : list gUtteranceInfo)
  : option (list gUtteranceInfo) :=
  match utterances with
  | [] => Some gUtterances
  | utterance :: rest =>
      match pieces slots (drawn ndx) (split_braces utterance) 0 [] with
      | None => None
      | Some data =>
          usersays slots drawn rest (S ndx)
            (gUtterances ++ [mkUtterance data false 0])
      end
  end.

Section Config.

(** [path.sep] *)
Variable sep : str.

Variable drawn : str -> nat -> nat -> nat.

Definition parameters (slots : obj) : list parameter :=
  map (fun slotName =>
         mkParameter false slotName (lit "$" ++ slotName)
           (platform_type slots slotName))
    (obj_keys slots).

(** [genConfigIntents] over the intents kept, the files pushed so far
    being [zipFiles]. *)
Fixpoint genConfigIntents (zipFiles : list file)
  (kept : list (str * intentParams)) : option (list file) :=
  match kept with
  | [] => Some zipFiles
  | (intentName, params) :: rest =>
      let intentInfo := mkInfo intentName true true
                          (option_map parameters (slots params)) in
      let zipFiles :=
        zipFiles ++ [IntentFile (lit "intents" ++ sep ++ intentName ++ lit ".json")
                       intentInfo] in
      match usersays (slots params) (drawn intentName) (utterances params) 0 []
      with
      | None => None
      | Some gUtterances =>
          genConfigIntents
            (zipFiles
             ++ [UserSaysFile
                   (lit "intents" ++ sep ++ intentName ++ lit "_usersays_en.json")
                   gUtterances])
            rest
      end
  end.

End Config.

End GooglePlatform.

(** ** Vocabulary for the export *)

(** The sample values that slot rewriting writes for a name: the trimmed
    values of its declared type, if the type lists any. *)
Definition sample_values (kt : ScriptParser.keyTypes) (name : str)
  : option (list str) :=
  match lookup kt name with
  | Some (ScriptParser.TypeObj _ _ (Some sampleValues)) =>
      Some (map ScriptParser.trim sampleValues)
  | _ => None
  end.

(** Text without a brace, and without a brace or a bar. *)
Definition no_brace (t : str) : bool :=
  forallb (fun c => negb (GooglePlatform.is_brace c)) t.

Definition no_brace_or_bar (t : str) : bool :=
  forallb (fun c => negb (GooglePlatform.is_brace c) && negb (Ascii.eqb c "|")) t.

(** An utterance whose texts, slot names and sample values hold no brace,
    and the last two no bar. *)
Definition export_ok (kt : ScriptParser.keyTypes) (segs : list segment) : bool :=
  forallb (fun seg => match seg with
                      | Text t => no_brace t
                      | Slot name =>
                          no_brace_or_bar name
                          && match sample_values kt name with
                             | Some values => forallb no_brace_or_bar values
                             | None => true
                             end
                      end) segs.

(** Slots whose names are not made of digits and whose types are not names
    that the table of platform types inherits. *)
Definition slots_ok (slots : obj) : bool :=
  forallb (fun e => negb (index_like (fst e))
                    && negb (inherited (to_string (snd e)))) slots.

(** The entry of a piece of text: none for the empty text. *)
Definition said_entry (t : str) : list GooglePlatform.guData :=
  if nonempty t
  then [GooglePlatform.mkData false None None (GooglePlatform.Txt t)]
  else [].

(** The entry of a slot: the text is the first sample value, the alias
    what comes after it, which is the name when there is one sample value
    at most. *)
Definition slot_entry (slots : obj) (drawn : nat) (values : option (list str))
  (name : str) : GooglePlatform.guData :=
  let shown := match values with
               | None => lit "-"
               | Some [] => []
               | Some (v :: _) => v
               end in
  let alias := match values with
               | Some (_ :: more) => join (lit "|") (more ++ [name])
               | _ => name
               end in
  GooglePlatform.mkData false (Some alias)
    (GooglePlatform.platform_type slots alias)
    (if str_eqb shown (lit "-")
     then GooglePlatform.guessSamples drawn (obj_get slots alias)
     else GooglePlatform.Txt shown).

(** The entries of an utterance from the piece at [ndx] on, [pending]
    being the text read since the last slot. *)
Fixpoint exported (kt : ScriptParser.keyTypes) (slots : obj) (drawn : nat -> nat)
  (ndx : nat) (pending : str) (segs : list segment)
  : list GooglePlatform.guData :=
  match segs with
  | [] => said_entry pending
  | Text t :: segs' => exported kt slots drawn ndx (pending ++ t) segs'
  | Slot name :: segs' =>
      said_entry pending
      ++ slot_entry slots (drawn (S ndx)) (sample_values kt name) name
         :: exported kt slots drawn (ndx + 2) [] segs'
  end.

(** The text of an utterance without slots. *)
Definition texts_of (segs : list segment) : str :=
  concat (map (fun seg => match seg with
                          | Text t => t
                          | Slot _ => []
                          end) segs).

(** The sample utterances of an intent, from the utterance at [ndx] on. *)
Fixpoint samples_from (kt : ScriptParser.keyTypes) (slots : obj)
  (drawn : nat -> nat -> nat) (ndx : nat) (templates : list (list segment))
  : list GooglePlatform.gUtteranceInfo :=
  match templates with
  | [] => []
  | segs :: rest =>
      GooglePlatform.mkUtterance (exported kt slots (drawn ndx) 0 [] segs) false 0
      :: samples_from kt slots drawn (S ndx) rest
  end.



(** A type with its sample values trimmed, as slot rewriting leaves the
    type object of a slot it has met. *)
Definition trimmed (k : ScriptParser.keyType) : ScriptParser.keyType :=
  match k with
  | ScriptParser.TypeObj type values (Some sampleValues) =>
      ScriptParser.TypeObj type values
        (Some (map ScriptParser.trim sampleValues))
  | _ => k
  end.

(** * Properties *)


(** ** Strings *)

Lemma str_eqb_eq (a b : str) : str_eqb a b = true <-> a = b.
Proof.
  revert b; induction a as [|x a IH]; intros [|y b]; simpl; split;
    try congruence; try discriminate.
  - rewrite andb_true_iff, Ascii.eqb_eq, IH. intros [-> ->]; reflexivity.
  - intros E; injection E as -> ->.
    rewrite andb_true_iff, Ascii.eqb_eq, IH; auto.
Qed.

Lemma str_eqb_refl (a : str) : str_eqb a a = true.
Proof. apply str_eqb_eq; reflexivity. Qed.

Lemma str_eqb_neq (a b : str) : str_eqb a b = false <-> a <> b.
Proof.
  split.
  - intros H E. apply str_eqb_eq in E. congruence.
  - intros H. destruct (str_eqb a b) eqn:E; auto.
    apply str_eqb_eq in E; contradiction.
Qed.

Lemma split_cons_other (sep c : ascii) (s : str) :
  c <> sep ->
  exists w ws, split sep s = w :: ws /\ split sep (c :: s) = (c :: w) :: ws.
Proof.
  intros Hc. simpl.
  destruct (Ascii.eqb c sep) eqn:E; [apply Ascii.eqb_eq in E; contradiction|].
  destruct s as [|d s]; simpl.
  - eexists; eexists; split; reflexivity.
  - destruct (Ascii.eqb d sep).
    + eexists; eexists; split; reflexivity.
    + destruct (split sep s); eexists; eexists; split; reflexivity.
Qed.

Lemma split_not_nil (sep : ascii) (s : str) : split sep s <> [].
Proof.
  destruct s as [|c s]; simpl; [discriminate|].
  destruct (Ascii.eqb c sep); [discriminate|].
  destruct (split sep s); discriminate.
Qed.

(** A word without the separator, followed by the separator, is the first
    piece. *)
Lemma split_word_sep (sep : ascii) (w s : str) :
  ~ In sep w -> split sep (w ++ sep :: s) = w :: split sep s.
Proof.
  induction w as [|c w IH]; intros Hw; simpl.
  - rewrite Ascii.eqb_refl. reflexivity.
  - destruct (Ascii.eqb c sep) eqn:E.
    + apply Ascii.eqb_eq in E. subst c. elim Hw; left; reflexivity.
    + rewrite IH by (intros H; apply Hw; right; exact H). reflexivity.
Qed.

Lemma split_word (sep : ascii) (w : str) : ~ In sep w -> split sep w = [w].
Proof.
  induction w as [|c w IH]; intros Hw; simpl; [reflexivity|].
  destruct (Ascii.eqb c sep) eqn:E.
  - apply Ascii.eqb_eq in E. subst c. elim Hw; left; reflexivity.
  - rewrite IH by (intros H; apply Hw; right; exact H). reflexivity.
Qed.

Lemma split_join (sep : ascii) (l : list str) :
  l <> [] -> Forall (fun w => ~ In sep w) l -> split sep (join [sep] l) = l.
Proof.
  induction l as [|w l IH]; intros Hne Hl; [congruence|].
  inversion Hl as [|? ? Hw Hl']; subst.
  destruct l as [|w' l].
  - simpl. apply split_word; assumption.
  - change (join [sep] (w :: w' :: l)) with (w ++ sep :: join [sep] (w' :: l)).
    rewrite split_word_sep by assumption.
    rewrite IH by (auto; discriminate). reflexivity.
Qed.

Lemma class_not_char (p : ascii -> bool) (c : ascii) (w : str) :
  p c = false -> all_chars p w = true -> ~ In c w.
Proof.
  intros Hc Hw Hin. unfold all_chars in Hw.
  rewrite forallb_forall in Hw. apply Hw in Hin. congruence.
Qed.

Lemma lower_is_alpha (c : ascii) : is_lower c = true -> is_alpha c = true.
Proof. intros H. unfold is_alpha. rewrite H. apply orb_true_r. Qed.

Lemma lower_word_alpha (w : str) : lower_word w = true -> alpha_word w = true.
Proof.
  unfold lower_word, alpha_word, all_chars.
  rewrite !andb_true_iff, !forallb_forall. intros [Hn Hw]; split; auto.
  intros c Hc. apply lower_is_alpha; auto.
Qed.

Lemma alpha_word_chars (w : str) : alpha_word w = true -> all_chars is_alpha w = true.
Proof. unfold alpha_word. rewrite andb_true_iff. tauto. Qed.

Lemma alpha_word_nonempty (w : str) : alpha_word w = true -> w <> [].
Proof. destruct w; [discriminate|discriminate]. Qed.

(** ** ShortJSON round trip *)

Section RoundTrip.
Import ShortJSON.

Lemma frame_text_snoc (k : str) (fs : list str) (f : str) :
  frame_text k (fs ++ [f]) = frame_text k fs ++ lit ":" ++ f.
Proof.
  unfold frame_text. revert k.
  induction fs as [|g fs IH]; intros k; [reflexivity|].
  change (join (lit ":") (k :: (g :: fs) ++ [f]))
    with (k ++ lit ":" ++ join (lit ":") (g :: fs ++ [f])).
  rewrite IH.
  change (join (lit ":") (k :: g :: fs))
    with (k ++ lit ":" ++ join (lit ":") (g :: fs)).
  rewrite <- !app_assoc. reflexivity.
Qed.

Lemma frame_ok_parts (o : obj) :
  frame_ok o = true ->
  nodupb (obj_keys o) = true
  /\ (exists k, obj_get o (lit "key") = JStr k /\ alpha_word k = true)
  /\ (forall p v, In (p, v) o -> is_key p = false ->
                  lower_word p = true /\ v = JBool true).
Proof.
  unfold frame_ok. rewrite !andb_true_iff. intros [[Hn Hk] Hf].
  split; [exact Hn|]. split.
  - destruct (obj_get o (lit "key")) as [| |k]; try discriminate.
    exists k; auto.
  - intros p v Hin Hp. rewrite forallb_forall in Hf.
    specialize (Hf _ Hin). simpl in Hf. rewrite Hp in Hf. simpl in Hf.
    apply andb_true_iff in Hf. destruct Hf as [Hl Hv]. split; [exact Hl|].
    destruct v as [|[|]|]; try discriminate. reflexivity.
Qed.

Lemma obj_get_flag (o : obj) (p : str) :
  (forall q v, In (q, v) o -> is_key q = false -> v = JBool true) ->
  In p (obj_keys o) -> is_key p = false -> obj_get o p = JBool true.
Proof.
  induction o as [|[q v] o IH]; intros Hall Hin Hp; [contradiction|].
  simpl. destruct (str_eqb q p) eqn:E.
  - apply str_eqb_eq in E. subst q. apply (Hall p v); [left; reflexivity|exact Hp].
  - apply IH; auto.
    + intros q' v' Hq. apply Hall. right; exact Hq.
    + destruct Hin as [H|H]; [|exact H]. simpl in H. subst q.
      rewrite str_eqb_refl in E. discriminate.
Qed.

(** Encoding a frame: the loop over [Object.keys] appends the flags in
    order. *)
Lemma encode_loop (o : obj) (ks : list str) (k : str) (done : list str) :
  (forall p, In p ks -> is_key p = false -> obj_get o p = JBool true) ->
  fold_left
    (fun arrItem arrObjProp =>
       if str_eqb arrObjProp (lit "key") then arrItem
       else if truthy (obj_get o arrObjProp)
            then JStr (to_string arrItem ++ lit ":" ++ arrObjProp)
            else arrItem)
    ks (JStr (frame_text k done))
  = JStr (frame_text k (done ++ filter (fun p => negb (is_key p)) ks)).
Proof.
  revert done. induction ks as [|p ks IH]; intros done Hall;
    cbn [fold_left filter].
  - rewrite app_nil_r. reflexivity.
  - change (str_eqb p (lit "key")) with (is_key p).
    destruct (is_key p) eqn:Hp; cbn [negb].
    + apply IH. intros q Hq. apply Hall. right; exact Hq.
    + rewrite (Hall p) by (auto; left; reflexivity).
      cbn [truthy to_string].
      rewrite <- frame_text_snoc. rewrite IH.
      * rewrite <- app_assoc. reflexivity.
      * intros q Hq. apply Hall. right; exact Hq.
Qed.

Lemma encode_frame (o : obj) (k : str) :
  frame_ok o = true -> obj_get o (lit "key") = JStr k ->
  arrObjToArr_item o = JStr (frame_text k (flag_names o)).
Proof.
  intros Hok Hk. destruct (frame_ok_parts o Hok) as (_ & _ & Hf).
  unfold arrObjToArr_item. rewrite Hk.
  change (JStr k) with (JStr (frame_text k [])).
  rewrite encode_loop; [reflexivity|].
  intros p Hin Hp. apply obj_get_flag; auto.
  intros q v Hq Hqk. apply (Hf q v Hq Hqk).
Qed.

Lemma in_join (c : ascii) (sep : str) (l : list str) :
  In c (join sep l) -> In c sep \/ exists w, In w l /\ In c w.
Proof.
  induction l as [|w l IH]; [contradiction|].
  destruct l as [|w' l].
  - simpl. intros H. right. exists w. auto.
  - change (join sep (w :: w' :: l)) with (w ++ sep ++ join sep (w' :: l)).
    rewrite !in_app_iff. intros [H|[H|H]].
    + right. exists w. split; [left; reflexivity|exact H].
    + left; exact H.
    + destruct (IH H) as [H'|(x & Hx & Hc)]; [left; exact H'|].
      right. exists x. split; [right; exact Hx|exact Hc].
Qed.

Lemma existsb_str_eqb (x : str) (l : list str) :
  existsb (str_eqb x) l = true <-> In x l.
Proof.
  rewrite existsb_exists. split.
  - intros (y & Hy & E). apply str_eqb_eq in E. subst; exact Hy.
  - intros H. exists x. split; [exact H|apply str_eqb_refl].
Qed.

Lemma nodupb_NoDup (l : list str) : nodupb l = true -> NoDup l.
Proof.
  induction l as [|x l IH]; simpl; [constructor|].
  rewrite andb_true_iff, negb_true_iff. intros [Hx Hl].
  constructor; [|apply IH; exact Hl].
  intros Hin. apply existsb_str_eqb in Hin. congruence.
Qed.

Lemma obj_set_fresh (o : obj) (p : str) (v : jsval) :
  ~ In p (obj_keys o) -> obj_set o p v = o ++ [(p, v)].
Proof.
  induction o as [|[q w] o IH]; intros Hp; simpl; [reflexivity|].
  destruct (str_eqb q p) eqn:E.
  - apply str_eqb_eq in E. subst q. elim Hp. left; reflexivity.
  - rewrite IH; [reflexivity|]. intros H. apply Hp. right; exact H.
Qed.

(** Decoding: after the key, every further piece becomes a flag. *)
Lemma decode_loop (fs : list str) (acc : obj) (ndx : nat) :
  NoDup fs -> (forall f, In f fs -> ~ In f (obj_keys acc)) ->
  forEachNdx
    (fun arrObj arrObjProp ndx =>
       if ndx =? 0 then obj_set arrObj (lit "key") (JStr arrObjProp)
       else obj_set arrObj arrObjProp (JBool true))
    fs (S ndx) acc
  = acc ++ map flag_entry fs.
Proof.
  revert acc ndx. induction fs as [|f fs IH]; intros acc ndx Hnd Hfresh;
    cbn [forEachNdx map].
  - rewrite app_nil_r. reflexivity.
  - inversion Hnd as [|? ? Hf Hnd']; subst.
    cbn [Nat.eqb]. rewrite obj_set_fresh by (apply Hfresh; left; reflexivity).
    rewrite IH; [rewrite <- app_assoc; reflexivity|exact Hnd'|].
    intros g Hg. unfold obj_keys. rewrite map_app, in_app_iff.
    intros [H|[H|[]]].
    + apply (Hfresh g); [right; exact Hg|exact H].
    + simpl in H. subst g. contradiction.
Qed.

Lemma flag_names_spec (o : obj) (p : str) :
  In p (flag_names o) <-> In p (obj_keys o) /\ is_key p = false.
Proof.
  unfold flag_names. rewrite filter_In, negb_true_iff. tauto.
Qed.

Lemma flag_names_lower (o : obj) (p : str) :
  frame_ok o = true -> In p (flag_names o) -> lower_word p = true.
Proof.
  intros Hok Hp. destruct (frame_ok_parts o Hok) as (_ & _ & Hf).
  apply flag_names_spec in Hp. destruct Hp as [Hin Hk].
  unfold obj_keys in Hin. apply in_map_iff in Hin.
  destruct Hin as ([q v] & E & Hin). simpl in E. subst q.
  apply (Hf p v Hin Hk).
Qed.

Lemma word_no_sep (w : str) (c : ascii) :
  alpha_word w = true -> is_alpha c = false -> ~ In c w.
Proof.
  intros Hw Hc. apply (class_not_char is_alpha); [exact Hc|].
  apply alpha_word_chars; exact Hw.
Qed.

Lemma frame_words_no_sep (o : obj) (k : str) (c : ascii) :
  frame_ok o = true -> alpha_word k = true -> is_alpha c = false ->
  Forall (fun w => ~ In c w) (k :: flag_names o).
Proof.
  intros Hok Hk Hc. constructor.
  - apply word_no_sep; assumption.
  - apply Forall_forall. intros f Hf. apply word_no_sep; [|exact Hc].
    apply lower_word_alpha. apply (flag_names_lower o); assumption.
Qed.

Lemma decode_frame (o : obj) (k : str) :
  frame_ok o = true -> obj_get o (lit "key") = JStr k ->
  arrToArrObj_item (frame_text k (flag_names o))
  = (lit "key", JStr k) :: map flag_entry (flag_names o).
Proof.
  intros Hok Hk.
  destruct (frame_ok_parts o Hok) as (Hnd & (k' & Hk' & Hal) & Hf).
  rewrite Hk in Hk'. injection Hk' as <-.
  unfold arrToArrObj_item, frame_text.
  change (lit ":") with [":"%char].
  rewrite split_join;
    [|discriminate|apply frame_words_no_sep; auto].
  cbn [forEachNdx Nat.eqb obj_set].
  rewrite decode_loop; [reflexivity| |].
  - apply NoDup_filter. apply nodupb_NoDup. exact Hnd.
  - intros f Hin [E|[]]. simpl in E. subst f.
    apply flag_names_spec in Hin. destruct Hin as [_ Hin].
    unfold is_key in Hin. rewrite str_eqb_refl in Hin. discriminate.
Qed.

(** A well-formed frame holds the same properties as its key followed by
    its flags. *)
Lemma frame_as_key_and_flags (o : obj) (k : str) :
  frame_ok o = true -> obj_get o (lit "key") = JStr k ->
  Permutation ((lit "key", JStr k) :: map flag_entry (flag_names o)) o.
Proof.
  intros Hok Hk.
  destruct (frame_ok_parts o Hok) as (Hnd & _ & Hf).
  apply nodupb_NoDup in Hnd. clear Hok.
  induction o as [|[p v] o IH]; [discriminate|].
  unfold flag_names. cbn [obj_keys map filter fst].
  inversion Hnd as [|? ? Hp Hnd']; subst.
  destruct (is_key p) eqn:Hpk; cbn [negb].
  - unfold is_key in Hpk. apply str_eqb_eq in Hpk. subst p.
    cbn [obj_get] in Hk. rewrite str_eqb_refl in Hk. subst v.
    apply perm_skip.
    assert (E : forall o', (forall q w, In (q, w) o' -> is_key q = false -> w = JBool true) ->
                ~ In (lit "key") (map fst o') ->
                map flag_entry (filter (fun p => negb (is_key p)) (map fst o')) = o').
    { clear. induction o' as [|[q w] o' IH]; intros Hall Hno; [reflexivity|].
      cbn [map filter fst]. destruct (is_key q) eqn:Hq.
      - unfold is_key in Hq. apply str_eqb_eq in Hq. subst q.
        elim Hno. left; reflexivity.
      - cbn [negb map]. unfold flag_entry at 1.
        rewrite (Hall q w) by (auto; left; reflexivity).
        f_equal. apply IH.
        + intros q' w' H. apply Hall. right; exact H.
        + intros H. apply Hno. right; exact H. }
    rewrite E; [apply Permutation_refl| |exact Hp].
    intros q w Hq Hqk. apply (Hf q w); [right; exact Hq|exact Hqk].
  - cbn [map]. unfold flag_entry at 1.
    assert (Hv : v = JBool true).
    { apply (Hf p v); [left; reflexivity|exact Hpk]. }
    subst v. eapply perm_trans; [apply perm_swap|]. apply perm_skip.
    apply IH.
    + cbn [obj_get] in Hk. unfold is_key in Hpk. rewrite Hpk in Hk. exact Hk.
    + exact Hnd'.
    + intros q w Hq. apply Hf. right; exact Hq.
Qed.

Lemma frame_key_first_shape (o : obj) (k : str) :
  frame_ok o = true -> key_first o = true -> obj_get o (lit "key") = JStr k ->
  (lit "key", JStr k) :: map flag_entry (flag_names o) = o.
Proof.
  intros Hok Hkf Hk.
  destruct (frame_ok_parts o Hok) as (Hnd & _ & Hf).
  apply nodupb_NoDup in Hnd.
  destruct o as [|[p v] o]; [discriminate|].
  simpl in Hkf. pose proof Hkf as Hp. unfold is_key in Hp.
  apply str_eqb_eq in Hp. subst p.
  cbn [obj_get] in Hk. rewrite str_eqb_refl in Hk. subst v. f_equal.
  unfold flag_names. cbn [obj_keys map filter fst]. rewrite Hkf. cbn [negb].
  inversion Hnd as [|? ? Hno Hnd']; subst.
  assert (Hall : forall q w, In (q, w) o -> is_key q = false -> w = JBool true).
  { intros q w Hq Hqk. apply (Hf q w); [right; exact Hq|exact Hqk]. }
  clear - Hno Hall. induction o as [|[q w] o IH]; [reflexivity|].
  cbn [map filter fst]. destruct (is_key q) eqn:Hq.
  - unfold is_key in Hq. apply str_eqb_eq in Hq. subst q.
    elim Hno. left; reflexivity.
  - cbn [negb map]. unfold flag_entry at 1.
    rewrite (Hall q w) by (auto; left; reflexivity). f_equal. apply IH.
    + intros H. apply Hno. right; exact H.
    + intros q' w' H. apply Hall. right; exact H.
Qed.

Lemma frame_key_get (o : obj) :
  frame_ok o = true ->
  obj_get o (lit "key") = JStr (frame_key o) /\ alpha_word (frame_key o) = true.
Proof.
  intros Hok. destruct (frame_ok_parts o Hok) as (_ & (k & Hk & Hal) & _).
  unfold frame_key. rewrite Hk. auto.
Qed.

Lemma encode_frames (L : list obj) :
  forallb frame_ok L = true ->
  arrToSJN (arrObjToArr L) = join (lit ";") (frames_text L).
Proof.
  intros Hok. unfold arrToSJN, arrObjToArr, frames_text. f_equal.
  rewrite map_map. apply map_ext_in. intros o Ho.
  rewrite forallb_forall in Hok. specialize (Hok o Ho).
  destruct (frame_key_get o Hok) as [Hk _].
  rewrite (encode_frame o _ Hok Hk). reflexivity.
Qed.

Lemma frame_text_no_semi (o : obj) :
  frame_ok o = true -> ~ In ";"%char (frame_text (frame_key o) (flag_names o)).
Proof.
  intros Hok Hin. destruct (frame_key_get o Hok) as [_ Hal].
  apply in_join in Hin. destruct Hin as [Hin|(w & Hw & Hin)].
  - destruct Hin as [E|[]]. discriminate E.
  - pose proof (frame_words_no_sep o _ ";"%char Hok Hal eq_refl) as Hall.
    rewrite Forall_forall in Hall. apply (Hall w Hw Hin).
Qed.

Lemma frame_text_nonempty (o : obj) :
  frame_ok o = true -> frame_text (frame_key o) (flag_names o) <> [].
Proof.
  intros Hok. destruct (frame_key_get o Hok) as [_ Hal].
  apply alpha_word_nonempty in Hal. unfold frame_text.
  destruct (frame_key o) as [|c k]; [congruence|].
  destruct (flag_names o); discriminate.
Qed.

Lemma join_nonempty (sep : str) (w : str) (l : list str) :
  w <> [] -> join sep (w :: l) <> [].
Proof.
  intros Hw. destruct w as [|c w]; [congruence|].
  destruct l; discriminate.
Qed.

Lemma sjnToArr_frames (L : list obj) :
  forallb frame_ok L = true ->
  sjnToArr (join (lit ";") (frames_text L)) = frames_text L.
Proof.
  intros Hok. destruct L as [|o L]; [reflexivity|].
  pose proof Hok as Hok'. rewrite forallb_forall in Hok'.
  assert (Hne : join (lit ";") (frames_text (o :: L)) <> []).
  { apply join_nonempty. apply frame_text_nonempty. apply Hok'. left; reflexivity. }
  unfold sjnToArr.
  destruct (join (lit ";") (frames_text (o :: L))) eqn:E; [congruence|].
  rewrite <- E. change (lit ";") with [";"%char]. apply split_join.
  - discriminate.
  - unfold frames_text. apply Forall_forall. intros w Hw.
    apply in_map_iff in Hw. destruct Hw as (o' & <- & Ho').
    apply frame_text_no_semi. apply Hok'. exact Ho'.
Qed.

Lemma decode_encode (L : list obj) :
  forallb frame_ok L = true ->
  arrToArrObj (sjnToArr (arrToSJN (arrObjToArr L)))
  = map (fun o => (lit "key", JStr (frame_key o)) :: map flag_entry (flag_names o)) L.
Proof.
  intros Hok. rewrite encode_frames, sjnToArr_frames by exact Hok.
  unfold arrToArrObj, frames_text. rewrite map_map. apply map_ext_in.
  intros o Ho. rewrite forallb_forall in Hok. specialize (Hok o Ho).
  destruct (frame_key_get o Hok) as [Hk _].
  apply decode_frame; assumption.
Qed.

End RoundTrip.

(** C1.  ShortJSON round trip.  For every list of well-formed frames (an own
    [key] matching [[A-Za-z]+], every other property a flag named by
    [[a-z]+] and set to [true]), decoding the encoding gives the list back:
    frame by frame the same properties with the same values, and literally
    the same list when each frame enumerates its key first.  The empty list
    encodes to the empty string, and the empty string decodes to the empty
    list. *)
Theorem shortjson_round_trip :
  (forall L : list obj,
      forallb frame_ok L = true ->
      Forall2 (@Permutation (str * jsval))
        (ShortJSON.arrToArrObj
           (ShortJSON.sjnToArr (ShortJSON.arrToSJN (ShortJSON.arrObjToArr L))))
        L)
  /\ (forall L : list obj,
         forallb frame_ok L = true -> forallb key_first L = true ->
         ShortJSON.arrToArrObj
           (ShortJSON.sjnToArr (ShortJSON.arrToSJN (ShortJSON.arrObjToArr L)))
         = L)
  /\ ShortJSON.arrToSJN (ShortJSON.arrObjToArr []) = []
  /\ ShortJSON.arrToArrObj (ShortJSON.sjnToArr []) = [].
Proof.
  split; [|split; [|split; reflexivity]].
  - intros L Hok. rewrite decode_encode by exact Hok.
    induction L as [|o L IH]; [constructor|].
    simpl in Hok. apply andb_true_iff in Hok. destruct Hok as [Ho HL].
    cbn [map]. constructor; [|apply IH; exact HL].
    apply frame_as_key_and_flags; [exact Ho|].
    apply frame_key_get; exact Ho.
  - intros L Hok Hkf. rewrite decode_encode by exact Hok.
    induction L as [|o L IH]; [reflexivity|].
    simpl in Hok, Hkf. apply andb_true_iff in Hok, Hkf.
    destruct Hok as [Ho HL], Hkf as [Hko HkL].
    cbn [map]. f_equal; [|apply IH; assumption].
    apply frame_key_first_shape; [exact Ho|exact Hko|].
    apply frame_key_get; exact Ho.
Qed.

Lemma shortjson_round_trip_witness :
  forallb frame_ok sample_frames = true
  /\ Forall2 (@Permutation (str * jsval))
       (ShortJSON.arrToArrObj
          (ShortJSON.sjnToArr
             (ShortJSON.arrToSJN (ShortJSON.arrObjToArr sample_frames))))
       sample_frames.
Proof.
  split; [reflexivity|].
  apply (proj1 shortjson_round_trip sample_frames). reflexivity.
Defined.

(** ** Output composition *)

Section Composition.
Import OutputMgr.

Lemma build_ask_rest (total : nat) (qs : list str) (ndx : nat) (buf : str) :
  buf <> [] -> S ndx + length qs = total ->
  forEachNdx
    (fun outBuffer s ndx =>
       if length outBuffer =? 0 then s
       else if ndx =? 0 then outBuffer ++ pauseStr ++ s
       else if ndx =? total - 1 then outBuffer ++ lit " or " ++ s
       else outBuffer ++ lit ", " ++ s)
    qs (S ndx) buf
  = buf ++ ask_tail qs.
Proof.
  revert ndx buf. induction qs as [|q qs IH]; intros ndx buf Hb Hlen;
    cbn [forEachNdx].
  - cbn [ask_tail]. rewrite app_nil_r. reflexivity.
  - destruct buf as [|c buf]; [congruence|].
    change (length (c :: buf) =? 0) with false.
    change (S ndx =? 0) with false. cbv iota.
    cbn [length] in Hlen.
    destruct qs as [|q' qs].
    + cbn [forEachNdx ask_tail]. cbn [length] in Hlen.
      replace (total - 1) with (S ndx) by lia.
      rewrite Nat.eqb_refl. reflexivity.
    + replace (S ndx =? total - 1) with false
        by (symmetry; apply Nat.eqb_neq; cbn [length] in Hlen; lia).
      rewrite IH; [|discriminate|cbn [length] in *; lia].
      change (ask_tail (q :: q' :: qs))
        with (lit ", " ++ q ++ ask_tail (q' :: qs)).
      rewrite <- !app_assoc. reflexivity.
Qed.

Lemma build_ask_after_say (q1 : str) (qs : list str) (buf : str) :
  buf <> [] ->
  build_ask (q1 :: qs) buf = buf ++ pauseStr ++ q1 ++ ask_tail qs.
Proof.
  intros Hb. unfold build_ask. cbn [forEachNdx].
  destruct buf as [|c buf]; [congruence|].
  change (length (c :: buf) =? 0) with false.
  change (0 =? 0) with true. cbv iota.
  rewrite (build_ask_rest (length (q1 :: qs))).
  - rewrite <- !app_assoc. reflexivity.
  - discriminate.
  - reflexivity.
Qed.

Lemma build_ask_alone (q1 : str) (qs : list str) :
  q1 <> [] -> build_ask (q1 :: qs) [] = q1 ++ ask_tail qs.
Proof.
  intros Hq. unfold build_ask. cbn [forEachNdx].
  change (length (@nil ascii) =? 0) with true. cbv iota.
  apply (build_ask_rest (length (q1 :: qs))); [exact Hq|reflexivity].
Qed.

(** Without an ampersand there is nothing for the last replacement to
    do. *)
Lemma replace_amp_none (s : str) (prev : option ascii) :
  ~ In "&"%char s -> replace_all_from re_amp (lit " and ") 0 prev s = s.
Proof.
  revert prev. induction s as [|a s IH]; intros prev Hs; [reflexivity|].
  cbn [replace_all_from].
  assert (Hm : re_amp prev (a :: s) = None).
  { unfold re_amp. destruct s as [|b [|c s]]; try reflexivity.
    destruct (Ascii.eqb b "&") eqn:E.
    - apply Ascii.eqb_eq in E. subst b. elim Hs. right; left; reflexivity.
    - rewrite andb_false_r. reflexivity. }
  rewrite Hm. f_equal. apply IH. intros H. apply Hs. right; exact H.
Qed.

End Composition.

(** C7, as the code has it.  On a flush with ask fragments [q1; q2; ...; qn]
    the buffer built from the two queues is: the composed say queue, the
    500 ms pause, [q1] and the remaining fragments, each after a comma, the
    last after [or], when the composed say queue is not empty; with an
    empty say queue it starts with [q1] and has no pause.  What is sent is
    this buffer, wrapped in [prosody] if a spoken rate is set, with every
    ampersand between spaces spelled out. *)
Theorem ask_buffer_composition (o : OutputMgr.t) (q1 : str) (qs : list str) :
  OutputMgr.askQueue o = q1 :: qs ->
  let said := OutputMgr.build_say (OutputMgr.sayQueue o) [] in
  let composed := OutputMgr.build_ask (OutputMgr.askQueue o) said in
  (said <> [] -> composed = said ++ OutputMgr.pauseStr ++ q1 ++ ask_tail qs)
  /\ (said = [] -> q1 <> [] -> composed = q1 ++ ask_tail qs)
  /\ OutputMgr.outBuffer (snd (OutputMgr.sendFromQueue o None))
     = replace_all re_amp (lit " and ")
         (match OutputMgr.spokenRate o with
          | Some rate => if nonempty rate then OutputMgr.prosody rate composed
                         else composed
          | None => composed
          end)
  /\ (OutputMgr.spokenRate o = None -> ~ In "&"%char composed ->
      OutputMgr.outBuffer (snd (OutputMgr.sendFromQueue o None)) = composed).
Proof.
  intros Hq said composed. subst composed. rewrite Hq.
  split; [|split; [|split]].
  - intros Hs. apply build_ask_after_say. exact Hs.
  - intros Hs Hq1. rewrite Hs. apply build_ask_alone. exact Hq1.
  - unfold OutputMgr.sendFromQueue. cbn [snd OutputMgr.outBuffer].
    rewrite Hq. reflexivity.
  - intros Hrate Hamp. unfold OutputMgr.sendFromQueue.
    cbn [snd OutputMgr.outBuffer]. rewrite Hq, Hrate.
    apply replace_amp_none. exact Hamp.
Qed.

Lemma ask_buffer_composition_witness :
  OutputMgr.build_ask (OutputMgr.askQueue sample_output)
    (OutputMgr.build_say (OutputMgr.sayQueue sample_output) [])
  = lit "Sure." ++ OutputMgr.pauseStr ++ lit "p1" ++ lit ", p2 or p3".
Proof.
  apply (proj1 (ask_buffer_composition sample_output (lit "p1")
                  [lit "p2"; lit "p3"] eq_refl)).
  discriminate.
Defined.

(** C7 as the spec states it fails on an empty say queue: three prompts and
    nothing said give [p1, p2 or p3], with no pause before [p1]. *)
Lemma ask_buffer_pause_counterexample :
  let o := OutputMgr.mk None 1.02 [] [lit "p1"; lit "p2"; lit "p3"] true true in
  OutputMgr.outBuffer (snd (OutputMgr.sendFromQueue o None)) = lit "p1, p2 or p3"
  /\ indexOf (OutputMgr.outBuffer (snd (OutputMgr.sendFromQueue o None)))
       OutputMgr.pauseStr = None.
Proof. split; reflexivity. Qed.

(** ** Phrase equivalents *)

Section PhraseEquivalents.
Import ScriptParser.

Lemma alternatives_loop (item phrase : str) (pos phraseNdx : nat)
  (set : list str) (ndx : nat) (us : list str) :
  forEachNdx
    (fun userSpeech phraseToInclude phraseToIncludeNdx =>
       if phraseToIncludeNdx =? phraseNdx then userSpeech
       else userSpeech ++ [_interpolate item phrase pos phraseToInclude])
    set ndx us
  = us ++ alternatives item phrase pos phraseNdx set ndx.
Proof.
  revert ndx us. induction set as [|p set IH]; intros ndx us;
    cbn [forEachNdx alternatives].
  - rewrite app_nil_r. reflexivity.
  - rewrite IH. destruct (ndx =? phraseNdx).
    + reflexivity.
    + rewrite <- app_assoc. reflexivity.
Qed.

Lemma per_phrase_loop (item : str) (set phrases : list str) (ndx : nat)
  (us : list str) :
  forEachNdx
    (fun userSpeech phrase phraseNdx =>
       match indexOf (toLowerCase item) (toLowerCase phrase) with
       | None => userSpeech
       | Some phrasePos =>
           forEachNdx
             (fun userSpeech phraseToInclude phraseToIncludeNdx =>
                if phraseToIncludeNdx =? phraseNdx then userSpeech
                else userSpeech
                     ++ [_interpolate item phrase phrasePos phraseToInclude])
             set 0 userSpeech
       end)
    phrases ndx us
  = us ++ per_phrase item set phrases ndx.
Proof.
  revert ndx us. induction phrases as [|phrase rest IH]; intros ndx us;
    cbn [forEachNdx per_phrase].
  - rewrite app_nil_r. reflexivity.
  - rewrite IH.
    destruct (indexOf (toLowerCase item) (toLowerCase phrase)) as [pos|].
    + rewrite alternatives_loop, <- app_assoc. reflexivity.
    + reflexivity.
Qed.

(** One item only appends, and what it appends depends on the item alone. *)
Lemma expand_item_appends (pe : list (list str)) (item : str) (us : list str) :
  expand_item pe item us = us ++ expansions pe item.
Proof.
  unfold expand_item, expansions. revert us.
  induction pe as [|set pe IH]; intros us; cbn [fold_left flat_map].
  - rewrite app_nil_r. reflexivity.
  - rewrite per_phrase_loop, IH, <- app_assoc. reflexivity.
Qed.

Lemma expand_from_spec (pe : list (list str)) (us : list str) (todo ndx : nat)
  (added : list str) :
  ndx + todo = length us ->
  expand_from pe todo ndx (us ++ added)
  = us ++ added ++ flat_map (expansions pe) (skipn ndx us).
Proof.
  revert ndx added. induction todo as [|todo IH]; intros ndx added Hlen;
    cbn [expand_from].
  - rewrite skipn_all2 by lia. cbn [flat_map]. rewrite app_nil_r. reflexivity.
  - rewrite nth_error_app1 by lia.
    destruct (nth_error us ndx) as [item|] eqn:Hnth.
    + rewrite expand_item_appends, <- app_assoc.
      rewrite IH by lia.
      assert (Hs : skipn ndx us = item :: skipn (S ndx) us).
      { clear - Hnth. revert ndx Hnth.
        induction us as [|u us IHu]; intros [|ndx] Hnth; try discriminate.
        - injection Hnth as ->. reflexivity.
        - apply (IHu ndx Hnth). }
      rewrite Hs. cbn [flat_map]. rewrite <- !app_assoc. reflexivity.
    + apply nth_error_None in Hnth. lia.
Qed.

Lemma forPhraseEquivalents_spec (pe : list (list str)) (us : list str) :
  forPhraseEquivalents pe us = us ++ flat_map (expansions pe) us.
Proof.
  unfold forPhraseEquivalents.
  rewrite <- (app_nil_r us) at 2.
  rewrite expand_from_spec by reflexivity. reflexivity.
Qed.

Lemma flat_map_pointwise_perm {A B : Type} (f g : A -> list B) (l : list A) :
  (forall x, Permutation (f x) (g x)) ->
  Permutation (flat_map f l) (flat_map g l).
Proof.
  intros H. induction l as [|x l IH]; cbn [flat_map]; [constructor|].
  apply Permutation_app; [apply H|exact IH].
Qed.

Lemma forPhraseEquivalents_perm (pe pe' : list (list str)) (us : list str) :
  Permutation pe pe' ->
  Permutation (forPhraseEquivalents pe us) (forPhraseEquivalents pe' us).
Proof.
  intros Hp. rewrite !forPhraseEquivalents_spec.
  apply Permutation_app_head. apply flat_map_pointwise_perm.
  intros item. unfold expansions. apply Permutation_flat_map. exact Hp.
Qed.

End PhraseEquivalents.

(** C9.  Expanding with the sets [[A; B]] then [[C; D]] gives the same
    utterances, counted with their multiplicity, as expanding with
    [[C; D]] then [[A; B]].  The expansion is one pass: the result is the
    given list followed by the expansions of the given utterances, so an
    utterance produced on the way is never expanded itself. *)
Theorem phrase_equivalents_commute (A B C D : str) (userSpeech : list str) :
  Permutation
    (ScriptParser.forPhraseEquivalents [[A; B]; [C; D]] userSpeech)
    (ScriptParser.forPhraseEquivalents [[C; D]; [A; B]] userSpeech)
  /\ forall phraseEquivalents,
       ScriptParser.forPhraseEquivalents phraseEquivalents userSpeech
       = userSpeech ++ flat_map (expansions phraseEquivalents) userSpeech.
Proof.
  split.
  - apply forPhraseEquivalents_perm. apply perm_swap.
  - intros pe. apply forPhraseEquivalents_spec.
Qed.

(** The statement is about one pass over both sets, which is how
    [_registerIntentDef] expands.  Two passes, one per set, are another
    matter: the second pass expands what the first produced, and the order
    of the passes shows. *)
Remark phrase_equivalents_two_passes :
  ScriptParser.forPhraseEquivalents [[lit "y"; lit "z"]]
    (ScriptParser.forPhraseEquivalents [[lit "x"; lit "y"]] [lit "x"])
  = [lit "x"; lit "y"; lit "z"]
  /\ ScriptParser.forPhraseEquivalents [[lit "x"; lit "y"]]
       (ScriptParser.forPhraseEquivalents [[lit "y"; lit "z"]] [lit "x"])
     = [lit "x"; lit "y"].
Proof. split; reflexivity. Qed.

(** ** Slot extraction *)

Section SlotExtraction.
Import ScriptParser.

Lemma starts_with_app (x b : str) : starts_with x (x ++ b) = true.
Proof.
  induction x as [|c x IH]; [reflexivity|].
  cbn [starts_with app]. rewrite Ascii.eqb_refl. exact IH.
Qed.

Lemma starts_with_split (t s : str) :
  starts_with t s = true -> s = t ++ skipn (length t) s.
Proof.
  revert s. induction t as [|c t IH]; intros [|d s] H; try reflexivity;
    try discriminate.
  cbn [starts_with] in H. apply andb_true_iff in H. destruct H as [E H].
  apply Ascii.eqb_eq in E. subst d. cbn [length skipn app]. f_equal.
  apply IH. exact H.
Qed.

(** A text that occurs in a string is found by [indexOf]. *)
Lemma indexOf_occurs (a x b : str) : indexOf (a ++ x ++ b) x <> None.
Proof.
  induction a as [|c a IH].
  - cbn [app]. destruct (x ++ b) eqn:E.
    + cbn [indexOf]. pose proof (starts_with_app x b) as H. rewrite E in H.
      rewrite H. discriminate.
    + cbn [indexOf]. pose proof (starts_with_app x b) as H. rewrite E in H.
      rewrite H. discriminate.
  - cbn [app indexOf]. destruct (starts_with x (c :: a ++ x ++ b));
      [discriminate|].
    destruct (indexOf (a ++ x ++ b) x); [discriminate|congruence].
Qed.

Lemma give_back_to_spec (t s : str) (e e' : nat) :
  give_back_to t s e = Some e' ->
  e' <= e /\ starts_with t (skipn e' s) = true.
Proof.
  induction e as [|e IH]; cbn [give_back_to].
  - destruct (starts_with t (skipn 0 s)) eqn:E; [|discriminate].
    intros H; injection H as <-. auto.
  - destruct (starts_with t (skipn (S e) s)) eqn:E.
    + intros H; injection H as <-. auto.
    + intros H. destruct (IH H) as [Hle Hs]. split; [lia|exact Hs].
Qed.

Lemma run_firstn (p : ascii -> bool) (s : str) (e : nat) :
  e <= run p s -> forallb p (firstn e s) = true /\ length (firstn e s) = e.
Proof.
  revert e. induction s as [|c s IH]; intros e He; cbn [run] in He.
  - replace e with 0 by lia. auto.
  - destruct e as [|e]; [auto|]. destruct (p c) eqn:Hc; [|lia].
    destruct (IH e) as [Hf Hl]; [lia|].
    cbn [firstn forallb length]. rewrite Hc, Hf, Hl. auto.
Qed.

(** What the pattern of [extractParamsFromSpeech] matches: a bar, letters,
    a closing brace. *)
Lemma re_var_shape (prev : option ascii) (s : str) (n : nat) :
  re_var prev s = Some n ->
  exists w, firstn n s = lit "|" ++ w ++ lit "}"
            /\ all_chars is_alpha w = true.
Proof.
  unfold re_var. destruct s as [|c body]; [discriminate|].
  destruct (Ascii.eqb c "|") eqn:Ec; [|discriminate].
  apply Ascii.eqb_eq in Ec. subst c.
  destruct (give_back_to (lit "}") body (run is_alpha body)) as [e|] eqn:Hg;
    [|discriminate].
  intros H; injection H as <-.
  destruct (give_back_to_spec _ _ _ _ Hg) as [Hle Hs].
  destruct (run_firstn is_alpha body e Hle) as [Hal Hlen].
  exists (firstn e body). split; [|exact Hal].
  apply starts_with_split in Hs.
  rewrite <- (firstn_skipn e body) at 1. rewrite Hs.
  change (1 + e + 1) with (S (e + 1)). cbn [firstn]. change (lit "|") with ["|"%char].
  cbn [app]. f_equal.
  rewrite firstn_app, Hlen.
  rewrite firstn_all2 by (rewrite Hlen; lia).
  replace (e + 1 - e) with 1 by lia. reflexivity.
Qed.

Lemma match_all_from_occurs (m : matcher) (skip : nat) (prev : option ascii)
  (s x : str) :
  In x (match_all_from m skip prev s) ->
  exists a b prev' n, s = a ++ b /\ m prev' b = Some n /\ x = firstn n b.
Proof.
  revert skip prev. induction s as [|c s IH]; intros skip prev Hin;
    [contradiction|].
  cbn [match_all_from] in Hin.
  assert (Hrec : forall k pv, In x (match_all_from m k pv s) ->
            exists a b prev' n, c :: s = a ++ b /\ m prev' b = Some n
                                /\ x = firstn n b).
  { intros k pv H. destruct (IH k pv H) as (a & b & pv' & n & E & Hm & Hx).
    exists (c :: a), b, pv', n. rewrite E. auto. }
  destruct skip as [|k]; [|eapply Hrec; exact Hin].
  destruct (m prev (c :: s)) as [[|n]|] eqn:Hm;
    try (eapply Hrec; exact Hin).
  destruct Hin as [E|Hin]; [|eapply Hrec; exact Hin].
  exists [], (c :: s), prev, (S n). auto.
Qed.

Lemma obj_keys_set (o : obj) (q : str) (v : jsval) (p : str) :
  In p (obj_keys (obj_set o q v)) -> p = q \/ In p (obj_keys o).
Proof.
  induction o as [|[r w] o IH]; cbn [obj_set obj_keys map fst].
  - intros [E|[]]. left; congruence.
  - destruct (str_eqb r q) eqn:E; cbn [map fst].
    + intros [H|H]; right; [left; exact H|right; exact H].
    + intros [H|H]; [right; left; exact H|].
      destruct (IH H) as [H'|H']; [left; exact H'|right; right; exact H'].
Qed.

Lemma tl_removelast_var (w : str) :
  removelast (tl (lit "|" ++ w ++ lit "}")) = w.
Proof.
  change (tl (lit "|" ++ w ++ lit "}")) with (w ++ lit "}").
  apply removelast_last.
Qed.

(** The names a list of matched texts can add to the map. *)
Lemma extract_inner (kt : keyTypes) (vars : list str) (acc : obj) (name : str) :
  In name
    (obj_keys
       (fold_left
          (fun expectedParams extractedVar =>
             let ev := removelast (tl extractedVar) in
             if length ev =? 0 then expectedParams
             else if declared kt ev then
               match lookup kt ev with
               | Some k => obj_set expectedParams ev (param_type k)
               | None => expectedParams
               end
             else expectedParams)
          vars acc)) ->
  In name (obj_keys acc)
  \/ (name <> [] /\ declared kt name = true
      /\ exists x, In x vars /\ removelast (tl x) = name).
Proof.
  revert acc. induction vars as [|x vars IH]; intros acc Hin;
    cbn [fold_left] in Hin; [left; exact Hin|].
  apply IH in Hin. destruct Hin as [Hin|(Hne & Hd & y & Hy & E)].
  - cbv zeta in Hin.
    destruct (length (removelast (tl x)) =? 0) eqn:Hl; [left; exact Hin|].
    destruct (declared kt (removelast (tl x))) eqn:Hd; [|left; exact Hin].
    destruct (lookup kt (removelast (tl x))) as [k|]; [|left; exact Hin].
    apply obj_keys_set in Hin. destruct Hin as [E|Hin]; [|left; exact Hin].
    right. subst name. split; [|split; [exact Hd|]].
    + intros E. rewrite E in Hl. discriminate.
    + exists x. split; [left; reflexivity|reflexivity].
  - right. split; [exact Hne|]. split; [exact Hd|].
    exists y. split; [right; exact Hy|exact E].
Qed.

Lemma extract_sound (kt : keyTypes) (us : list str) (acc : obj) (name : str) :
  In name
    (obj_keys
       (fold_left
          (fun expectedParams speechStr =>
             fold_left
               (fun expectedParams extractedVar =>
                  let ev := removelast (tl extractedVar) in
                  if length ev =? 0 then expectedParams
                  else if declared kt ev then
                    match lookup kt ev with
                    | Some k => obj_set expectedParams ev (param_type k)
                    | None => expectedParams
                    end
                  else expectedParams)
               (match_all re_var speechStr) expectedParams)
          us acc)) ->
  In name (obj_keys acc)
  \/ (alpha_word name = true /\ declared kt name = true
      /\ exists u, In u us /\ indexOf u (lit "|" ++ name ++ lit "}") <> None).
Proof.
  revert acc. induction us as [|u us IH]; intros acc Hin;
    cbn [fold_left] in Hin; [left; exact Hin|].
  apply IH in Hin. destruct Hin as [Hin|(Ha & Hd & v & Hv & Hi)].
  - apply extract_inner in Hin.
    destruct Hin as [Hin|(Hne & Hd & x & Hx & E)]; [left; exact Hin|].
    right. unfold match_all in Hx. apply match_all_from_occurs in Hx.
    destruct Hx as (a & b & pv & n & Hu & Hm & Hxb).
    destruct (re_var_shape pv b n Hm) as (w & Hw & Hal).
    rewrite <- Hxb in Hw. rewrite Hw, tl_removelast_var in E. subst w.
    split; [|split; [exact Hd|]].
    + unfold alpha_word. rewrite Hal. destruct name; [congruence|reflexivity].
    + exists u. split; [left; reflexivity|].
      rewrite <- Hw, Hxb, Hu.
      rewrite <- (firstn_skipn n b) at 1.
      apply indexOf_occurs.
  - right. split; [exact Ha|]. split; [exact Hd|].
    exists v. split; [right; exact Hv|exact Hi].
Qed.

End SlotExtraction.

(** C8, as the code has it.  Every slot name in the map returned by
    [extractParamsFromSpeech], other than a name that every object inherits
    (such as [constructor]: under such a name the table gives a value
    though nothing was declared), is a non-empty run of letters that the
    key-type table declares and that occurs in one of the utterances it was
    given, the produced ones, as a bar, the name and a closing brace.  The
    parsing steps hand it the table and the utterances as slot rewriting and
    phrase expansion leave them. *)
Theorem slot_extraction_sound (kt : ScriptParser.keyTypes)
  (userSpeech : list str) (name : str) :
  In name (obj_keys (ScriptParser.extractParamsFromSpeech kt userSpeech)) ->
  inherited name = false ->
  alpha_word name = true
  /\ ScriptParser.declared kt name = true
  /\ (exists u, In u userSpeech
                /\ indexOf u (lit "|" ++ name ++ lit "}") <> None)
  /\ forall getNumAsStr fuel kt0 phraseEquivalents authored kt' produced slots,
       ScriptParser.registerIntentDef_params getNumAsStr fuel kt0
         phraseEquivalents authored = Some (kt', produced, slots) ->
       slots = ScriptParser.extractParamsFromSpeech kt' produced.
Proof.
  intros Hin _. unfold ScriptParser.extractParamsFromSpeech in Hin.
  apply extract_sound in Hin. destruct Hin as [[]|(Ha & Hd & Hu)].
  split; [exact Ha|]. split; [exact Hd|]. split; [exact Hu|].
  intros g fuel kt0 pe authored kt' produced slots.
  unfold ScriptParser.registerIntentDef_params.
  destruct (ScriptParser.forPunctuation g fuel authored); [|discriminate].
  destruct (ScriptParser.forSlots fuel kt0 l) as [[k u]|]; [|discriminate].
  intros H; injection H as <- <- <-. reflexivity.
Qed.

Lemma slot_extraction_sound_witness :
  alpha_word (lit "city") = true
  /\ ScriptParser.declared sample_keyTypes (lit "city") = true.
Proof.
  pose proof (slot_extraction_sound sample_keyTypes sample_speech (lit "city"))
    as H.
  destruct H as (H1 & H2 & _).
  - left. reflexivity.
  - reflexivity.
  - split; [exact H1|exact H2].
Defined.

(** C8 as the spec states it fails: the parsing steps return the slot
    [city] for this utterance, in which [[[city]]] does not occur. *)
Lemma slot_extraction_counterexample :
  ScriptParser.registerIntentDef_params (fun num => num) 10 sample_keyTypes []
    sample_speech
  = Some (sample_keyTypes, sample_speech,
          [(lit "city", JStr (lit "AMAZON.US_CITY"))])
  /\ forall u, In u sample_speech -> indexOf u (lit "[[city]]") = None.
Proof.
  split; [reflexivity|].
  intros u [<-|[]]. reflexivity.
Qed.

(** ** Intent dispatch *)

Section Dispatch.
Import ConversationEngine InputMgr.

(** Depth [i] from the top is position [i] of the reversed array. *)
Lemma topInArr_rev {A : Type} (arr : list A) (i : nat) :
  topInArr arr (Z.of_nat i) = nth_error (rev arr) i.
Proof.
  unfold topInArr. rewrite nth_error_rev.
  destruct (length arr =? 0) eqn:E0.
  - apply Nat.eqb_eq in E0. rewrite E0. cbn [orb].
    destruct (i <? 0) eqn:E; [apply Nat.ltb_lt in E; lia|reflexivity].
  - cbn [orb]. destruct (Z.of_nat (length arr) <=? Z.of_nat i)%Z eqn:E.
    + apply Z.leb_le in E.
      destruct (i <? length arr) eqn:E'; [apply Nat.ltb_lt in E'; lia|reflexivity].
    + apply Z.leb_gt in E.
      destruct (i <? length arr) eqn:E'; [|apply Nat.ltb_ge in E'; lia].
      f_equal. lia.
Qed.

Lemma skipn_nth_cons {A : Type} (l : list A) (i : nat) (x : A) :
  nth_error l i = Some x -> skipn i l = x :: skipn (S i) l.
Proof.
  revert i. induction l as [|y l IH]; intros [|i] H; try discriminate.
  - injection H as ->. reflexivity.
  - apply (IH i H).
Qed.

Lemma walk_goals_spec (t : turn) (defs : list intentDef) (fuel i : nat) :
  length (getGoalStates t) <= fuel + i ->
  walk_goals (S fuel) t defs (Z.of_nat i)
  = Some (walk_spec defs (skipn i (rev (getGoalStates t)))).
Proof.
  revert i. induction fuel as [|fuel IH]; intros i Hlen;
    cbn [walk_goals]; unfold mostRecentGoalStates; rewrite topInArr_rev.
  - rewrite skipn_all2 by (rewrite length_rev; lia).
    destruct (nth_error (rev (getGoalStates t)) i) as [frame|] eqn:Hn;
      [|reflexivity].
    assert (Hsome : nth_error (rev (getGoalStates t)) i <> None) by congruence.
    apply nth_error_Some in Hsome. rewrite length_rev in Hsome. lia.
  - destruct (nth_error (rev (getGoalStates t)) i) as [frame|] eqn:Hn.
    + rewrite (skipn_nth_cons _ _ _ Hn). cbn [walk_spec].
      destruct (first_scoped defs frame); [reflexivity|].
      replace (Z.of_nat i + 1)%Z with (Z.of_nat (S i)) by lia.
      apply IH. lia.
    + apply nth_error_None in Hn. rewrite skipn_all2 by exact Hn. reflexivity.
Qed.

Lemma walk_spec_found (defs : list intentDef) (fs : list obj) (depth : nat)
  (frame : obj) (d : intentDef) :
  nth_error fs depth = Some frame ->
  first_scoped defs frame = Some d ->
  (forall depth' frame', depth' < depth -> nth_error fs depth' = Some frame' ->
                         first_scoped defs frame' = None) ->
  walk_spec defs fs = Some d.
Proof.
  revert depth. induction fs as [|f fs IH]; intros [|depth] Hn Hd Hup;
    try discriminate.
  - injection Hn as ->. cbn [walk_spec]. rewrite Hd. reflexivity.
  - cbn [walk_spec]. rewrite (Hup 0 f) by (auto; lia).
    apply (IH depth); [exact Hn|exact Hd|].
    intros depth' frame' Hlt Hn'. apply (Hup (S depth') frame'); [lia|exact Hn'].
Qed.

Lemma walk_spec_none (defs : list intentDef) (fs : list obj) :
  (forall depth frame, nth_error fs depth = Some frame ->
                       first_scoped defs frame = None) ->
  walk_spec defs fs = None.
Proof.
  induction fs as [|f fs IH]; intros H; [reflexivity|].
  cbn [walk_spec]. rewrite (H 0 f eq_refl). apply IH.
  intros depth frame Hn. apply (H (S depth) frame Hn).
Qed.

Lemma select_several (t : turn) (d0 d1 : intentDef) (rest : list intentDef) :
  select_intent t (d0 :: d1 :: rest)
  = match walk_spec (d0 :: d1 :: rest) (rev (getGoalStates t)) with
    | Some d => Some (d, false)
    | None => Some (d0, true)
    end.
Proof.
  unfold select_intent.
  rewrite (walk_goals_spec t _ _ 0) by lia. reflexivity.
Qed.

Lemma first_scoped_spec (defs : list intentDef) (frame : obj) (d : intentDef) :
  first_scoped defs frame = Some d <->
  exists pre post, defs = pre ++ d :: post /\ goal_matches d frame = true
                   /\ forall d', In d' pre -> goal_matches d' frame = false.
Proof.
  split.
  - induction defs as [|e defs IH]; [discriminate|]. cbn [first_scoped].
    destruct (goal_matches e frame) eqn:E.
    + intros H; injection H as ->. exists [], defs. split; [reflexivity|].
      split; [exact E|]. intros d' [].
    + intros H. destruct (IH H) as (pre & post & -> & Hm & Hpre).
      exists (e :: pre), post. split; [reflexivity|]. split; [exact Hm|].
      intros d' [<-|Hd']; [exact E|apply Hpre; exact Hd'].
  - intros (pre & post & -> & Hm & Hpre).
    induction pre as [|e pre IH]; cbn [app first_scoped].
    + rewrite Hm. reflexivity.
    + rewrite (Hpre e) by (left; reflexivity). apply IH.
      intros d' Hd'. apply Hpre. right; exact Hd'.
Qed.

Lemma goal_matches_spec (d : intentDef) (frame : obj) :
  goal_matches d frame = true <->
  exists g, goal d = Some g /\ g <> [] /\ obj_get frame (lit "key") = JStr g.
Proof.
  unfold goal_matches. split.
  - destruct (goal d) as [g|]; [|discriminate].
    destruct (obj_get frame (lit "key")) as [| |k]; try discriminate.
    rewrite andb_true_iff, str_eqb_eq. intros [Hn <-].
    exists g. split; [reflexivity|]. split; [|reflexivity].
    intros ->. discriminate.
  - intros (g & -> & Hn & ->). rewrite str_eqb_refl, andb_true_r.
    destruct g; [congruence|reflexivity].
Qed.

End Dispatch.

(** C6.  With exactly one definition, that definition is chosen whatever the
    stack.  With several, the stack is walked from the top down and the
    choice is the first definition (in registration order) whose goal is the
    key of the frame at the current depth, for the first depth that has such
    a definition; when no frame has one, the first definition is chosen and
    the warning is logged.  A goal counts when it is a non-empty name equal
    to the frame's key. *)
Theorem intent_dispatch_selection (t : ConversationEngine.turn)
  (intentDefArr : list InputMgr.intentDef) :
  (forall d, intentDefArr = [d] ->
             InputMgr.select_intent t intentDefArr = Some (d, false))
  /\ (2 <= length intentDefArr ->
      (forall depth frame d,
          ConversationEngine.mostRecentGoalStates t (Z.of_nat depth) = Some frame ->
          InputMgr.first_scoped intentDefArr frame = Some d ->
          (forall depth' frame',
              depth' < depth ->
              ConversationEngine.mostRecentGoalStates t (Z.of_nat depth')
              = Some frame' ->
              InputMgr.first_scoped intentDefArr frame' = None) ->
          InputMgr.select_intent t intentDefArr = Some (d, false))
      /\ ((forall depth frame,
              ConversationEngine.mostRecentGoalStates t (Z.of_nat depth)
              = Some frame ->
              InputMgr.first_scoped intentDefArr frame = None) ->
          forall d0, hd_error intentDefArr = Some d0 ->
                     InputMgr.select_intent t intentDefArr = Some (d0, true)))
  /\ (forall frame d,
         InputMgr.first_scoped intentDefArr frame = Some d <->
         exists pre post,
           intentDefArr = pre ++ d :: post
           /\ InputMgr.goal_matches d frame = true
           /\ forall d', In d' pre -> InputMgr.goal_matches d' frame = false)
  /\ (forall d frame,
         InputMgr.goal_matches d frame = true <->
         exists g, InputMgr.goal d = Some g /\ g <> []
                   /\ obj_get frame (lit "key") = JStr g).
Proof.
  split; [|split; [|split]].
  - intros d ->. reflexivity.
  - intros Hlen.
    destruct intentDefArr as [|d0 [|d1 rest]]; cbn [length] in Hlen; try lia.
    split.
    + intros depth frame d Hn Hd Hup. rewrite select_several.
      unfold ConversationEngine.mostRecentGoalStates in Hn, Hup.
      rewrite topInArr_rev in Hn.
      rewrite (walk_spec_found _ _ depth frame d Hn Hd); [reflexivity|].
      intros depth' frame' Hlt Hn'. apply (Hup depth' frame' Hlt).
      rewrite topInArr_rev. exact Hn'.
    + intros Hnone e He. injection He as <-. rewrite select_several.
      rewrite walk_spec_none; [reflexivity|].
      intros depth frame Hn. apply (Hnone depth frame).
      unfold ConversationEngine.mostRecentGoalStates.
      rewrite topInArr_rev. exact Hn.
  - intros frame d. apply first_scoped_spec.
  - intros d frame. apply goal_matches_spec.
Qed.

Lemma intent_dispatch_selection_witness :
  InputMgr.select_intent stack_A_B yes_defs
  = Some (yes_for (Some (lit "B")), false).
Proof.
  apply (proj1 (proj1 (proj2 (intent_dispatch_selection stack_A_B yes_defs))
                  (le_S _ _ (le_n 2)))
           0 [(lit "key", JStr (lit "B"))]).
  - reflexivity.
  - reflexivity.
  - intros depth' frame' Hlt. inversion Hlt.
Defined.

(** ** The counter of questions *)

Section Asked.
Import ConversationEngine Callback InputMgr.
Local Open Scope Q_scope.

Lemma clearGoal_output (t : turn) (k : jsval) :
  outputMgr (clearGoal t k) = outputMgr t.
Proof.
  unfold clearGoal. destruct (negb (truthy k)); [reflexivity|].
  destruct (_ =? _)%nat; reflexivity.
Qed.

Lemma update_output (t : turn) (ndx : Z) (o : obj) :
  outputMgr (updateMostRecentGoalStates t ndx o) = outputMgr t.
Proof.
  unfold updateMostRecentGoalStates.
  destruct (updateArr (getGoalStates t) ndx o); reflexivity.
Qed.

Lemma perform_asked (t : turn) (a : action) :
  asked_of (perform t a) == asked_of t
  \/ asked_of (perform t a) == asked_of t + 0.34
  \/ asked_of (perform t a) == asked_of t + 1.
Proof.
  unfold asked_of.
  destruct a; cbn [perform set_output outputMgr OutputMgr.asked OutputMgr.say
                     OutputMgr.prompt OutputMgr.ask addGoal appendGoal set_goals
                     clearAllGoals setGoalStates set_changed];
    try (left; reflexivity).
  - right; left; reflexivity.
  - right; right; reflexivity.
  - left. rewrite clearGoal_output. reflexivity.
Qed.

Lemma perform_asked_mono (t : turn) (a : action) :
  asked_of t <= asked_of (perform t a).
Proof.
  destruct (perform_asked t a) as [H|[H|H]]; rewrite H; lra.
Qed.

Lemma perform_all_asked_mono (acts : list action) (t : turn) :
  asked_of t <= asked_of (fold_left perform acts t).
Proof.
  revert t. induction acts as [|a acts IH]; intros t; cbn [fold_left].
  - lra.
  - pose proof (perform_asked_mono t a). pose proof (IH (perform t a)). lra.
Qed.

Lemma resolveGoal_asked (cb : resolver) (k : jsval) (t : turn) :
  asked_of (resolveGoal cb k t) = asked_of (fst (call cb t)).
Proof.
  unfold resolveGoal. destruct (call cb t) as [t1 r]. cbn [fst].
  destruct (succeeded r); [|reflexivity].
  unfold removeGoal, asked_of. rewrite clearGoal_output. reflexivity.
Qed.

Lemma resolveGoal_asked_mono (cb : resolver) (k : jsval) (t : turn) :
  asked_of t <= asked_of (resolveGoal cb k t).
Proof.
  rewrite resolveGoal_asked. unfold call. cbn [fst].
  apply perform_all_asked_mono.
Qed.

(** What one round of the loop does to the counter, seen from the turn the
    round works on. *)
Lemma loop_body_asked (goals : registeredGoals) (l : loop) :
  asked_of (tn (loop_body goals l)) == asked_of (tn l)
  \/ asked_of (tn (loop_body goals l)) == asked_of (tn l) + 0.34
  \/ asked_of (tn (loop_body goals l)) == asked_of (tn l) + 1
  \/ exists k def cb t,
       lookup goals k = Some def /\ resolve def = Some cb
       /\ asked_of t = asked_of (tn l)
       /\ asked_of (tn (loop_body goals l)) = asked_of (fst (call cb t)).
Proof.
  unfold loop_body.
  set (t := if goalStateChanged (tn l) then set_changed (tn l) false else tn l).
  assert (Ht : asked_of t = asked_of (tn l)).
  { subst t. destruct (goalStateChanged (tn l)); reflexivity. }
  destruct (mostRecentGoalStates t _) as [gws|]; cbn [tn];
    [|left; rewrite Ht; reflexivity].
  destruct (same_object _ _); cbn [tn]; [left; rewrite Ht; reflexivity|].
  destruct (lookup goals _) as [def|] eqn:Hdef; cbn [tn];
    [|left; rewrite Ht; reflexivity].
  destruct (resolve def) as [cb|] eqn:Hcb.
  - right; right; right.
    exists (to_string (obj_get gws (lit "key"))), def, cb, t.
    split; [exact Hdef|]. split; [exact Hcb|]. split; [exact Ht|].
    apply resolveGoal_asked.
  - destruct (goalDefQueryable def); [|left; rewrite Ht; reflexivity].
    destruct (truthy _); [left; rewrite Ht; reflexivity|].
    unfold asked_of. rewrite update_output. fold (asked_of t).
    destruct (prompt def), (ask def);
      cbn [set_output outputMgr OutputMgr.prompt OutputMgr.ask OutputMgr.asked];
      fold (asked_of t); rewrite Ht.
    + right; left; reflexivity.
    + right; left; reflexivity.
    + right; right; left; reflexivity.
    + left; reflexivity.
Qed.

Lemma loop_body_asked_mono (goals : registeredGoals) (l : loop) :
  asked_of (tn l) <= asked_of (tn (loop_body goals l)).
Proof.
  destruct (loop_body_asked goals l)
    as [H|[H|[H|(k & def & cb & t & _ & _ & Ht & H)]]];
    try (rewrite H; lra).
  rewrite H, <- Ht. unfold call. cbn [fst]. apply perform_all_asked_mono.
Qed.

Lemma loop_cond_asked (l : loop) : loop_cond l = true -> asked_of (tn l) < 1.
Proof.
  unfold loop_cond, asked_of.
  destruct (Qlt_le_dec _ 1) as [H|H]; [auto|discriminate].
Qed.

Lemma loop_cond_stops (l : loop) : 1 <= asked_of (tn l) -> loop_cond l = false.
Proof.
  unfold loop_cond, asked_of. intros H.
  destruct (Qlt_le_dec _ 1) as [H'|H']; [lra|reflexivity].
Qed.

Lemma loop_body_below_two (goals : registeredGoals) (l : loop) :
  all_resolvers modest goals -> loop_cond l = true ->
  asked_of (tn (loop_body goals l)) < 2.
Proof.
  intros Hm Hc. apply loop_cond_asked in Hc.
  destruct (loop_body_asked goals l)
    as [H|[H|[H|(k & def & cb & t & Hdef & Hcb & Ht & H)]]];
    try (rewrite H; lra).
  rewrite H. pose proof (Hm k def cb Hdef Hcb t) as Hle. rewrite Ht in Hle. lra.
Qed.

Lemma loop_after_below_two (goals : registeredGoals) (n : nat) (l : loop) :
  all_resolvers modest goals -> asked_of (tn l) < 2 ->
  asked_of (tn (loop_after goals n l)) < 2.
Proof.
  intros Hm. revert l. induction n as [|n IH]; intros l Hl; cbn [loop_after];
    [exact Hl|].
  destruct (loop_cond l) eqn:Hc; [|exact Hl].
  apply IH. apply loop_body_below_two; assumption.
Qed.

Lemma loop_after_asked_mono (goals : registeredGoals) (n : nat) (l : loop) :
  asked_of (tn l) <= asked_of (tn (loop_after goals n l)).
Proof.
  revert l. induction n as [|n IH]; intros l; cbn [loop_after]; [lra|].
  destruct (loop_cond l); [|lra].
  pose proof (loop_body_asked_mono goals l). pose proof (IH (loop_body goals l)).
  lra.
Qed.

(** A loop that completes ends in one of the states [loop_after] lists, with
    the condition false. *)
Lemma promiseWhile_loop_after (goals : registeredGoals) (fuel : nat) (l l' : loop)
  (n : nat) :
  promiseWhile fuel loop_cond (loop_body goals) l = Some (l', n) ->
  l' = loop_after goals n l /\ loop_cond l' = false.
Proof.
  revert l l' n. induction fuel as [|fuel IH]; intros l l' n;
    cbn [promiseWhile]; destruct (loop_cond l) eqn:Hc; try discriminate.
  - intros H; injection H as <- <-. auto.
  - destruct (promiseWhile fuel loop_cond (loop_body goals) (loop_body goals l))
      as [[l1 n1]|] eqn:Hp; [|discriminate].
    intros H; injection H as <- <-. cbn [loop_after]. rewrite Hc.
    apply IH. exact Hp.
  - intros H; injection H as <- <-. auto.
Qed.

End Asked.

(** C4, as the code has it.  A turn starts with the counter at 0; [ask]
    adds exactly 1 and [prompt] exactly 0.34; nothing a callback or the
    loop does lowers it; once it has reached 1 the loop runs no further
    round.  If every resolver adds at most 1 per call, the counter stays
    below 2 in every round from a start below 2, and it is below 2 when
    [_followGoals] completes a turn that it entered with the counter
    below 1, as at the start of a turn. *)
Theorem at_most_one_question :
  (forall o, OutputMgr.asked (OutputMgr.initialize o) = 0%Q)
  /\ (forall o f, OutputMgr.asked (OutputMgr.ask o f) = (OutputMgr.asked o + 1)%Q)
  /\ (forall o f,
         OutputMgr.asked (OutputMgr.prompt o f) = (OutputMgr.asked o + 0.34)%Q)
  /\ (forall t a, (asked_of t <= asked_of (Callback.perform t a))%Q)
  /\ (forall goals n l,
         (asked_of (InputMgr.tn l)
          <= asked_of (InputMgr.tn (loop_after goals n l)))%Q)
  /\ (forall l, (1 <= asked_of (InputMgr.tn l))%Q -> InputMgr.loop_cond l = false)
  /\ (forall goals t,
         all_resolvers modest goals -> (asked_of t < 2)%Q ->
         forall n,
           (asked_of (InputMgr.tn (loop_after goals n (InputMgr.loop_start t)))
            < 2)%Q)
  /\ (forall goals t goalName intentResolveCB,
         all_resolvers modest goals ->
         (forall cb, intentResolveCB = Some cb -> modest cb) ->
         (asked_of t < 1)%Q ->
         forall fuel l n,
           InputMgr._followGoals fuel goals t goalName intentResolveCB
           = Some (l, n) ->
           (asked_of (InputMgr.tn l) < 2)%Q).
Proof.
  split; [reflexivity|]. split; [reflexivity|]. split; [reflexivity|].
  split; [apply perform_asked_mono|].
  split; [intros; apply loop_after_asked_mono|].
  split; [apply loop_cond_stops|].
  split.
  - intros goals t Hm Ht n. apply loop_after_below_two; assumption.
  - intros goals t goalName trigger Hm Htrig Ht fuel l n H.
    unfold InputMgr._followGoals in H.
    apply promiseWhile_loop_after in H. destruct H as [-> _].
    apply loop_after_below_two; [exact Hm|].
    cbn [InputMgr.loop_start InputMgr.tn].
    destruct trigger as [cb|]; [|lra].
    rewrite resolveGoal_asked. pose proof (Htrig cb eq_refl t). lra.
Qed.


(** ** The size of the stack *)

Section StackSize.
Import ShortJSON ConversationEngine Callback InputMgr.

Lemma countc_app (c : ascii) (a b : str) :
  countc c (a ++ b) = countc c a + countc c b.
Proof. unfold countc. rewrite filter_app, length_app. reflexivity. Qed.

Lemma countc_skipn_le (c : ascii) (n : nat) (s : str) :
  countc c (skipn n s) <= countc c s.
Proof.
  rewrite <- (firstn_skipn n s) at 2. rewrite countc_app. lia.
Qed.




Lemma shrinks_refl (s : str) : shrinks s s.
Proof. split; lia. Qed.


Lemma find_first_pos (m : matcher) (prev : option ascii) (s : str) (i n : nat) :
  find_first m prev s = Some (i, n) ->
  i <= length s /\ exists prev', m prev' (skipn i s) = Some n.
Proof.
  revert prev i. induction s as [|c s IH]; intros prev i; cbn [find_first].
  - destruct (m prev []) eqn:E; [|discriminate].
    intros H; injection H as <- <-. split; [lia|]. exists prev. exact E.
  - destruct (m prev (c :: s)) eqn:E.
    + intros H; injection H as <- <-. split; [lia|]. exists prev. exact E.
    + destruct (find_first m (Some c) s) as [[j k]|] eqn:Hf; [|discriminate].
      intros H; injection H as <- <-.
      destruct (IH _ _ Hf) as [Hj Hm]. cbn [length skipn]. split; [lia|exact Hm].
Qed.

(** Deleting a match cannot add frames. *)
Lemma replace_first_delete_shrinks (m : matcher) (s : str) :
  shrinks (replace_first m [] s) s.
Proof.
  unfold replace_first.
  destruct (find_first m None s) as [[i n]|]; [|apply shrinks_refl].
  cbn [app]. split.
  - rewrite length_app, length_firstn, length_skipn. lia.
  - rewrite countc_app.
    assert (E : skipn (i + n) s = skipn n (skipn i s))
      by (rewrite skipn_skipn; f_equal; lia).
    rewrite E. pose proof (countc_skipn_le ";" n (skipn i s)) as Hle.
    assert (Hs : countc ";" s
                 = countc ";" (firstn i s) + countc ";" (skipn i s))
      by (rewrite <- countc_app, firstn_skipn; reflexivity).
    lia.
Qed.

Lemma replace_double_shrinks (s : str) :
  shrinks (replace_first (re_lit (lit ";;")) (lit ";") s) s.
Proof.
  unfold replace_first.
  destruct (find_first (re_lit (lit ";;")) None s) as [[i n]|] eqn:Hf;
    [|apply shrinks_refl].
  destruct (find_first_pos _ _ _ _ _ Hf) as [Hi [prev' Hm]].
  unfold re_lit in Hm.
  destruct (starts_with (lit ";;") (skipn i s)) eqn:Hs; [|discriminate].
  injection Hm as <-. apply starts_with_split in Hs.
  change (length (lit ";;")) with 2 in *.
  rewrite skipn_skipn in Hs.
  assert (Hlen : length (skipn i s) = 2 + length (skipn (2 + i) s)).
  { rewrite Hs at 1. rewrite length_app. reflexivity. }
  rewrite !length_skipn in Hlen.
  replace (i + 2) with (2 + i) by lia.
  split.
  - rewrite !length_app, length_firstn, length_skipn.
    change (length (lit ";")) with 1. lia.
  - rewrite !countc_app.
    assert (Hc : countc ";" s
                 = countc ";" (firstn i s) + countc ";" (skipn i s))
      by (rewrite <- countc_app, firstn_skipn; reflexivity).
    rewrite Hs, countc_app in Hc.
    change (countc ";" (lit ";")) with 1.
    change (countc ";" (lit ";;")) with 2 in Hc. lia.
Qed.

















Lemma set_nth_length {A : Type} (l : list A) (i : nat) (x : A) :
  length (set_nth l i x) = length l.
Proof.
  revert i. induction l as [|y l IH]; intros [|i]; cbn [set_nth length];
    try reflexivity.
  rewrite IH. reflexivity.
Qed.

Lemma set_nth_Forall {A : Type} (P : A -> Prop) (l : list A) (i : nat) (x : A) :
  Forall P l -> P x -> Forall P (set_nth l i x).
Proof.
  intros Hl Hx. revert i. induction Hl as [|y l Hy Hl IH]; intros [|i];
    cbn [set_nth]; constructor; auto.
Qed.





End StackSize.

(** ** Termination of the goal loop *)

Section Termination.
Import ShortJSON ConversationEngine Callback InputMgr.




Lemma promiseWhile_step {St : Type} (cond : St -> bool) (body : St -> St)
  (fuel : nat) (s : St) :
  promiseWhile (S fuel) cond body s
  = if cond s then
      match promiseWhile fuel cond body (body s) with
      | Some (s', n) => Some (s', S n)
      | None => None
      end
    else Some (s, 0).
Proof. reflexivity. Qed.


Lemma loop_body_older (goals : registeredGoals) (l : loop) :
  remembered_is_older l -> remembered_is_older (loop_body goals l).
Proof.
  unfold remembered_is_older, loop_body. intros H.
  destruct (mostRecentGoalStates _ _);
    cbn [lastGoalWithState allocated];
    [|destruct (lastGoalWithState l); [lia|exact I]].
  destruct (same_object _ _); cbn [lastGoalWithState allocated];
    [destruct (lastGoalWithState l); [lia|exact I]|].
  destruct (lookup goals _); cbn [lastGoalWithState allocated]; lia.
Qed.

(** So the test for a frame seen before never succeeds. *)
Lemma seen_before_never (l : loop) :
  remembered_is_older l ->
  same_object (allocated l) (lastGoalWithState l) = false.
Proof.
  unfold remembered_is_older, same_object.
  destruct (lastGoalWithState l) as [r|]; [|reflexivity].
  intros H. apply Nat.eqb_neq. lia.
Qed.

Lemma join_snoc (sep x : str) (l : list str) :
  l <> [] -> join sep (l ++ [x]) = join sep l ++ sep ++ x.
Proof.
  induction l as [|y l IH]; intros Hne; [congruence|].
  destruct l as [|z l]; [reflexivity|].
  change (join sep ((y :: z :: l) ++ [x]))
    with (y ++ sep ++ join sep ((z :: l) ++ [x])).
  rewrite IH by discriminate.
  change (join sep (y :: z :: l)) with (y ++ sep ++ join sep (z :: l)).
  rewrite <- !app_assoc. reflexivity.
Qed.






Lemma loop_after_older (goals : registeredGoals) (n : nat) (l : loop) :
  remembered_is_older l -> remembered_is_older (loop_after goals n l).
Proof.
  revert l. induction n as [|n IH]; intros l H; cbn [loop_after]; [exact H|].
  destruct (loop_cond l); [|exact H].
  apply IH. apply loop_body_older. exact H.
Qed.

End Termination.





Lemma flight_goals_modest : all_resolvers modest flight_goals.
Proof.
  intros k def cb Hl Hr. unfold flight_goals in Hl. cbn [lookup] in Hl.
  repeat (destruct (str_eqb _ k);
          [injection Hl as <-; cbn in Hr; try discriminate Hr;
           injection Hr as <-; intros t'; unfold asked_of; cbn; lra|]).
  discriminate Hl.
Qed.

Lemma at_most_one_question_witness :
  (asked_of (InputMgr.tn (loop_after flight_goals 4
                            (InputMgr.loop_start flight_stack))) < 2)%Q.
Proof.
  apply (proj1 (proj2 (proj2 (proj2 (proj2 (proj2 (proj2 at_most_one_question))))))
           flight_goals flight_stack flight_goals_modest eq_refl).
Defined.

(** C4 as the spec states it fails for a resolver that asks twice: the loop
    completes after one round with the counter at 2. *)
Lemma at_most_one_question_counterexample :
  exists l,
    InputMgr._followGoals 5 greedy_goals stack_g JUndefined None = Some (l, 1)
    /\ (asked_of (InputMgr.tn l) == 2)%Q
    /\ ~ (asked_of (InputMgr.tn l) < 2)%Q.
Proof.
  eexists. split; [reflexivity|]. split; [reflexivity|].
  intros H. discriminate H.
Qed.

(** ** Scanning the encoded stack *)

Section Scanning.
Import ShortJSON.

Lemma find_first_skip (m : matcher) (prev : option ascii) (region rest : str) :
  no_match m prev region rest ->
  find_first m prev (region ++ rest)
  = shift (length region) (find_first m (last_char prev region) rest).
Proof.
  revert prev. induction region as [|c region IH]; intros prev H.
  - cbn [app length last_char]. destruct (find_first m prev rest) as [[i n]|];
      reflexivity.
  - destruct H as [Hc Hr]. cbn [app find_first]. rewrite Hc.
    rewrite (IH (Some c) Hr). cbn [last_char length].
    destruct (find_first m (last_char (Some c) region) rest) as [[i n]|];
      reflexivity.
Qed.

Lemma no_match_app (m : matcher) (prev : option ascii) (a b rest : str) :
  no_match m prev a (b ++ rest) -> no_match m (last_char prev a) b rest ->
  no_match m prev (a ++ b) rest.
Proof.
  revert prev. induction a as [|c a IH]; intros prev Ha Hb.
  - exact Hb.
  - destruct Ha as [Hc Ha]. cbn [app no_match]. split.
    + rewrite <- app_assoc. exact Hc.
    + apply IH; assumption.
Qed.

Lemma last_char_app (prev : option ascii) (a b : str) :
  last_char prev (a ++ b) = last_char (last_char prev a) b.
Proof.
  revert prev. induction a as [|c a IH]; intros prev; [reflexivity|].
  cbn [app last_char]. apply IH.
Qed.

Lemma char_before_end (prev : option ascii) (a rest : str) :
  char_before prev (a ++ rest) (length a) = last_char prev a.
Proof.
  revert prev. induction a as [|c a IH]; intros prev; [reflexivity|].
  cbn [length last_char]. rewrite <- (IH (Some c)).
  destruct a as [|d a]; [reflexivity|]. reflexivity.
Qed.

Lemma skipn_app_exact {A : Type} (a b : list A) : skipn (length a) (a ++ b) = b.
Proof. induction a as [|x a IH]; [reflexivity|exact IH]. Qed.

Lemma firstn_app_exact {A : Type} (a b : list A) : firstn (length a) (a ++ b) = a.
Proof. induction a as [|x a IH]; [reflexivity|cbn; f_equal; exact IH]. Qed.

(** Character classes. *)
Lemma alpha_is_word (c : ascii) : is_alpha c = true -> is_word c = true.
Proof. intros H. unfold is_word. rewrite H. reflexivity. Qed.

Lemma alpha_not_colon (c : ascii) : is_alpha c = true -> Ascii.eqb c ":" = false.
Proof.
  intros H. destruct (Ascii.eqb c ":") eqn:E; [|reflexivity].
  apply Ascii.eqb_eq in E. subst c. discriminate H.
Qed.

Lemma alpha_not_semi (c : ascii) : is_alpha c = true -> Ascii.eqb c ";" = false.
Proof.
  intros H. destruct (Ascii.eqb c ";") eqn:E; [|reflexivity].
  apply Ascii.eqb_eq in E. subst c. discriminate H.
Qed.

Lemma ends_word_not_alpha (c : ascii) (rest : str) :
  ends_word (c :: rest) -> is_alpha c = false.
Proof.
  cbn [ends_word]. intros H. destruct (is_alpha c) eqn:E; [|reflexivity].
  apply alpha_is_word in E. congruence.
Qed.

(** A run of letters that starts a text which then ends the word starts
    the word itself. *)
Lemma starts_with_word (k w rest : str) :
  all_chars is_alpha k = true -> ends_word rest ->
  starts_with k (w ++ rest) = true -> exists w', w = k ++ w'.
Proof.
  revert w. induction k as [|c k IH]; intros w Hk Hrest Hs.
  - exists w. reflexivity.
  - cbn [all_chars forallb] in Hk. apply andb_true_iff in Hk.
    destruct Hk as [Hc Hk].
    destruct w as [|d w].
    + cbn [app] in Hs. destruct rest as [|e rest]; [discriminate|].
      cbn [starts_with] in Hs. apply andb_true_iff in Hs. destruct Hs as [E _].
      apply Ascii.eqb_eq in E. subst e.
      apply ends_word_not_alpha in Hrest. congruence.
    + cbn [app starts_with] in Hs. apply andb_true_iff in Hs.
      destruct Hs as [E Hs]. apply Ascii.eqb_eq in E. subst d.
      destruct (IH w Hk Hrest Hs) as [w' ->]. exists w'. reflexivity.
Qed.

Lemma ends_frame_word (rest : str) : ends_frame rest -> ends_word rest.
Proof. destruct rest as [|c rest]; [auto|]. cbn. intros ->. reflexivity. Qed.

Lemma give_back_now (prev : option ascii) (s : str) (e : nat) :
  word_boundary (char_before prev s e) (skipn e s) = true ->
  give_back prev s e = Some e.
Proof. intros H. destruct e; cbn [give_back]; rewrite H; reflexivity. Qed.

Lemma last_char_alpha (prev : option ascii) (w : str) :
  alpha_word w = true ->
  exists c, last_char prev w = Some c /\ is_alpha c = true.
Proof.
  unfold alpha_word, all_chars. rewrite andb_true_iff. intros [Hn Hw].
  destruct w as [|d w]; [discriminate|]. clear Hn.
  cbn [forallb] in Hw. apply andb_true_iff in Hw. destruct Hw as [Hd Hw].
  cbn [last_char]. revert d Hd Hw.
  induction w as [|e w IH]; intros d Hd Hw.
  - exists d. auto.
  - cbn [forallb] in Hw. apply andb_true_iff in Hw. destruct Hw as [He Hw].
    cbn [last_char]. apply IH; assumption.
Qed.

Lemma last_char_attrs (c : ascii) (fs : list str) :
  is_alpha c = true -> Forall (fun f => lower_word f = true) fs ->
  exists c', last_char (Some c) (attrs_text fs) = Some c' /\ is_alpha c' = true.
Proof.
  intros Hc Hfs. revert c Hc. induction Hfs as [|f fs Hf Hfs IH]; intros c Hc.
  - exists c. auto.
  - unfold attrs_text. cbn [map concat]. fold (attrs_text fs).
    rewrite <- app_assoc, !last_char_app.
    destruct (last_char_alpha (last_char (Some c) (lit ":")) f
                (lower_word_alpha f Hf)) as (d & Hd & Had).
    rewrite Hd. apply IH. exact Had.
Qed.

Lemma lower_not_colon (c : ascii) : is_lower c = true -> Ascii.eqb c ":" = false.
Proof. intros H. apply alpha_not_colon. apply lower_is_alpha. exact H. Qed.

Lemma attr_run_flag (f more : str) :
  all_chars is_lower f = true ->
  attr_run true (f ++ more) = length f + attr_run true more.
Proof.
  induction f as [|c f IH]; intros Hf; [reflexivity|].
  cbn [all_chars forallb] in Hf. apply andb_true_iff in Hf.
  destruct Hf as [Hc Hf]. cbn [app attr_run length].
  rewrite (lower_not_colon c Hc), Hc. cbn [andb]. rewrite (IH Hf). reflexivity.
Qed.

Lemma attr_run_attrs (opened : bool) (fs : list str) (rest : str) :
  Forall (fun f => lower_word f = true) fs -> ends_frame rest ->
  attr_run opened (attrs_text fs ++ rest) = length (attrs_text fs).
Proof.
  intros Hfs Hrest. revert opened.
  induction Hfs as [|f fs Hf Hfs IH]; intros opened.
  - cbn [attrs_text map concat app length].
    destruct rest as [|c rest]; [reflexivity|].
    cbn [ends_frame] in Hrest. subst c. cbn [attr_run].
    destruct opened; reflexivity.
  - unfold attrs_text. cbn [map concat]. fold (attrs_text fs).
    change (lit ":") with [":"%char]. cbn [app attr_run]. rewrite Ascii.eqb_refl.
    rewrite <- app_assoc. rewrite attr_run_flag.
    + rewrite IH. cbn [length]. rewrite !length_app. reflexivity.
    + unfold lower_word in Hf. apply andb_true_iff in Hf. tauto.
Qed.

Lemma frame_text_attrs (k : str) (fs : list str) :
  frame_text k fs = k ++ attrs_text fs.
Proof.
  unfold frame_text. revert k. induction fs as [|f fs IH]; intros k.
  - cbn. rewrite app_nil_r. reflexivity.
  - change (join (lit ":") (k :: f :: fs))
      with (k ++ lit ":" ++ join (lit ":") (f :: fs)).
    rewrite IH. unfold attrs_text. cbn [map concat].
    rewrite <- !app_assoc. reflexivity.
Qed.

Section Clearing.

Variable k : str.
Hypothesis Hk : alpha_word k = true.

Lemma k_chars : all_chars is_alpha k = true.
Proof. apply alpha_word_chars. exact Hk. Qed.

Lemma k_head : exists c k', k = c :: k' /\ is_alpha c = true.
Proof.
  pose proof k_chars as H. destruct k as [|c k']; [discriminate Hk|].
  cbn [all_chars forallb] in H. apply andb_true_iff in H.
  exists c, k'. tauto.
Qed.

(** No match starts inside a word. *)
Lemma clear_inside_word (c : ascii) (u rest : str) :
  is_word c = true -> all_chars is_alpha u = true ->
  no_match (re_clear k) (Some c) u rest.
Proof.
  revert c. induction u as [|d u IH]; intros c Hc Hu; [exact I|].
  cbn [all_chars forallb] in Hu. apply andb_true_iff in Hu.
  destruct Hu as [Hd Hu]. cbn [no_match]. split.
  - unfold re_clear, word_boundary. cbn [opt_word hd_error].
    rewrite Hc, (alpha_is_word d Hd). reflexivity.
  - apply IH; [apply alpha_is_word; exact Hd|exact Hu].
Qed.

(** No match starts at a separator. *)
Lemma clear_at_separator (prev : option ascii) (sep : ascii) (rest : str) :
  is_alpha sep = false -> re_clear k prev (sep :: rest) = None.
Proof.
  intros Hs. destruct k_head as (c & k' & -> & Hc).
  unfold re_clear. cbn [starts_with].
  destruct (Ascii.eqb c sep) eqn:E.
  - apply Ascii.eqb_eq in E. subst sep. congruence.
  - cbn [andb]. rewrite andb_false_r. reflexivity.
Qed.

(** No match starts at a word other than the name. *)
Lemma clear_at_other_word (prev : option ascii) (w rest : str) :
  alpha_word w = true -> w <> k -> ends_word rest ->
  re_clear k prev (w ++ rest) = None.
Proof.
  intros Hw Hne Hrest. unfold re_clear.
  destruct (word_boundary prev (w ++ rest)); [|reflexivity]. cbn [andb].
  destruct (starts_with k (w ++ rest)) eqn:Hs; [|reflexivity].
  destruct (starts_with_word k w rest k_chars Hrest Hs) as [w' ->].
  destruct w' as [|d w']; [rewrite app_nil_r in Hne; congruence|].
  rewrite <- app_assoc. rewrite skipn_app_exact, char_before_end.
  assert (Hd : is_alpha d = true).
  { apply alpha_word_chars in Hw. unfold all_chars in Hw.
    rewrite forallb_app in Hw. apply andb_true_iff in Hw.
    destruct Hw as [_ Hw]. cbn [forallb] in Hw.
    apply andb_true_iff in Hw. tauto. }
  cbn [app attr_run]. rewrite (alpha_not_colon d Hd). cbn [andb give_back].
  destruct (last_char_alpha prev k Hk) as (c & Hc & Hac). rewrite Hc.
  unfold word_boundary. cbn [char_before skipn opt_word hd_error].
  rewrite (alpha_is_word c Hac), (alpha_is_word d Hd). reflexivity.
Qed.

Lemma clear_other_word (prev : option ascii) (w rest : str) :
  alpha_word w = true -> w <> k -> ends_word rest ->
  no_match (re_clear k) prev w rest.
Proof.
  intros Hw Hne Hrest. pose proof (clear_at_other_word prev w rest Hw Hne Hrest) as H0.
  pose proof (alpha_word_chars w Hw) as Hc.
  destruct w as [|d u]; [exact I|].
  cbn [all_chars forallb] in Hc. apply andb_true_iff in Hc.
  destruct Hc as [Hd Hu]. cbn [no_match]. split; [exact H0|].
  apply clear_inside_word; [apply alpha_is_word; exact Hd|exact Hu].
Qed.

(** No match in a frame none of whose words is the name, nor at the
    semicolon after it. *)
Lemma clear_other_frame (prev : option ascii) (w : str) (ws : list str)
  (rest : str) :
  Forall (fun x => alpha_word x = true /\ x <> k) (w :: ws) ->
  no_match (re_clear k) prev (frame_text w ws ++ lit ";") rest.
Proof.
  revert prev w. induction ws as [|w1 ws IH]; intros prev w Hall;
    inversion Hall as [|? ? [Hw Hne] Hall']; subst.
  - unfold frame_text. cbn [join]. apply no_match_app.
    + apply clear_other_word; [exact Hw|exact Hne|reflexivity].
    + cbn [no_match]. split; [|exact I].
      apply clear_at_separator. reflexivity.
  - unfold frame_text.
    change (join (lit ":") (w :: w1 :: ws))
      with (w ++ lit ":" ++ frame_text w1 ws).
    rewrite <- !app_assoc. apply no_match_app.
    + apply clear_other_word; [exact Hw|exact Hne|reflexivity].
    + change (lit ":") with [":"%char]. cbn [app no_match]. split.
      * apply clear_at_separator. reflexivity.
      * apply IH. exact Hall'.
Qed.

Lemma clear_other_frames (prev : option ascii) (frames : list (str * list str))
  (rest : str) :
  Forall (fun kf => Forall (fun x => alpha_word x = true /\ x <> k)
                      (fst kf :: snd kf)) frames ->
  no_match (re_clear k) prev
    (prefix_text (map (fun kf => frame_text (fst kf) (snd kf)) frames)) rest.
Proof.
  intros Hall. revert prev. induction Hall as [|[w ws] frames Hf Hall IH];
    intros prev; [exact I|].
  unfold prefix_text. cbn [map concat fst snd].
  apply no_match_app; [apply clear_other_frame; exact Hf|apply IH].
Qed.

(** The pattern matches a frame with that key whole: the key and all its
    flags. *)
Lemma clear_at_frame (prev : option ascii) (fs : list str) (rest : str) :
  opt_word prev = false ->
  Forall (fun f => lower_word f = true) fs -> ends_frame rest ->
  re_clear k prev (frame_text k fs ++ rest) = Some (length (frame_text k fs)).
Proof.
  intros Hprev Hfs Hrest. rewrite frame_text_attrs, <- app_assoc.
  destruct k_head as (c0 & k0 & Ek & Hc0).
  unfold re_clear.
  assert (Hb : word_boundary prev (k ++ attrs_text fs ++ rest) = true).
  { unfold word_boundary. rewrite Hprev, Ek. cbn [app hd_error opt_word].
    rewrite (alpha_is_word c0 Hc0). reflexivity. }
  rewrite Hb, starts_with_app. cbn [andb].
  rewrite skipn_app_exact, char_before_end.
  rewrite (attr_run_attrs false fs rest Hfs Hrest).
  destruct (last_char_alpha prev k Hk) as (c & Hc & Hac). rewrite Hc.
  rewrite give_back_now.
  - rewrite length_app. reflexivity.
  - rewrite skipn_app_exact, char_before_end.
    destruct (last_char_attrs c fs Hac Hfs) as (c' & Hc' & Hac').
    rewrite Hc'. unfold word_boundary. cbn [opt_word].
    rewrite (alpha_is_word c' Hac').
    pose proof (ends_frame_word rest Hrest) as Hw.
    destruct rest as [|d rest]; [reflexivity|].
    cbn [ends_word] in Hw. cbn [hd_error opt_word]. rewrite Hw. reflexivity.
Qed.

End Clearing.

(** *** The clean-up replacements *)

Lemma find_first_here (m : matcher) (prev : option ascii) (s : str) (n : nat) :
  m prev s = Some n -> find_first m prev s = Some (0, n).
Proof. intros H. destruct s; cbn [find_first]; rewrite H; reflexivity. Qed.

Lemma tidy_app_piece (w x : str) : no_semi w -> tidy (w ++ x) = tidy x.
Proof.
  induction w as [|c w IH]; intros Hw; [reflexivity|].
  cbn [app tidy]. destruct (Ascii.eqb c ";") eqn:E.
  - apply Ascii.eqb_eq in E. subst c. elim Hw. left; reflexivity.
  - cbn [andb]. apply IH. intros H. apply Hw. right; exact H.
Qed.

Lemma join_head (w : str) (texts : list str) :
  piece w ->
  exists c s, join (lit ";") (w :: texts) = c :: s /\ Ascii.eqb c ";" = false.
Proof.
  intros [Hne Hns]. destruct w as [|c w]; [congruence|].
  assert (Hc : Ascii.eqb c ";" = false).
  { destruct (Ascii.eqb c ";") eqn:E; [|reflexivity].
    apply Ascii.eqb_eq in E. subst c. elim Hns. left; reflexivity. }
  destruct texts as [|w' texts].
  - exists c, w. auto.
  - exists c, (w ++ lit ";" ++ join (lit ";") (w' :: texts)). auto.
Qed.

Lemma join_tidy (texts : list str) :
  Forall piece texts -> tidy (join (lit ";") texts) = true.
Proof.
  induction 1 as [|w texts Hw Hall IH]; [reflexivity|].
  destruct texts as [|w' texts].
  - cbn [join]. rewrite <- (app_nil_r w). rewrite tidy_app_piece by apply Hw.
    reflexivity.
  - change (join (lit ";") (w :: w' :: texts))
      with (w ++ lit ";" ++ join (lit ";") (w' :: texts)).
    rewrite tidy_app_piece by apply Hw.
    inversion Hall as [|? ? Hw' _]; subst.
    destruct (join_head w' texts Hw') as (c & s & E & Hc).
    rewrite E in *. change (lit ";") with [";"%char]. cbn [app tidy].
    cbn [tidy] in IH. rewrite Hc. cbn [negb andb].
    rewrite Hc in IH. exact IH.
Qed.

Lemma tidy_no_double (prev : option ascii) (s rest : str) :
  tidy s = true -> no_match (re_lit (lit ";;")) prev s rest.
Proof.
  revert prev. induction s as [|c s IH]; intros prev Ht; [exact I|].
  cbn [tidy] in Ht. apply andb_true_iff in Ht. destruct Ht as [Hc Ht].
  cbn [no_match]. split; [|apply IH; exact Ht].
  unfold re_lit. change (lit ";;") with [";"%char; ";"%char].
  cbn [starts_with]. rewrite (Ascii.eqb_sym ";" c).
  destruct (Ascii.eqb c ";"); [|reflexivity].
  destruct s as [|d s]; [discriminate|]. cbn [app].
  rewrite (Ascii.eqb_sym ";" d). apply negb_true_iff in Hc. rewrite Hc.
  reflexivity.
Qed.

Lemma tidy_no_semi_end (prev : option ascii) (s rest : str) :
  tidy s = true -> no_match re_semi_end prev s rest.
Proof.
  revert prev. induction s as [|c s IH]; intros prev Ht; [exact I|].
  cbn [tidy] in Ht. apply andb_true_iff in Ht. destruct Ht as [Hc Ht].
  cbn [no_match]. split; [|apply IH; exact Ht].
  unfold re_semi_end. destruct s as [|d s]; cbn [app].
  - destruct (Ascii.eqb c ";"); [discriminate|].
    destruct rest; reflexivity.
  - reflexivity.
Qed.

Lemma semi_start_later (p : ascii) (s : str) :
  find_first re_semi_start (Some p) s = None.
Proof.
  revert p. induction s as [|c s IH]; intros p; [reflexivity|].
  cbn [find_first re_semi_start]. rewrite IH. reflexivity.
Qed.

Lemma semi_start_none (c : ascii) (s : str) :
  Ascii.eqb c ";" = false -> find_first re_semi_start None (c :: s) = None.
Proof.
  intros Hc. cbn [find_first re_semi_start]. rewrite Hc, semi_start_later.
  reflexivity.
Qed.

Lemma replace_none (m : matcher) (repl s : str) :
  find_first m None s = None -> replace_first m repl s = s.
Proof. intros H. unfold replace_first. rewrite H. reflexivity. Qed.

(** Replacing a match found right after a region without one. *)
Lemma replace_first_at (m : matcher) (repl a mid b : str) :
  no_match m None a (mid ++ b) ->
  m (last_char None a) (mid ++ b) = Some (length mid) ->
  replace_first m repl (a ++ mid ++ b) = a ++ repl ++ b.
Proof.
  intros Hno Hm. unfold replace_first.
  rewrite (find_first_skip _ _ _ _ Hno), (find_first_here _ _ _ _ Hm).
  cbn [shift]. rewrite Nat.add_0_r, firstn_app_exact.
  assert (E : skipn (length a + length mid) (a ++ mid ++ b) = b).
  { rewrite <- length_app, app_assoc. apply skipn_app_exact. }
  rewrite E. reflexivity.
Qed.

(** A tidy text that does not start with a semicolon goes through the
    three replacements unchanged. *)
Lemma cleanup_tidy_end (c : ascii) (s : str) :
  Ascii.eqb c ";" = false -> tidy (c :: s) = true ->
  replace_first re_semi_start [] (replace_first re_semi_end [] (c :: s))
  = c :: s.
Proof.
  intros Hc Ht.
  rewrite (replace_none re_semi_end).
  2:{ rewrite <- (app_nil_r (c :: s)).
      rewrite (find_first_skip _ _ _ _ (tidy_no_semi_end None _ [] Ht)).
      reflexivity. }
  apply replace_none. apply semi_start_none. exact Hc.
Qed.

Lemma cleanup_tidy (c : ascii) (s : str) :
  Ascii.eqb c ";" = false -> tidy (c :: s) = true ->
  replace_first re_semi_start []
    (replace_first re_semi_end []
       (replace_first (re_lit (lit ";;")) (lit ";") (c :: s)))
  = c :: s.
Proof.
  intros Hc Ht.
  rewrite (replace_none (re_lit (lit ";;"))).
  2:{ rewrite <- (app_nil_r (c :: s)).
      rewrite (find_first_skip _ _ _ _ (tidy_no_double None _ [] Ht)).
      reflexivity. }
  apply cleanup_tidy_end; assumption.
Qed.

Lemma prefix_join (w : str) (texts : list str) :
  prefix_text (w :: texts) = join (lit ";") (w :: texts) ++ lit ";".
Proof.
  revert w. induction texts as [|w' texts IH]; intros w.
  - unfold prefix_text. cbn [map concat join]. rewrite app_nil_r. reflexivity.
  - change (prefix_text (w :: w' :: texts))
      with ((w ++ lit ";") ++ prefix_text (w' :: texts)).
    rewrite IH.
    change (join (lit ";") (w :: w' :: texts))
      with (w ++ lit ";" ++ join (lit ";") (w' :: texts)).
    rewrite <- !app_assoc. reflexivity.
Qed.

Lemma join_app_cons (A : list str) (w : str) (B : list str) :
  join (lit ";") (A ++ w :: B) = prefix_text A ++ w ++ tail_text B.
Proof.
  induction A as [|a A IH].
  - cbn [app prefix_text map concat]. destruct B as [|b B].
    + cbn [join tail_text]. rewrite app_nil_r. reflexivity.
    + reflexivity.
  - change (prefix_text (a :: A)) with ((a ++ lit ";") ++ prefix_text A).
    rewrite <- !app_assoc. rewrite <- IH.
    cbn [app]. destruct (A ++ w :: B) eqn:E.
    + destruct A; discriminate.
    + reflexivity.
Qed.

Lemma join_app (A B : list str) (a b : str) :
  join (lit ";") ((a :: A) ++ b :: B)
  = join (lit ";") (a :: A) ++ lit ";" ++ join (lit ";") (b :: B).
Proof.
  rewrite join_app_cons, prefix_join. unfold tail_text.
  destruct B as [|b' B].
  - rewrite app_nil_r, <- app_assoc. reflexivity.
  - change (join (lit ";") (b :: b' :: B))
      with (b ++ lit ";" ++ join (lit ";") (b' :: B)).
    rewrite <- !app_assoc. reflexivity.
Qed.

(** What is left when a frame is cut out is put right by the three
    replacements. *)
Lemma cleanup_after_cut (A B : list str) :
  Forall piece A -> Forall piece B ->
  replace_first re_semi_start []
    (replace_first re_semi_end []
       (replace_first (re_lit (lit ";;")) (lit ";")
          (prefix_text A ++ tail_text B)))
  = join (lit ";") (A ++ B).
Proof.
  intros HA HB. destruct A as [|a A], B as [|b B].
  - reflexivity.
  - (* the first frame went: a leading semicolon is left *)
    cbn [prefix_text map concat app tail_text].
    inversion HB as [|? ? Hb _]; subst.
    destruct (join_head b B Hb) as (c & s & E & Hc).
    pose proof (join_tidy _ HB) as Ht. rewrite E in *.
    assert (Ht' : tidy (lit ";" ++ c :: s) = true).
    { change (lit ";") with [";"%char]. cbn [app tidy]. cbn [tidy] in Ht.
      rewrite Hc in *. exact Ht. }
    rewrite (replace_none (re_lit (lit ";;"))).
    2:{ rewrite <- (app_nil_r (lit ";" ++ c :: s)).
        rewrite (find_first_skip _ _ _ _ (tidy_no_double None _ [] Ht')).
        reflexivity. }
    rewrite (replace_none re_semi_end).
    2:{ rewrite <- (app_nil_r (lit ";" ++ c :: s)).
        rewrite (find_first_skip _ _ _ _ (tidy_no_semi_end None _ [] Ht')).
        reflexivity. }
    reflexivity.
  - (* the last frame went: a trailing semicolon is left *)
    cbn [tail_text]. rewrite !app_nil_r. rewrite prefix_join.
    inversion HA as [|? ? Ha _]; subst.
    destruct (join_head a A Ha) as (c & s & E & Hc).
    pose proof (join_tidy _ HA) as Ht. rewrite E in *.
    rewrite (replace_none (re_lit (lit ";;"))).
    2:{ rewrite (find_first_skip _ _ _ _ (tidy_no_double None _ _ Ht)).
        reflexivity. }
    replace (replace_first re_semi_end [] ((c :: s) ++ lit ";")) with (c :: s).
    2:{ rewrite <- (app_nil_r (lit ";")) at 1.
        rewrite (replace_first_at re_semi_end [] (c :: s) (lit ";") []).
        - rewrite app_nil_r. reflexivity.
        - apply tidy_no_semi_end. exact Ht.
        - reflexivity. }
    apply replace_none. apply semi_start_none. exact Hc.
  - (* a frame in the middle went: two semicolons meet *)
    rewrite prefix_join. cbn [tail_text]. rewrite join_app.
    inversion HA as [|? ? Ha _]; subst.
    destruct (join_head a A Ha) as (c & s & E & Hc).
    pose proof (join_tidy _ HA) as Ht. rewrite E in *.
    set (J2 := join (lit ";") (b :: B)).
    replace (replace_first (re_lit (lit ";;")) (lit ";")
               (((c :: s) ++ lit ";") ++ lit ";" ++ J2))
      with ((c :: s) ++ lit ";" ++ J2).
    2:{ rewrite <- app_assoc.
        change (lit ";" ++ lit ";" ++ J2) with (lit ";;" ++ J2).
        rewrite (replace_first_at (re_lit (lit ";;")) (lit ";") (c :: s)
                   (lit ";;") J2).
        - reflexivity.
        - apply tidy_no_double. exact Ht.
        - reflexivity. }
    assert (Hall : tidy ((c :: s) ++ lit ";" ++ J2) = true).
    { rewrite <- E. subst J2. rewrite <- join_app. apply join_tidy.
      apply Forall_app. split; assumption. }
    apply (cleanup_tidy_end c (s ++ lit ";" ++ J2) Hc Hall).
Qed.

End Scanning.

(** ** Removing a goal *)

Section Removal.
Import ShortJSON ConversationEngine Callback InputMgr.

Lemma last_char_prefix (texts : list str) :
  opt_word (last_char None (prefix_text texts)) = false.
Proof.
  destruct texts as [|w texts]; [reflexivity|].
  rewrite prefix_join, last_char_app. reflexivity.
Qed.

Lemma tail_ends_frame (texts : list str) : ends_frame (tail_text texts).
Proof. destruct texts; [exact I|reflexivity]. Qed.

Lemma frames_pieces (L : list obj) :
  forallb frame_ok L = true -> Forall piece (frames_text L).
Proof.
  intros Hok. unfold frames_text. apply Forall_forall. intros w Hw.
  apply in_map_iff in Hw. destruct Hw as (o & <- & Ho).
  rewrite forallb_forall in Hok. specialize (Hok o Ho). split.
  - apply frame_text_nonempty. exact Hok.
  - apply frame_text_no_semi. exact Hok.
Qed.

Lemma frame_flags_lower (o : obj) :
  frame_ok o = true -> Forall (fun f => lower_word f = true) (flag_names o).
Proof.
  intros Hok. apply Forall_forall. intros f Hf.
  apply (flag_names_lower o); assumption.
Qed.

(** Cutting the leftmost frame with the key [k] out of an encoded stack,
    provided no frame before it carries a flag called [k]. *)
Lemma clearInSJN_leftmost (L1 L2 : list obj) (o : obj) (k : str) :
  forallb frame_ok (L1 ++ o :: L2) = true ->
  frame_key o = k ->
  (forall o', In o' L1 -> frame_key o' <> k /\ ~ In k (flag_names o')) ->
  clearInSJN (arrToSJN (arrObjToArr (L1 ++ o :: L2))) k
  = arrToSJN (arrObjToArr (L1 ++ L2)).
Proof.
  intros Hok Hkey Hfree.
  assert (Hok1 : forallb frame_ok L1 = true /\ frame_ok o = true
                 /\ forallb frame_ok L2 = true).
  { rewrite forallb_app in Hok. cbn [forallb] in Hok.
    rewrite !andb_true_iff in Hok. tauto. }
  destruct Hok1 as (Hok1 & Hoko & Hok2).
  assert (Hok12 : forallb frame_ok (L1 ++ L2) = true)
    by (rewrite forallb_app, Hok1, Hok2; reflexivity).
  assert (Hk : alpha_word k = true)
    by (rewrite <- Hkey; apply frame_key_get; exact Hoko).
  rewrite !encode_frames by assumption.
  unfold frames_text. rewrite !map_app. cbn [map]. rewrite Hkey.
  fold (frames_text L1). fold (frames_text L2).
  rewrite join_app_cons. unfold clearInSJN.
  rewrite (replace_first_at (re_clear k) []).
  - cbn [app]. apply cleanup_after_cut; apply frames_pieces; assumption.
  - replace (frames_text L1)
      with (map (fun kf => frame_text (fst kf) (snd kf))
              (map (fun o' => (frame_key o', flag_names o')) L1))
      by (rewrite map_map; reflexivity).
    apply clear_other_frames; [exact Hk|].
    apply Forall_forall. intros kf Hkf. apply in_map_iff in Hkf.
    destruct Hkf as (o' & <- & Ho'). cbn [fst snd].
    rewrite forallb_forall in Hok1. specialize (Hok1 o' Ho').
    destruct (Hfree o' Ho') as [Hne Hnf].
    constructor.
    + split; [apply frame_key_get; exact Hok1|exact Hne].
    + apply Forall_forall. intros f Hf. split.
      * apply lower_word_alpha. apply (flag_names_lower o'); assumption.
      * intros ->. contradiction.
  - apply clear_at_frame.
    + exact Hk.
    + apply last_char_prefix.
    + apply frame_flags_lower. exact Hoko.
    + apply tail_ends_frame.
Qed.

(** The text of a stack is longer than that of the stack without one of
    its frames. *)
Lemma join_length_cut (A B : list str) (w : str) :
  w <> [] ->
  length (join (lit ";") (A ++ B)) < length (join (lit ";") (A ++ w :: B)).
Proof.
  intros Hw. induction A as [|a A IH].
  - cbn [app]. destruct B as [|b B].
    + cbn [join length]. destruct w; [congruence|cbn; lia].
    + change (join (lit ";") (w :: b :: B))
        with (w ++ lit ";" ++ join (lit ";") (b :: B)).
      rewrite !length_app. destruct w; [congruence|cbn [length]; lia].
  - cbn [app]. destruct (A ++ w :: B) as [|x xs] eqn:E1.
    + destruct A; discriminate.
    + destruct (A ++ B) as [|y ys] eqn:E2.
      * change (join (lit ";") (a :: x :: xs))
          with (a ++ lit ";" ++ join (lit ";") (x :: xs)).
        change (join (lit ";") [a]) with a.
        rewrite !length_app. lia.
      * change (join (lit ";") (a :: x :: xs))
          with (a ++ lit ";" ++ join (lit ";") (x :: xs)).
        change (join (lit ";") (a :: y :: ys))
          with (a ++ lit ";" ++ join (lit ";") (y :: ys)).
        rewrite !length_app. lia.
Qed.

Lemma clearGoal_leftmost (t : turn) (L1 L2 : list obj) (o : obj) (k : str) :
  convoGoalState t = arrToSJN (arrObjToArr (L1 ++ o :: L2)) ->
  forallb frame_ok (L1 ++ o :: L2) = true ->
  frame_key o = k ->
  (forall o', In o' L1 -> frame_key o' <> k /\ ~ In k (flag_names o')) ->
  clearGoal t (JStr k) = set_goals t (arrToSJN (arrObjToArr (L1 ++ L2))).
Proof.
  intros Ht Hok Hkey Hfree.
  assert (Hoko : frame_ok o = true).
  { rewrite forallb_app in Hok. cbn [forallb] in Hok.
    rewrite !andb_true_iff in Hok. tauto. }
  assert (Hk : alpha_word k = true)
    by (rewrite <- Hkey; apply frame_key_get; exact Hoko).
  unfold clearGoal. cbn [truthy to_string].
  replace (nonempty k) with true
    by (destruct k; [discriminate Hk|reflexivity]).
  cbn [negb]. unfold _getGoalsRaw. rewrite Ht.
  rewrite (clearInSJN_leftmost L1 L2 o k Hok Hkey Hfree).
  destruct (_ =? _) eqn:E; [|reflexivity].
  apply Nat.eqb_eq in E. exfalso.
  assert (Hok12 : forallb frame_ok (L1 ++ L2) = true).
  { rewrite forallb_app in Hok. cbn [forallb] in Hok.
    rewrite !andb_true_iff in Hok. rewrite forallb_app.
    apply andb_true_iff. tauto. }
  rewrite !encode_frames in E by assumption.
  unfold frames_text in E. rewrite !map_app in E. cbn [map] in E.
  pose proof (join_length_cut (map (fun o0 => frame_text (frame_key o0) (flag_names o0)) L1)
                (map (fun o0 => frame_text (frame_key o0) (flag_names o0)) L2)
                (frame_text (frame_key o) (flag_names o))
                (frame_text_nonempty o Hoko)) as Hlt.
  lia.
Qed.

End Removal.

Section RemovalClaims.
Import ShortJSON ConversationEngine Callback InputMgr.

Lemma frames_of_encoded (t : turn) (L : list obj) :
  forallb frame_ok L = true ->
  frames_of (set_goals t (arrToSJN (arrObjToArr L))) = length L.
Proof.
  intros Hok. unfold frames_of, getGoalStates, _getGoalsRaw.
  cbn [set_goals convoGoalState]. rewrite decode_encode by exact Hok.
  apply length_map.
Qed.

(** The frame cut out is the deepest one with that key. *)
Lemma leftmost_is_deepest (L1 L2 : list obj) (o : obj) (k : str) :
  (forall o', In o' L1 -> frame_key o' <> k) ->
  topInArr (L1 ++ o :: L2) (Z.of_nat (length L2)) = Some o
  /\ forall depth frame,
       topInArr (L1 ++ o :: L2) (Z.of_nat depth) = Some frame ->
       frame_key frame = k -> depth <= length L2.
Proof.
  intros Hfree.
  assert (Hrev : rev (L1 ++ o :: L2) = rev L2 ++ o :: rev L1).
  { rewrite rev_app_distr. cbn [rev]. rewrite <- app_assoc. reflexivity. }
  split.
  - rewrite topInArr_rev, Hrev.
    rewrite nth_error_app2 by (rewrite length_rev; lia).
    rewrite length_rev, Nat.sub_diag. reflexivity.
  - intros depth frame Hn Hkey. rewrite topInArr_rev, Hrev in Hn.
    destruct (Nat.le_gt_cases depth (length L2)) as [Hle|Hgt]; [exact Hle|].
    exfalso. rewrite nth_error_app2 in Hn by (rewrite length_rev; lia).
    rewrite length_rev in Hn.
    destruct (depth - length L2) as [|d] eqn:Ed; [lia|].
    cbn [nth_error] in Hn. apply nth_error_In in Hn. apply in_rev in Hn.
    apply (Hfree frame Hn Hkey).
Qed.

(** A round of the loop that finds a resolver goal on a frame runs
    [resolveGoal] for the key of that frame. *)
Lemma loop_body_resolver (goals : registeredGoals) (l : loop) (gws : obj)
  (def : goalDef) (cb : resolver) :
  let t := if goalStateChanged (tn l) then set_changed (tn l) false else tn l in
  let ndx := ((if goalStateChanged (tn l) then -1 else goalNdx l) + 1)%Z in
  remembered_is_older l ->
  mostRecentGoalStates t ndx = Some gws ->
  lookup goals (to_string (obj_get gws (lit "key"))) = Some def ->
  resolve def = Some cb ->
  tn (loop_body goals l) = resolveGoal cb (obj_get gws (lit "key")) t.
Proof.
  intros t ndx Hold Htop Hdef Hcb. unfold loop_body. fold t. fold ndx.
  rewrite Htop, (seen_before_never l Hold), Hdef, Hcb. reflexivity.
Qed.

Lemma resolveGoal_unfold (cb : resolver) (k : jsval) (t : turn) :
  resolveGoal cb k t
  = if succeeded (snd (call cb t)) then removeGoal (fst (call cb t)) k
    else fst (call cb t).
Proof. unfold resolveGoal. destruct (call cb t). reflexivity. Qed.

End RemovalClaims.

(** C5, as the code has it.  In the encoding of a list of well-formed
    frames, [clearInSJN] with the key [k] cuts out the leftmost frame with
    that key together with its flags and leaves every other frame in place,
    in order and with its flags, provided no frame before it carries a flag
    called [k].  The frame cut out is the oldest with that key: the deepest
    below the top of the stack, not the nearest to the top. *)
Theorem shortjson_removal_leftmost (L1 L2 : list obj) (o : obj) (k : str) :
  forallb frame_ok (L1 ++ o :: L2) = true ->
  frame_key o = k ->
  (forall o', In o' L1 -> frame_key o' <> k /\ ~ In k (flag_names o')) ->
  ShortJSON.clearInSJN
    (ShortJSON.arrToSJN (ShortJSON.arrObjToArr (L1 ++ o :: L2))) k
  = ShortJSON.arrToSJN (ShortJSON.arrObjToArr (L1 ++ L2))
  /\ Forall2 (@Permutation (str * jsval))
       (ShortJSON.arrToArrObj
          (ShortJSON.sjnToArr
             (ShortJSON.clearInSJN
                (ShortJSON.arrToSJN (ShortJSON.arrObjToArr (L1 ++ o :: L2))) k)))
       (L1 ++ L2)
  /\ topInArr (L1 ++ o :: L2) (Z.of_nat (length L2)) = Some o
  /\ forall depth frame,
       topInArr (L1 ++ o :: L2) (Z.of_nat depth) = Some frame ->
       frame_key frame = k -> depth <= length L2.
Proof.
  intros Hok Hkey Hfree.
  pose proof (clearInSJN_leftmost L1 L2 o k Hok Hkey Hfree) as Hcut.
  assert (Hok12 : forallb frame_ok (L1 ++ L2) = true).
  { rewrite forallb_app in Hok. cbn [forallb] in Hok.
    rewrite !andb_true_iff in Hok. rewrite forallb_app.
    apply andb_true_iff. tauto. }
  split; [exact Hcut|]. split.
  - rewrite Hcut, decode_encode by exact Hok12.
    clear - Hok12. induction (L1 ++ L2) as [|f L IH]; [constructor|].
    cbn [forallb] in Hok12. apply andb_true_iff in Hok12.
    destruct Hok12 as [Hf HL]. cbn [map]. constructor; [|apply IH; exact HL].
    apply frame_as_key_and_flags; [exact Hf|]. apply frame_key_get. exact Hf.
  - apply leftmost_is_deepest. intros o' Ho'. apply (Hfree o' Ho').
Qed.

Lemma shortjson_removal_leftmost_witness :
  ShortJSON.clearInSJN
    (ShortJSON.arrToSJN
       (ShortJSON.arrObjToArr ([frame_x_queried] ++ frame_k :: [frame_k])))
    (lit "k")
  = ShortJSON.arrToSJN (ShortJSON.arrObjToArr ([frame_x_queried] ++ [frame_k])).
Proof.
  apply (shortjson_removal_leftmost [frame_x_queried] [frame_k] frame_k (lit "k")).
  - reflexivity.
  - reflexivity.
  - intros o' [<-|[]]. split.
    + discriminate.
    + intros [H|[]]. discriminate H.
Defined.

(** C5 as the spec states it fails twice.  With the key [k] at positions 0
    and 2 the frame that goes is the one at the bottom of the stack, and the
    one at the top stays.  And a frame flagged [queried] in front of a frame
    with the key [queried] loses its flag, while the frame with that key
    stays. *)
Lemma shortjson_removal_counterexample :
  ShortJSON.clearInSJN (lit "k;x;k") (lit "k") = lit "x;k"
  /\ topInArr (ShortJSON.sjnToArr (lit "k;x;k")) 0 = Some (lit "k")
  /\ topInArr (ShortJSON.sjnToArr (lit "x;k")) 0 = Some (lit "k")
  /\ ShortJSON.arrToSJN
       (ShortJSON.arrObjToArr
          [[(lit "key", JStr (lit "a")); (lit "queried", JBool true)];
           [(lit "key", JStr (lit "queried"))]])
     = lit "a:queried;queried"
  /\ ShortJSON.clearInSJN (lit "a:queried;queried") (lit "queried")
     = lit "a:;queried"
  /\ ShortJSON.arrToArrObjKey (ShortJSON.sjnToArr (lit "a:;queried"))
     = [JStr (lit "a"); JStr (lit "queried")].
Proof. repeat split; reflexivity. Qed.


(** ** hasGoal *)

Section WordSearch.
Import ShortJSON.

Variable k : str.
Hypothesis Hk : alpha_word k = true.

Lemma find_first_complete (m : matcher) (prev : option ascii) (a b : str)
  (n : nat) :
  m (last_char prev a) b = Some n -> find_first m prev (a ++ b) <> None.
Proof.
  revert prev. induction a as [|c a IH]; intros prev Hm.
  - cbn [app last_char] in *. rewrite (find_first_here _ _ _ _ Hm). discriminate.
  - cbn [app find_first]. destruct (m prev (c :: a ++ b)); [discriminate|].
    specialize (IH (Some c) Hm).
    destruct (find_first m (Some c) (a ++ b)) as [[i l]|];
      [discriminate|congruence].
Qed.

Lemma word_inside (c : ascii) (u rest : str) :
  is_word c = true -> all_chars is_alpha u = true ->
  no_match (re_word k) (Some c) u rest.
Proof.
  revert c. induction u as [|d u IH]; intros c Hc Hu; [exact I|].
  cbn [all_chars forallb] in Hu. apply andb_true_iff in Hu.
  destruct Hu as [Hd Hu]. cbn [no_match]. split.
  - unfold re_word, word_boundary at 1. cbn [opt_word hd_error].
    rewrite Hc, (alpha_is_word d Hd). reflexivity.
  - apply IH; [apply alpha_is_word; exact Hd|exact Hu].
Qed.

Lemma word_at_separator (prev : option ascii) (sep : ascii) (rest : str) :
  is_alpha sep = false -> re_word k prev (sep :: rest) = None.
Proof.
  intros Hs. destruct (k_head k Hk) as (c & k' & -> & Hc).
  unfold re_word. cbn [starts_with].
  destruct (Ascii.eqb c sep) eqn:E.
  - apply Ascii.eqb_eq in E. subst sep. congruence.
  - cbn [andb]. rewrite andb_false_r. reflexivity.
Qed.

Lemma word_at_other (prev : option ascii) (w rest : str) :
  alpha_word w = true -> w <> k -> ends_word rest ->
  re_word k prev (w ++ rest) = None.
Proof.
  intros Hw Hne Hrest. unfold re_word.
  destruct (word_boundary prev (w ++ rest)); [|reflexivity]. cbn [andb].
  destruct (starts_with k (w ++ rest)) eqn:Hs; [|reflexivity].
  destruct (starts_with_word k w rest (k_chars k Hk) Hrest Hs) as [w' ->].
  destruct w' as [|d w']; [rewrite app_nil_r in Hne; congruence|].
  rewrite <- app_assoc. rewrite skipn_app_exact, char_before_end.
  assert (Hd : is_alpha d = true).
  { apply alpha_word_chars in Hw. unfold all_chars in Hw.
    rewrite forallb_app in Hw. apply andb_true_iff in Hw.
    destruct Hw as [_ Hw]. cbn [forallb] in Hw.
    apply andb_true_iff in Hw. tauto. }
  destruct (last_char_alpha prev k Hk) as (c & Hc & Hac). rewrite Hc.
  unfold word_boundary. cbn [app opt_word hd_error].
  rewrite (alpha_is_word c Hac), (alpha_is_word d Hd). reflexivity.
Qed.

Lemma word_other (prev : option ascii) (w rest : str) :
  alpha_word w = true -> w <> k -> ends_word rest ->
  no_match (re_word k) prev w rest.
Proof.
  intros Hw Hne Hrest. pose proof (word_at_other prev w rest Hw Hne Hrest) as H0.
  pose proof (alpha_word_chars w Hw) as Hc.
  destruct w as [|d u]; [exact I|].
  cbn [all_chars forallb] in Hc. apply andb_true_iff in Hc.
  destruct Hc as [Hd Hu]. cbn [no_match]. split; [exact H0|].
  apply word_inside; [apply alpha_is_word; exact Hd|exact Hu].
Qed.

Lemma word_other_frame (prev : option ascii) (w : str) (ws : list str)
  (rest : str) :
  Forall (fun x => alpha_word x = true /\ x <> k) (w :: ws) ->
  ends_word rest ->
  no_match (re_word k) prev (frame_text w ws) rest.
Proof.
  intros Hall Hrest. revert prev w Hall.
  induction ws as [|w1 ws IH]; intros prev w Hall;
    inversion Hall as [|? ? [Hw Hne] Hall']; subst.
  - unfold frame_text. cbn [join]. apply word_other; assumption.
  - unfold frame_text.
    change (join (lit ":") (w :: w1 :: ws))
      with (w ++ lit ":" ++ frame_text w1 ws).
    apply no_match_app.
    + apply word_other; [exact Hw|exact Hne|reflexivity].
    + change (lit ":") with [":"%char]. cbn [app no_match]. split.
      * apply word_at_separator. reflexivity.
      * apply IH. exact Hall'.
Qed.

(** Without the word anywhere, the search finds nothing. *)
Lemma word_none (prev : option ascii) (frames : list (str * list str)) :
  Forall (fun kf => Forall (fun x => alpha_word x = true /\ x <> k)
                      (fst kf :: snd kf)) frames ->
  find_first (re_word k) prev
    (join (lit ";") (map (fun kf => frame_text (fst kf) (snd kf)) frames))
  = None.
Proof.
  intros Hall. revert prev.
  induction Hall as [|[w ws] frames Hf Hall IH]; intros prev.
  - cbn [map join find_first]. unfold re_word.
    destruct (k_head k Hk) as (c & k' & -> & _). cbn [starts_with].
    rewrite andb_false_r. reflexivity.
  - cbn [map fst snd]. destruct frames as [|kf frames].
    + cbn [map join]. rewrite <- (app_nil_r (frame_text w ws)).
      rewrite (find_first_skip _ _ _ _
                 (word_other_frame prev w ws [] Hf I)).
      cbn [find_first]. unfold re_word.
      destruct (k_head k Hk) as (c & k' & -> & _). cbn [starts_with].
      rewrite andb_false_r. reflexivity.
    + set (J := join (lit ";")
                  (map (fun kf0 => frame_text (fst kf0) (snd kf0)) (kf :: frames)))
        in *.
      change (join (lit ";")
                (frame_text w ws
                 :: map (fun kf0 => frame_text (fst kf0) (snd kf0)) (kf :: frames)))
        with (frame_text w ws ++ lit ";" ++ J).
      rewrite (find_first_skip _ _ _ _
                 (word_other_frame prev w ws (lit ";" ++ J) Hf eq_refl)).
      change (lit ";" ++ J) with (";"%char :: J). cbn [find_first].
      rewrite word_at_separator by reflexivity.
      rewrite IH. reflexivity.
Qed.

(** The pattern matches at the word itself. *)
Lemma word_at (prev : option ascii) (rest : str) :
  opt_word prev = false -> ends_word rest ->
  re_word k prev (k ++ rest) = Some (length k).
Proof.
  intros Hprev Hrest. destruct (k_head k Hk) as (c0 & k0 & Ek & Hc0).
  unfold re_word.
  assert (Hb : word_boundary prev (k ++ rest) = true).
  { unfold word_boundary. rewrite Hprev, Ek. cbn [app hd_error opt_word].
    rewrite (alpha_is_word c0 Hc0). reflexivity. }
  rewrite Hb, starts_with_app, skipn_app_exact, char_before_end. cbn [andb].
  destruct (last_char_alpha prev k Hk) as (c & Hc & Hac). rewrite Hc.
  unfold word_boundary. cbn [opt_word]. rewrite (alpha_is_word c Hac).
  destruct rest as [|d rest]; [reflexivity|].
  cbn [ends_word] in Hrest. cbn [hd_error opt_word]. rewrite Hrest. reflexivity.
Qed.

End WordSearch.

Section HasGoal.
Import ShortJSON.

Lemma attrs_text_app (fs1 fs2 : list str) :
  attrs_text (fs1 ++ fs2) = attrs_text fs1 ++ attrs_text fs2.
Proof. unfold attrs_text. rewrite map_app, concat_app. reflexivity. Qed.

Lemma attrs_tail_ends_word (fs : list str) (texts : list str) :
  ends_word (attrs_text fs ++ tail_text texts).
Proof.
  destruct fs as [|f fs].
  - cbn [attrs_text map concat app]. destruct texts; [exact I|reflexivity].
  - reflexivity.
Qed.

Lemma has_word_spec (k : str) (L : list obj) :
  has_word k L = true <->
  exists o, In o L /\ (frame_key o = k \/ In k (flag_names o)).
Proof.
  unfold has_word. rewrite existsb_exists. split.
  - intros (o & Ho & H). exists o. split; [exact Ho|].
    apply orb_true_iff in H. destruct H as [H|H].
    + left. apply str_eqb_eq. exact H.
    + right. apply existsb_str_eqb. exact H.
  - intros (o & Ho & [H|H]); exists o; (split; [exact Ho|]);
      apply orb_true_iff.
    + left. apply str_eqb_eq. exact H.
    + right. apply existsb_str_eqb. exact H.
Qed.

(** On a well-formed stack [inSJN] finds exactly the names that are a key
    or a flag of some frame. *)
Lemma inSJN_words (L : list obj) (k : str) :
  forallb frame_ok L = true -> alpha_word k = true ->
  inSJN (arrToSJN (arrObjToArr L)) k = has_word k L.
Proof.
  intros Hok Hk. rewrite encode_frames by exact Hok. unfold inSJN.
  destruct (has_word k L) eqn:Hw.
  - apply has_word_spec in Hw. destruct Hw as (o & Ho & Hko).
    apply in_split in Ho. destruct Ho as (L1 & L2 & ->).
    assert (Hoko : frame_ok o = true).
    { rewrite forallb_app in Hok. cbn [forallb] in Hok.
      rewrite !andb_true_iff in Hok. tauto. }
    unfold frames_text. rewrite map_app. cbn [map].
    fold (frames_text L1). fold (frames_text L2).
    rewrite join_app_cons, frame_text_attrs.
    assert (Hfound : find_first (re_word k) None
                       (prefix_text (frames_text L1)
                        ++ (frame_key o ++ attrs_text (flag_names o))
                        ++ tail_text (frames_text L2)) <> None).
    { destruct Hko as [Hkey|Hflag].
      - rewrite Hkey, <- app_assoc.
        apply (find_first_complete _ _ _ _ (length k)).
        apply word_at; [exact Hk| |].
        + apply last_char_prefix.
        + apply attrs_tail_ends_word.
      - apply in_split in Hflag. destruct Hflag as (fs1 & fs2 & Efs).
        rewrite Efs, attrs_text_app.
        change (attrs_text (k :: fs2)) with ((lit ":" ++ k) ++ attrs_text fs2).
        replace (prefix_text (frames_text L1)
                 ++ (frame_key o ++ attrs_text fs1
                     ++ (lit ":" ++ k) ++ attrs_text fs2)
                 ++ tail_text (frames_text L2))
          with ((prefix_text (frames_text L1) ++ frame_key o
                 ++ attrs_text fs1 ++ lit ":")
                ++ k ++ attrs_text fs2 ++ tail_text (frames_text L2))
          by (rewrite <- !app_assoc; reflexivity).
        apply (find_first_complete _ _ _ _ (length k)).
        apply word_at; [exact Hk| |].
        + rewrite !app_assoc, last_char_app. reflexivity.
        + apply attrs_tail_ends_word. }
    destruct (find_first _ _ _); [reflexivity|congruence].
  - replace (frames_text L)
      with (map (fun kf => frame_text (fst kf) (snd kf))
              (map (fun o' => (frame_key o', flag_names o')) L))
      by (rewrite map_map; reflexivity).
    rewrite word_none; [reflexivity|exact Hk|].
    apply Forall_forall. intros kf Hkf. apply in_map_iff in Hkf.
    destruct Hkf as (o & <- & Ho). cbn [fst snd].
    rewrite forallb_forall in Hok. specialize (Hok o Ho).
    assert (Hno : ~ (frame_key o = k \/ In k (flag_names o))).
    { intros H. assert (Ht : has_word k L = true)
        by (apply has_word_spec; exists o; auto). congruence. }
    constructor.
    + split; [apply frame_key_get; exact Hok|]. intros E. apply Hno. left; exact E.
    + apply Forall_forall. intros f Hf. split.
      * apply lower_word_alpha. apply (flag_names_lower o); assumption.
      * intros ->. apply Hno. right; exact Hf.
Qed.

End HasGoal.

(** C10.  [hasGoal] looks for the name as a word of the encoded stack, not
    for a frame with that key: on a well-formed stack it answers [true]
    exactly for the names that are the key or a flag of some frame.  On the
    stack [checkIn:queried] the only frame has the key [checkIn], and yet
    [hasGoal] finds [queried]. *)
Theorem hasGoal_finds_flag_names :
  (forall t k, ConversationEngine.hasGoal t k
               = ShortJSON.inSJN (ConversationEngine.convoGoalState t) k)
  /\ (forall t L k,
         ConversationEngine.convoGoalState t
         = ShortJSON.arrToSJN (ShortJSON.arrObjToArr L) ->
         forallb frame_ok L = true -> alpha_word k = true ->
         (ConversationEngine.hasGoal t k = true <->
          exists o, In o L /\ (frame_key o = k \/ In k (flag_names o))))
  /\ let t := ConversationEngine.mkTurn OutputMgr.create
                (lit "checkIn:queried") false in
     ConversationEngine.hasGoal t (lit "queried") = true
     /\ ConversationEngine.getGoalNames t = [JStr (lit "checkIn")]
     /\ ~ In (JStr (lit "queried")) (ConversationEngine.getGoalNames t).
Proof.
  split; [reflexivity|]. split.
  - intros t L k Ht Hok Hk.
    unfold ConversationEngine.hasGoal, ConversationEngine._getGoalsRaw.
    rewrite Ht, (inSJN_words L k Hok Hk). apply has_word_spec.
  - cbv zeta. split; [reflexivity|]. split; [reflexivity|].
    intros [H|[]]. discriminate H.
Qed.

Lemma hasGoal_finds_flag_names_witness :
  ConversationEngine.hasGoal stack_xk (lit "queried") = true.
Proof.
  apply (proj2 (proj1 (proj2 hasGoal_finds_flag_names) stack_xk
                  [frame_x_queried; frame_k] (lit "queried")
                  eq_refl eq_refl eq_refl)).
  exists frame_x_queried. split; [left; reflexivity|].
  right. left. reflexivity.
Defined.

(** * Further properties

    Properties of the parts of the engine around the ones above: naming,
    the output queues, the script parser, the goal stack, the goal loop and
    the registration of intents. *)

(** ** Intent names *)

Section Names.
Import Naming.

Lemma fold_append {A : Type} (f : A -> str) (l : list A) (init : str) :
  fold_left (fun retStr c => retStr ++ f c) l init = init ++ concat (map f l).
Proof.
  revert init. induction l as [|x l IH]; intros init; cbn [fold_left map concat].
  - rewrite app_nil_r. reflexivity.
  - rewrite IH, <- app_assoc. reflexivity.
Qed.

(** A digit below 26 goes through [toString] and [parseInt] to the letter
    at its place in the alphabet. *)
Lemma letter_of_digit (d : nat) :
  d < 26 ->
  charAt validChars (parseInt_char (digit_char d) 26) = [ascii_of_nat (65 + d)].
Proof.
  intros Hd.
  do 26 (destruct d as [|d]; [reflexivity|]). lia.
Qed.

Lemma digits_below (radix fuel n : nat) :
  1 < radix -> n <= fuel -> Forall (fun d => d < radix) (digits radix fuel n).
Proof.
  intros Hr. revert n. induction fuel as [|fuel IH]; intros n Hn; cbn [digits].
  - constructor; [lia|constructor].
  - destruct (n <? radix) eqn:E.
    + apply Nat.ltb_lt in E. constructor; [exact E|constructor].
    + apply Nat.ltb_ge in E. apply Forall_app. split.
      * apply IH.
        assert (n / radix < n) by (apply Nat.div_lt; lia). lia.
      * constructor; [apply Nat.mod_upper_bound; lia|constructor].
Qed.

(** The number that a list of digits writes. *)
Lemma digits_value (radix fuel n : nat) :
  1 < radix -> n <= fuel ->
  fold_left (fun acc d => acc * radix + d) (digits radix fuel n) 0 = n.
Proof.
  intros Hr. revert n. induction fuel as [|fuel IH]; intros n Hn; cbn [digits].
  - cbn [fold_left]. lia.
  - destruct (n <? radix) eqn:E.
    + cbn [fold_left]. lia.
    + apply Nat.ltb_ge in E. rewrite fold_left_app. cbn [fold_left].
      rewrite IH.
      * rewrite (Nat.div_mod_eq n radix) at 3. lia.
      * assert (n / radix < n) by (apply Nat.div_lt; lia). lia.
Qed.

Lemma digits_head (radix fuel n : nat) :
  1 < radix -> 0 < n -> n <= fuel ->
  exists d ds, digits radix fuel n = d :: ds /\ 0 < d.
Proof.
  intros Hr. revert n. induction fuel as [|fuel IH]; intros n Hpos Hn; [lia|].
  cbn [digits]. destruct (n <? radix) eqn:E.
  - exists n, []. split; [reflexivity|exact Hpos].
  - apply Nat.ltb_ge in E.
    destruct (IH (n / radix)) as (d & ds & Hd & Hp).
    + apply Nat.div_str_pos. lia.
    + assert (n / radix < n) by (apply Nat.div_lt; lia). lia.
    + rewrite Hd. exists d, (ds ++ [n mod radix]). split; [reflexivity|exact Hp].
Qed.

Lemma digits_nonempty (radix fuel n : nat) : digits radix fuel n <> [].
Proof.
  destruct fuel as [|fuel]; cbn [digits]; [discriminate|].
  destruct (n <? radix); [discriminate|].
  intros H. apply app_eq_nil in H. destruct H as [_ H]. discriminate H.
Qed.

Lemma name_letters (n : nat) :
  fst (_getAlphabeticStr n) = lit "Intent" ++ letters (digits 26 n n).
Proof.
  unfold _getAlphabeticStr. cbn [fst]. rewrite fold_append. f_equal.
  unfold toString_radix. change (length validChars) with 26.
  assert (H : Forall (fun d => d < 26) (digits 26 n n))
    by (apply digits_below; lia).
  induction H as [|d ds Hd _ IH]; [reflexivity|].
  cbn [map concat letters]. rewrite (letter_of_digit d Hd).
  cbn [app]. f_equal. exact IH.
Qed.

Lemma letters_inj (ds es : list nat) :
  Forall (fun d => d < 26) ds -> Forall (fun d => d < 26) es ->
  letters ds = letters es -> ds = es.
Proof.
  intros Hds. revert es. induction Hds as [|d ds Hd _ IH]; intros es Hes E.
  - destruct es; [reflexivity|discriminate E].
  - destruct Hes as [|e es He Hes]; [discriminate E|].
    cbn [letters map] in E. injection E as E1 E2.
    f_equal.
    + apply (f_equal nat_of_ascii) in E1.
      rewrite !nat_ascii_embedding in E1 by lia. lia.
    + apply IH; assumption.
Qed.

Lemma letters_upper (ds : list nat) :
  Forall (fun d => d < 26) ds -> forallb is_upper (letters ds) = true.
Proof.
  induction 1 as [|d ds Hd _ IH]; [reflexivity|].
  cbn [letters map forallb]. apply andb_true_intro. split; [|exact IH].
  unfold is_upper, code. rewrite nat_ascii_embedding by lia.
  apply andb_true_intro. split; apply Nat.leb_le; lia.
Qed.

Lemma getAlphabeticStr_inj (n m : nat) :
  fst (_getAlphabeticStr n) = fst (_getAlphabeticStr m) -> n = m.
Proof.
  intros E. rewrite !name_letters in E. apply app_inv_head in E.
  apply letters_inj in E; try (apply digits_below; lia).
  rewrite <- (digits_value 26 n n) by lia.
  rewrite <- (digits_value 26 m m) by lia.
  rewrite E. reflexivity.
Qed.

End Names.

(** X1.  The generated intent names: the name for counter [n] is [Intent]
    followed by one or more capital letters, the digits of [n] in base 26
    written with [A] for 0 up to [Z] for 25, and never holds a digit.
    Different counters give different names, and each call moves the
    counter on by one.  The letters are a positional numeral, so after
    [IntentZ] comes [IntentBA]: but for [IntentA] itself no name starts
    with [IntentA]. *)
Theorem intent_names_distinct :
  (forall n, exists w,
      fst (Naming._getAlphabeticStr n) = lit "Intent" ++ w
      /\ w <> [] /\ forallb is_upper w = true)
  /\ (forall n m,
         fst (Naming._getAlphabeticStr n) = fst (Naming._getAlphabeticStr m) ->
         n = m)
  /\ (forall n, snd (Naming._getAlphabeticStr n) = S n)
  /\ (forall n w, 0 < n ->
         fst (Naming._getAlphabeticStr n) <> lit "IntentA" ++ w)
  /\ fst (Naming._getAlphabeticStr 25) = lit "IntentZ"
  /\ fst (Naming._getAlphabeticStr 26) = lit "IntentBA".
Proof.
  split; [|split; [|split; [|split; [|split; reflexivity]]]].
  - intros n. exists (letters (Naming.digits 26 n n)).
    split; [apply name_letters|]. split.
    + unfold letters. intros H. apply map_eq_nil in H.
      revert H. apply digits_nonempty.
    + apply letters_upper. apply digits_below; lia.
  - intros n m. apply getAlphabeticStr_inj.
  - reflexivity.
  - intros n w Hn E. rewrite name_letters in E.
    destruct (digits_head 26 n n) as (d & ds & Hd & Hp); try lia.
    rewrite Hd in E.
    assert (Hb : Forall (fun d => d < 26) (d :: ds))
      by (rewrite <- Hd; apply digits_below; lia).
    inversion Hb as [|? ? Hd26 _]; subst.
    change (lit "IntentA" ++ w) with (lit "Intent" ++ "A"%char :: w) in E.
    apply app_inv_head in E. cbn [letters map] in E. injection E as E1 _.
    apply (f_equal nat_of_ascii) in E1.
    rewrite nat_ascii_embedding in E1 by lia.
    change (nat_of_ascii "A") with 65 in E1. lia.
Qed.

(** ** Indexing from the top *)

Section TopIndex.

Lemma nth_error_set_nth {A : Type} (arr : list A) (i j : nat) (x : A) :
  nth_error (set_nth arr i x) j
  = if (i =? j) && (i <? length arr) then Some x else nth_error arr j.
Proof.
  revert i j. induction arr as [|y arr IH]; intros i j.
  - cbn [set_nth length]. rewrite andb_false_r. reflexivity.
  - destruct i as [|i], j as [|j]; cbn [set_nth nth_error length]; try reflexivity.
    rewrite IH. reflexivity.
Qed.

Lemma topInArr_in_range {A : Type} (arr : list A) (ndx : Z) :
  (0 <= ndx < Z.of_nat (length arr))%Z ->
  topInArr arr ndx = nth_error arr (length arr - 1 - Z.to_nat ndx).
Proof.
  intros H. unfold topInArr.
  destruct arr as [|y arr]; [cbn [length] in H; lia|].
  change (length (y :: arr) =? 0) with false. cbn [orb].
  destruct (Z.leb_spec (Z.of_nat (length (y :: arr))) ndx) as [Hle|_]; [lia|].
  f_equal. lia.
Qed.

Lemma topInArr_out_of_range {A : Type} (arr : list A) (ndx : Z) :
  (ndx < 0 \/ Z.of_nat (length arr) <= ndx)%Z -> topInArr arr ndx = None.
Proof.
  intros H. unfold topInArr.
  destruct (length arr =? 0) eqn:E0; [reflexivity|]. cbn [orb].
  destruct (Z.leb_spec (Z.of_nat (length arr)) ndx) as [Hle|Hlt]; [reflexivity|].
  apply nth_error_None. lia.
Qed.

Lemma topInArr_push {A : Type} (arr : list A) (x : A) (n : nat) :
  topInArr (arr ++ [x]) 0 = Some x
  /\ topInArr (arr ++ [x]) (Z.of_nat (S n)) = topInArr arr (Z.of_nat n).
Proof.
  change 0%Z with (Z.of_nat 0). rewrite !topInArr_rev, rev_app_distr.
  split; reflexivity.
Qed.

Lemma updateArr_in_range {A : Type} (arr : list A) (ndx : Z) (newVal : A) :
  (0 <= ndx < Z.of_nat (length arr))%Z ->
  updateArr arr ndx newVal
  = Some (set_nth arr (length arr - 1 - Z.to_nat ndx) newVal).
Proof.
  intros H. unfold updateArr.
  destruct arr as [|y arr]; [cbn [length] in H; lia|].
  change (length (y :: arr) =? 0) with false. cbn [orb].
  destruct (Z.ltb_spec ndx 0) as [Hneg|_]; [lia|].
  destruct (Z.leb_spec (Z.of_nat (length (y :: arr))) ndx) as [Hle|_]; [lia|].
  replace (Z.to_nat (Z.of_nat (length (y :: arr)) - ndx - 1))
    with (length (y :: arr) - 1 - Z.to_nat ndx) by lia.
  reflexivity.
Qed.

Lemma updateArr_out_of_range {A : Type} (arr : list A) (ndx : Z) (newVal : A) :
  (ndx < 0 \/ Z.of_nat (length arr) <= ndx)%Z -> updateArr arr ndx newVal = None.
Proof.
  intros H. unfold updateArr.
  destruct (length arr =? 0); [reflexivity|]. cbn [orb].
  destruct (Z.ltb_spec ndx 0) as [Hneg|Hpos]; [reflexivity|].
  destruct (Z.leb_spec (Z.of_nat (length arr)) ndx) as [Hle|Hlt];
    [reflexivity|lia].
Qed.

(** Reading after writing at a depth. *)
Lemma topInArr_set_nth {A : Type} (arr : list A) (ndx : Z) (newVal : A) :
  (0 <= ndx < Z.of_nat (length arr))%Z ->
  let arr' := set_nth arr (length arr - 1 - Z.to_nat ndx) newVal in
  topInArr arr' ndx = Some newVal
  /\ forall other, other <> ndx -> topInArr arr' other = topInArr arr other.
Proof.
  intros H. cbv zeta.
  set (i := length arr - 1 - Z.to_nat ndx).
  split.
  - rewrite topInArr_in_range by (rewrite set_nth_length; exact H).
    rewrite set_nth_length, nth_error_set_nth. fold i.
    rewrite Nat.eqb_refl.
    replace (i <? length arr) with true by (symmetry; apply Nat.ltb_lt; lia).
    reflexivity.
  - intros other Ho.
    destruct (Z_lt_ge_dec other 0) as [Hn|Hp].
    { rewrite !topInArr_out_of_range by (left; exact Hn). reflexivity. }
    destruct (Z_lt_ge_dec other (Z.of_nat (length arr))) as [Hin|Hout].
    + rewrite !topInArr_in_range by (rewrite ?set_nth_length; lia).
      rewrite set_nth_length, nth_error_set_nth.
      replace (i =? length arr - 1 - Z.to_nat other)
        with false by (symmetry; apply Nat.eqb_neq; lia).
      reflexivity.
    + rewrite !topInArr_out_of_range by (rewrite ?set_nth_length; right; lia).
      reflexivity.
Qed.

End TopIndex.

(** X2.  The two array helpers count from the end.  For a depth within the
    array, [updateArr] succeeds and keeps the length, [topInArr] then reads
    the new value at that depth and what it read before at every other
    depth; depth 0 is the last element.  For a depth outside the array,
    negative or not below the length, [updateArr] gives [false] and
    [topInArr] gives [undefined]. *)
Theorem updateArr_then_topInArr {A : Type} (arr : list A) (ndx : Z) (newVal : A) :
  ((0 <= ndx < Z.of_nat (length arr))%Z ->
   exists arr',
     updateArr arr ndx newVal = Some arr'
     /\ length arr' = length arr
     /\ topInArr arr' ndx = Some newVal
     /\ (forall other, other <> ndx -> topInArr arr' other = topInArr arr other)
     /\ topInArr arr 0 = nth_error arr (length arr - 1))
  /\ ((ndx < 0 \/ Z.of_nat (length arr) <= ndx)%Z ->
      updateArr arr ndx newVal = None /\ topInArr arr ndx = None).
Proof.
  split.
  - intros H. exists (set_nth arr (length arr - 1 - Z.to_nat ndx) newVal).
    split; [apply updateArr_in_range; exact H|].
    split; [apply set_nth_length|].
    destruct (topInArr_set_nth arr ndx newVal H) as [Hget Hother].
    split; [exact Hget|]. split; [exact Hother|].
    rewrite topInArr_in_range by lia. f_equal. lia.
  - intros H. split.
    + apply updateArr_out_of_range. exact H.
    + apply topInArr_out_of_range. exact H.
Qed.

Lemma updateArr_then_topInArr_witness :
  exists arr',
    updateArr [lit "a"; lit "b"; lit "c"] 0 (lit "z") = Some arr'
    /\ length arr' = 3
    /\ topInArr arr' 0 = Some (lit "z")
    /\ (forall other, other <> 0%Z ->
        topInArr arr' other = topInArr [lit "a"; lit "b"; lit "c"] other)
    /\ topInArr [lit "a"; lit "b"; lit "c"] 0 = Some (lit "c").
Proof.
  apply (proj1 (updateArr_then_topInArr [lit "a"; lit "b"; lit "c"] 0 (lit "z"))).
  cbn [length]. lia.
Defined.

(** ** The say queue *)

Section SayQueue.
Import OutputMgr.

Lemma build_say_snoc (q : list str) (s buf : str) :
  build_say (q ++ [s]) buf
  = if length (build_say q buf) =? 0 then s
    else build_say q buf ++ lit " " ++ s.
Proof. unfold build_say. rewrite fold_left_app. reflexivity. Qed.

Lemma nonempty_length (s : str) : s <> [] -> (length s =? 0) = false.
Proof. destruct s; [congruence|reflexivity]. Qed.

Lemma say_all_text (o : t) (rest : list (str * bool)) :
  sayQueue o <> [] -> build_say (sayQueue o) [] <> [] ->
  let o' := fold_left (fun o fq => say o (fst fq) (snd fq)) rest o in
  build_say (sayQueue o') []
  = build_say (sayQueue o) []
    ++ concat (map (fun fq => say_separator (snd fq) ++ fst fq) rest)
  /\ askQueue o' = askQueue o /\ spokenRate o' = spokenRate o
  /\ asked o' = asked o.
Proof.
  revert o. induction rest as [|[f quick] rest IH]; intros o Hq Hb;
    cbn [fold_left map concat fst snd].
  - rewrite app_nil_r. repeat split; reflexivity.
  - set (o1 := say o f quick).
    assert (H1 : build_say (sayQueue o1) []
                 = build_say (sayQueue o) [] ++ say_separator quick ++ f).
    { unfold o1, say. cbn [sayQueue].
      replace (0 <? length (sayQueue o)) with true
        by (symmetry; apply Nat.ltb_lt; destruct (sayQueue o);
            [congruence|cbn [length]; lia]).
      destruct quick; cbn [negb andb say_separator].
      - rewrite build_say_snoc, nonempty_length by exact Hb. reflexivity.
      - rewrite !build_say_snoc. rewrite (nonempty_length _ Hb).
        rewrite nonempty_length
          by (destruct (build_say (sayQueue o) []); [congruence|discriminate]).
        rewrite <- !app_assoc. reflexivity. }
    destruct (IH o1) as (E1 & E2 & E3 & E4).
    + unfold o1, say. cbn [sayQueue]. intros H.
      apply app_eq_nil in H. destruct H as [_ H]. discriminate H.
    + rewrite H1. destruct (build_say (sayQueue o) []); [congruence|discriminate].
    + cbv zeta in E1, E2, E3, E4. cbv zeta.
      rewrite E1, H1, E2, E3, E4, <- !app_assoc.
      repeat split; reflexivity.
Qed.

Lemma not_in_app (c : ascii) (a b : str) : ~ In c a -> ~ In c b -> ~ In c (a ++ b).
Proof. intros Ha Hb H. apply in_app_or in H. tauto. Qed.

Lemma pause_no_amp : ~ In "&"%char pauseStr.
Proof.
  intros H. unfold pauseStr in H.
  repeat (apply in_app_or in H; destruct H as [H|H]);
    cbn in H; repeat (destruct H as [H|H]; [discriminate H|]); exact H.
Qed.

End SayQueue.

(** X3.  Fragments said in one turn, starting from empty queues, are sent
    as one text: the first fragment, then each further fragment after the
    500 ms pause set between two spaces, or after a single space when it was
    said [quick].  The [quick] flag of the first fragment plays no part.
    (The fragments are not empty; nothing is asked; no spoken rate is set
    and no fragment holds an ampersand, so the flush sends the composed
    text as it is.) *)
Theorem said_fragments_composition (o : OutputMgr.t) (first : str)
  (quick : bool) (rest : list (str * bool)) :
  OutputMgr.sayQueue o = [] -> OutputMgr.askQueue o = [] ->
  OutputMgr.spokenRate o = None ->
  first <> [] ->
  Forall (fun fq => ~ In "&"%char (fst fq)) ((first, quick) :: rest) ->
  let o' := fold_left (fun o fq => OutputMgr.say o (fst fq) (snd fq))
              ((first, quick) :: rest) o in
  OutputMgr.build_say (OutputMgr.sayQueue o') [] = said_text first rest
  /\ OutputMgr.said (snd (OutputMgr.sendFromQueue o' None))
     = Some (said_text first rest)
  /\ OutputMgr.asked o' = OutputMgr.asked o.
Proof.
  intros Hsay Hask Hrate Hfirst Hamp o'.
  set (o1 := OutputMgr.say o first quick).
  assert (Hq1 : OutputMgr.sayQueue o1 = [first]).
  { unfold o1, OutputMgr.say. cbn [OutputMgr.sayQueue]. rewrite Hsay.
    reflexivity. }
  assert (Hb1 : OutputMgr.build_say (OutputMgr.sayQueue o1) [] = first)
    by (rewrite Hq1; reflexivity).
  destruct (say_all_text o1 rest) as (E1 & E2 & E3 & E4).
  { rewrite Hq1. discriminate. }
  { rewrite Hb1. exact Hfirst. }
  cbv zeta in E1, E2, E3, E4.
  change (fold_left (fun o fq => OutputMgr.say o (fst fq) (snd fq)) rest o1)
    with o' in E1, E2, E3, E4.
  rewrite Hb1 in E1. fold (said_text first rest) in E1.
  split; [exact E1|]. split; [|rewrite E4; reflexivity].
  assert (Hne : said_text first rest <> []).
  { unfold said_text. intros E. apply app_eq_nil in E. tauto. }
  assert (Hno : ~ In "&"%char (said_text first rest)).
  { unfold said_text.
    pose proof (Forall_inv Hamp) as Hf. pose proof (Forall_inv_tail Hamp) as Hrest.
    apply not_in_app; [exact Hf|]. clear - Hrest.
    induction Hrest as [|[f q] rest Hf _ IH]; cbn [map concat fst snd];
      [intros []|].
    apply not_in_app; [|exact IH]. apply not_in_app; [|exact Hf].
    destruct q; cbn [say_separator].
    + intros [H|[]]. discriminate H.
    + apply not_in_app; [intros [H|[]]; discriminate H|].
      apply not_in_app; [apply pause_no_amp|intros [H|[]]; discriminate H]. }
  unfold OutputMgr.sendFromQueue. cbn [snd OutputMgr.said].
  rewrite E2, E3, E1.
  change (OutputMgr.askQueue o1) with (OutputMgr.askQueue o).
  change (OutputMgr.spokenRate o1) with (OutputMgr.spokenRate o).
  rewrite Hask, Hrate.
  change (OutputMgr.build_ask [] (said_text first rest))
    with (said_text first rest).
  unfold replace_all. rewrite (replace_amp_none _ None Hno).
  destruct (said_text first rest); [congruence|reflexivity].
Qed.

Lemma said_fragments_composition_witness :
  let o' := fold_left (fun o fq => OutputMgr.say o (fst fq) (snd fq))
              [(lit "Sure.", false); (lit "One moment.", false);
               (lit "Thanks.", true)]
              OutputMgr.create in
  OutputMgr.build_say (OutputMgr.sayQueue o') []
  = said_text (lit "Sure.") [(lit "One moment.", false); (lit "Thanks.", true)]
  /\ OutputMgr.said (snd (OutputMgr.sendFromQueue o' None))
     = Some (said_text (lit "Sure.")
               [(lit "One moment.", false); (lit "Thanks.", true)])
  /\ OutputMgr.asked o' = OutputMgr.asked OutputMgr.create.
Proof.
  apply (said_fragments_composition OutputMgr.create (lit "Sure.") false
           [(lit "One moment.", false); (lit "Thanks.", true)]);
    try reflexivity; [discriminate|].
  repeat constructor; cbn; intros H;
    repeat (destruct H as [H|H]; [discriminate H|]); exact H.
Defined.

(** ** What a flush says *)

Section Flush.
Import OutputMgr.

Lemma build_say_empty (q : list str) (buf : str) :
  build_say q buf = [] <-> buf = [] /\ Forall (fun f => f = []) q.
Proof.
  unfold build_say. revert buf.
  induction q as [|s q IH]; intros buf; cbn [fold_left].
  - split; [intros H; split; [exact H|constructor]|tauto].
  - rewrite IH. destruct buf as [|c buf].
    + change (length (@nil ascii) =? 0) with true. cbv iota. split.
      * intros [Hs Hq]. split; [reflexivity|]. constructor; assumption.
      * intros [_ H]. inversion H; subst. split; [reflexivity|assumption].
    + change (length (c :: buf) =? 0) with false. cbv iota. split.
      * intros [H _]. discriminate H.
      * intros [H _]. discriminate H.
Qed.

Lemma build_ask_loop_empty (total : nat) (q : list str) (ndx : nat) (buf : str) :
  forEachNdx
    (fun outBuffer s ndx =>
       if length outBuffer =? 0 then s
       else if ndx =? 0 then outBuffer ++ pauseStr ++ s
       else if ndx =? total - 1 then outBuffer ++ lit " or " ++ s
       else outBuffer ++ lit ", " ++ s)
    q ndx buf = []
  <-> buf = [] /\ Forall (fun f => f = []) q.
Proof.
  revert ndx buf. induction q as [|s q IH]; intros ndx buf; cbn [forEachNdx].
  - split; [intros H; split; [exact H|constructor]|tauto].
  - rewrite IH. destruct buf as [|c buf].
    + change (length (@nil ascii) =? 0) with true. cbv iota. split.
      * intros [Hs Hq]. split; [reflexivity|]. constructor; assumption.
      * intros [_ H]. inversion H; subst. split; [reflexivity|assumption].
    + change (length (c :: buf) =? 0) with false. cbv iota. split.
      * intros [H _]. exfalso.
        destruct (ndx =? 0); [discriminate H|].
        destruct (ndx =? total - 1); discriminate H.
      * intros [H _]. discriminate H.
Qed.

Lemma build_ask_empty (q : list str) (buf : str) :
  build_ask q buf = [] <-> buf = [] /\ Forall (fun f => f = []) q.
Proof. apply build_ask_loop_empty. Qed.

Lemma replace_amp_empty (s : str) :
  replace_all re_amp (lit " and ") s = [] <-> s = [].
Proof.
  unfold replace_all. destruct s as [|c s]; [tauto|].
  cbn [replace_all_from]. split; [|discriminate].
  destruct (re_amp None (c :: s)) as [[|n]|]; discriminate.
Qed.

End Flush.

(** X4.  A flush calls the platform's [say] with the text it built, and
    only when that text is not empty.  It stays silent exactly when no
    spoken rate is set and every queued fragment is the empty string: one
    fragment with a character in it, or a spoken rate, and something is
    said (with a rate and empty queues, an empty [prosody] element).  The
    text handed to [say] is the text the flush returns. *)
Theorem flush_says_nothing_iff (o : OutputMgr.t) :
  let out := snd (OutputMgr.sendFromQueue o None) in
  (OutputMgr.said out = None <->
   match OutputMgr.spokenRate o with
   | Some rate => rate = []
   | None => True
   end
   /\ Forall (fun f => f = []) (OutputMgr.sayQueue o ++ OutputMgr.askQueue o))
  /\ (OutputMgr.said out = None -> OutputMgr.outBuffer out = [])
  /\ (forall text, OutputMgr.said out = Some text ->
        text <> [] /\ OutputMgr.outBuffer out = text).
Proof.
  cbv zeta. unfold OutputMgr.sendFromQueue.
  cbn [snd OutputMgr.said OutputMgr.outBuffer].
  set (composed := OutputMgr.build_ask (OutputMgr.askQueue o)
                     (OutputMgr.build_say (OutputMgr.sayQueue o) [])).
  set (wrapped := match OutputMgr.spokenRate o with
                  | Some rate => if nonempty rate
                                 then OutputMgr.prosody rate composed
                                 else composed
                  | None => composed
                  end).
  set (buf := replace_all re_amp (lit " and ") wrapped).
  assert (Hc : composed = [] <->
               Forall (fun f => f = []) (OutputMgr.sayQueue o ++ OutputMgr.askQueue o)).
  { unfold composed. rewrite build_ask_empty, build_say_empty, Forall_app.
    tauto. }
  assert (Hb : buf = [] <->
               match OutputMgr.spokenRate o with
               | Some rate => rate = []
               | None => True
               end /\ composed = []).
  { unfold buf. rewrite replace_amp_empty. unfold wrapped.
    destruct (OutputMgr.spokenRate o) as [[|c rate]|]; cbn [nonempty].
    - tauto.
    - split; [intros H; discriminate H|intros [H _]; discriminate H].
    - tauto. }
  split; [|split].
  - rewrite <- Hc, <- Hb. destruct buf; cbn [nonempty].
    + tauto.
    + split; [discriminate|intros H; discriminate H].
  - destruct buf; cbn [nonempty]; [reflexivity|discriminate].
  - intros text. destruct buf; cbn [nonempty]; [discriminate|].
    intros H. injection H as <-. split; [discriminate|reflexivity].
Qed.

(** ** Pushing a goal *)

Section Push.
Import ShortJSON ConversationEngine.

Lemma split_app_sep (c : ascii) (a b : str) :
  split c (a ++ c :: b) = split c a ++ split c b.
Proof.
  induction a as [|x a IH]; cbn [app split].
  - rewrite Ascii.eqb_refl. reflexivity.
  - destruct (Ascii.eqb x c); [rewrite IH; reflexivity|].
    rewrite IH. destruct (split c a) as [|w ws] eqn:E.
    + elim (split_not_nil c a E).
    + reflexivity.
Qed.

Lemma sjnToArr_push (s g : str) :
  g <> [] -> ~ In ";"%char g -> sjnToArr (arrPush s g) = sjnToArr s ++ [g].
Proof.
  intros Hg Hsemi. unfold arrPush, sjnToArr.
  destruct s as [|c s].
  - destruct g as [|d g]; [congruence|].
    change ([] ++ [d :: g]) with [d :: g]. apply split_word. exact Hsemi.
  - change ((c :: s) ++ lit ";" ++ g) with (c :: (s ++ ";"%char :: g)).
    change (split ";" (c :: s ++ ";"%char :: g))
      with (split ";" ((c :: s) ++ ";"%char :: g)).
    rewrite split_app_sep, (split_word ";" g Hsemi). reflexivity.
Qed.

Lemma decode_plain (g : str) :
  ~ In ":"%char g -> arrToArrObj_item g = plain_frame g.
Proof.
  intros H. unfold arrToArrObj_item. rewrite (split_word ":" g H). reflexivity.
Qed.

End Push.

(** X5.  [addGoal] pushes: for a name that is not empty and holds no
    semicolon, whatever the stack, the frames afterwards are the frames
    before followed by the frame decoded from the name; this frame is the
    most recent one (depth 0), and every older frame is found one place
    deeper.  For a name without a colon the new frame is the bare key, and
    the goal names are the names before followed by the new one.  The
    output queues and the goal-state flag are left alone.  (No part of the
    name between colons is [__proto__], which an assignment does not turn
    into a flag.) *)
Theorem addGoal_pushes_on_top (t : ConversationEngine.turn) (goalName : str) :
  goalName <> [] -> ~ In ";"%char goalName ->
  ~ In (lit "__proto__") (split ":" goalName) ->
  let t' := ConversationEngine.addGoal t goalName in
  ConversationEngine.getGoalStates t'
  = ConversationEngine.getGoalStates t ++ [ShortJSON.arrToArrObj_item goalName]
  /\ ConversationEngine.mostRecentGoalStates t' 0
     = Some (ShortJSON.arrToArrObj_item goalName)
  /\ (forall depth,
        ConversationEngine.mostRecentGoalStates t' (Z.of_nat (S depth))
        = ConversationEngine.mostRecentGoalStates t (Z.of_nat depth))
  /\ (~ In ":"%char goalName ->
      ShortJSON.arrToArrObj_item goalName = plain_frame goalName
      /\ ConversationEngine.getGoalNames t'
         = ConversationEngine.getGoalNames t ++ [JStr goalName])
  /\ ConversationEngine.outputMgr t' = ConversationEngine.outputMgr t
  /\ ConversationEngine.goalStateChanged t'
     = ConversationEngine.goalStateChanged t.
Proof.
  intros Hg Hsemi _ t'.
  assert (Hstates : ConversationEngine.getGoalStates t'
                    = ConversationEngine.getGoalStates t
                      ++ [ShortJSON.arrToArrObj_item goalName]).
  { unfold t', ConversationEngine.addGoal, ConversationEngine.appendGoal,
      ConversationEngine.getGoalStates, ConversationEngine._getGoalsRaw.
    cbn [ConversationEngine.set_goals ConversationEngine.convoGoalState].
    rewrite (sjnToArr_push _ _ Hg Hsemi).
    unfold ShortJSON.arrToArrObj. rewrite map_app. reflexivity. }
  split; [exact Hstates|]. split; [|split; [|split; [|split; reflexivity]]].
  - unfold ConversationEngine.mostRecentGoalStates. rewrite Hstates.
    apply topInArr_push. exact 0.
  - intros depth. unfold ConversationEngine.mostRecentGoalStates.
    rewrite Hstates. apply topInArr_push.
  - intros Hcolon. split; [apply decode_plain; exact Hcolon|].
    unfold ConversationEngine.getGoalNames, ShortJSON.arrToArrObjKey.
    fold (ConversationEngine.getGoalStates t').
    fold (ConversationEngine.getGoalStates t).
    rewrite Hstates, map_app. cbn [map].
    rewrite (decode_plain _ Hcolon). reflexivity.
Qed.

Lemma addGoal_pushes_on_top_witness :
  let t' := ConversationEngine.addGoal stack_xk (lit "airline") in
  ConversationEngine.getGoalStates t'
  = ConversationEngine.getGoalStates stack_xk
    ++ [ShortJSON.arrToArrObj_item (lit "airline")]
  /\ ConversationEngine.mostRecentGoalStates t' 0
     = Some (ShortJSON.arrToArrObj_item (lit "airline"))
  /\ (forall depth,
        ConversationEngine.mostRecentGoalStates t' (Z.of_nat (S depth))
        = ConversationEngine.mostRecentGoalStates stack_xk (Z.of_nat depth))
  /\ (~ In ":"%char (lit "airline") ->
      ShortJSON.arrToArrObj_item (lit "airline") = plain_frame (lit "airline")
      /\ ConversationEngine.getGoalNames t'
         = ConversationEngine.getGoalNames stack_xk ++ [JStr (lit "airline")])
  /\ ConversationEngine.outputMgr t' = ConversationEngine.outputMgr stack_xk
  /\ ConversationEngine.goalStateChanged t'
     = ConversationEngine.goalStateChanged stack_xk.
Proof.
  apply (addGoal_pushes_on_top stack_xk (lit "airline")).
  - discriminate.
  - cbn. intros H. repeat (destruct H as [H|H]; [discriminate H|]). exact H.
  - vm_compute. intros [H|H]; [discriminate H|exact H].
Defined.

(** ** Pushing, finding and clearing a goal *)

Section PushFindClear.
Import ShortJSON ConversationEngine.

Lemma plain_frame_ok (g : str) : alpha_word g = true -> frame_ok (plain_frame g) = true.
Proof.
  intros Hg. unfold frame_ok, plain_frame.
  cbn [obj_keys map fst nodupb existsb negb andb obj_get forallb snd].
  change (str_eqb (lit "key") (lit "key")) with true. cbv iota.
  rewrite Hg. reflexivity.
Qed.

Lemma frames_ok_snoc (L : list obj) (o : obj) :
  forallb frame_ok L = true -> frame_ok o = true ->
  forallb frame_ok (L ++ [o]) = true.
Proof.
  intros HL Ho. rewrite forallb_app. cbn [forallb].
  rewrite HL, Ho. reflexivity.
Qed.

(** Pushing onto a well-formed stack gives the well-formed stack with one
    more frame. *)
Lemma push_encoded (L : list obj) (g : str) :
  forallb frame_ok L = true -> alpha_word g = true ->
  arrPush (encoded L) g = encoded (L ++ [plain_frame g]).
Proof.
  intros HL Hg. unfold encoded.
  rewrite !encode_frames
    by (try apply frames_ok_snoc; try apply plain_frame_ok; assumption).
  unfold frames_text. rewrite map_app. cbn [map].
  change (frame_text (frame_key (plain_frame g)) (flag_names (plain_frame g)))
    with g.
  destruct L as [|o L].
  - reflexivity.
  - rewrite join_snoc by discriminate.
    unfold arrPush.
    destruct (join (lit ";") (map (fun o0 => frame_text (frame_key o0) (flag_names o0)) (o :: L)))
      as [|c s] eqn:E; [|reflexivity].
    exfalso. cbn [forallb] in HL. apply andb_true_iff in HL.
    destruct HL as [Ho _].
    apply (frame_text_nonempty o Ho).
    cbn [map] in E.
    destruct (map (fun o0 => frame_text (frame_key o0) (flag_names o0)) L).
    + exact E.
    + change (join (lit ";") (?a :: ?b :: ?l)) with (a ++ lit ";" ++ join (lit ";") (b :: l)) in E.
      apply app_eq_nil in E. tauto.
Qed.

(** The pattern of [clearInSJN] matches at a place exactly when the pattern
    of [inSJN] does. *)
Lemma give_back_some (prev : option ascii) (s : str) (e : nat) :
  word_boundary prev s = true -> give_back prev s e <> None.
Proof.
  intros H. induction e as [|e IH]; cbn [give_back].
  - cbn [char_before skipn]. rewrite H. discriminate.
  - destruct (word_boundary (char_before prev s (S e)) (skipn (S e) s));
      [discriminate|exact IH].
Qed.

Lemma clear_matches_as_word (k : str) (prev : option ascii) (s : str) :
  alpha_word k = true ->
  (re_clear k prev s = None <-> re_word k prev s = None).
Proof.
  intros Hk. unfold re_clear, re_word.
  destruct (word_boundary prev s && starts_with k s) eqn:E; [|tauto].
  cbn [andb]. apply andb_true_iff in E. destruct E as [_ Hsw].
  set (cb := char_before prev s (length k)).
  set (rest := skipn (length k) s).
  destruct (word_boundary cb rest) eqn:Hb.
  - destruct (give_back cb rest (attr_run false rest)) eqn:G.
    + split; discriminate.
    + exfalso. revert G. apply give_back_some. exact Hb.
  - split; [reflexivity|]. intros _.
    assert (Hcb : opt_word cb = true).
    { unfold cb. rewrite (starts_with_split k s Hsw), char_before_end.
      destruct (last_char_alpha prev k Hk) as (c & -> & Hc).
      apply alpha_is_word. exact Hc. }
    unfold word_boundary in Hb. rewrite Hcb in Hb.
    destruct rest as [|c rest'] eqn:Er; [discriminate Hb|].
    cbn [hd_error opt_word xorb negb] in Hb.
    assert (Hw : is_word c = true) by (destruct (is_word c); [reflexivity|discriminate Hb]).
    assert (Hrun : attr_run false (c :: rest') = 0).
    { cbn [attr_run andb].
      destruct (Ascii.eqb c ":") eqn:Ec; [|reflexivity].
      apply Ascii.eqb_eq in Ec. subst c. discriminate Hw. }
    rewrite Hrun. cbn [give_back char_before skipn].
    unfold word_boundary. rewrite Hcb. cbn [hd_error opt_word].
    rewrite Hw. reflexivity.
Qed.

Lemma find_first_none_iff (m m' : matcher) :
  (forall prev s, m prev s = None <-> m' prev s = None) ->
  forall prev s, find_first m prev s = None <-> find_first m' prev s = None.
Proof.
  intros H prev s. revert prev. induction s as [|c s IH]; intros prev;
    cbn [find_first].
  - specialize (H prev []).
    destruct (m prev []), (m' prev []); try tauto;
      split; intros E; try discriminate E;
      destruct H as [H1 H2]; try (specialize (H1 eq_refl); discriminate H1);
      try (specialize (H2 eq_refl); discriminate H2).
  - specialize (H prev (c :: s)). specialize (IH (Some c)).
    destruct (m prev (c :: s)), (m' prev (c :: s)).
    + split; discriminate.
    + destruct H as [_ H2]. specialize (H2 eq_refl). discriminate H2.
    + destruct H as [H1 _]. specialize (H1 eq_refl). discriminate H1.
    + destruct (find_first m (Some c) s) as [[i n]|],
               (find_first m' (Some c) s) as [[i' n']|].
      * split; discriminate.
      * destruct IH as [_ H2]. specialize (H2 eq_refl). discriminate H2.
      * destruct IH as [H1 _]. specialize (H1 eq_refl). discriminate H1.
      * tauto.
Qed.

Lemma clear_finds_as_inSJN (k s : str) :
  alpha_word k = true ->
  (find_first (re_clear k) None s = None <-> inSJN s k = false).
Proof.
  intros Hk. unfold inSJN.
  rewrite (find_first_none_iff (re_clear k) (re_word k)
             (fun prev s => clear_matches_as_word k prev s Hk)).
  destruct (find_first (re_word k) None s); split; congruence.
Qed.

Lemma encoded_clean_up (L : list obj) :
  forallb frame_ok L = true ->
  replace_first re_semi_start []
    (replace_first re_semi_end []
       (replace_first (re_lit (lit ";;")) (lit ";") (encoded L)))
  = encoded L.
Proof.
  intros HL. unfold encoded. rewrite encode_frames by exact HL.
  pose proof (frames_pieces L HL) as Hp.
  pose proof (join_tidy (frames_text L) Hp) as Ht.
  destruct (frames_text L) as [|w ws] eqn:E; [reflexivity|].
  pose proof (Forall_inv Hp) as [Hw Hsemi].
  destruct w as [|c w]; [congruence|].
  assert (Hc : Ascii.eqb c ";" = false).
  { apply Ascii.eqb_neq. intros ->. apply Hsemi. left; reflexivity. }
  destruct ws as [|w2 ws].
  - change (join (lit ";") [c :: w]) with (c :: w) in *.
    apply cleanup_tidy; assumption.
  - change (join (lit ";") ((c :: w) :: w2 :: ws))
      with (c :: (w ++ lit ";" ++ join (lit ";") (w2 :: ws))) in *.
    apply cleanup_tidy; assumption.
Qed.

Lemma has_word_snoc (h : str) (L : list obj) (g : str) :
  has_word h (L ++ [plain_frame g]) = (str_eqb g h || has_word h L).
Proof.
  unfold has_word. rewrite existsb_app. cbn [existsb].
  change (frame_key (plain_frame g)) with g.
  change (flag_names (plain_frame g)) with (@nil str).
  cbn [existsb]. rewrite !orb_false_r. apply orb_comm.
Qed.

Lemma give_back_le (prev : option ascii) (s : str) (e e' : nat) :
  give_back prev s e = Some e' -> e' <= e.
Proof.
  induction e as [|e IH]; cbn [give_back].
  - destruct (word_boundary _ _); [|discriminate]. intros H. injection H as <-. lia.
  - destruct (word_boundary (char_before prev s (S e)) (skipn (S e) s)).
    + intros H. injection H as <-. lia.
    + intros H. specialize (IH H). lia.
Qed.

Lemma attr_run_le (opened : bool) (s : str) : attr_run opened s <= length s.
Proof.
  revert opened. induction s as [|c s IH]; intros opened; cbn [attr_run length].
  - lia.
  - destruct (Ascii.eqb c ":"); [specialize (IH true); lia|].
    destruct (opened && is_lower c); [specialize (IH true); lia|lia].
Qed.

Lemma re_clear_extent (k : str) (prev : option ascii) (s : str) (n : nat) :
  re_clear k prev s = Some n -> length k <= n <= length s.
Proof.
  unfold re_clear.
  destruct (word_boundary prev s && starts_with k s) eqn:E; [|discriminate].
  apply andb_true_iff in E. destruct E as [_ Hsw].
  destruct (give_back _ _ _) as [e|] eqn:G; [|discriminate].
  intros H. injection H as <-.
  apply give_back_le in G.
  pose proof (attr_run_le false (skipn (length k) s)) as Hrun.
  pose proof (f_equal (@length ascii) (starts_with_split k s Hsw)) as Hlen.
  rewrite length_app in Hlen. lia.
Qed.

Lemma clear_found_shortens (k s : str) :
  alpha_word k = true -> inSJN s k = true ->
  length (clearInSJN s k) < length s.
Proof.
  intros Hk Hin.
  assert (Hfound : find_first (re_clear k) None s <> None).
  { intros H. apply (clear_finds_as_inSJN k s Hk) in H. congruence. }
  destruct (find_first (re_clear k) None s) as [[i n]|] eqn:F; [|congruence].
  destruct (find_first_pos _ _ _ _ _ F) as (Hi & prev' & Hm).
  apply re_clear_extent in Hm. rewrite length_skipn in Hm.
  assert (Hpos : 0 < length k)
    by (destruct k; [discriminate Hk|cbn [length]; lia]).
  assert (Hcut : length (replace_first (re_clear k) [] s) < length s).
  { unfold replace_first. rewrite F. cbn [app].
    rewrite length_app, length_firstn, length_skipn. lia. }
  unfold clearInSJN.
  pose proof (replace_first_delete_shrinks re_semi_start
                (replace_first re_semi_end []
                   (replace_first (re_lit (lit ";;")) (lit ";")
                      (replace_first (re_clear k) [] s)))) as [H1 _].
  pose proof (replace_first_delete_shrinks re_semi_end
                (replace_first (re_lit (lit ";;")) (lit ";")
                   (replace_first (re_clear k) [] s))) as [H2 _].
  pose proof (replace_double_shrinks (replace_first (re_clear k) [] s)) as [H3 _].
  lia.
Qed.

Lemma clear_absent (L : list obj) (k : str) :
  forallb frame_ok L = true -> alpha_word k = true ->
  inSJN (encoded L) k = false -> clearInSJN (encoded L) k = encoded L.
Proof.
  intros HL Hk Hin. unfold clearInSJN.
  rewrite (replace_none (re_clear k))
    by (apply clear_finds_as_inSJN; assumption).
  apply encoded_clean_up. exact HL.
Qed.

End PushFindClear.

(** C3, as the code has it.  When the resolver called for a frame with the
    key [k] returns [true] or [undefined] and the stack the resolver left
    still holds a frame with the key [k], that stack loses exactly one
    frame: the leftmost frame with the key [k], which is the frame the
    resolver was called for when no older frame has that key (no frame
    before it carries a flag called [k]).  When the stack the resolver left
    holds [k] no more, as after a resolver that cleared the goal itself,
    nothing is removed.  When the resolver returns [false], the stack it
    left is kept as it is.  In the loop, the resolver of a frame's goal is
    called through [resolveGoal] with the key of that frame. *)
Theorem resolver_success_removes_frame (cb : Callback.resolver)
  (t : ConversationEngine.turn) (k : str) :
  let t1 := fst (Callback.call cb t) in
  let r := snd (Callback.call cb t) in
  alpha_word k = true ->
  (forall L1 o L2,
      ConversationEngine.convoGoalState t1
      = ShortJSON.arrToSJN (ShortJSON.arrObjToArr (L1 ++ o :: L2)) ->
      forallb frame_ok (L1 ++ o :: L2) = true ->
      frame_key o = k ->
      (forall o', In o' L1 -> frame_key o' <> k /\ ~ In k (flag_names o')) ->
      (r = Callback.RBool true \/ r = Callback.RUndefined) ->
      InputMgr.resolveGoal cb (JStr k) t
      = ConversationEngine.set_goals t1
          (ShortJSON.arrToSJN (ShortJSON.arrObjToArr (L1 ++ L2)))
      /\ frames_of (InputMgr.resolveGoal cb (JStr k) t) + 1 = frames_of t1)
  /\ (forall L,
        ConversationEngine.convoGoalState t1
        = ShortJSON.arrToSJN (ShortJSON.arrObjToArr L) ->
        forallb frame_ok L = true ->
        ConversationEngine.hasGoal t1 k = false ->
        InputMgr.resolveGoal cb (JStr k) t = t1)
  /\ (r = Callback.RBool false ->
      InputMgr.resolveGoal cb (JStr k) t = t1)
  /\ forall goals l gws def,
       remembered_is_older l ->
       ConversationEngine.mostRecentGoalStates
         (if ConversationEngine.goalStateChanged (InputMgr.tn l)
          then ConversationEngine.set_changed (InputMgr.tn l) false
          else InputMgr.tn l)
         ((if ConversationEngine.goalStateChanged (InputMgr.tn l)
           then -1 else InputMgr.goalNdx l) + 1)%Z = Some gws ->
       lookup goals (to_string (obj_get gws (lit "key"))) = Some def ->
       InputMgr.resolve def = Some cb ->
       InputMgr.tn (InputMgr.loop_body goals l)
       = InputMgr.resolveGoal cb (obj_get gws (lit "key"))
           (if ConversationEngine.goalStateChanged (InputMgr.tn l)
            then ConversationEngine.set_changed (InputMgr.tn l) false
            else InputMgr.tn l).
Proof.
  intros t1 r Hk.
  assert (Hrun : InputMgr.resolveGoal cb (JStr k) t
                 = if InputMgr.succeeded r then InputMgr.removeGoal t1 (JStr k)
                   else t1)
    by apply resolveGoal_unfold.
  split; [|split; [|split]].
  - intros L1 o L2 Ht Hok Hkey Hfree Hr.
    assert (Hok12 : forallb frame_ok (L1 ++ L2) = true).
    { rewrite forallb_app in Hok. cbn [forallb] in Hok.
      rewrite !andb_true_iff in Hok. rewrite forallb_app.
      apply andb_true_iff. tauto. }
    assert (Hs : InputMgr.succeeded r = true)
      by (destruct Hr as [->| ->]; reflexivity).
    rewrite Hrun, Hs. unfold InputMgr.removeGoal.
    rewrite (clearGoal_leftmost t1 L1 L2 o k Ht Hok Hkey Hfree).
    split; [reflexivity|].
    rewrite frames_of_encoded by exact Hok12.
    assert (Hf1 : frames_of t1 = length (L1 ++ o :: L2)).
    { unfold frames_of, ConversationEngine.getGoalStates,
        ConversationEngine._getGoalsRaw.
      rewrite Ht, decode_encode by exact Hok. apply length_map. }
    rewrite Hf1, !length_app. cbn [length]. lia.
  - intros L Ht Hok Habsent. rewrite Hrun.
    destruct (InputMgr.succeeded r); [|reflexivity].
    unfold InputMgr.removeGoal, ConversationEngine.clearGoal,
      ConversationEngine.hasGoal, ConversationEngine._getGoalsRaw in *.
    destruct (negb (truthy (JStr k))); [reflexivity|].
    cbn [to_string]. rewrite Ht in *.
    fold (encoded L) in *. rewrite (clear_absent L k Hok Hk Habsent).
    rewrite Nat.eqb_refl. reflexivity.
  - intros Hr. rewrite Hrun, Hr. reflexivity.
  - intros goals l gws def Hold Htop Hdef Hcb.
    apply (loop_body_resolver goals l gws def cb Hold Htop Hdef Hcb).
Qed.

Lemma resolver_success_removes_frame_witness :
  InputMgr.resolveGoal done_cb (JStr (lit "k")) stack_xk
  = ConversationEngine.set_goals stack_xk (lit "x:queried").
Proof.
  refine (proj1 (proj1 (resolver_success_removes_frame done_cb stack_xk
                          (lit "k") eq_refl)
                   [frame_x_queried] frame_k [] eq_refl eq_refl eq_refl _
                   (or_introl eq_refl))).
  intros o' [<-|[]]. split.
  - discriminate.
  - intros [H|[]]. discriminate H.
Defined.

(** C3 as the spec states it fails when the key is on the stack twice: the
    loop calls the resolver for the frame at the top (position 2 of
    [k;x;k]), the resolver succeeds, and the frame that goes is the one at
    position 0: what is left is [x;k], not the [k;x] that is left when the
    frame at the top goes. *)
Lemma resolver_success_counterexample :
  let l1 := InputMgr.loop_body twice_goals (InputMgr.loop_start stack_kxk) in
  ConversationEngine.mostRecentGoalStates stack_kxk 0 = Some frame_k
  /\ ConversationEngine.getGoalNames stack_kxk
     = [JStr (lit "k"); JStr (lit "x"); JStr (lit "k")]
  /\ ConversationEngine.convoGoalState (InputMgr.tn l1) = lit "x;k"
  /\ ShortJSON.arrToSJN
       (ShortJSON.arrObjToArr
          (firstn 2 (ConversationEngine.getGoalStates stack_kxk)))
     = lit "k;x".
Proof. repeat split; reflexivity. Qed.

(** X6.  Asking for a goal that was just pushed: after [addGoal] with a
    name of letters, [hasGoal] finds that name, whatever the stack.  On a
    well-formed stack [hasGoal] after the push answers for any name of
    letters what it answered before, except that it now also finds the
    pushed name. *)
Theorem hasGoal_after_addGoal (t : ConversationEngine.turn) (goalName : str) :
  alpha_word goalName = true ->
  ConversationEngine.hasGoal (ConversationEngine.addGoal t goalName) goalName
  = true
  /\ forall L other,
       ConversationEngine.convoGoalState t = encoded L ->
       forallb frame_ok L = true -> alpha_word other = true ->
       ConversationEngine.hasGoal (ConversationEngine.addGoal t goalName) other
       = (str_eqb goalName other || ConversationEngine.hasGoal t other).
Proof.
  intros Hg. split.
  - unfold ConversationEngine.hasGoal, ConversationEngine.addGoal,
      ConversationEngine.appendGoal, ConversationEngine._getGoalsRaw.
    cbn [ConversationEngine.set_goals ConversationEngine.convoGoalState].
    unfold ShortJSON.inSJN, ShortJSON.arrPush.
    set (s := ConversationEngine.convoGoalState t).
    assert (Hfound : forall a, opt_word (last_char None a) = false ->
                               find_first (re_word goalName) None (a ++ goalName)
                               <> None).
    { intros a Ha. apply (find_first_complete _ _ _ _ (length goalName)).
      rewrite <- (app_nil_r goalName) at 2.
      apply word_at; [exact Hg|exact Ha|exact I]. }
    destruct s as [|c s].
    + specialize (Hfound [] eq_refl). cbn [app] in Hfound.
      destruct (find_first (re_word goalName) None goalName);
        [reflexivity|congruence].
    + specialize (Hfound ((c :: s) ++ lit ";")).
      rewrite <- app_assoc in Hfound.
      destruct (find_first (re_word goalName) None ((c :: s) ++ lit ";" ++ goalName)).
      * reflexivity.
      * exfalso. apply Hfound; [|reflexivity].
        rewrite last_char_app. reflexivity.
  - intros L other Ht HL Ho.
    unfold ConversationEngine.hasGoal, ConversationEngine.addGoal,
      ConversationEngine.appendGoal, ConversationEngine._getGoalsRaw.
    cbn [ConversationEngine.set_goals ConversationEngine.convoGoalState].
    rewrite Ht, (push_encoded L goalName HL Hg). unfold encoded.
    rewrite !inSJN_words
      by (try apply frames_ok_snoc; try apply plain_frame_ok; assumption).
    apply has_word_snoc.
Qed.

Lemma hasGoal_after_addGoal_witness :
  ConversationEngine.hasGoal
    (ConversationEngine.addGoal stack_xk (lit "airline")) (lit "airline")
  = true
  /\ forall L other,
       ConversationEngine.convoGoalState stack_xk = encoded L ->
       forallb frame_ok L = true -> alpha_word other = true ->
       ConversationEngine.hasGoal
         (ConversationEngine.addGoal stack_xk (lit "airline")) other
       = (str_eqb (lit "airline") other
          || ConversationEngine.hasGoal stack_xk other).
Proof.
  apply (hasGoal_after_addGoal stack_xk (lit "airline")). reflexivity.
Defined.

(** X7.  Pushing and clearing undo each other: on a well-formed stack, if
    [hasGoal] does not find a name of letters, then [addGoal] with that
    name followed by [clearGoal] with it gives back the turn as it was. *)
Theorem addGoal_then_clearGoal (t : ConversationEngine.turn) (L : list obj)
  (goalName : str) :
  ConversationEngine.convoGoalState t = encoded L ->
  forallb frame_ok L = true -> alpha_word goalName = true ->
  ConversationEngine.hasGoal t goalName = false ->
  ConversationEngine.clearGoal (ConversationEngine.addGoal t goalName)
    (JStr goalName)
  = t.
Proof.
  intros Ht HL Hg Hhas.
  assert (Hfree : forall o', In o' L ->
                    frame_key o' <> goalName /\ ~ In goalName (flag_names o')).
  { intros o' Ho'.
    unfold ConversationEngine.hasGoal, ConversationEngine._getGoalsRaw in Hhas.
    rewrite Ht in Hhas. unfold encoded in Hhas.
    rewrite (inSJN_words L goalName HL Hg) in Hhas.
    split; intros H;
      (assert (Hw : has_word goalName L = true)
         by (apply has_word_spec; exists o'; auto)); congruence. }
  rewrite (clearGoal_leftmost _ L [] (plain_frame goalName) goalName).
  - rewrite app_nil_r. fold (encoded L). rewrite <- Ht.
    destruct t; reflexivity.
  - unfold ConversationEngine.addGoal, ConversationEngine.appendGoal,
      ConversationEngine._getGoalsRaw.
    cbn [ConversationEngine.set_goals ConversationEngine.convoGoalState].
    rewrite Ht. apply push_encoded; assumption.
  - apply frames_ok_snoc; [exact HL|apply plain_frame_ok; exact Hg].
  - reflexivity.
  - exact Hfree.
Qed.

Lemma addGoal_then_clearGoal_witness :
  ConversationEngine.clearGoal
    (ConversationEngine.addGoal stack_xk (lit "airline")) (JStr (lit "airline"))
  = stack_xk.
Proof.
  apply (addGoal_then_clearGoal stack_xk [frame_x_queried; frame_k]
           (lit "airline")); reflexivity.
Defined.

(** X8.  [clearGoal] changes the stack exactly when [hasGoal] finds the
    name.  On a well-formed stack and for a name of letters: if [hasGoal]
    answers [false], [clearGoal] takes its [Goal Not Found] branch and the
    turn stays as it is; if [hasGoal] answers [true], the encoded stack
    gets strictly shorter.  This holds as well when the name is found as a
    flag only. *)
Theorem clearGoal_changes_iff_hasGoal (t : ConversationEngine.turn)
  (L : list obj) (goalName : str) :
  ConversationEngine.convoGoalState t = encoded L ->
  forallb frame_ok L = true -> alpha_word goalName = true ->
  (ConversationEngine.hasGoal t goalName = false ->
   ConversationEngine.clearGoal t (JStr goalName) = t)
  /\ (ConversationEngine.hasGoal t goalName = true ->
      length (ConversationEngine.convoGoalState
                (ConversationEngine.clearGoal t (JStr goalName)))
      < length (ConversationEngine.convoGoalState t))
  /\ (ConversationEngine.clearGoal t (JStr goalName) = t <->
      ConversationEngine.hasGoal t goalName = false).
Proof.
  intros Ht HL Hg.
  assert (Hne : nonempty goalName = true)
    by (destruct goalName; [discriminate Hg|reflexivity]).
  assert (Hno : ConversationEngine.hasGoal t goalName = false ->
                ConversationEngine.clearGoal t (JStr goalName) = t).
  { intros Hhas. unfold ConversationEngine.clearGoal.
    cbn [truthy to_string]. rewrite Hne. cbn [negb].
    unfold ConversationEngine._getGoalsRaw. rewrite Ht.
    rewrite clear_absent; [rewrite Nat.eqb_refl; reflexivity| | |]; try assumption.
    unfold ConversationEngine.hasGoal, ConversationEngine._getGoalsRaw in Hhas.
    rewrite Ht in Hhas. exact Hhas. }
  assert (Hyes : ConversationEngine.hasGoal t goalName = true ->
                 length (ConversationEngine.convoGoalState
                           (ConversationEngine.clearGoal t (JStr goalName)))
                 < length (ConversationEngine.convoGoalState t)).
  { intros Hhas. unfold ConversationEngine.clearGoal.
    cbn [truthy to_string]. rewrite Hne. cbn [negb].
    unfold ConversationEngine._getGoalsRaw.
    pose proof (clear_found_shortens goalName
                  (ConversationEngine.convoGoalState t) Hg Hhas) as Hlt.
    destruct (_ =? _) eqn:E.
    - apply Nat.eqb_eq in E. lia.
    - cbn [ConversationEngine.set_goals ConversationEngine.convoGoalState].
      exact Hlt. }
  split; [exact Hno|]. split; [exact Hyes|]. split; [|exact Hno].
  intros Hsame.
  destruct (ConversationEngine.hasGoal t goalName) eqn:Hhas; [|reflexivity].
  specialize (Hyes eq_refl). rewrite Hsame in Hyes. lia.
Qed.

Lemma clearGoal_changes_iff_hasGoal_witness :
  (ConversationEngine.hasGoal stack_xk (lit "airline") = false ->
   ConversationEngine.clearGoal stack_xk (JStr (lit "airline")) = stack_xk)
  /\ (ConversationEngine.hasGoal stack_xk (lit "airline") = true ->
      length (ConversationEngine.convoGoalState
                (ConversationEngine.clearGoal stack_xk (JStr (lit "airline"))))
      < length (ConversationEngine.convoGoalState stack_xk))
  /\ (ConversationEngine.clearGoal stack_xk (JStr (lit "airline")) = stack_xk <->
      ConversationEngine.hasGoal stack_xk (lit "airline") = false).
Proof.
  apply (clearGoal_changes_iff_hasGoal stack_xk [frame_x_queried; frame_k]
           (lit "airline")); reflexivity.
Defined.

(** ** Updating a frame *)

Section UpdateFrame.
Import ShortJSON ConversationEngine.

Lemma existsb_filter_false {A : Type} (p q : A -> bool) (l : list A) :
  existsb p l = false -> existsb p (filter q l) = false.
Proof.
  induction l as [|x l IH]; cbn [existsb filter]; [reflexivity|].
  intros H. apply orb_false_iff in H. destruct H as [Hx Hl].
  destruct (q x); cbn [existsb]; [rewrite Hx|]; auto.
Qed.

Lemma nodupb_filter (q : str -> bool) (l : list str) :
  nodupb l = true -> nodupb (filter q l) = true.
Proof.
  induction l as [|x l IH]; cbn [nodupb filter]; [reflexivity|].
  intros H. apply andb_true_iff in H. destruct H as [Hx Hl].
  destruct (q x); cbn [nodupb]; [|auto].
  rewrite (IH Hl), andb_true_r.
  apply negb_true_iff in Hx. apply negb_true_iff.
  apply existsb_filter_false. exact Hx.
Qed.

Lemma flag_entries_keys (fs : list str) : map fst (map flag_entry fs) = fs.
Proof. rewrite map_map. cbn [flag_entry fst]. apply map_id. Qed.

Lemma flags_not_key (o : obj) (f : str) : In f (flag_names o) -> is_key f = false.
Proof. intros H. apply flag_names_spec in H. tauto. Qed.

Lemma filter_all {A : Type} (p : A -> bool) (l : list A) :
  (forall x, In x l -> p x = true) -> filter p l = l.
Proof.
  induction l as [|x l IH]; intros H; cbn [filter]; [reflexivity|].
  rewrite (H x) by (left; reflexivity). f_equal. apply IH.
  intros y Hy. apply H. right; exact Hy.
Qed.

Lemma decoded_key (o : obj) : frame_key (decoded o) = frame_key o.
Proof. reflexivity. Qed.

Lemma decoded_flags (o : obj) : flag_names (decoded o) = flag_names o.
Proof.
  unfold flag_names at 1, decoded. cbn [obj_keys map fst filter].
  change (is_key (lit "key")) with true. cbn [negb].
  change (map fst (map flag_entry (flag_names o)))
    with (map fst (map flag_entry (flag_names o))).
  rewrite flag_entries_keys. apply filter_all.
  intros f Hf. rewrite (flags_not_key o f Hf). reflexivity.
Qed.

Lemma decoded_twice (o : obj) : decoded (decoded o) = decoded o.
Proof. unfold decoded at 1. rewrite decoded_key, decoded_flags. reflexivity. Qed.

(** A key followed by distinct lower-case flags is a well-formed frame. *)
Lemma key_and_flags_ok (k : str) (fs : list str) :
  alpha_word k = true -> nodupb fs = true ->
  Forall (fun f => lower_word f = true /\ is_key f = false) fs ->
  frame_ok ((lit "key", JStr k) :: map flag_entry fs) = true.
Proof.
  intros Hk Hnd Hfs. unfold frame_ok.
  cbn [obj_keys map fst obj_get nodupb forallb snd].
  change (str_eqb (lit "key") (lit "key")) with true. cbv iota.
  change (is_key (lit "key")) with true. cbn [orb andb].
  fold (obj_keys (map flag_entry fs)).
  unfold obj_keys. rewrite flag_entries_keys, Hnd, Hk. cbn [andb].
  rewrite !andb_true_r. apply andb_true_iff. split.
  - apply negb_true_iff. clear - Hfs.
    induction Hfs as [|f fs [_ Hf] _ IH]; cbn [existsb]; [reflexivity|].
    rewrite IH, orb_false_r.
    unfold is_key in Hf.
    destruct (str_eqb (lit "key") f) eqn:E; [|reflexivity].
    apply str_eqb_eq in E. subst f. rewrite str_eqb_refl in Hf. discriminate Hf.
  - apply forallb_forall. intros pv Hpv. apply in_map_iff in Hpv.
    destruct Hpv as (f & <- & Hf). cbn [flag_entry fst snd].
    rewrite Forall_forall in Hfs. destruct (Hfs f Hf) as [Hl _].
    rewrite Hl. apply orb_true_r.
Qed.

Lemma decoded_ok (o : obj) : frame_ok o = true -> frame_ok (decoded o) = true.
Proof.
  intros Ho. unfold decoded. apply key_and_flags_ok.
  - apply frame_key_get. exact Ho.
  - apply nodupb_filter. apply frame_ok_parts. exact Ho.
  - apply Forall_forall. intros f Hf. split.
    + apply (flag_names_lower o f Ho Hf).
    + apply (flags_not_key o f Hf).
Qed.

Lemma getGoalStates_encoded (t : turn) (L : list obj) :
  convoGoalState t = encoded L -> forallb frame_ok L = true ->
  getGoalStates t = map decoded L.
Proof.
  intros Ht HL. unfold getGoalStates, _getGoalsRaw. rewrite Ht.
  unfold encoded. apply decode_encode. exact HL.
Qed.

Lemma map_set_nth {A B : Type} (f : A -> B) (l : list A) (i : nat) (x : A) :
  map f (set_nth l i x) = set_nth (map f l) i (f x).
Proof.
  revert i. induction l as [|y l IH]; intros i; [reflexivity|].
  destruct i as [|i]; cbn [set_nth map]; [reflexivity|].
  rewrite IH. reflexivity.
Qed.

Lemma map_decoded_ok (L : list obj) :
  forallb frame_ok L = true -> forallb frame_ok (map decoded L) = true.
Proof.
  intros HL. apply forallb_forall. intros o Ho. apply in_map_iff in Ho.
  destruct Ho as (o' & <- & Ho'). apply decoded_ok.
  rewrite forallb_forall in HL. apply HL. exact Ho'.
Qed.

(** Writing a frame at a depth and reading the stack back. *)
Lemma update_read_back (t : turn) (L : list obj) (ndx : Z) (o : obj) :
  convoGoalState t = encoded L -> forallb frame_ok L = true ->
  frame_ok o = true ->
  (0 <= ndx < Z.of_nat (length L))%Z ->
  let t' := updateMostRecentGoalStates t ndx o in
  getGoalStates t'
  = set_nth (map decoded L) (length L - 1 - Z.to_nat ndx) (decoded o)
  /\ outputMgr t' = outputMgr t /\ goalStateChanged t' = goalStateChanged t.
Proof.
  intros Ht HL Ho Hndx. cbv zeta. unfold updateMostRecentGoalStates.
  rewrite (getGoalStates_encoded t L Ht HL).
  rewrite updateArr_in_range by (rewrite length_map; exact Hndx).
  rewrite length_map.
  set (i := length L - 1 - Z.to_nat ndx).
  split; [|split; reflexivity].
  assert (Hok : forallb frame_ok (set_nth (map decoded L) i o) = true).
  { apply forallb_forall. apply Forall_forall. apply set_nth_Forall.
    - apply Forall_forall. apply forallb_forall. apply map_decoded_ok. exact HL.
    - exact Ho. }
  rewrite (getGoalStates_encoded _ (set_nth (map decoded L) i o));
    [|reflexivity|exact Hok].
  rewrite map_set_nth, map_map. f_equal.
  apply map_ext. intros x. apply decoded_twice.
Qed.

Lemma obj_get_decoded (o : obj) (p : str) :
  is_key p = false ->
  obj_get (decoded o) p
  = if existsb (str_eqb p) (flag_names o) then JBool true else JUndefined.
Proof.
  intros Hp. unfold decoded. cbn [obj_get].
  change (str_eqb (lit "key") p) with (str_eqb (lit "key") p).
  assert (E : str_eqb (lit "key") p = false).
  { destruct (str_eqb (lit "key") p) eqn:E; [|reflexivity].
    apply str_eqb_eq in E. subst p. discriminate Hp. }
  rewrite E. induction (flag_names o) as [|f fs IH]; [reflexivity|].
  cbn [map flag_entry obj_get existsb].
  destruct (str_eqb f p) eqn:Ef.
  - apply str_eqb_eq in Ef. subst f. rewrite str_eqb_refl. reflexivity.
  - destruct (str_eqb p f) eqn:Ef'.
    + apply str_eqb_eq in Ef'. subst f. rewrite str_eqb_refl in Ef. discriminate Ef.
    + exact IH.
Qed.

End UpdateFrame.

(** X9.  Writing a frame at a depth, and reading it back.  On a well-formed
    stack [updateMostRecentGoalStates] at a depth within the stack replaces
    that frame: [mostRecentGoalStates] at the depth then gives the frame
    written, with its key first and its flags after it (the frame itself if
    it lists its key first), every other depth gives what it gave before,
    and the number of frames is the same.  At a depth outside the stack the
    turn is left as it is. *)
Theorem updated_frame_is_read_back (t : ConversationEngine.turn)
  (L : list obj) (ndx : Z) (goalWithState : obj) :
  ConversationEngine.convoGoalState t = encoded L ->
  forallb frame_ok L = true -> frame_ok goalWithState = true ->
  let t' := ConversationEngine.updateMostRecentGoalStates t ndx goalWithState in
  ((0 <= ndx < Z.of_nat (length L))%Z ->
   ConversationEngine.mostRecentGoalStates t' ndx = Some (decoded goalWithState)
   /\ (forall other, other <> ndx ->
         ConversationEngine.mostRecentGoalStates t' other
         = ConversationEngine.mostRecentGoalStates t other)
   /\ frames_of t' = frames_of t
   /\ (key_first goalWithState = true -> decoded goalWithState = goalWithState))
  /\ ((ndx < 0 \/ Z.of_nat (length L) <= ndx)%Z -> t' = t).
Proof.
  intros Ht HL Ho t'. split.
  - intros Hndx.
    destruct (update_read_back t L ndx goalWithState Ht HL Ho Hndx)
      as (Hstates & _ & _).
    fold t' in Hstates.
    assert (Hin : (0 <= ndx < Z.of_nat (length (map decoded L)))%Z)
      by (rewrite length_map; exact Hndx).
    destruct (topInArr_set_nth (map decoded L) ndx (decoded goalWithState) Hin)
      as [Hget Hother].
    rewrite length_map in Hget, Hother.
    unfold ConversationEngine.mostRecentGoalStates, frames_of.
    rewrite Hstates, (getGoalStates_encoded t L Ht HL).
    split; [exact Hget|]. split; [exact Hother|]. split.
    + rewrite set_nth_length. reflexivity.
    + intros Hkf. apply frame_key_first_shape; [exact Ho|exact Hkf|].
      apply frame_key_get. exact Ho.
  - intros Hout. unfold t', ConversationEngine.updateMostRecentGoalStates.
    rewrite (getGoalStates_encoded t L Ht HL).
    rewrite updateArr_out_of_range by (rewrite length_map; exact Hout).
    reflexivity.
Qed.

Lemma updated_frame_is_read_back_witness :
  let t' := ConversationEngine.updateMostRecentGoalStates stack_xk 0
              frame_x_queried in
  ((0 <= 0 < Z.of_nat (length [frame_x_queried; frame_k]))%Z ->
   ConversationEngine.mostRecentGoalStates t' 0 = Some (decoded frame_x_queried)
   /\ (forall other, other <> 0%Z ->
         ConversationEngine.mostRecentGoalStates t' other
         = ConversationEngine.mostRecentGoalStates stack_xk other)
   /\ frames_of t' = frames_of stack_xk
   /\ (key_first frame_x_queried = true ->
       decoded frame_x_queried = frame_x_queried))
  /\ ((0 < 0 \/ Z.of_nat (length [frame_x_queried; frame_k]) <= 0)%Z ->
      t' = stack_xk).
Proof.
  apply (updated_frame_is_read_back stack_xk [frame_x_queried; frame_k] 0
           frame_x_queried); reflexivity.
Defined.

Section Queried.
Import ShortJSON ConversationEngine Callback InputMgr.

Lemma nodupb_snoc (fs : list str) (f : str) :
  nodupb fs = true -> ~ In f fs -> nodupb (fs ++ [f]) = true.
Proof.
  intros Hnd Hf. induction fs as [|x fs IH]; [reflexivity|].
  cbn [nodupb app] in *. apply andb_true_iff in Hnd. destruct Hnd as [Hx Hfs].
  apply andb_true_iff. split.
  - apply negb_true_iff. apply negb_true_iff in Hx.
    rewrite existsb_app, Hx. cbn [existsb orb].
    rewrite orb_false_r. apply str_eqb_neq. intros ->. apply Hf. left; reflexivity.
  - apply IH; [exact Hfs|]. intros H. apply Hf. right; exact H.
Qed.

Lemma existsb_str_in (p : str) (l : list str) :
  existsb (str_eqb p) l = true <-> In p l.
Proof.
  induction l as [|x l IH]; cbn [existsb In]; [split; [discriminate|tauto]|].
  rewrite orb_true_iff, IH, str_eqb_eq. split; intros [H|H]; auto.
Qed.

(** The frame that the loop writes back after a prompt. *)
Lemma marked_frame (o : obj) :
  frame_ok o = true -> ~ In (lit "queried") (flag_names o) ->
  obj_set (decoded o) (lit "queried") (JBool true) = decoded o ++ [queried_entry]
  /\ frame_ok (decoded o ++ [queried_entry]) = true
  /\ decoded (decoded o ++ [queried_entry]) = decoded o ++ [queried_entry].
Proof.
  intros Ho Hq.
  assert (Hshape : decoded o ++ [queried_entry]
                   = (lit "key", JStr (frame_key o))
                     :: map flag_entry (flag_names o ++ [lit "queried"])).
  { unfold decoded. rewrite map_app. reflexivity. }
  assert (Hok : frame_ok (decoded o ++ [queried_entry]) = true).
  { rewrite Hshape. apply key_and_flags_ok.
    - apply frame_key_get. exact Ho.
    - apply nodupb_snoc; [|exact Hq].
      apply nodupb_filter. apply frame_ok_parts. exact Ho.
    - apply Forall_app. split.
      + apply Forall_forall. intros f Hf. split.
        * apply (flag_names_lower o f Ho Hf).
        * apply (flags_not_key o f Hf).
      + constructor; [split; reflexivity|constructor]. }
  split; [|split; [exact Hok|]].
  - apply obj_set_fresh. unfold decoded. cbn [obj_keys map fst].
    fold (obj_keys (map flag_entry (flag_names o))). unfold obj_keys.
    rewrite flag_entries_keys. intros [H|H]; [discriminate H|exact (Hq H)].
  - apply frame_key_first_shape; [exact Hok|reflexivity|reflexivity].
Qed.

Lemma frame_at_depth (t : turn) (L : list obj) (depth : nat) (o : obj) :
  convoGoalState t = encoded L -> forallb frame_ok L = true ->
  nth_error (rev L) depth = Some o ->
  mostRecentGoalStates t (Z.of_nat depth) = Some (decoded o)
  /\ depth < length L.
Proof.
  intros Ht HL Hnth. unfold mostRecentGoalStates.
  rewrite (getGoalStates_encoded t L Ht HL), topInArr_rev, <- map_rev.
  rewrite nth_error_map, Hnth. split; [reflexivity|].
  rewrite <- length_rev. apply nth_error_Some. congruence.
Qed.

End Queried.

(** X10.  A goal is prompted for once.  When the loop comes to a frame of a
    well-formed stack whose goal is defined without a resolver but with a
    prompt or a question: if the frame carries the flag [queried], the turn
    is left as it is; if not, the prompt (or, without one, the question)
    goes to the ask queue and the frame, and no other, is written back with
    [queried] added after its flags.  Either way the round ends with the
    cursor on this frame and [moreGoalsToSeek] still set: the loop goes on
    with the next frame down, unless the counter has reached 1. *)
Theorem prompt_marks_queried (goals : InputMgr.registeredGoals)
  (l : InputMgr.loop) (L : list obj) (depth : nat) (o : obj)
  (def : InputMgr.goalDef) :
  ConversationEngine.convoGoalState (InputMgr.tn l) = encoded L ->
  forallb frame_ok L = true ->
  ConversationEngine.goalStateChanged (InputMgr.tn l) = false ->
  remembered_is_older l ->
  (InputMgr.goalNdx l + 1)%Z = Z.of_nat depth ->
  nth_error (rev L) depth = Some o ->
  lookup goals (frame_key o) = Some def ->
  InputMgr.resolve def = None -> InputMgr.goalDefQueryable def = true ->
  let l' := InputMgr.loop_body goals l in
  InputMgr.moreGoalsToSeek l' = true
  /\ InputMgr.goalNdx l' = Z.of_nat depth
  /\ (In (lit "queried") (flag_names o) -> InputMgr.tn l' = InputMgr.tn l)
  /\ (~ In (lit "queried") (flag_names o) ->
      ConversationEngine.outputMgr (InputMgr.tn l')
      = asks_with def (ConversationEngine.outputMgr (InputMgr.tn l))
      /\ ConversationEngine.mostRecentGoalStates (InputMgr.tn l') (Z.of_nat depth)
         = Some (decoded o ++ [queried_entry])
      /\ forall other, other <> Z.of_nat depth ->
           ConversationEngine.mostRecentGoalStates (InputMgr.tn l') other
           = ConversationEngine.mostRecentGoalStates (InputMgr.tn l) other).
Proof.
  intros Ht HL Hch Hold Hndx Hnth Hdef Hres Hq l'.
  destruct (frame_at_depth _ L depth o Ht HL Hnth) as [Htop Hdepth].
  assert (Hoko : frame_ok o = true).
  { rewrite forallb_forall in HL. apply HL. apply in_rev.
    apply (nth_error_In _ _ Hnth). }
  assert (Hbody : l' = InputMgr.mkLoop
                         (if truthy (obj_get (decoded o) (lit "queried"))
                          then InputMgr.tn l
                          else ConversationEngine.updateMostRecentGoalStates
                                 (match InputMgr.prompt def, InputMgr.ask def with
                                  | Some f, _ =>
                                      ConversationEngine.set_output (InputMgr.tn l)
                                        (OutputMgr.prompt
                                           (ConversationEngine.outputMgr (InputMgr.tn l)) f)
                                  | None, Some f =>
                                      ConversationEngine.set_output (InputMgr.tn l)
                                        (OutputMgr.ask
                                           (ConversationEngine.outputMgr (InputMgr.tn l)) f)
                                  | None, None => InputMgr.tn l
                                  end)
                                 (Z.of_nat depth)
                                 (obj_set (decoded o) (lit "queried") (JBool true)))
                         true (Some (InputMgr.allocated l)) (Z.of_nat depth)
                         (S (InputMgr.allocated l))).
  { unfold l', InputMgr.loop_body. rewrite Hch, Hndx, Htop.
    rewrite (seen_before_never l Hold).
    change (obj_get (decoded o) (lit "key")) with (JStr (frame_key o)).
    cbn [to_string]. rewrite Hdef, Hres, Hq. reflexivity. }
  rewrite Hbody. cbn [InputMgr.moreGoalsToSeek InputMgr.goalNdx InputMgr.tn].
  split; [reflexivity|]. split; [reflexivity|].
  rewrite (obj_get_decoded o (lit "queried") eq_refl).
  split.
  - intros Hin. apply existsb_str_in in Hin. rewrite Hin. reflexivity.
  - intros Hnot.
    assert (E : existsb (str_eqb (lit "queried")) (flag_names o) = false).
    { destruct (existsb _ _) eqn:E; [|reflexivity].
      apply existsb_str_in in E. contradiction. }
    rewrite E. cbn [truthy].
    destruct (marked_frame o Hoko Hnot) as (Hset & Hok & Hdec).
    rewrite Hset.
    set (t1 := match InputMgr.prompt def, InputMgr.ask def with
               | Some f, _ =>
                   ConversationEngine.set_output (InputMgr.tn l)
                     (OutputMgr.prompt
                        (ConversationEngine.outputMgr (InputMgr.tn l)) f)
               | None, Some f =>
                   ConversationEngine.set_output (InputMgr.tn l)
                     (OutputMgr.ask
                        (ConversationEngine.outputMgr (InputMgr.tn l)) f)
               | None, None => InputMgr.tn l
               end).
    assert (Ht1 : ConversationEngine.convoGoalState t1 = encoded L
                  /\ ConversationEngine.outputMgr t1
                     = asks_with def (ConversationEngine.outputMgr (InputMgr.tn l))
                  /\ ConversationEngine.getGoalStates t1
                     = ConversationEngine.getGoalStates (InputMgr.tn l)).
    { unfold t1, asks_with.
      destruct (InputMgr.prompt def), (InputMgr.ask def);
        repeat split; try exact Ht; reflexivity. }
    destruct Ht1 as (Hs1 & Ho1 & Hg1).
    assert (Hin : (0 <= Z.of_nat depth < Z.of_nat (length L))%Z) by lia.
    destruct (update_read_back t1 L (Z.of_nat depth) _ Hs1 HL Hok Hin)
      as (Hstates & Hout & _).
    rewrite Hdec in Hstates.
    assert (Hin' : (0 <= Z.of_nat depth < Z.of_nat (length (map decoded L)))%Z)
      by (rewrite length_map; exact Hin).
    destruct (topInArr_set_nth (map decoded L) (Z.of_nat depth)
                (decoded o ++ [queried_entry]) Hin') as [Hget Hother].
    rewrite length_map in Hget, Hother.
    split; [rewrite Hout; exact Ho1|].
    unfold ConversationEngine.mostRecentGoalStates.
    rewrite Hstates, (getGoalStates_encoded _ L Ht HL).
    split; [exact Hget|exact Hother].
Qed.

Lemma prompt_marks_queried_witness :
  let l := InputMgr.loop_start flight_stack in
  let l' := InputMgr.loop_body flight_goals l in
  InputMgr.moreGoalsToSeek l' = true
  /\ InputMgr.goalNdx l' = Z.of_nat 0
  /\ (In (lit "queried") (flag_names (plain_frame (lit "city"))) ->
      InputMgr.tn l' = InputMgr.tn l)
  /\ (~ In (lit "queried") (flag_names (plain_frame (lit "city"))) ->
      ConversationEngine.outputMgr (InputMgr.tn l')
      = asks_with (InputMgr.mkGoal None (Some (lit "What city?")) None)
          (ConversationEngine.outputMgr (InputMgr.tn l))
      /\ ConversationEngine.mostRecentGoalStates (InputMgr.tn l') (Z.of_nat 0)
         = Some (decoded (plain_frame (lit "city")) ++ [queried_entry])
      /\ forall other, other <> Z.of_nat 0 ->
           ConversationEngine.mostRecentGoalStates (InputMgr.tn l') other
           = ConversationEngine.mostRecentGoalStates (InputMgr.tn l) other).
Proof.
  apply (prompt_marks_queried flight_goals (InputMgr.loop_start flight_stack)
           [plain_frame (lit "flightArrivalTime"); plain_frame (lit "airline");
            plain_frame (lit "city")]
           0 (plain_frame (lit "city"))
           (InputMgr.mkGoal None (Some (lit "What city?")) None));
    reflexivity.
Defined.

(** ** Where the goal loop stops *)

Section LoopStops.
Import ShortJSON ConversationEngine Callback InputMgr.

Lemma loop_cond_start (t : turn) :
  (asked_of t < 1)%Q -> loop_cond (loop_start t) = true.
Proof.
  intros H. unfold loop_cond, loop_start. cbn [tn moreGoalsToSeek].
  destruct (Qlt_le_dec (OutputMgr.asked (outputMgr t)) 1) as [_|Hge];
    [reflexivity|].
  unfold asked_of in H. exfalso. apply (Qlt_not_le _ _ H Hge).
Qed.

Lemma loop_cond_done (l : loop) : moreGoalsToSeek l = false -> loop_cond l = false.
Proof.
  intros H. unfold loop_cond. rewrite H.
  destruct (Qlt_le_dec _ _); reflexivity.
Qed.

End LoopStops.

(** X11.  Where the loop gives up.  When a turn starts with a counter below
    1 and the most recent frame names a goal that is not defined, or the
    stack is empty, the loop runs its body once and stops: the turn is left
    as it is, nothing is asked, and the frames below are not looked at,
    whatever goals they name.  (The name of the frame is not one that the
    goal table inherits, such as [constructor]: under such a name the
    table does give a value.) *)
Theorem loop_stops_at_undefined_goal (goals : InputMgr.registeredGoals)
  (t : ConversationEngine.turn) (goalName : jsval) (fuel : nat) :
  ConversationEngine.goalStateChanged t = false ->
  (asked_of t < 1)%Q ->
  match ConversationEngine.mostRecentGoalStates t 0 with
  | Some frame =>
      lookup goals (to_string (obj_get frame (lit "key"))) = None
      /\ inherited (to_string (obj_get frame (lit "key"))) = false
  | None => True
  end ->
  exists l,
    InputMgr._followGoals (S fuel) goals t goalName None = Some (l, 1)
    /\ InputMgr.tn l = t /\ InputMgr.moreGoalsToSeek l = false.
Proof.
  intros Hch Hasked Htop.
  unfold InputMgr._followGoals. rewrite promiseWhile_step.
  rewrite (loop_cond_start t Hasked).
  assert (Hbody : exists last,
             InputMgr.loop_body goals (InputMgr.loop_start t)
             = InputMgr.mkLoop t false last 0 1).
  { unfold InputMgr.loop_body, InputMgr.loop_start.
    cbn [InputMgr.tn InputMgr.goalNdx InputMgr.allocated
         InputMgr.lastGoalWithState InputMgr.same_object].
    rewrite Hch. change (-1 + 1)%Z with 0%Z.
    destruct (ConversationEngine.mostRecentGoalStates t 0) as [frame|].
    - destruct Htop as [-> _]. eexists. reflexivity.
    - eexists. reflexivity. }
  destruct Hbody as [last ->].
  exists (InputMgr.mkLoop t false last 0 1).
  destruct fuel as [|fuel].
  - cbn [InputMgr.promiseWhile].
    rewrite loop_cond_done by reflexivity. repeat split.
  - rewrite promiseWhile_step.
    rewrite loop_cond_done by reflexivity. repeat split.
Qed.

Lemma loop_stops_at_undefined_goal_witness :
  exists l,
    InputMgr._followGoals 1 flight_goals stack_zzz JUndefined None = Some (l, 1)
    /\ InputMgr.tn l = stack_zzz /\ InputMgr.moreGoalsToSeek l = false.
Proof.
  apply (loop_stops_at_undefined_goal flight_goals stack_zzz JUndefined 0).
  - reflexivity.
  - reflexivity.
  - split; reflexivity.
Defined.

Section ThreePrompts.
Import ShortJSON ConversationEngine Callback InputMgr.
Local Open Scope Q_scope.





End ThreePrompts.



(** ** Punctuation and numbers *)

Section Numbers.
Import ScriptParser.

Variable getNumAsStr : str -> str.
Hypothesis spelled_out : forall num, no_digit (getNumAsStr num) = true.

Lemma strip_is_replace (s : str) (prev : option ascii) :
  replace_all_from re_punct [] 0 prev s = strip_punct s.
Proof.
  revert prev. induction s as [|c s IH]; intros prev; [reflexivity|].
  cbn [replace_all_from strip_punct filter]. unfold re_punct, is_punct.
  destruct (Ascii.eqb c "," || Ascii.eqb c "?"); cbn [negb app].
  - apply IH.
  - f_equal. apply IH.
Qed.

Lemma run_le (p : ascii -> bool) (s : str) : run p s <= length s.
Proof.
  induction s as [|c s IH]; cbn [run length]; [lia|].
  destruct (p c); lia.
Qed.

Lemma spell_from_skip (skip : nat) (s : str) :
  skip <= length s ->
  spell_from getNumAsStr skip s = spell_from getNumAsStr 0 (skipn skip s).
Proof.
  revert skip. induction s as [|c s IH]; intros skip Hs.
  - cbn [length] in Hs. replace skip with 0 by lia. reflexivity.
  - destruct skip as [|k]; [reflexivity|].
    cbn [spell_from skipn]. apply IH. cbn [length] in Hs. lia.
Qed.

Lemma no_digit_app (a b : str) :
  no_digit (a ++ b) = no_digit a && no_digit b.
Proof. apply forallb_app. Qed.

Lemma spell_from_no_digit (skip : nat) (s : str) :
  no_digit (spell_from getNumAsStr skip s) = true.
Proof.
  revert skip. induction s as [|c s IH]; intros skip; [reflexivity|].
  cbn [spell_from]. destruct skip as [|k]; [|apply IH].
  destruct (run is_digit (c :: s)) as [|n] eqn:E.
  - cbn [run] in E. destruct (is_digit c) eqn:Ec; [discriminate E|].
    cbn [no_digit forallb]. rewrite Ec. cbn [negb andb]. apply IH.
  - rewrite no_digit_app, spelled_out, IH. reflexivity.
Qed.

(** No run of digits starts in a stretch without digits. *)
Lemma digits_no_match (prev : option ascii) (region rest : str) :
  no_digit region = true -> no_match re_digits prev region rest.
Proof.
  revert prev. induction region as [|c region IH]; intros prev H;
    cbn [no_match]; [exact I|].
  cbn [no_digit forallb] in H. apply andb_true_iff in H. destruct H as [Hc Hr].
  split; [|apply IH; exact Hr].
  unfold re_digits. cbn [app run].
  apply negb_true_iff in Hc. rewrite Hc. reflexivity.
Qed.

Lemma find_digits_none (s : str) :
  no_digit s = true -> find_first re_digits None s = None.
Proof.
  intros H. rewrite <- (app_nil_r s).
  rewrite (find_first_skip _ _ _ _ (digits_no_match None s [] H)).
  reflexivity.
Qed.

Lemma count_digits_run (s : str) :
  count_digits s = run is_digit s + count_digits (skipn (run is_digit s) s).
Proof.
  induction s as [|c s IH]; [reflexivity|].
  cbn [run]. destruct (is_digit c) eqn:E.
  - cbn [skipn]. unfold count_digits in *. cbn [filter]. rewrite E.
    cbn [length]. rewrite IH. reflexivity.
  - reflexivity.
Qed.

(** The loop of [_interpolateParamsFromStore] on the digits pattern: with
    the text before the cursor free of digits, it ends with the rest read
    in one pass. *)
Lemma spell_loop (len : nat) :
  forall (s done : str) (fuel : nat),
    length s <= len -> no_digit done = true -> count_digits s <= fuel ->
    _interpolateParamsFromStore fuel (exec re_digits (fun m0 => m0))
      (fun (st : unit) num => (st, getNumAsStr num)) tt (done ++ s)
    = Some (tt, done ++ spell_numbers getNumAsStr s).
Proof.
  induction len as [|len IH]; intros s done fuel Hlen Hdone Hfuel.
  - destruct s; [|cbn [length] in Hlen; lia].
    rewrite app_nil_r. unfold spell_numbers. cbn [spell_from].
    rewrite app_nil_r.
    destruct fuel; cbn [_interpolateParamsFromStore]; unfold exec;
      rewrite (find_digits_none done Hdone); reflexivity.
  - destruct s as [|c s].
    + apply (IH [] done fuel); [cbn [length]; lia|exact Hdone|exact Hfuel].
    + destruct (run is_digit (c :: s)) as [|r] eqn:Erun.
      * (* not a digit: the cursor moves on *)
        assert (Ec : is_digit c = false).
        { cbn [run] in Erun. destruct (is_digit c); [discriminate Erun|reflexivity]. }
        unfold spell_numbers. cbn [spell_from]. rewrite Erun.
        change (done ++ c :: s) with (done ++ [c] ++ s).
        change (done ++ c :: spell_from getNumAsStr 0 s)
          with (done ++ [c] ++ spell_numbers getNumAsStr s).
        rewrite !app_assoc. apply IH.
        -- cbn [length] in Hlen. lia.
        -- rewrite no_digit_app, Hdone. cbn [no_digit forallb].
           rewrite Ec. reflexivity.
        -- unfold count_digits in *. cbn [filter] in Hfuel.
           rewrite Ec in Hfuel. exact Hfuel.
      * (* a run of digits starts here *)
        pose proof (run_le is_digit (c :: s)) as Hrun. rewrite Erun in Hrun.
        pose proof (count_digits_run (c :: s)) as Hcount. rewrite Erun in Hcount.
        destruct fuel as [|fuel]; [lia|].
        assert (Hfind : find_first re_digits None (done ++ c :: s)
                        = Some (length done, S r)).
        { rewrite (find_first_skip _ _ _ _ (digits_no_match None done (c :: s) Hdone)).
          cbn [find_first]. unfold re_digits at 1. rewrite Erun.
          cbn [shift]. rewrite Nat.add_0_r. reflexivity. }
        cbn [_interpolateParamsFromStore]. unfold exec at 1. rewrite Hfind.
        rewrite skipn_app_exact.
        unfold _interpolate.
        rewrite firstn_app_exact, length_firstn.
        replace (Nat.min (S r) (length (c :: s))) with (S r) by lia.
        rewrite skipn_app, skipn_all2 by lia.
        replace (length done + S r - length done) with (S r) by lia.
        cbn [app].
        unfold spell_numbers. cbn [spell_from]. rewrite Erun.
        rewrite (spell_from_skip r s) by (cbn [length] in Hrun; lia).
        change (skipn r s) with (skipn (S r) (c :: s)).
        rewrite !app_assoc. apply IH.
        -- rewrite length_skipn. cbn [length] in *. lia.
        -- rewrite no_digit_app, Hdone, spelled_out. reflexivity.
        -- lia.
Qed.

Lemma spell_from_chars (P : ascii -> Prop) (skip : nat) (s : str) :
  (forall num c, In c (getNumAsStr num) -> P c) ->
  (forall c, In c s -> P c) ->
  forall c, In c (spell_from getNumAsStr skip s) -> P c.
Proof.
  intros Hspell. revert skip. induction s as [|x s IH]; intros skip Hs c Hc;
    [destruct Hc|].
  assert (Hs' : forall c, In c s -> P c) by (intros d Hd; apply Hs; right; exact Hd).
  cbn [spell_from] in Hc. destruct skip as [|k]; [|apply (IH k Hs' c Hc)].
  destruct (run is_digit (x :: s)) as [|n].
  - destruct Hc as [<-|Hc]; [apply Hs; left; reflexivity|apply (IH 0 Hs' c Hc)].
  - apply in_app_or in Hc. destruct Hc as [Hc|Hc].
    + apply (Hspell _ c Hc).
    + apply (IH n Hs' c Hc).
Qed.

Lemma count_digits_le (s : str) : count_digits s <= length s.
Proof. unfold count_digits. apply filter_length_le. Qed.

Lemma strip_length_le (s : str) : length (strip_punct s) <= length s.
Proof. unfold strip_punct. apply filter_length_le. Qed.

Lemma forPunctuation_pass (fuel : nat) (userSpeech : list str) :
  Forall (fun u => length u <= fuel) userSpeech ->
  forPunctuation getNumAsStr fuel userSpeech
  = Some (map (fun u => spell_numbers getNumAsStr (strip_punct u)) userSpeech).
Proof.
  intros Hfuel. unfold forPunctuation.
  assert (Hmap : map_state
                   (fun (_ : unit) userSpeechItem =>
                      _interpolateParamsFromStore fuel
                        (exec re_digits (fun m0 => m0))
                        (fun st num => (st, getNumAsStr num)) tt userSpeechItem)
                   tt (map (replace_all re_punct []) userSpeech)
                 = Some (tt, map (fun u => spell_numbers getNumAsStr (strip_punct u))
                               userSpeech)).
  { induction Hfuel as [|u us Hu _ IH]; [reflexivity|].
    cbn [map map_state]. unfold replace_all at 1. rewrite strip_is_replace.
    pose proof (spell_loop (length (strip_punct u)) (strip_punct u) [] fuel
                  (le_n _) eq_refl) as Hloop.
    cbn [app] in Hloop. rewrite Hloop.
    - rewrite IH. reflexivity.
    - pose proof (count_digits_le (strip_punct u)).
      pose proof (strip_length_le u). lia. }
  rewrite Hmap. reflexivity.
Qed.

End Numbers.

(** X13.  [forPunctuation] reads every utterance once.  If the spelling of
    a number holds no digit, the two passes of [forPunctuation] come to an
    end on every utterance and give, for each, the utterance without its
    commas and question marks and with every maximal run of digits replaced
    by its spelling; no digit is left in the result, and no comma or
    question mark either unless a spelling brings one.  (The loop that
    replaces the leftmost run of digits until none is left needs at most one
    round per digit.) *)
Theorem forPunctuation_one_pass (getNumAsStr : str -> str) (fuel : nat)
  (userSpeech : list str) :
  (forall num, no_digit (getNumAsStr num) = true) ->
  Forall (fun u => length u <= fuel) userSpeech ->
  let spoken := map (fun u => spell_numbers getNumAsStr (strip_punct u))
                  userSpeech in
  ScriptParser.forPunctuation getNumAsStr fuel userSpeech = Some spoken
  /\ Forall (fun u => no_digit u = true) spoken
  /\ ((forall num c, In c (getNumAsStr num) -> is_punct c = false) ->
      Forall (fun u => forall c, In c u -> is_punct c = false) spoken).
Proof.
  intros Hspell Hfuel spoken. split; [|split].
  - apply forPunctuation_pass; assumption.
  - apply Forall_forall. intros u Hu. apply in_map_iff in Hu.
    destruct Hu as (u0 & <- & _). apply spell_from_no_digit. exact Hspell.
  - intros Hplain. apply Forall_forall. intros u Hu. apply in_map_iff in Hu.
    destruct Hu as (u0 & <- & _). unfold spell_numbers.
    apply spell_from_chars; [exact Hplain|].
    intros c Hc. unfold strip_punct in Hc. apply filter_In in Hc.
    destruct Hc as [_ Hc]. apply negb_true_iff in Hc. exact Hc.
Qed.

Lemma forPunctuation_one_pass_witness :
  let spell := fun _ : str => lit "many" in
  let spoken := map (fun u => spell_numbers spell (strip_punct u))
                  [lit "Is it 42, or 7?"] in
  ScriptParser.forPunctuation spell 15 [lit "Is it 42, or 7?"] = Some spoken
  /\ Forall (fun u => no_digit u = true) spoken
  /\ ((forall num c, In c (spell num) -> is_punct c = false) ->
      Forall (fun u => forall c, In c u -> is_punct c = false) spoken).
Proof.
  apply (forPunctuation_one_pass (fun _ => lit "many") 15
           [lit "Is it 42, or 7?"]).
  - reflexivity.
  - repeat constructor.
Defined.

(** ** Slots *)

Section Slots.
Import ScriptParser.

Lemma str_eqb_sym (a b : str) : str_eqb a b = str_eqb b a.
Proof.
  destruct (str_eqb a b) eqn:E.
  - apply str_eqb_eq in E. subst b. symmetry. apply str_eqb_refl.
  - destruct (str_eqb b a) eqn:E'; [|reflexivity].
    apply str_eqb_eq in E'. subst b. rewrite str_eqb_refl in E. discriminate E.
Qed.

Lemma lookup_assign {A : Type} (tbl : list (str * A)) (k k' : str) (v : A) :
  lookup (assign tbl k v) k' = if str_eqb k k' then Some v else lookup tbl k'.
Proof.
  induction tbl as [|[q w] tbl IH]; cbn [assign lookup].
  - reflexivity.
  - destruct (str_eqb q k) eqn:E; cbn [lookup].
    + apply str_eqb_eq in E. subst q.
      destruct (str_eqb k k'); reflexivity.
    + rewrite IH. destruct (str_eqb q k') eqn:E'; [|reflexivity].
      apply str_eqb_eq in E'. subst q. rewrite str_eqb_sym, E. reflexivity.
Qed.

(** *** Trimming *)

Lemma drop_space_suffix (s : str) :
  exists sp, s = sp ++ drop_space s /\ forallb is_space sp = true.
Proof.
  induction s as [|c s IH]; [exists []; split; reflexivity|].
  cbn [drop_space]. destruct (is_space c) eqn:E.
  - destruct IH as (sp & Hs & Hsp). exists (c :: sp). split.
    + cbn [app]. f_equal. exact Hs.
    + cbn [forallb]. rewrite E, Hsp. reflexivity.
  - exists []. split; reflexivity.
Qed.

(** A string that does not start with white space. *)
Lemma drop_space_fixed (s : str) :
  match s with c :: _ => is_space c = false | [] => True end ->
  drop_space s = s.
Proof. destruct s as [|c s]; [reflexivity|]. cbn [drop_space]. intros ->. reflexivity. Qed.

Lemma drop_space_head (s : str) :
  match drop_space s with c :: _ => is_space c = false | [] => True end.
Proof.
  induction s as [|c s IH]; [exact I|]. cbn [drop_space].
  destruct (is_space c) eqn:E; [exact IH|exact E].
Qed.

Lemma trim_idempotent (s : str) : trim (trim s) = trim s.
Proof.
  unfold trim.
  set (d := drop_space s).
  set (y := drop_space (rev d)).
  assert (Hy : match y with c :: _ => is_space c = false | [] => True end)
    by apply drop_space_head.
  assert (Hd : match d with c :: _ => is_space c = false | [] => True end)
    by apply drop_space_head.
  assert (Hr : match rev y with c :: _ => is_space c = false | [] => True end).
  { destruct (drop_space_suffix (rev d)) as (sp & Hs & _). fold y in Hs.
    assert (E : d = rev y ++ rev sp)
      by (rewrite <- rev_app_distr, <- Hs, rev_involutive; reflexivity).
    destruct (rev y) as [|c r]; [exact I|].
    rewrite E in Hd. exact Hd. }
  rewrite (drop_space_fixed (rev y) Hr), rev_involutive.
  rewrite (drop_space_fixed y Hy). reflexivity.
Qed.

Lemma in_drop_space (c : ascii) (s : str) : In c (drop_space s) -> In c s.
Proof.
  destruct (drop_space_suffix s) as (sp & Hs & _). intros H.
  rewrite Hs. apply in_or_app. right; exact H.
Qed.

Lemma in_trim (c : ascii) (s : str) : In c (trim s) -> In c s.
Proof.
  unfold trim. intros H. apply in_rev in H. apply in_drop_space in H.
  apply in_rev in H. apply in_drop_space in H. exact H.
Qed.

(** *** Plain text *)

Lemma plain_text_spec (t : str) :
  plain_text t = true <-> ~ In "["%char t.
Proof.
  unfold plain_text. rewrite forallb_forall. split.
  - intros H Hin. specialize (H _ Hin). discriminate H.
  - intros H c Hc. apply negb_true_iff. apply Ascii.eqb_neq.
    intros ->. exact (H Hc).
Qed.

Lemma plain_text_app (a b : str) :
  plain_text (a ++ b) = plain_text a && plain_text b.
Proof. apply forallb_app. Qed.

Lemma param_char_not_bracket (c : ascii) :
  is_param_char c = true -> Ascii.eqb c "[" = false /\ Ascii.eqb c "]" = false.
Proof.
  intros H. split.
  - destruct (Ascii.eqb c "[") eqn:E; [|reflexivity].
    apply Ascii.eqb_eq in E. subst c. discriminate H.
  - destruct (Ascii.eqb c "]") eqn:E; [|reflexivity].
    apply Ascii.eqb_eq in E. subst c. discriminate H.
Qed.

Lemma name_plain (name : str) :
  all_chars is_param_char name = true -> plain_text name = true.
Proof.
  unfold all_chars, plain_text. rewrite !forallb_forall.
  intros H c Hc. apply negb_true_iff.
  apply (param_char_not_bracket c (H c Hc)).
Qed.

Lemma samples_of_plain (kt : keyTypes) (name : str) :
  samples_plain kt = true -> plain_text (samples_of kt name) = true.
Proof.
  intros Hkt. unfold samples_of.
  destruct (lookup kt name) as [[typeName|ty vals [svs|]]|] eqn:E;
    try reflexivity.
  assert (Hsvs : forallb plain_text svs = true).
  { clear - Hkt E. induction kt as [|[q w] kt IH]; [discriminate E|].
    cbn [samples_plain forallb snd] in Hkt. apply andb_true_iff in Hkt.
    destruct Hkt as [Hw Hkt]. cbn [lookup] in E.
    destruct (str_eqb q name).
    - injection E as ->. exact Hw.
    - apply IH; assumption. }
  apply plain_text_spec. intros Hin. apply in_join in Hin.
  destruct Hin as [Hin|(w & Hw & Hin)].
  - destruct Hin as [Hin|[]]. discriminate Hin.
  - apply in_map_iff in Hw. destruct Hw as (sv & <- & Hsv).
    apply in_trim in Hin. rewrite forallb_forall in Hsvs.
    specialize (Hsvs sv Hsv). apply plain_text_spec in Hsvs. exact (Hsvs Hin).
Qed.

(** *** Finding the next slot *)

Lemma params_no_match (prev : option ascii) (region rest : str) :
  plain_text region = true -> no_match re_params prev region rest.
Proof.
  revert prev. induction region as [|c region IH]; intros prev H;
    cbn [no_match]; [exact I|].
  cbn [plain_text forallb] in H. apply andb_true_iff in H. destruct H as [Hc Hr].
  split; [|apply IH; exact Hr].
  unfold re_params. cbn [app]. change (lit "[[") with ["["%char; "["%char].
  cbn [starts_with]. apply negb_true_iff in Hc.
  rewrite Ascii.eqb_sym, Hc. reflexivity.
Qed.

Lemma run_all (p : ascii -> bool) (a b : str) :
  forallb p a = true -> run p (a ++ b) = length a + run p b.
Proof.
  induction a as [|c a IH]; intros H; [reflexivity|].
  cbn [forallb] in H. apply andb_true_iff in H. destruct H as [Hc Ha].
  cbn [app run length]. rewrite Hc, (IH Ha). reflexivity.
Qed.

Lemma params_at_slot (prev : option ascii) (name rest : str) :
  all_chars is_param_char name = true ->
  re_params prev (lit "[[" ++ name ++ lit "]]" ++ rest)
  = Some (2 + length name + 2).
Proof.
  intros Hname. unfold re_params.
  rewrite starts_with_app.
  change (skipn 2 (lit "[[" ++ name ++ lit "]]" ++ rest))
    with (name ++ lit "]]" ++ rest).
  rewrite (run_all _ _ _ Hname).
  change (run is_param_char (lit "]]" ++ rest)) with 0.
  rewrite Nat.add_0_r.
  assert (Hgb : give_back_to (lit "]]") (name ++ lit "]]" ++ rest) (length name)
                = Some (length name)).
  { destruct (length name) eqn:El; cbn [give_back_to]; rewrite <- El;
      rewrite skipn_app_exact, starts_with_app; reflexivity. }
  rewrite Hgb. reflexivity.
Qed.

Lemma exec_at_slot (done name rest : str) :
  plain_text done = true -> all_chars is_param_char name = true ->
  exec re_params param_name (done ++ lit "[[" ++ name ++ lit "]]" ++ rest)
  = Some (length done, lit "[[" ++ name ++ lit "]]", name).
Proof.
  intros Hdone Hname. unfold exec.
  rewrite (find_first_skip _ _ _ _ (params_no_match None done _ Hdone)).
  rewrite (find_first_here _ _ _ _ (params_at_slot _ name rest Hname)).
  cbn [shift]. rewrite Nat.add_0_r, skipn_app_exact.
  assert (Hm0 : firstn (2 + length name + 2) (lit "[[" ++ name ++ lit "]]" ++ rest)
                = lit "[[" ++ name ++ lit "]]").
  { replace (2 + length name + 2) with (length (lit "[[" ++ name ++ lit "]]"))
      by (rewrite !length_app; change (length (lit "[[")) with 2;
        change (length (lit "]]")) with 2; lia).
    rewrite !app_assoc. rewrite <- (app_assoc (lit "[[")).
    apply firstn_app_exact. }
  rewrite Hm0. do 2 f_equal.
  unfold param_name.
  change (skipn 2 (lit "[[" ++ name ++ lit "]]")) with (name ++ lit "]]").
  replace (length (lit "[[" ++ name ++ lit "]]") - 4) with (length name)
    by (rewrite !length_app; change (length (lit "[[")) with 2;
        change (length (lit "]]")) with 2; lia).
  apply firstn_app_exact.
Qed.

Lemma exec_plain (s : str) :
  plain_text s = true -> exec re_params param_name s = None.
Proof.
  intros H. unfold exec. rewrite <- (app_nil_r s).
  rewrite (find_first_skip _ _ _ _ (params_no_match None s [] H)).
  reflexivity.
Qed.

Lemma interpolate_at (done m0 repl rest : str) :
  _interpolate (done ++ m0 ++ rest) m0 (length done) repl = done ++ repl ++ rest.
Proof.
  unfold _interpolate. rewrite firstn_app_exact.
  rewrite <- length_app.
  replace (done ++ m0 ++ rest) with ((done ++ m0) ++ rest)
    by (symmetry; apply app_assoc).
  rewrite skipn_app_exact. reflexivity.
Qed.

(** *** The table *)

Lemma rewriting_start (kt0 : keyTypes) : rewriting_from kt0 kt0 [].
Proof.
  unfold rewriting_from. split; [reflexivity|].
  split; [intros n H; split; [exact H|reflexivity]|].
  split; [intros n []|]. split; [intros n _ []|]. reflexivity.
Qed.

Lemma declared_assign (kt : keyTypes) (k n : str) (v : keyType) :
  declared (assign kt k v) n
  = if str_eqb k n
    then match v with TypeName typeName => nonempty typeName | _ => true end
    else declared kt n.
Proof.
  unfold declared. rewrite lookup_assign.
  destruct (str_eqb k n); reflexivity.
Qed.

Lemma samples_of_assign (kt : keyTypes) (k n : str) (v : keyType) :
  samples_of (assign kt k v) n
  = if str_eqb k n
    then match v with
         | TypeObj _ _ (Some svs) => join (lit "|") (map trim svs)
         | _ => lit "-"
         end
    else samples_of kt n.
Proof.
  unfold samples_of. rewrite lookup_assign.
  destruct (str_eqb k n); reflexivity.
Qed.

(** One call of the store's [get]. *)
Lemma literalSampleValues_step (kt0 kt : keyTypes) (seen : list str)
  (name : str) :
  rewriting_from kt0 kt seen ->
  snd (literalSampleValues kt name)
  = lit "{" ++ samples_of kt0 name ++ lit "|" ++ name ++ lit "}"
  /\ rewriting_from kt0 (fst (literalSampleValues kt name)) (name :: seen).
Proof.
  intros (Ha & Hb & Hc & Hd & He).
  assert (Hfresh : forall n, declared kt0 n = false -> declared kt n = true ->
                             lookup kt n
                             = Some (TypeName (lit "AMAZON.LITERAL"))).
  { intros n H0 H1. destruct (in_dec (list_eq_dec ascii_dec) n seen) as [Hin|Hout].
    - apply Hd; assumption.
    - exfalso. unfold declared in H0, H1. rewrite (He n Hout) in H1.
      congruence. }
  unfold literalSampleValues.
  destruct (lookup kt name) as [[typeName|ty vals [svs|]]|] eqn:E.
  - (* a type name *)
    cbn [fst snd]. split.
    { rewrite <- Ha. unfold samples_of. rewrite E. reflexivity. }
    destruct (declared kt name) eqn:Hdecl.
    + repeat split.
      * exact Ha.
      * apply Hb; assumption.
      * apply Hb; assumption.
      * intros n [<-|Hn]; [exact Hdecl|apply Hc; exact Hn].
      * intros n H0 [<-|Hn]; [apply Hfresh; assumption|apply Hd; assumption].
      * intros n Hn. apply He. intros H. apply Hn. right; exact H.
    + repeat split.
      * intros n. rewrite samples_of_assign.
        destruct (str_eqb name n) eqn:En; [|apply Ha].
        apply str_eqb_eq in En. subst n. rewrite <- Ha.
        unfold samples_of. rewrite E. reflexivity.
      * rewrite declared_assign.
        destruct (str_eqb name n) eqn:En; [reflexivity|apply Hb; assumption].
      * rewrite lookup_assign.
        destruct (str_eqb name n) eqn:En; [|apply Hb; assumption].
        apply str_eqb_eq in En. subst n.
        destruct (Hb name H) as [H1 _]. congruence.
      * intros n Hn. rewrite declared_assign.
        destruct (str_eqb name n) eqn:En; [reflexivity|].
        destruct Hn as [<-|Hn]; [rewrite str_eqb_refl in En; discriminate En|].
        apply Hc; exact Hn.
      * intros n H0 Hn. rewrite lookup_assign.
        destruct (str_eqb name n) eqn:En; [reflexivity|].
        destruct Hn as [<-|Hn]; [rewrite str_eqb_refl in En; discriminate En|].
        apply Hd; assumption.
      * intros n Hn. rewrite lookup_assign.
        destruct (str_eqb name n) eqn:En.
        -- apply str_eqb_eq in En. subst n. elim Hn. left; reflexivity.
        -- apply He. intros H. apply Hn. right; exact H.
  - (* an object with sample values *)
    cbn [fst snd]. split.
    { rewrite <- Ha. unfold samples_of. rewrite E. reflexivity. }
    assert (Hdecl : declared kt name = true) by (unfold declared; rewrite E; reflexivity).
    repeat split.
    + intros n. rewrite samples_of_assign.
      destruct (str_eqb name n) eqn:En; [|apply Ha].
      apply str_eqb_eq in En. subst n. rewrite <- Ha.
      unfold samples_of. rewrite E, map_map. f_equal.
      apply map_ext. intros sv. apply trim_idempotent.
    + rewrite declared_assign.
      destruct (str_eqb name n) eqn:En; [reflexivity|apply Hb; assumption].
    + rewrite lookup_assign.
      destruct (str_eqb name n) eqn:En; [|apply Hb; assumption].
      apply str_eqb_eq in En. subst n.
      destruct (Hb name H) as [_ H2]. rewrite <- H2, E. reflexivity.
    + intros n Hn. rewrite declared_assign.
      destruct (str_eqb name n) eqn:En; [reflexivity|].
      destruct Hn as [<-|Hn]; [rewrite str_eqb_refl in En; discriminate En|].
      apply Hc; exact Hn.
    + intros n H0 Hn. rewrite lookup_assign.
      destruct (str_eqb name n) eqn:En.
      * apply str_eqb_eq in En. subst n.
        rewrite (Hfresh name H0 Hdecl) in E. discriminate E.
      * destruct Hn as [<-|Hn]; [rewrite str_eqb_refl in En; discriminate En|].
        apply Hd; assumption.
    + intros n Hn. rewrite lookup_assign.
      destruct (str_eqb name n) eqn:En.
      * apply str_eqb_eq in En. subst n. elim Hn. left; reflexivity.
      * apply He. intros H. apply Hn. right; exact H.
  - (* an object without sample values *)
    cbn [fst snd]. split.
    { rewrite <- Ha. unfold samples_of. rewrite E. reflexivity. }
    assert (Hdecl : declared kt name = true) by (unfold declared; rewrite E; reflexivity).
    rewrite Hdecl. repeat split.
    + exact Ha.
    + apply Hb; assumption.
    + apply Hb; assumption.
    + intros n [<-|Hn]; [exact Hdecl|apply Hc; exact Hn].
    + intros n H0 [<-|Hn]; [apply Hfresh; assumption|apply Hd; assumption].
    + intros n Hn. apply He. intros H. apply Hn. right; exact H.
  - (* not in the table *)
    cbn [fst snd]. split.
    { rewrite <- Ha. unfold samples_of. rewrite E. reflexivity. }
    assert (Hdecl : declared kt name = false) by (unfold declared; rewrite E; reflexivity).
    rewrite Hdecl. repeat split.
    + intros n. rewrite samples_of_assign.
      destruct (str_eqb name n) eqn:En; [|apply Ha].
      apply str_eqb_eq in En. subst n. rewrite <- Ha.
      unfold samples_of. rewrite E. reflexivity.
    + rewrite declared_assign.
      destruct (str_eqb name n) eqn:En; [reflexivity|apply Hb; assumption].
    + rewrite lookup_assign.
      destruct (str_eqb name n) eqn:En; [|apply Hb; assumption].
      apply str_eqb_eq in En. subst n.
      destruct (Hb name H) as [H1 _]. congruence.
    + intros n Hn. rewrite declared_assign.
      destruct (str_eqb name n) eqn:En; [reflexivity|].
      destruct Hn as [<-|Hn]; [rewrite str_eqb_refl in En; discriminate En|].
      apply Hc; exact Hn.
    + intros n H0 Hn. rewrite lookup_assign.
      destruct (str_eqb name n) eqn:En; [reflexivity|].
      destruct Hn as [<-|Hn]; [rewrite str_eqb_refl in En; discriminate En|].
      apply Hd; assumption.
    + intros n Hn. rewrite lookup_assign.
      destruct (str_eqb name n) eqn:En.
      * apply str_eqb_eq in En. subst n. elim Hn. left; reflexivity.
      * apply He. intros H. apply Hn. right; exact H.
Qed.

Lemma slot_text_plain (kt0 : keyTypes) (name : str) :
  samples_plain kt0 = true -> all_chars is_param_char name = true ->
  plain_text (lit "{" ++ samples_of kt0 name ++ lit "|" ++ name ++ lit "}") = true.
Proof.
  intros Hkt Hname. rewrite !plain_text_app.
  rewrite (samples_of_plain kt0 name Hkt), (name_plain name Hname). reflexivity.
Qed.

(** The loop of [_interpolateParamsFromStore] on one utterance. *)
Lemma slots_loop (kt0 : keyTypes) (segs : list segment) :
  samples_plain kt0 = true ->
  forall (done : str) (kt : keyTypes) (seen : list str) (fuel : nat),
    template_ok segs = true -> plain_text done = true ->
    rewriting_from kt0 kt seen -> length (slot_names segs) <= fuel ->
    exists kt',
      _interpolateParamsFromStore fuel (exec re_params param_name)
        literalSampleValues kt (done ++ written segs)
      = Some (kt', done ++ rewritten kt0 segs)
      /\ rewriting_from kt0 kt' (rev (slot_names segs) ++ seen).
Proof.
  intros Hkt0. induction segs as [|[t|name] segs IH];
    intros done kt seen fuel Hok Hdone Hinv Hfuel.
  - exists kt. split; [|exact Hinv].
    cbn [written rewritten map concat]. rewrite app_nil_r.
    destruct fuel; cbn [_interpolateParamsFromStore];
      rewrite (exec_plain done Hdone); reflexivity.
  - cbn [template_ok forallb] in Hok. apply andb_true_iff in Hok.
    destruct Hok as [Ht Hok].
    cbn [written rewritten map concat]. rewrite !app_assoc.
    apply IH; try assumption.
    rewrite plain_text_app, Hdone, Ht. reflexivity.
  - cbn [template_ok forallb] in Hok. apply andb_true_iff in Hok.
    destruct Hok as [Hname Hok].
    cbn [slot_names flat_map app length] in Hfuel.
    destruct fuel as [|fuel]; [lia|].
    cbn [written rewritten map concat].
    fold (written segs). fold (rewritten kt0 segs).
    cbn [_interpolateParamsFromStore].
    replace (done ++ (lit "[[" ++ name ++ lit "]]") ++ written segs)
      with (done ++ lit "[[" ++ name ++ lit "]]" ++ written segs)
      by (rewrite <- !app_assoc; reflexivity).
    rewrite (exec_at_slot done name (written segs) Hdone Hname).
    destruct (literalSampleValues_step kt0 kt seen name Hinv) as [Hrepl Hinv'].
    destruct (literalSampleValues kt name) as [kt1 repl].
    cbn [fst snd] in Hrepl, Hinv'. subst repl.
    replace (done ++ lit "[[" ++ name ++ lit "]]" ++ written segs)
      with (done ++ (lit "[[" ++ name ++ lit "]]") ++ written segs)
      by (rewrite <- !app_assoc; reflexivity).
    rewrite interpolate_at.
    destruct (IH (done ++ lit "{" ++ samples_of kt0 name ++ lit "|" ++ name ++ lit "}")
                kt1 (name :: seen) fuel Hok) as (kt' & Hrun & Hfin).
    + rewrite plain_text_app, Hdone, (slot_text_plain kt0 name Hkt0 Hname).
      reflexivity.
    + exact Hinv'.
    + unfold slot_names in *. lia.
    + exists kt'. split.
      * rewrite <- !app_assoc in Hrun. rewrite <- !app_assoc. exact Hrun.
      * cbn [slot_names flat_map app rev].
        fold (slot_names segs). rewrite <- app_assoc. exact Hfin.
Qed.

(** The [map] of [forSlots] over the utterances. *)
Lemma forSlots_loop (kt0 : keyTypes) (templates : list (list segment))
  (fuel : nat) :
  samples_plain kt0 = true ->
  forallb template_ok templates = true ->
  Forall (fun segs => length (slot_names segs) <= fuel) templates ->
  forall (kt : keyTypes) (seen : list str),
    rewriting_from kt0 kt seen ->
    exists kt',
      map_state
        (fun kt userSpeechItem =>
           _interpolateParamsFromStore fuel (exec re_params param_name)
             literalSampleValues kt userSpeechItem)
        kt (map written templates)
      = Some (kt', map (rewritten kt0) templates)
      /\ rewriting_from kt0 kt'
           (rev (flat_map slot_names templates) ++ seen).
Proof.
  intros Hkt0 Hok Hfuel. induction Hfuel as [|segs templates Hsegs _ IH];
    intros kt seen Hinv.
  - exists kt. split; [reflexivity|exact Hinv].
  - cbn [forallb] in Hok. apply andb_true_iff in Hok. destruct Hok as [Hs Hok].
    destruct (slots_loop kt0 segs Hkt0 [] kt seen fuel Hs eq_refl Hinv Hsegs)
      as (kt1 & Hrun & Hinv1).
    cbn [app] in Hrun.
    destruct (IH Hok kt1 _ Hinv1) as (kt' & Hrest & Hfin).
    exists kt'. split.
    + cbn [map map_state]. rewrite Hrun, Hrest. reflexivity.
    + cbn [flat_map]. rewrite rev_app_distr, <- app_assoc. exact Hfin.
Qed.

Lemma forSlots_templates (kt : keyTypes) (templates : list (list segment))
  (fuel : nat) :
  samples_plain kt = true ->
  forallb template_ok templates = true ->
  Forall (fun segs => length (slot_names segs) <= fuel) templates ->
  exists kt',
    forSlots fuel kt (map written templates)
    = Some (kt', map (rewritten kt) templates)
    /\ rewriting_from kt kt' (rev (flat_map slot_names templates)).
Proof.
  intros Hkt Hok Hfuel.
  destruct (forSlots_loop kt templates fuel Hkt Hok Hfuel kt []
              (rewriting_start kt)) as (kt' & Hrun & Hinv).
  rewrite app_nil_r in Hinv. exists kt'. split; assumption.
Qed.

End Slots.

(** X14.  [forSlots] on utterances made of text and slots.  When no text
    and no declared sample value holds an opening bracket, the rewriting
    loop ends after one round per slot and every slot [[[name]]] has
    become [{samples|name}], where [samples] are the trimmed sample values
    of the declared type joined by bars, or a dash when the type has none;
    the text around the slots is untouched.  In the table handed back every
    slot name met is declared: a name that was declared keeps its type, a
    name that was not is now [AMAZON.LITERAL], and a name not met has the
    entry it had, up to the trimming of its sample values ([forSlots] trims
    the sample values in the type object of a slot it meets, and the object
    may be the type of other names as well).  (No slot bears a name that
    the table inherits, such as [constructor]: the table gives a value
    under such a name and the slot is taken as declared.) *)
Theorem forSlots_rewrites_slots (kt : ScriptParser.keyTypes)
  (templates : list (list segment)) (fuel : nat) :
  samples_plain kt = true ->
  forallb template_ok templates = true ->
  Forall (fun segs => length (slot_names segs) <= fuel) templates ->
  Forall (fun name => inherited name = false)
    (flat_map slot_names templates) ->
  exists kt',
    ScriptParser.forSlots fuel kt (map written templates)
    = Some (kt', map (rewritten kt) templates)
    /\ (forall name, In name (flat_map slot_names templates) ->
          ScriptParser.declared kt' name = true)
    /\ (forall name, ScriptParser.declared kt name = true ->
          ScriptParser.declared kt' name = true
          /\ option_map ScriptParser.param_type (lookup kt' name)
             = option_map ScriptParser.param_type (lookup kt name))
    /\ (forall name, ScriptParser.declared kt name = false ->
          In name (flat_map slot_names templates) ->
          lookup kt' name
          = Some (ScriptParser.TypeName (lit "AMAZON.LITERAL")))
    /\ (forall name, ~ In name (flat_map slot_names templates) ->
          option_map trimmed (lookup kt' name)
          = option_map trimmed (lookup kt name)).
Proof.
  intros Hkt Hok Hfuel _.
  destruct (forSlots_templates kt templates fuel Hkt Hok Hfuel)
    as (kt' & Hrun & (_ & Hb & Hc & Hd & He)).
  exists kt'. split; [exact Hrun|]. split; [|split; [exact Hb|split]].
  - intros name Hin. apply Hc. apply -> in_rev. exact Hin.
  - intros name H0 Hin. apply Hd; [exact H0|]. apply -> in_rev. exact Hin.
  - intros name Hout. f_equal. apply He. intros Hin. apply Hout.
    apply in_rev. exact Hin.
Qed.

Lemma forSlots_rewrites_slots_witness :
  exists kt',
    ScriptParser.forSlots 2 sample_table (map written sample_templates)
    = Some (kt', map (rewritten sample_table) sample_templates)
    /\ (forall name, In name (flat_map slot_names sample_templates) ->
          ScriptParser.declared kt' name = true)
    /\ (forall name, ScriptParser.declared sample_table name = true ->
          ScriptParser.declared kt' name = true
          /\ option_map ScriptParser.param_type (lookup kt' name)
             = option_map ScriptParser.param_type (lookup sample_table name))
    /\ (forall name, ScriptParser.declared sample_table name = false ->
          In name (flat_map slot_names sample_templates) ->
          lookup kt' name
          = Some (ScriptParser.TypeName (lit "AMAZON.LITERAL")))
    /\ (forall name, ~ In name (flat_map slot_names sample_templates) ->
          option_map trimmed (lookup kt' name)
          = option_map trimmed (lookup sample_table name)).
Proof.
  apply (forSlots_rewrites_slots sample_table sample_templates 2);
    [reflexivity|reflexivity|repeat constructor|repeat constructor].
Defined.

(** ** From slots to expected parameters *)

Section Collect.
Import ScriptParser.

Lemma re_var_extent (prev : option ascii) (s : str) (n : nat) :
  re_var prev s = Some n -> n <= length s.
Proof.
  unfold re_var. destruct s as [|c body]; [discriminate|].
  destruct (Ascii.eqb c "|"); [|discriminate].
  destruct (give_back_to (lit "}") body (run is_alpha body)) as [e|] eqn:Hg;
    [|discriminate].
  intros H; injection H as <-.
  destruct (give_back_to_spec _ _ _ _ Hg) as [_ Hs].
  assert (He : e < length body).
  { destruct (Nat.lt_ge_cases e (length body)) as [H|H]; [exact H|].
    rewrite skipn_all2 in Hs by exact H. discriminate Hs. }
  cbn [length]. lia.
Qed.

Lemma re_var_at (prev : option ascii) (name rest : str) :
  all_chars is_alpha name = true ->
  re_var prev (lit "|" ++ name ++ lit "}" ++ rest) = Some (1 + length name + 1).
Proof.
  intros Hname. unfold re_var.
  change (lit "|" ++ name ++ lit "}" ++ rest)
    with ("|"%char :: (name ++ lit "}" ++ rest)).
  cbv beta iota. change (Ascii.eqb "|" "|") with true. cbv iota.
  rewrite (run_all _ _ _ Hname).
  change (run is_alpha (lit "}" ++ rest)) with 0. rewrite Nat.add_0_r.
  assert (Hgb : give_back_to (lit "}") (name ++ lit "}" ++ rest) (length name)
                = Some (length name)).
  { destruct (length name) eqn:El; cbn [give_back_to]; rewrite <- El;
      rewrite skipn_app_exact, starts_with_app; reflexivity. }
  rewrite Hgb. reflexivity.
Qed.

Lemma alpha_not_bar (w : str) :
  all_chars is_alpha w = true -> ~ In "|"%char (w ++ lit "}").
Proof.
  intros Hw Hin. apply in_app_or in Hin. destruct Hin as [Hin|Hin].
  - unfold all_chars in Hw. rewrite forallb_forall in Hw.
    specialize (Hw _ Hin). discriminate Hw.
  - destruct Hin as [Hin|[]]. discriminate Hin.
Qed.

(** Every occurrence of [|name}] with a name of letters is among the
    matches: a match that starts before it cannot reach over its bar. *)
Lemma var_found (name : str) (b : str) :
  all_chars is_alpha name = true ->
  forall (a : str) (skip : nat) (prev : option ascii),
    skip <= length a -> ~ In "|"%char (firstn skip a) ->
    In (lit "|" ++ name ++ lit "}")
       (match_all_from re_var skip prev (a ++ lit "|" ++ name ++ lit "}" ++ b)).
Proof.
  intros Hname. induction a as [|c a IH]; intros skip prev Hskip Hbar.
  - cbn [length] in Hskip. replace skip with 0 by lia. cbn [app].
    pose proof (re_var_at prev name b Hname) as Hat.
    change (lit "|" ++ name ++ lit "}" ++ b)
      with ("|"%char :: (name ++ lit "}" ++ b)) in *.
    cbn [match_all_from]. rewrite Hat.
    change (1 + length name + 1) with (S (length name + 1)).
    left. cbn [firstn]. change (lit "|" ++ name ++ lit "}")
      with ("|"%char :: (name ++ lit "}")). f_equal.
    rewrite app_assoc.
    replace (length name + 1) with (length (name ++ lit "}"))
      by (rewrite length_app; reflexivity).
    apply firstn_app_exact.
  - cbn [app match_all_from]. destruct skip as [|k].
    + set (T := lit "|" ++ name ++ lit "}" ++ b) in *.
      destruct (re_var prev (c :: a ++ T)) as [[|n]|] eqn:Em;
        try (apply IH; [lia|cbn [firstn]; tauto]).
      right.
      pose proof (re_var_extent _ _ _ Em) as Hext. cbn [length] in Hext.
      destruct (re_var_shape _ _ _ Em) as (w & Hw & Halpha).
      cbn [firstn] in Hw. change (lit "|" ++ w ++ lit "}")
        with ("|"%char :: (w ++ lit "}")) in Hw.
      injection Hw as _ Hw.
      pose proof (alpha_not_bar w Halpha) as Hnobar. rewrite <- Hw in Hnobar.
      assert (Hn : n <= length a).
      { destruct (Nat.le_gt_cases n (length a)) as [H|H]; [exact H|].
        exfalso. apply Hnobar. rewrite firstn_app. apply in_or_app. right.
        unfold T. change (lit "|" ++ name ++ lit "}" ++ b)
          with ("|"%char :: (name ++ lit "}" ++ b)).
        destruct (n - length a) as [|d] eqn:Ed; [lia|].
        cbn [firstn]. left; reflexivity. }
      apply IH; [exact Hn|].
      intros Hin. apply Hnobar. rewrite firstn_app. apply in_or_app.
      left; exact Hin.
    + apply IH.
      * cbn [length] in Hskip. lia.
      * intros Hin. apply Hbar. cbn [firstn]. right; exact Hin.
Qed.

Lemma var_matched (name a b : str) :
  all_chars is_alpha name = true ->
  In (lit "|" ++ name ++ lit "}")
     (match_all re_var (a ++ lit "|" ++ name ++ lit "}" ++ b)).
Proof.
  intros Hname. unfold match_all.
  apply var_found; [exact Hname|lia|intros []].
Qed.

(** *** The map of expected parameters *)

Lemma obj_get_set (o : obj) (p q : str) (v : jsval) :
  obj_get (obj_set o p v) q = if str_eqb p q then v else obj_get o q.
Proof.
  induction o as [|[r w] o IH]; cbn [obj_set obj_get].
  - reflexivity.
  - destruct (str_eqb r p) eqn:E; cbn [obj_get].
    + apply str_eqb_eq in E. subst r. destruct (str_eqb p q); reflexivity.
    + rewrite IH. destruct (str_eqb r q) eqn:E'; [|reflexivity].
      apply str_eqb_eq in E'. subst r. rewrite str_eqb_sym, E. reflexivity.
Qed.

Lemma obj_keys_set_grows (o : obj) (p q : str) (v : jsval) :
  q = p \/ In q (obj_keys o) -> In q (obj_keys (obj_set o p v)).
Proof.
  induction o as [|[r w] o IH]; cbn [obj_set obj_keys map fst In].
  - intros [->|[]]. left; reflexivity.
  - destruct (str_eqb r p) eqn:E; cbn [obj_keys map fst In].
    + apply str_eqb_eq in E. subst r. intros [->|[H|H]]; auto.
    + intros [->|[H|H]]; [right; apply IH; left; reflexivity|left; exact H|].
      right. apply IH. right. exact H.
Qed.

Lemma collect_var_keeps (kt : keyTypes) (name : str) (acc : obj)
  (extractedVar : str) :
  holds kt name acc ->
  holds kt name
    (let ev := removelast (tl extractedVar) in
     if length ev =? 0 then acc
     else if declared kt ev then
            match lookup kt ev with
            | Some k => obj_set acc ev (param_type k)
            | None => acc
            end
          else acc).
Proof.
  intros [Hkey Hval]. cbv zeta.
  destruct (length _ =? 0); [split; assumption|].
  destruct (declared kt _); [|split; assumption].
  destruct (lookup kt (removelast (tl extractedVar))) as [k'|] eqn:E;
    [|split; assumption].
  split.
  - apply obj_keys_set_grows. right; exact Hkey.
  - intros k Hk. rewrite obj_get_set.
    destruct (str_eqb (removelast (tl extractedVar)) name) eqn:En.
    + apply str_eqb_eq in En. rewrite En in E. congruence.
    + apply Hval. exact Hk.
Qed.

Lemma collect_var_sets (kt : keyTypes) (name : str) (acc : obj) :
  name <> [] -> declared kt name = true ->
  holds kt name
    (let ev := removelast (tl (lit "|" ++ name ++ lit "}")) in
     if length ev =? 0 then acc
     else if declared kt ev then
            match lookup kt ev with
            | Some k => obj_set acc ev (param_type k)
            | None => acc
            end
          else acc).
Proof.
  intros Hne Hdecl. cbv zeta. rewrite tl_removelast_var.
  rewrite (nonempty_length name Hne), Hdecl.
  destruct (lookup kt name) as [k|] eqn:E.
  - split.
    + apply obj_keys_set_grows. left; reflexivity.
    + intros k' Hk'. rewrite E in Hk'. injection Hk' as <-.
      rewrite obj_get_set, str_eqb_refl. reflexivity.
  - unfold declared in Hdecl. rewrite E in Hdecl. discriminate Hdecl.
Qed.

Lemma collect_vars (kt : keyTypes) (name : str) (vars : list str) (acc : obj) :
  name <> [] -> declared kt name = true ->
  holds kt name acc \/ In (lit "|" ++ name ++ lit "}") vars ->
  holds kt name
    (fold_left
       (fun expectedParams extractedVar =>
          let ev := removelast (tl extractedVar) in
          if length ev =? 0 then expectedParams
          else if declared kt ev then
                 match lookup kt ev with
                 | Some k => obj_set expectedParams ev (param_type k)
                 | None => expectedParams
                 end
               else expectedParams)
       vars acc).
Proof.
  intros Hne Hdecl. revert acc. induction vars as [|v vars IH]; intros acc H;
    cbn [fold_left].
  - destruct H as [H|[]]. exact H.
  - apply IH. destruct H as [H|[->|H]].
    + left. exact (collect_var_keeps kt name acc v H).
    + left. exact (collect_var_sets kt name acc Hne Hdecl).
    + right. exact H.
Qed.

Lemma collect_speech (kt : keyTypes) (name : str) (userSpeech : list str)
  (acc : obj) :
  name <> [] -> declared kt name = true ->
  holds kt name acc
  \/ (exists u, In u userSpeech
                /\ In (lit "|" ++ name ++ lit "}") (match_all re_var u)) ->
  holds kt name
    (fold_left
       (fun expectedParams speechStr =>
          fold_left
            (fun expectedParams extractedVar =>
               let ev := removelast (tl extractedVar) in
               if length ev =? 0 then expectedParams
               else if declared kt ev then
                      match lookup kt ev with
                      | Some k => obj_set expectedParams ev (param_type k)
                      | None => expectedParams
                      end
                    else expectedParams)
            (match_all re_var speechStr) expectedParams)
       userSpeech acc).
Proof.
  intros Hne Hdecl. revert acc.
  induction userSpeech as [|u us IH]; intros acc H; cbn [fold_left].
  - destruct H as [H|(u & [] & _)]. exact H.
  - apply IH. destruct H as [H|(u' & [<-|Hu'] & Hm)].
    + left. apply collect_vars; auto.
    + left. apply collect_vars; auto.
    + right. exists u'. auto.
Qed.

(** *** Where a slot stands in a rewritten utterance *)

Lemma slot_in_names (name : str) (segs : list segment) :
  In name (slot_names segs) -> In (Slot name) segs.
Proof.
  unfold slot_names. intros H. apply in_flat_map in H.
  destruct H as ([t|n] & Hseg & Hn); [destruct Hn|].
  destruct Hn as [<-|[]]. exact Hseg.
Qed.

Lemma rewritten_slot (kt : keyTypes) (name : str) (segs : list segment) :
  In (Slot name) segs ->
  exists a b, rewritten kt segs = a ++ lit "|" ++ name ++ lit "}" ++ b.
Proof.
  intros H. apply in_split in H. destruct H as (s1 & s2 & ->).
  unfold rewritten. rewrite map_app, concat_app. cbn [map concat].
  exists (concat (map (fun seg => match seg with
                                  | Text t => t
                                  | Slot name0 =>
                                      lit "{" ++ samples_of kt name0 ++ lit "|"
                                      ++ name0 ++ lit "}"
                                  end) s1)
          ++ lit "{" ++ samples_of kt name).
  eexists. rewrite <- !app_assoc. reflexivity.
Qed.

End Collect.

(** X15.  Every slot of letters reaches the expected parameters.  For
    utterances made of text and slots, when no text and no declared sample
    value holds an opening bracket, a slot [[[name]]] whose name is a word
    of letters (and not a name that the table inherits) is a key of the
    map that [extractParamsFromSpeech] builds from the utterances that
    [forSlots] hands back, also after [forPhraseEquivalents] has added its
    variants, and the map gives it the declared type, or [AMAZON.LITERAL]
    if the name had not been declared. *)
Theorem slots_are_collected (kt : ScriptParser.keyTypes)
  (templates : list (list segment)) (fuel : nat)
  (phraseEquivalents : list (list str)) (name : str) :
  samples_plain kt = true ->
  forallb template_ok templates = true ->
  Forall (fun segs => length (slot_names segs) <= fuel) templates ->
  In name (flat_map slot_names templates) -> alpha_word name = true ->
  inherited name = false ->
  exists kt' produced,
    ScriptParser.forSlots fuel kt (map written templates) = Some (kt', produced)
    /\ let expectedParams :=
         ScriptParser.extractParamsFromSpeech kt'
           (ScriptParser.forPhraseEquivalents phraseEquivalents produced) in
       In name (obj_keys expectedParams)
       /\ obj_get expectedParams name = slot_type kt name.
Proof.
  intros Hkt Hok Hfuel Hin Hname _.
  destruct (forSlots_templates kt templates fuel Hkt Hok Hfuel)
    as (kt' & Hrun & (_ & Hb & Hc & Hd & _)).
  exists kt', (map (rewritten kt) templates). split; [exact Hrun|].
  assert (Hseen : In name (rev (flat_map slot_names templates)))
    by (apply -> in_rev; exact Hin).
  assert (Hdecl : ScriptParser.declared kt' name = true) by (apply Hc; exact Hseen).
  assert (Hne : name <> []) by (apply alpha_word_nonempty; exact Hname).
  assert (Hholds : holds kt' name
                     (ScriptParser.extractParamsFromSpeech kt'
                        (ScriptParser.forPhraseEquivalents phraseEquivalents
                           (map (rewritten kt) templates)))).
  { unfold ScriptParser.extractParamsFromSpeech.
    apply collect_speech; [exact Hne|exact Hdecl|]. right.
    apply in_flat_map in Hin. destruct Hin as (segs & Hsegs & Hn).
    destruct (rewritten_slot kt name segs (slot_in_names _ _ Hn)) as (a & b & E).
    exists (rewritten kt segs). split.
    - rewrite forPhraseEquivalents_spec. apply in_or_app. left.
      apply in_map. exact Hsegs.
    - rewrite E. apply var_matched. apply alpha_word_chars. exact Hname. }
  destruct Hholds as [Hkey Hval]. cbv zeta. split; [exact Hkey|].
  unfold slot_type.
  destruct (ScriptParser.declared kt name) eqn:H0.
  - destruct (Hb name H0) as [_ Htype].
    destruct (lookup kt' name) as [k'|] eqn:E';
      [|unfold ScriptParser.declared in Hdecl; rewrite E' in Hdecl;
        discriminate Hdecl].
    rewrite (Hval k' eq_refl).
    destruct (lookup kt name) as [k|]; cbn [option_map] in Htype;
      [congruence|discriminate Htype].
  - rewrite (Hval _ (Hd name H0 Hseen)).
    destruct (lookup kt name); reflexivity.
Qed.

Lemma slots_are_collected_witness :
  exists kt' produced,
    ScriptParser.forSlots 2 sample_table (map written sample_templates)
    = Some (kt', produced)
    /\ let expectedParams :=
         ScriptParser.extractParamsFromSpeech kt'
           (ScriptParser.forPhraseEquivalents [[lit "ask"; lit "tell"]] produced) in
       In (lit "who") (obj_keys expectedParams)
       /\ obj_get expectedParams (lit "who") = slot_type sample_table (lit "who").
Proof.
  apply (slots_are_collected sample_table sample_templates 2
           [[lit "ask"; lit "tell"]] (lit "who"));
    [reflexivity|reflexivity|repeat constructor| |reflexivity|reflexivity].
  cbn. right. left. reflexivity.
Defined.

(** ** Declaring intents *)

Section Declaring.
Import Convo.

Lemma assign_keys {A : Type} (tbl : list (str * A)) (k : str) (v : A) :
  map fst (assign tbl k v)
  = match lookup tbl k with
    | Some _ => map fst tbl
    | None => map fst tbl ++ [k]
    end.
Proof.
  induction tbl as [|[q w] tbl IH]; cbn [assign lookup map fst app];
    [reflexivity|].
  destruct (str_eqb q k) eqn:E; cbn [map fst]; [reflexivity|].
  rewrite IH. destruct (lookup tbl k); reflexivity.
Qed.

Lemma lookup_in_keys {A : Type} (tbl : list (str * A)) (k : str) :
  lookup tbl k <> None <-> In k (map fst tbl).
Proof.
  induction tbl as [|[q w] tbl IH]; cbn [lookup map fst In].
  - tauto.
  - destruct (str_eqb q k) eqn:E.
    + apply str_eqb_eq in E. subst q. split; [auto|discriminate].
    + rewrite IH. split; [auto|]. intros [H|H]; [|exact H].
      subst q. rewrite str_eqb_refl in E. discriminate E.
Qed.

Lemma assign_nodup {A : Type} (tbl : list (str * A)) (k : str) (v : A) :
  NoDup (map fst tbl) -> NoDup (map fst (assign tbl k v)).
Proof.
  intros H. rewrite assign_keys.
  destruct (lookup tbl k) eqn:E; [exact H|].
  apply NoDup_app; [exact H|constructor; [intros []|constructor]|].
  intros x Hx [<-|[]]. apply lookup_in_keys in Hx. congruence.
Qed.

Lemma defs_for_app (item : str) (a b : list intentObj) :
  defs_for item (a ++ b) = defs_for item a ++ defs_for item b.
Proof. unfold defs_for. apply flat_map_app. Qed.

Lemma entry_snoc {A : Type} (l : list A) (x : A) :
  entry (l ++ [x]) = Some (l ++ [x]).
Proof. destruct l; reflexivity. Qed.

(** The [forEach] of [respondTo], utterance by utterance. *)
Lemma index_speech_spec (d : intentObj) (intents : list intentObj)
  (todo : list str) :
  forall (done : list str) (usd : list (str * list InputMgr.intentDef)),
    (forall item,
        lookup usd item
        = entry (defs_for item intents
                 ++ map (fun _ => def d) (filter (str_eqb item) done))) ->
    NoDup (map fst usd) ->
    (forall item,
        lookup (index_speech (def d) usd todo) item
        = entry (defs_for item intents
                 ++ map (fun _ => def d) (filter (str_eqb item) (done ++ todo))))
    /\ NoDup (map fst (index_speech (def d) usd todo)).
Proof.
  induction todo as [|x todo IH]; intros done usd Hlook Hnd.
  - rewrite app_nil_r. split; assumption.
  - cbn [index_speech fold_left].
    fold (index_speech (def d)
            (match lookup usd x with
             | Some defs => assign usd x (defs ++ [def d])
             | None => assign usd x [def d]
             end) todo).
    replace (done ++ x :: todo) with ((done ++ [x]) ++ todo)
      by (rewrite <- app_assoc; reflexivity).
    apply IH.
    + intros item. rewrite filter_app, map_app. cbn [filter].
      assert (Hnew : lookup (match lookup usd x with
                             | Some defs => assign usd x (defs ++ [def d])
                             | None => assign usd x [def d]
                             end) item
                     = if str_eqb x item
                       then Some ((defs_for x intents
                                   ++ map (fun _ => def d) (filter (str_eqb x) done))
                                  ++ [def d])
                       else lookup usd item).
      { rewrite (Hlook x).
        destruct (defs_for x intents
                  ++ map (fun _ => def d) (filter (str_eqb x) done)) as [|y l];
          cbn [entry]; rewrite lookup_assign; reflexivity. }
      rewrite Hnew. rewrite (str_eqb_sym item x).
      destruct (str_eqb x item) eqn:E.
      * apply str_eqb_eq in E. subst item. cbn [map].
        rewrite app_assoc, entry_snoc. reflexivity.
      * cbn [map]. rewrite app_nil_r. apply Hlook.
    + destruct (lookup usd x); apply assign_nodup; exact Hnd.
Qed.

Lemma respondTo_indexes (c : t) (intents : list intentObj) (d : intentObj) :
  indexes (userSpeechDef c) intents ->
  indexes (userSpeechDef (respondTo c d)) (intents ++ [d]).
Proof.
  intros [Hlook Hnd]. unfold respondTo. cbn [userSpeechDef].
  destruct (index_speech_spec d intents (as_array (expecting d)) []
              (userSpeechDef c)) as [H1 H2].
  - intros item. cbn [filter map]. rewrite app_nil_r. apply Hlook.
  - exact Hnd.
  - split; [|exact H2]. intros item. rewrite H1, defs_for_app.
    cbn [app]. unfold defs_for at 3. cbn [flat_map]. rewrite app_nil_r.
    reflexivity.
Qed.

Lemma respondTo_holds (c : t) (intents : list intentObj) (d : intentObj) :
  holds_intents c intents -> holds_intents (respondTo c d) (intents ++ [d]).
Proof.
  intros [Hidx Hall]. split.
  - apply respondTo_indexes. exact Hidx.
  - unfold respondTo. cbn [allIntents]. rewrite Hall, map_app. reflexivity.
Qed.

Lemma respondTo_all_holds (ds : list intentObj) :
  forall (c : t) (intents : list intentObj),
    holds_intents c intents ->
    holds_intents (fold_left respondTo ds c) (intents ++ ds).
Proof.
  induction ds as [|d ds IH]; intros c intents H; cbn [fold_left].
  - rewrite app_nil_r. exact H.
  - replace (intents ++ d :: ds) with ((intents ++ [d]) ++ ds)
      by (rewrite <- app_assoc; reflexivity).
    apply IH. apply respondTo_holds. exact H.
Qed.

Lemma fold_left_mapped {A B C : Type} (f : A -> C -> A) (g : B -> C)
  (l : list B) (a : A) :
  fold_left (fun a x => f a (g x)) l a = fold_left f (map g l) a.
Proof.
  revert a. induction l as [|x l IH]; intros a; [reflexivity|].
  cbn [fold_left map]. apply IH.
Qed.

Lemma declare_holds (c : t) (intents : list intentObj) (d : declaration) :
  holds_intents c intents ->
  holds_intents (declare c d) (intents ++ intents_of [d]).
Proof.
  intros H. destruct d as [i|g|kt|pe]; cbn [declare intents_of flat_map];
    rewrite app_nil_r.
  - apply respondTo_holds. exact H.
  - unfold defineGoal. rewrite fold_left_mapped.
    apply respondTo_all_holds. exact H.
  - cbn [app]. rewrite ?app_nil_r. exact H.
  - cbn [app]. rewrite ?app_nil_r. exact H.
Qed.

Lemma intents_of_app (a b : list declaration) :
  intents_of (a ++ b) = intents_of a ++ intents_of b.
Proof. unfold intents_of. apply flat_map_app. Qed.

Lemma declared_holds (script : list declaration) :
  forall (c : t) (intents : list intentObj),
    holds_intents c intents ->
    holds_intents (fold_left declare script c) (intents ++ intents_of script).
Proof.
  induction script as [|d script IH]; intros c intents H; cbn [fold_left].
  - cbn [intents_of flat_map]. rewrite app_nil_r. exact H.
  - change (d :: script) with ([d] ++ script).
    rewrite intents_of_app, app_assoc.
    apply IH. apply declare_holds. exact H.
Qed.

Lemma script_holds (script : list declaration) :
  holds_intents (declared_by script) (intents_of script).
Proof.
  apply (declared_holds script create []).
  split; [split|]; [reflexivity|constructor|reflexivity].
Qed.

Lemma keys_are_listed (usd : list (str * list InputMgr.intentDef))
  (intents : list intentObj) (item : str) :
  indexes usd intents ->
  (In item (map fst usd) <->
   exists intentDef, In intentDef intents /\ In item (speech_of intentDef)).
Proof.
  intros [Hlook _]. rewrite <- lookup_in_keys, Hlook. unfold defs_for. split.
  - intros H.
    destruct (flat_map _ intents) as [|x l] eqn:E; [elim H; reflexivity|].
    assert (Hx : In x (flat_map
                         (fun intentDef =>
                            map (fun _ => def intentDef)
                              (filter (str_eqb item) (speech_of intentDef)))
                         intents)) by (rewrite E; left; reflexivity).
    apply in_flat_map in Hx. destruct Hx as (d & Hd & Hin).
    apply in_map_iff in Hin. destruct Hin as (y & _ & Hy).
    apply filter_In in Hy. destruct Hy as [Hy Heq].
    apply str_eqb_eq in Heq. subst y. exists d. split; assumption.
  - intros (d & Hd & Hin).
    assert (Hx : In (def d)
                   (flat_map
                      (fun intentDef =>
                         map (fun _ => def intentDef)
                           (filter (str_eqb item) (speech_of intentDef)))
                      intents)).
    { apply in_flat_map. exists d. split; [exact Hd|].
      apply in_map_iff. exists item. split; [reflexivity|].
      apply filter_In. split; [exact Hin|apply str_eqb_refl]. }
    destruct (flat_map _ intents); [destruct Hx|discriminate].
Qed.

End Declaring.

(** ** Registering intents *)

Section Calls.
Import Convo.

Lemma def_listed (intents : list intentObj) (d : intentObj) (item : str) :
  In d intents -> In item (speech_of d) -> In (def d) (defs_for item intents).
Proof.
  intros Hd Hin. unfold defs_for. apply in_flat_map. exists d.
  split; [exact Hd|]. apply in_map_iff. exists item. split; [reflexivity|].
  apply filter_In. split; [exact Hin|apply str_eqb_refl].
Qed.

(** The first pass on the utterances of one declared intent. *)
Lemma unique_speech_spec (usd : list (str * list InputMgr.intentDef))
  (intents : list intentObj) (d : intentObj) :
  indexes usd intents -> In d intents ->
  forall (items acc : list str) (defs0 : list InputMgr.intentDef),
    incl items (speech_of d) ->
    unique_speech usd items acc defs0
    = Some (acc ++ filter (used_once intents) items,
            match filter (used_once intents) items with
            | [] => defs0
            | _ => [def d]
            end).
Proof.
  intros [Hlook _] Hd. induction items as [|x items IH]; intros acc defs0 Hincl.
  - cbn [unique_speech filter]. rewrite app_nil_r. reflexivity.
  - assert (Hx : In (def d) (defs_for x intents))
      by (apply def_listed; [exact Hd|apply Hincl; left; reflexivity]).
    assert (Hrest : incl items (speech_of d))
      by (intros y Hy; apply Hincl; right; exact Hy).
    cbn [unique_speech filter]. rewrite (Hlook x).
    destruct (defs_for x intents) as [|y l] eqn:E; [destruct Hx|].
    cbn [entry].
    assert (U : used_once intents x = (length (y :: l) =? 1))
      by (unfold used_once, uses; rewrite E; reflexivity).
    rewrite U. destruct (length (y :: l) =? 1) eqn:El.
    + assert (Hone : y :: l = [def d]).
      { apply Nat.eqb_eq in El. destruct l; [|discriminate El].
        destruct Hx as [->|[]]. reflexivity. }
      rewrite Hone, (IH (acc ++ [x]) [def d] Hrest), <- app_assoc.
      cbn [app]. destruct (filter (used_once intents) items); reflexivity.
    + apply IH. exact Hrest.
Qed.

Lemma first_pass_spec (usd : list (str * list InputMgr.intentDef))
  (intents : list intentObj) :
  indexes usd intents ->
  forall some, incl some intents ->
    first_pass usd (map speech_of some)
    = Some (flat_map
              (fun d => match filter (used_once intents) (speech_of d) with
                        | [] => []
                        | userSpeech => [(userSpeech, [def d])]
                        end) some).
Proof.
  intros Hidx. induction some as [|d some IH]; intros Hincl; [reflexivity|].
  cbn [map first_pass flat_map].
  rewrite (unique_speech_spec usd intents d Hidx)
    by (try (apply Hincl; left; reflexivity); apply incl_refl).
  rewrite IH by (intros y Hy; apply Hincl; right; exact Hy).
  cbn [app]. destruct (filter (used_once intents) (speech_of d)); reflexivity.
Qed.

Lemma lookup_of_entry {A : Type} (tbl : list (str * A)) (k : str) (v : A) :
  NoDup (map fst tbl) -> In (k, v) tbl -> lookup tbl k = Some v.
Proof.
  induction tbl as [|[q w] tbl IH]; intros Hnd Hin; [destruct Hin|].
  cbn [map fst] in Hnd. inversion Hnd as [|? ? Hq Hnd']; subst.
  cbn [lookup]. destruct Hin as [Hin|Hin].
  - injection Hin as -> ->. rewrite str_eqb_refl. reflexivity.
  - destruct (str_eqb q k) eqn:E; [|apply IH; assumption].
    apply str_eqb_eq in E. subst q. elim Hq.
    apply in_map_iff. exists (k, v). split; [reflexivity|exact Hin].
Qed.

(** Counting an utterance among all the utterances listed. *)
Lemma uses_count (intents : list intentObj) (item : str) :
  uses intents item
  = length (filter (str_eqb item) (concat (map speech_of intents))).
Proof.
  unfold uses, defs_for. induction intents as [|d intents IH]; [reflexivity|].
  cbn [flat_map map concat]. rewrite length_app, filter_app, length_app.
  rewrite length_map, IH. reflexivity.
Qed.

Lemma filter_count_le (item x : str) (l : list str) :
  length (filter (str_eqb item) l) <= length (filter (str_eqb item) (x :: l)).
Proof. cbn [filter]. destruct (str_eqb item x); cbn [length]; lia. Qed.

(** Keeping the elements that a list holds once gives a list without
    repetition. *)
Lemma once_nodup (count_in : list str) :
  forall l,
    (forall x, length (filter (str_eqb x) l)
               <= length (filter (str_eqb x) count_in)) ->
    NoDup (filter (fun x => length (filter (str_eqb x) count_in) =? 1) l).
Proof.
  induction l as [|y l IH]; intros Hle; [constructor|].
  assert (Hl : forall x, length (filter (str_eqb x) l)
                         <= length (filter (str_eqb x) count_in)).
  { intros x. specialize (Hle x). pose proof (filter_count_le x y l). lia. }
  cbn [filter]. destruct (_ =? 1) eqn:E; [|apply IH; exact Hl].
  constructor; [|apply IH; exact Hl].
  intros Hin. apply filter_In in Hin. destruct Hin as [Hin _].
  apply Nat.eqb_eq in E. specialize (Hle y).
  cbn [filter] in Hle. rewrite str_eqb_refl in Hle. cbn [length] in Hle.
  assert (Hpos : 0 < length (filter (str_eqb y) l)).
  { assert (Hy : In y (filter (str_eqb y) l))
      by (apply filter_In; split; [exact Hin|apply str_eqb_refl]).
    destruct (filter (str_eqb y) l); [destruct Hy|cbn [length]; lia]. }
  lia.
Qed.

Lemma filter_partition {A : Type} (p : A -> bool) (l : list A) :
  Permutation (filter p l ++ filter (fun x => negb (p x)) l) l.
Proof.
  induction l as [|x l IH]; [constructor|].
  cbn [filter]. destruct (p x); cbn [negb app].
  - constructor. exact IH.
  - apply Permutation_sym. apply Permutation_cons_app.
    apply Permutation_sym. exact IH.
Qed.

Lemma concat_filter_map {A : Type} (p : str -> bool) (f : A -> list str)
  (l : list A) :
  concat (map (fun x => filter p (f x)) l) = filter p (concat (map f l)).
Proof.
  induction l as [|x l IH]; [reflexivity|].
  cbn [map concat]. rewrite filter_app, IH. reflexivity.
Qed.

Lemma first_pass_speech (intents some : list intentObj) :
  concat (map fst
            (flat_map
               (fun d => match filter (used_once intents) (speech_of d) with
                         | [] => []
                         | userSpeech => [(userSpeech, [def d])]
                         end) some))
  = filter (used_once intents) (concat (map speech_of some)).
Proof.
  rewrite <- concat_filter_map.
  induction some as [|d some IH]; [reflexivity|].
  cbn [flat_map map concat]. rewrite map_app, concat_app, IH.
  destruct (filter (used_once intents) (speech_of d)); [reflexivity|].
  cbn [map fst concat]. rewrite app_nil_r. reflexivity.
Qed.

Lemma second_pass_speech (usd : list (str * list InputMgr.intentDef))
  (intents : list intentObj) :
  indexes usd intents ->
  concat (map fst (second_pass usd))
  = filter (fun item => negb (used_once intents item)) (map fst usd).
Proof.
  intros [Hlook Hnd]. unfold second_pass.
  assert (Hentries : forall e, In e usd ->
                       length (snd e) = uses intents (fst e)).
  { intros [k defs] He. cbn [fst snd].
    pose proof (lookup_of_entry usd k defs Hnd He) as Hk.
    rewrite Hlook in Hk. unfold uses.
    destruct (defs_for k intents); [discriminate Hk|].
    injection Hk as <-. reflexivity. }
  clear Hlook Hnd. induction usd as [|[k defs] usd IH]; [reflexivity|].
  cbn [flat_map map fst snd filter].
  rewrite map_app, concat_app, IH
    by (intros e He; apply Hentries; right; exact He).
  pose proof (Hentries (k, defs) (or_introl eq_refl)) as Hk.
  cbn [fst snd] in Hk.
  assert (U : used_once intents k = (length defs =? 1))
    by (unfold used_once; rewrite Hk; reflexivity).
  rewrite U. destruct (length defs =? 1); reflexivity.
Qed.

(** Over the two passes the utterances handed over are the keys of the
    table, each once. *)
Lemma calls_speech_perm (usd : list (str * list InputMgr.intentDef))
  (intents : list intentObj) :
  indexes usd intents ->
  Permutation
    (concat (map fst
               (flat_map
                  (fun d => match filter (used_once intents) (speech_of d) with
                            | [] => []
                            | userSpeech => [(userSpeech, [def d])]
                            end) intents
                ++ second_pass usd)))
    (map fst usd).
Proof.
  intros Hidx.
  rewrite map_app, concat_app, first_pass_speech,
    (second_pass_speech _ intents Hidx).
  set (A := concat (map speech_of intents)).
  set (keys := map fst usd).
  eapply Permutation_trans; [|apply (filter_partition (used_once intents) keys)].
  apply Permutation_app_tail.
  assert (Hcount : forall x, used_once intents x
                             = (length (filter (str_eqb x) A) =? 1)).
  { intros x. unfold used_once. rewrite uses_count. reflexivity. }
  apply NoDup_Permutation.
  - rewrite (filter_ext _ _ Hcount). apply once_nodup. intros x. lia.
  - apply NoDup_filter. apply Hidx.
  - intros x. rewrite !filter_In. unfold keys.
    rewrite (keys_are_listed _ intents x Hidx). unfold A.
    rewrite in_concat. split.
    + intros [(l & Hl & Hx) Hu]. split; [|exact Hu].
      apply in_map_iff in Hl. destruct Hl as (d & <- & Hd).
      exists d. split; assumption.
    + intros [(d & Hd & Hx) Hu]. split; [|exact Hu].
      exists (speech_of d). split; [apply in_map; exact Hd|exact Hx].
Qed.

End Calls.

(** X17.  Every utterance is registered once.  For the tables of any script
    (no utterance being a name that the table inherits)
    [registerIntents] goes through its two passes without an error.  The
    first pass makes one call for each declared intent that lists an
    utterance no other listing shares, with those utterances and with that
    intent's definition alone; the second pass makes one call for each
    utterance listed more than once, with that utterance alone and with all
    the definitions that list it, in the order of their declaration.  Over
    both passes each utterance of [userSpeechDef] is handed over exactly
    once. *)
Theorem utterances_registered_once (script : list declaration) :
  Forall (fun item => inherited item = false) (utterances_of script) ->
  let c := declared_by script in
  let intents := intents_of script in
  exists calls,
    Convo.first_pass (Convo.userSpeechDef c) (Convo.allIntents c) = Some calls
    /\ Forall (fun call =>
                 exists intentDef,
                   In intentDef intents
                   /\ fst call = filter (used_once intents) (speech_of intentDef)
                   /\ fst call <> []
                   /\ snd call = [Convo.def intentDef]) calls
    /\ Forall (fun call =>
                 exists item,
                   fst call = [item]
                   /\ snd call = defs_for item intents
                   /\ 2 <= uses intents item)
         (Convo.second_pass (Convo.userSpeechDef c))
    /\ Permutation
         (concat (map fst (calls ++ Convo.second_pass (Convo.userSpeechDef c))))
         (map fst (Convo.userSpeechDef c)).
Proof.
  intros _ c intents.
  destruct (script_holds script) as [Hidx Hall].
  fold c in Hidx, Hall. fold intents in Hidx, Hall.
  exists (flat_map
            (fun d => match filter (used_once intents) (speech_of d) with
                      | [] => []
                      | userSpeech => [(userSpeech, [Convo.def d])]
                      end) intents).
  split; [|split; [|split]].
  - rewrite Hall. apply first_pass_spec; [exact Hidx|apply incl_refl].
  - apply Forall_forall. intros call Hcall. apply in_flat_map in Hcall.
    destruct Hcall as (d & Hd & Hin). exists d.
    destruct (filter (used_once intents) (speech_of d)) as [|x l] eqn:E;
      [destruct Hin|].
    destruct Hin as [<-|[]]. cbn [fst snd].
    split; [exact Hd|]. split; [reflexivity|]. split; [discriminate|reflexivity].
  - apply Forall_forall. intros call Hcall. unfold Convo.second_pass in Hcall.
    apply in_flat_map in Hcall. destruct Hcall as ([k defs] & He & Hin).
    cbn [fst snd] in Hin.
    destruct (length defs =? 1) eqn:El; [destruct Hin|].
    destruct Hin as [<-|[]]. exists k. cbn [fst snd].
    destruct Hidx as [Hlook Hnd].
    pose proof (lookup_of_entry _ k defs Hnd He) as Hk. rewrite Hlook in Hk.
    unfold uses.
    destruct (defs_for k intents) as [|y l] eqn:E; [discriminate Hk|].
    injection Hk as <-. split; [reflexivity|]. split; [reflexivity|].
    apply Nat.eqb_neq in El. cbn [length] in *. lia.
  - apply calls_speech_perm. exact Hidx.
Qed.

Lemma utterances_registered_once_witness :
  let c := declared_by sample_script in
  let intents := intents_of sample_script in
  exists calls,
    Convo.first_pass (Convo.userSpeechDef c) (Convo.allIntents c) = Some calls
    /\ Forall (fun call =>
                 exists intentDef,
                   In intentDef intents
                   /\ fst call = filter (used_once intents) (speech_of intentDef)
                   /\ fst call <> []
                   /\ snd call = [Convo.def intentDef]) calls
    /\ Forall (fun call =>
                 exists item,
                   fst call = [item]
                   /\ snd call = defs_for item intents
                   /\ 2 <= uses intents item)
         (Convo.second_pass (Convo.userSpeechDef c))
    /\ Permutation
         (concat (map fst (calls ++ Convo.second_pass (Convo.userSpeechDef c))))
         (map fst (Convo.userSpeechDef c)).
Proof.
  apply (utterances_registered_once sample_script). repeat constructor.
Defined.

(** ** Registration comes to an end *)

Section SlotsTotal.
Import ScriptParser.

(** What [paramsRE] matches: two opening brackets, characters of its class
    and two closing brackets. *)
Lemma re_params_shape (prev : option ascii) (s : str) (n : nat) :
  re_params prev s = Some n ->
  exists body,
    firstn n s = lit "[[" ++ body ++ lit "]]"
    /\ all_chars is_param_char body = true
    /\ n = 4 + length body /\ n <= length s.
Proof.
  unfold re_params. destruct (starts_with (lit "[[") s) eqn:Hsw; [|discriminate].
  cbv zeta.
  destruct (give_back_to (lit "]]") (skipn 2 s) (run is_param_char (skipn 2 s)))
    as [e|] eqn:Hg; [|discriminate].
  intros H; injection H as Hn.
  destruct (give_back_to_spec _ _ _ _ Hg) as [Hle Hs].
  destruct (run_firstn is_param_char (skipn 2 s) e Hle) as [Hall Hlen].
  apply starts_with_split in Hsw. apply starts_with_split in Hs.
  change (length (lit "[[")) with 2 in Hsw.
  change (length (lit "]]")) with 2 in Hs.
  exists (firstn e (skipn 2 s)).
  set (body := firstn e (skipn 2 s)) in *.
  set (rest := skipn 2 (skipn e (skipn 2 s))) in *.
  assert (Hs' : s = (lit "[[" ++ body ++ lit "]]") ++ rest).
  { rewrite <- !app_assoc, <- Hs. unfold body. rewrite firstn_skipn.
    exact Hsw. }
  assert (Hm : length (lit "[[" ++ body ++ lit "]]") = n).
  { rewrite !length_app, Hlen. change (length (lit "[[")) with 2.
    change (length (lit "]]")) with 2. lia. }
  split; [|split; [exact Hall|split; [lia|]]].
  - rewrite Hs', <- Hm. apply firstn_app_exact.
  - rewrite Hs', length_app. lia.
Qed.

Lemma plain_count (t : str) : plain_text t = true -> countc "[" t = 0.
Proof.
  unfold plain_text, countc. induction t as [|c t IH]; [reflexivity|].
  cbn [forallb filter]. intros H. apply andb_true_iff in H.
  destruct H as [Hc Ht]. apply negb_true_iff in Hc.
  rewrite Ascii.eqb_sym, Hc. apply IH. exact Ht.
Qed.

Lemma samples_plain_assign (kt : keyTypes) (k : str) (v : keyType) :
  samples_plain kt = true ->
  match v with
  | TypeObj _ _ (Some svs) => forallb plain_text svs = true
  | _ => True
  end ->
  samples_plain (assign kt k v) = true.
Proof.
  unfold samples_plain. intros Hkt Hv.
  assert (Hentry : match v with
                   | TypeObj _ _ (Some sampleValues) =>
                       forallb plain_text sampleValues
                   | _ => true
                   end = true).
  { destruct v as [|ty vals [svs|]]; try reflexivity. exact Hv. }
  induction kt as [|[q w] kt IH]; cbn [assign].
  - cbn [forallb snd]. rewrite Hentry. reflexivity.
  - cbn [forallb snd] in Hkt. apply andb_true_iff in Hkt.
    destruct Hkt as [Hw Hkt]. destruct (str_eqb q k); cbn [forallb snd].
    + rewrite Hentry, Hkt. reflexivity.
    + rewrite Hw, (IH Hkt). reflexivity.
Qed.

Lemma samples_plain_lookup (kt : keyTypes) (k : str) (ty : jsval)
  (vals : option (list str)) (svs : list str) :
  samples_plain kt = true -> lookup kt k = Some (TypeObj ty vals (Some svs)) ->
  forallb plain_text svs = true.
Proof.
  intros Hkt E. induction kt as [|[q w] kt IH]; [discriminate E|].
  cbn [samples_plain forallb snd] in Hkt. apply andb_true_iff in Hkt.
  destruct Hkt as [Hw Hkt]. cbn [lookup] in E. destruct (str_eqb q k).
  - injection E as ->. exact Hw.
  - apply IH; assumption.
Qed.

Lemma literalSampleValues_plain (kt : keyTypes) (inStr : str) :
  samples_plain kt = true -> plain_text inStr = true ->
  samples_plain (fst (literalSampleValues kt inStr)) = true
  /\ plain_text (snd (literalSampleValues kt inStr)) = true.
Proof.
  intros Hkt Hin. split.
  - unfold literalSampleValues.
    destruct (lookup kt inStr) as [[typeName|ty vals [svs|]]|] eqn:E;
      cbn [fst]; try (destruct (declared kt inStr); [exact Hkt|];
                      apply samples_plain_assign; [exact Hkt|exact I]).
    apply samples_plain_assign; [exact Hkt|].
    pose proof (samples_plain_lookup kt inStr ty vals svs Hkt E) as Hsvs.
    apply forallb_forall. intros sv Hsv. apply in_map_iff in Hsv.
    destruct Hsv as (sv0 & <- & Hsv0). apply plain_text_spec.
    intros Hb. apply in_trim in Hb. rewrite forallb_forall in Hsvs.
    specialize (Hsvs sv0 Hsv0). apply plain_text_spec in Hsvs. exact (Hsvs Hb).
  - destruct (literalSampleValues_step kt kt [] inStr (rewriting_start kt))
      as [-> _].
    rewrite !plain_text_app, (samples_of_plain kt inStr Hkt), Hin. reflexivity.
Qed.

Lemma skipn_skipn' {A : Type} (i n : nat) (l : list A) :
  skipn (i + n) l = skipn n (skipn i l).
Proof.
  revert l. induction i as [|i IH]; intros l; [reflexivity|].
  destruct l as [|x l]; [rewrite !skipn_nil; reflexivity|].
  cbn [Nat.add skipn]. apply IH.
Qed.

(** The rewriting loop ends on any utterance: each round takes two opening
    brackets away and brings none. *)
Lemma slots_loop_total (fuel : nat) :
  forall (s : str) (kt : keyTypes),
    samples_plain kt = true -> countc "[" s <= fuel ->
    exists kt' s',
      _interpolateParamsFromStore fuel (exec re_params param_name)
        literalSampleValues kt s = Some (kt', s')
      /\ samples_plain kt' = true.
Proof.
  induction fuel as [|fuel IH]; intros s kt Hkt Hcount.
  - cbn [_interpolateParamsFromStore]. unfold exec.
    destruct (find_first re_params None s) as [[i n]|] eqn:F;
      [|exists kt, s; split; [reflexivity|exact Hkt]].
    exfalso.
    destruct (find_first_pos _ _ _ _ _ F) as (Hi & prev' & Hm).
    destruct (re_params_shape _ _ _ Hm) as (body & Hshape & _ & _ & _).
    assert (E : s = firstn i s ++ firstn n (skipn i s) ++ skipn n (skipn i s))
      by (rewrite !firstn_skipn; reflexivity).
    rewrite E, Hshape, !countc_app in Hcount.
    change (countc "[" (lit "[[")) with 2 in Hcount. lia.
  - cbn [_interpolateParamsFromStore]. unfold exec.
    destruct (find_first re_params None s) as [[i n]|] eqn:F;
      [|exists kt, s; split; [reflexivity|exact Hkt]].
    destruct (find_first_pos _ _ _ _ _ F) as (Hi & prev' & Hm).
    destruct (re_params_shape _ _ _ Hm) as (body & Hshape & Hbody & Hn & Hlen).
    assert (E : s = firstn i s ++ firstn n (skipn i s) ++ skipn n (skipn i s))
      by (rewrite !firstn_skipn; reflexivity).
    assert (Hname : param_name (firstn n (skipn i s)) = body).
    { rewrite Hshape. unfold param_name.
      change (skipn 2 (lit "[[" ++ body ++ lit "]]")) with (body ++ lit "]]").
      replace (length (lit "[[" ++ body ++ lit "]]") - 4) with (length body)
        by (rewrite !length_app; change (length (lit "[[")) with 2;
            change (length (lit "]]")) with 2; lia).
      apply firstn_app_exact. }
    rewrite Hname.
    destruct (literalSampleValues_plain kt body Hkt (name_plain body Hbody))
      as [Hkt1 Hrepl].
    destruct (literalSampleValues kt body) as [kt1 repl].
    cbn [fst snd] in Hkt1, Hrepl.
    apply IH; [exact Hkt1|].
    unfold _interpolate. rewrite length_firstn, length_skipn.
    replace (Nat.min n (length s - i)) with n
      by (rewrite length_skipn in Hlen; lia).
    rewrite skipn_skipn'.
    rewrite E, Hshape, !countc_app in Hcount.
    change (countc "[" (lit "[[")) with 2 in Hcount.
    rewrite !countc_app, (plain_count repl Hrepl). lia.
Qed.

Lemma forSlots_total (fuel : nat) (userSpeech : list str) :
  Forall (fun u => countc "[" u <= fuel) userSpeech ->
  forall kt, samples_plain kt = true ->
    exists kt' produced,
      forSlots fuel kt userSpeech = Some (kt', produced)
      /\ samples_plain kt' = true.
Proof.
  unfold forSlots. induction 1 as [|u us Hu _ IH]; intros kt Hkt.
  - exists kt, []. split; [reflexivity|exact Hkt].
  - destruct (slots_loop_total fuel u kt Hkt Hu) as (kt1 & u' & Hrun & Hkt1).
    destruct (IH kt1 Hkt1) as (kt' & us' & Hrest & Hkt').
    exists kt', (u' :: us'). split; [|exact Hkt'].
    cbn [map_state]. rewrite Hrun, Hrest. reflexivity.
Qed.

End SlotsTotal.

Section LoopExit.
Import ScriptParser.

(** When the loop of [_interpolateParamsFromStore] ends, the pattern finds
    nothing in what it hands back. *)
Lemma interpolate_exit {St : Type} (fuel : nat)
  (varExtractionRE : str -> option (nat * str * str))
  (get : St -> str -> St * str) :
  forall (store store' : St) (s s' : str),
    _interpolateParamsFromStore fuel varExtractionRE get store s
    = Some (store', s') ->
    varExtractionRE s' = None.
Proof.
  induction fuel as [|fuel IH]; intros store store' s s';
    cbn [_interpolateParamsFromStore];
    destruct (varExtractionRE s) as [[[index m0] m1]|] eqn:E;
    try discriminate.
  - intros H. injection H as _ <-. exact E.
  - destruct (get store m1) as [store1 replaceStr]. apply IH.
  - intros H. injection H as _ <-. exact E.
Qed.

Lemma map_state_each {St A B : Type} (f : St -> A -> option (St * B))
  (P : B -> Prop) :
  (forall st x st' y, f st x = Some (st', y) -> P y) ->
  forall l st st' ys,
    map_state f st l = Some (st', ys) -> Forall P ys /\ length ys = length l.
Proof.
  intros Hf. induction l as [|x l IH]; intros st st' ys; cbn [map_state].
  - intros H. injection H as _ <-. split; [constructor|reflexivity].
  - destruct (f st x) as [[st1 y]|] eqn:E; [|discriminate].
    destruct (map_state f st1 l) as [[st2 ys']|] eqn:E'; [|discriminate].
    intros H. injection H as _ <-.
    destruct (IH _ _ _ E') as [Hall Hlen].
    split; [constructor; [apply (Hf _ _ _ _ E)|exact Hall]|].
    cbn [length]. rewrite Hlen. reflexivity.
Qed.

Lemma exec_none (m : matcher) (group : str -> str) (s : str) :
  exec m group s = None -> find_first m None s = None.
Proof.
  unfold exec. destruct (find_first m None s) as [[i n]|]; [discriminate|].
  reflexivity.
Qed.

End LoopExit.

(** X18.  [forSlots] comes to an end on any utterances.  When no declared
    sample value holds an opening bracket, the rewriting loop ends on every
    utterance whatever it holds, within one round per opening bracket of
    the utterance; it hands back as many utterances as it was given, with
    no slot [[[name]]] left in any of them, and a table whose sample values
    still hold no opening bracket. *)
Theorem forSlots_terminates (kt : ScriptParser.keyTypes)
  (userSpeech : list str) (fuel : nat) :
  samples_plain kt = true ->
  Forall (fun u => countc "[" u <= fuel) userSpeech ->
  exists kt' produced,
    ScriptParser.forSlots fuel kt userSpeech = Some (kt', produced)
    /\ length produced = length userSpeech
    /\ Forall (fun u => find_first re_params None u = None) produced
    /\ samples_plain kt' = true.
Proof.
  intros Hkt Hfuel.
  destruct (forSlots_total fuel userSpeech Hfuel kt Hkt)
    as (kt' & produced & Hrun & Hkt').
  exists kt', produced. split; [exact Hrun|].
  unfold ScriptParser.forSlots in Hrun.
  destruct (map_state_each _ (fun u => find_first re_params None u = None)
              (fun st x st' y H =>
                 exec_none _ _ _ (interpolate_exit _ _ _ _ _ _ _ H))
              _ _ _ _ Hrun) as [Hall Hlen].
  split; [exact Hlen|]. split; [exact Hall|exact Hkt'].
Qed.

Lemma forSlots_terminates_witness :
  exists kt' produced,
    ScriptParser.forSlots 3 sample_table
      [lit "Book [[itemName]] [now"; lit "Ask [[who]]"]
    = Some (kt', produced)
    /\ length produced = length [lit "Book [[itemName]] [now"; lit "Ask [[who]]"]
    /\ Forall (fun u => find_first re_params None u = None) produced
    /\ samples_plain kt' = true.
Proof.
  apply (forSlots_terminates sample_table
           [lit "Book [[itemName]] [now"; lit "Ask [[who]]"] 3);
    [reflexivity|].
  repeat constructor.
Defined.

Section RegisterAll.
Import ScriptParser Convo.

Variable getNumAsStr : str -> str.
Hypothesis spelled_out : forall num, no_digit (getNumAsStr num) = true.
Variable fuel : nat.

Lemma params_total (kt : ScriptParser.keyTypes) (pe : list (list str)) (us : list str) :
  samples_plain kt = true ->
  Forall (fun u => rounds_for getNumAsStr u <= fuel) us ->
  exists kt' produced expectedParams,
    registerIntentDef_params getNumAsStr fuel kt pe us
    = Some (kt', produced, expectedParams)
    /\ samples_plain kt' = true.
Proof.
  intros Hkt Hfuel. unfold registerIntentDef_params.
  rewrite (forPunctuation_pass getNumAsStr spelled_out fuel us).
  - destruct (forSlots_total fuel
                (map (fun u => spell_numbers getNumAsStr (strip_punct u)) us))
      with (kt := kt) as (kt' & produced & Hrun & Hkt'); [|exact Hkt|].
    + apply Forall_forall. intros u Hu. apply in_map_iff in Hu.
      destruct Hu as (u0 & <- & Hu0). rewrite Forall_forall in Hfuel.
      specialize (Hfuel u0 Hu0). unfold rounds_for in Hfuel. lia.
    + rewrite Hrun. do 3 eexists. split; [reflexivity|exact Hkt'].
  - apply Forall_forall. intros u Hu. rewrite Forall_forall in Hfuel.
    specialize (Hfuel u Hu). unfold rounds_for in Hfuel. lia.
Qed.

(** One call of [_registerIntentDef]. *)
Lemma registerIntentDef_total (pe : list (list str)) (r : registrar)
  (us : list str) (defs : list InputMgr.intentDef) :
  samples_plain (types r) = true ->
  Forall (fun u => rounds_for getNumAsStr u <= fuel) us ->
  exists r' reg,
    _registerIntentDef getNumAsStr fuel pe r us defs = Some r'
    /\ samples_plain (types r') = true
    /\ regIntents r' = regIntents r ++ [reg]
    /\ intentDefArr reg = defs
    /\ (idName reg, _registeredIntents r')
       = match first_name defs with
         | Some idName => (idName, _registeredIntents r)
         | None => Naming._genIntentName (_registeredIntents r)
         end.
Proof.
  intros Hkt Hfuel. unfold _registerIntentDef.
  destruct (params_total (types r) pe us Hkt Hfuel)
    as (kt' & produced & expectedParams & -> & Hkt').
  destruct (match first_name defs with
            | Some idName => (idName, _registeredIntents r)
            | None => Naming._genIntentName (_registeredIntents r)
            end) as [nm cnt] eqn:E.
  do 2 eexists. split; [reflexivity|].
  cbn [types regIntents intentDefArr idName _registeredIntents].
  repeat split. exact Hkt'.
Qed.

(** The names given when no definition brings one: those of the counters
    from [counter] on. *)
Lemma register_calls_total (pe : list (list str))
  (calls : list (list str * list InputMgr.intentDef)) :
  forall r : registrar,
    samples_plain (types r) = true ->
    Forall (fun call => Forall (fun u => rounds_for getNumAsStr u <= fuel)
                          (fst call)) calls ->
    exists r' regs,
      register_calls getNumAsStr fuel pe calls r = Some r'
      /\ samples_plain (types r') = true
      /\ regIntents r' = regIntents r ++ regs
      /\ map intentDefArr regs = map snd calls
      /\ Forall (fun reg => forall idName0,
                   first_name (intentDefArr reg) = Some idName0 ->
                   idName reg = idName0) regs
      /\ (Forall (fun call => first_name (snd call) = None) calls ->
          map idName regs
          = map (fun i => fst (Naming._getAlphabeticStr (_registeredIntents r + i)))
              (seq 0 (length calls))
          /\ _registeredIntents r' = _registeredIntents r + length calls).
Proof.
  induction calls as [|[us defs] calls IH]; intros r Hkt Hfuel.
  - exists r, []. cbn [register_calls map seq length].
    rewrite app_nil_r, Nat.add_0_r.
    repeat split; try assumption; constructor.
  - pose proof (Forall_inv Hfuel) as Hus. cbn [fst] in Hus.
    pose proof (Forall_inv_tail Hfuel) as Hrest.
    destruct (registerIntentDef_total pe r us defs Hkt Hus)
      as (r1 & reg & Hrun & Hkt1 & Hregs1 & Hdefs & Hname).
    destruct (IH r1 Hkt1 Hrest)
      as (r' & regs & Hrun' & Hkt' & Hregs' & Hmap & Hexplicit & Hnone).
    exists r', (reg :: regs). cbn [register_calls]. rewrite Hrun.
    split; [exact Hrun'|]. split; [exact Hkt'|]. split; [|split; [|split]].
    + rewrite Hregs', Hregs1, <- app_assoc. reflexivity.
    + cbn [map snd]. rewrite Hdefs, Hmap. reflexivity.
    + constructor; [|exact Hexplicit].
      intros idName0 Hfirst. rewrite Hdefs in Hfirst. rewrite Hfirst in Hname.
      injection Hname as -> _. reflexivity.
    + intros Hall. pose proof (Forall_inv Hall) as Hfirst. cbn [snd] in Hfirst.
      destruct (Hnone (Forall_inv_tail Hall)) as [Hnames Hcounter].
      rewrite Hfirst in Hname. unfold Naming._genIntentName in Hname.
      assert (Hc1 : _registeredIntents r1 = S (_registeredIntents r))
        by (injection Hname as _ ->; reflexivity).
      assert (Hn1 : idName reg
                    = fst (Naming._getAlphabeticStr (_registeredIntents r)))
        by (injection Hname as -> _; reflexivity).
      cbn [length seq map]. rewrite Nat.add_0_r, Hn1, Hnames, Hcounter, Hc1.
      split; [|lia]. f_equal.
      rewrite <- seq_shift, map_map. apply map_ext. intros i.
      do 2 f_equal. lia.
Qed.

Lemma map_nodup {A B : Type} (f : A -> B) (l : list A) :
  (forall x y, f x = f y -> x = y) -> NoDup l -> NoDup (map f l).
Proof.
  intros Hinj. induction 1 as [|x l Hx _ IH]; cbn [map]; constructor;
    [|exact IH].
  intros Hin. apply in_map_iff in Hin. destruct Hin as (y & E & Hy).
  apply Hinj in E. subst y. exact (Hx Hy).
Qed.

Lemma generated_names_differ (counter n : nat) :
  NoDup (map (fun i => fst (Naming._getAlphabeticStr (counter + i))) (seq 0 n)).
Proof.
  apply map_nodup; [|apply seq_NoDup].
  intros i j E. apply getAlphabeticStr_inj in E. lia.
Qed.

(** Every definition handed to a call was declared. *)
Lemma calls_defs_declared (usd : list (str * list InputMgr.intentDef))
  (intents : list intentObj) :
  indexes usd intents ->
  Forall (fun call => forall x, In x (snd call) ->
                                exists d, In d intents /\ x = def d)
    (flat_map
       (fun d => match filter (used_once intents) (speech_of d) with
                 | [] => []
                 | userSpeech => [(userSpeech, [def d])]
                 end) intents
     ++ second_pass usd).
Proof.
  intros [Hlook Hnd]. apply Forall_app. split; apply Forall_forall;
    intros call Hcall.
  - apply in_flat_map in Hcall. destruct Hcall as (d & Hd & Hin).
    destruct (filter (used_once intents) (speech_of d)); [destruct Hin|].
    destruct Hin as [<-|[]]. cbn [snd]. intros x [<-|[]].
    exists d. split; [exact Hd|reflexivity].
  - unfold second_pass in Hcall. apply in_flat_map in Hcall.
    destruct Hcall as ([k defs] & He & Hin). cbn [fst snd] in Hin.
    destruct (length defs =? 1); [destruct Hin|].
    destruct Hin as [<-|[]]. cbn [snd]. intros x Hx.
    pose proof (lookup_of_entry _ k defs Hnd He) as Hk. rewrite Hlook in Hk.
    destruct (defs_for k intents) as [|y l] eqn:E; [discriminate Hk|].
    injection Hk as <-. rewrite <- E in Hx. unfold defs_for in Hx.
    apply in_flat_map in Hx. destruct Hx as (d & Hd & Hin).
    apply in_map_iff in Hin. destruct Hin as (_ & <- & _).
    exists d. split; [exact Hd|reflexivity].
Qed.

Lemma first_name_none (defs : list InputMgr.intentDef) :
  (forall x, In x defs -> InputMgr.name x = None) -> first_name defs = None.
Proof.
  induction defs as [|d defs IH]; intros H; [reflexivity|].
  cbn [first_name]. rewrite (H d (or_introl eq_refl)).
  apply IH. intros x Hx. apply H. right; exact Hx.
Qed.

End RegisterAll.

(** X19.  Registration comes to an end and names every intent.  For the
    tables of any script, when the spelling of a number holds no digit and
    no declared sample value holds an opening bracket, [registerIntents]
    ends (the parser loops within a round per character of the longest
    utterance), with one call of [regIntent] for each call of the two
    passes, in their order and with their definitions.  (No utterance is a
    name that the table inherits or a name made of digits, which the
    second pass would come to before the others.)  An intent gets the
    first name that its definitions bring; when no definition brings a
    name, the names are generated, no two intents get the same name, and
    the counter of generated names has moved on by the number of
    intents. *)
Theorem registration_completes (getNumAsStr : str -> str)
  (script : list declaration) (counter fuel : nat) :
  (forall num, no_digit (getNumAsStr num) = true) ->
  Forall (fun item => own_name item = true) (utterances_of script) ->
  let c := declared_by script in
  samples_plain (Convo.keyTypes c) = true ->
  Forall (fun u => rounds_for getNumAsStr u <= fuel)
    (map fst (Convo.userSpeechDef c)) ->
  exists calls r,
    Convo.first_pass (Convo.userSpeechDef c) (Convo.allIntents c) = Some calls
    /\ Convo._registerIntents getNumAsStr fuel c counter
       = Some (r, Convo.custom_slots (Convo.types r))
    /\ map Convo.intentDefArr (Convo.regIntents r)
       = map snd (calls ++ Convo.second_pass (Convo.userSpeechDef c))
    /\ Forall (fun reg => forall idName,
                 Convo.first_name (Convo.intentDefArr reg) = Some idName ->
                 Convo.idName reg = idName) (Convo.regIntents r)
    /\ ((forall d, In d (intents_of script) ->
                   InputMgr.name (Convo.def d) = None) ->
        NoDup (map Convo.idName (Convo.regIntents r))
        /\ Convo._registeredIntents r = counter + length (Convo.regIntents r)).
Proof.
  intros Hspell _ c Hkt Hfuel.
  destruct (script_holds script) as [Hidx Hall].
  fold c in Hidx, Hall.
  set (intents := intents_of script) in *.
  set (calls := flat_map
                  (fun d => match filter (used_once intents) (speech_of d) with
                            | [] => []
                            | userSpeech => [(userSpeech, [Convo.def d])]
                            end) intents).
  assert (Hfirst : Convo.first_pass (Convo.userSpeechDef c) (Convo.allIntents c)
                   = Some calls)
    by (rewrite Hall; apply first_pass_spec; [exact Hidx|apply incl_refl]).
  set (all := calls ++ Convo.second_pass (Convo.userSpeechDef c)).
  assert (Hrounds : Forall (fun call =>
                              Forall (fun u => rounds_for getNumAsStr u <= fuel)
                                (fst call)) all).
  { apply Forall_forall. intros call Hcall. apply Forall_forall. intros u Hu.
    rewrite Forall_forall in Hfuel. apply Hfuel.
    apply (Permutation_in u (calls_speech_perm _ intents Hidx)).
    apply in_concat. exists (fst call). split; [|exact Hu].
    apply in_map. exact Hcall. }
  destruct (register_calls_total getNumAsStr Hspell fuel
              (Convo.phraseEquivalents c) all
              (Convo.mkRegistrar (Convo.keyTypes c) counter []) Hkt Hrounds)
    as (r & regs & Hrun & _ & Hregs & Hmap & Hexplicit & Hnone).
  cbn [Convo.regIntents Convo._registeredIntents app] in Hregs, Hnone.
  exists calls, r. split; [exact Hfirst|].
  split; [unfold Convo._registerIntents; rewrite Hfirst; fold all;
          rewrite Hrun; reflexivity|].
  rewrite Hregs. split; [exact Hmap|]. split; [exact Hexplicit|].
  intros Hnames.
  assert (Hnoname : Forall (fun call => Convo.first_name (snd call) = None) all).
  { pose proof (calls_defs_declared _ intents Hidx) as Hdecl.
    fold calls in Hdecl. fold all in Hdecl.
    apply Forall_forall. intros call Hcall. rewrite Forall_forall in Hdecl.
    apply first_name_none. intros x Hx.
    destruct (Hdecl call Hcall x Hx) as (d & Hd & ->). apply Hnames. exact Hd. }
  destruct (Hnone Hnoname) as [Hids Hcounter].
  split.
  - rewrite Hids. apply generated_names_differ.
  - rewrite Hcounter. f_equal.
    rewrite <- (length_map Convo.intentDefArr regs), Hmap, length_map.
    reflexivity.
Qed.

Lemma registration_completes_witness :
  let getNumAsStr := fun _ : str => lit "many" in
  let c := declared_by sample_script in
  exists calls r,
    Convo.first_pass (Convo.userSpeechDef c) (Convo.allIntents c) = Some calls
    /\ Convo._registerIntents getNumAsStr 25 c 0
       = Some (r, Convo.custom_slots (Convo.types r))
    /\ map Convo.intentDefArr (Convo.regIntents r)
       = map snd (calls ++ Convo.second_pass (Convo.userSpeechDef c))
    /\ Forall (fun reg => forall idName,
                 Convo.first_name (Convo.intentDefArr reg) = Some idName ->
                 Convo.idName reg = idName) (Convo.regIntents r)
    /\ ((forall d, In d (intents_of sample_script) ->
                   InputMgr.name (Convo.def d) = None) ->
        NoDup (map Convo.idName (Convo.regIntents r))
        /\ Convo._registeredIntents r = 0 + length (Convo.regIntents r)).
Proof.
  apply (registration_completes (fun _ => lit "many") sample_script 0 25).
  - reflexivity.
  - repeat constructor.
  - reflexivity.
  - repeat constructor.
Defined.

(** ** From registration to dispatch *)

Section RegisteredDefs.
Import Convo.

Variable getNumAsStr : str -> str.
Variable fuel : nat.

(** The calls of [regIntent] carry the definitions of the calls made, in
    their order. *)
Lemma register_calls_defs (pe : list (list str))
  (calls : list (list str * list InputMgr.intentDef)) :
  forall r r' : registrar,
    register_calls getNumAsStr fuel pe calls r = Some r' ->
    map intentDefArr (regIntents r')
    = map intentDefArr (regIntents r) ++ map snd calls.
Proof.
  induction calls as [|[userSpeech defs] calls IH]; intros r r' H.
  - cbn [register_calls] in H. injection H as <-.
    cbn [map]. rewrite app_nil_r. reflexivity.
  - cbn [register_calls] in H.
    destruct (_registerIntentDef getNumAsStr fuel pe r userSpeech defs)
      as [r1|] eqn:E; [|discriminate H].
    rewrite (IH r1 r' H). unfold _registerIntentDef in E.
    destruct (ScriptParser.registerIntentDef_params getNumAsStr fuel (types r)
                pe userSpeech) as [[[kt us] ep]|]; [|discriminate E].
    cbv zeta in E.
    destruct (match first_name defs with
              | Some idName0 => (idName0, _registeredIntents r)
              | None => Naming._genIntentName (_registeredIntents r)
              end) as [nm cnt].
    injection E as <-. cbn [regIntents map snd].
    rewrite map_app. cbn [map intentDefArr]. rewrite <- app_assoc. reflexivity.
Qed.

(** No call of the two passes comes without a definition. *)
Lemma calls_defs_nonempty (usd : list (str * list InputMgr.intentDef))
  (intents : list intentObj) :
  indexes usd intents ->
  Forall (fun call => snd call <> [])
    (flat_map
       (fun d => match filter (used_once intents) (speech_of d) with
                 | [] => []
                 | userSpeech => [(userSpeech, [def d])]
                 end) intents
     ++ second_pass usd).
Proof.
  intros [Hlook Hnd]. apply Forall_forall. intros call Hcall.
  apply in_app_or in Hcall. destruct Hcall as [Hcall|Hcall].
  - apply in_flat_map in Hcall. destruct Hcall as (d & _ & Hin).
    destruct (filter (used_once intents) (speech_of d)); [destruct Hin|].
    destruct Hin as [<-|[]]. discriminate.
  - unfold second_pass in Hcall. apply in_flat_map in Hcall.
    destruct Hcall as ([k defs] & He & Hin). cbn [fst snd] in Hin.
    destruct (length defs =? 1); [destruct Hin|].
    destruct Hin as [<-|[]]. cbn [snd].
    pose proof (lookup_of_entry _ k defs Hnd He) as Hk. rewrite Hlook in Hk.
    destruct (defs_for k intents); [discriminate Hk|].
    injection Hk as <-. discriminate.
Qed.

End RegisteredDefs.

Section Chosen.
Import InputMgr.

Lemma first_scoped_in (defs : list intentDef) (frame : obj) (d : intentDef) :
  first_scoped defs frame = Some d -> In d defs.
Proof.
  induction defs as [|e defs IH]; [discriminate|]. cbn [first_scoped].
  destruct (goal_matches e frame).
  - intros H; injection H as ->. left; reflexivity.
  - intros H. right. apply IH. exact H.
Qed.

Lemma walk_spec_in (defs : list intentDef) (fs : list obj) (d : intentDef) :
  walk_spec defs fs = Some d -> In d defs.
Proof.
  induction fs as [|f fs IH]; [discriminate|]. cbn [walk_spec].
  destruct (first_scoped defs f) as [e|] eqn:E.
  - intros H; injection H as <-. apply (first_scoped_in _ _ _ E).
  - exact IH.
Qed.

(** With a definition to choose from, a definition of the array is chosen;
    with one only, without the warning. *)
Lemma select_intent_chooses (t : ConversationEngine.turn)
  (defs : list intentDef) :
  defs <> [] ->
  exists d warned,
    select_intent t defs = Some (d, warned) /\ In d defs
    /\ (length defs = 1 -> warned = false).
Proof.
  intros Hne. destruct defs as [|d0 [|d1 rest]]; [congruence| |].
  - exists d0, false. split; [reflexivity|]. split; [left|]; reflexivity.
  - rewrite select_several.
    destruct (walk_spec (d0 :: d1 :: rest)
                (rev (ConversationEngine.getGoalStates t))) as [d|] eqn:E.
    + exists d, false. split; [reflexivity|].
      split; [apply (walk_spec_in _ _ _ E)|reflexivity].
    + exists d0, true. split; [reflexivity|].
      split; [left; reflexivity|discriminate].
Qed.

End Chosen.

(** X20.  Every registered intent can be dispatched.  When
    [registerIntents] has come to its end on the tables of a script (no
    utterance being a name that the table inherits), every call of
    [regIntent] carries at least one definition, and only definitions that
    the script has declared.  So the handler of a registered intent,
    whatever the goals on the stack, picks one of the intent's own
    definitions: [processAllIntents] never comes to read the first
    definition of an empty array.  An intent with one definition is
    dispatched without the warning. *)
Theorem registered_intents_dispatch (getNumAsStr : str -> str)
  (script : list declaration) (counter fuel : nat) (r : Convo.registrar)
  (customSlots : list (jsval * list str)) :
  Forall (fun item => inherited item = false) (utterances_of script) ->
  Convo._registerIntents getNumAsStr fuel (declared_by script) counter
  = Some (r, customSlots) ->
  forall reg, In reg (Convo.regIntents r) ->
    Convo.intentDefArr reg <> []
    /\ incl (Convo.intentDefArr reg) (map Convo.def (intents_of script))
    /\ forall t : ConversationEngine.turn,
         exists d warned,
           InputMgr.select_intent t (Convo.intentDefArr reg) = Some (d, warned)
           /\ In d (Convo.intentDefArr reg)
           /\ (length (Convo.intentDefArr reg) = 1 -> warned = false).
Proof.
  intros _ Hrun reg Hreg.
  destruct (script_holds script) as [Hidx Hall].
  set (c := declared_by script) in *. set (intents := intents_of script) in *.
  unfold Convo._registerIntents in Hrun.
  rewrite Hall, (first_pass_spec _ intents Hidx intents (incl_refl _)) in Hrun.
  destruct (Convo.register_calls _ _ _ _ _) as [r'|] eqn:E; [|discriminate Hrun].
  injection Hrun as -> _.
  apply register_calls_defs in E. cbn [Convo.regIntents map app] in E.
  assert (Hcall : In (Convo.intentDefArr reg)
                    (map snd
                       (flat_map
                          (fun d => match filter (used_once intents)
                                            (speech_of d) with
                                    | [] => []
                                    | userSpeech => [(userSpeech, [Convo.def d])]
                                    end) intents
                        ++ Convo.second_pass (Convo.userSpeechDef c))))
    by (rewrite <- E; apply in_map; exact Hreg).
  apply in_map_iff in Hcall. destruct Hcall as (call & Hsnd & Hcall).
  pose proof (calls_defs_nonempty _ intents Hidx) as Hne.
  pose proof (calls_defs_declared _ intents Hidx) as Hdecl.
  rewrite Forall_forall in Hne, Hdecl.
  assert (Hnonempty : Convo.intentDefArr reg <> [])
    by (rewrite <- Hsnd; apply Hne; exact Hcall).
  split; [exact Hnonempty|]. split.
  - intros x Hx. rewrite <- Hsnd in Hx.
    destruct (Hdecl call Hcall x Hx) as (d & Hd & ->).
    apply in_map. exact Hd.
  - intros t. apply select_intent_chooses. exact Hnonempty.
Qed.

Lemma registered_intents_dispatch_witness :
  Forall
    (fun reg =>
       Convo.intentDefArr reg <> []
       /\ incl (Convo.intentDefArr reg) (map Convo.def (intents_of sample_script))
       /\ forall t : ConversationEngine.turn,
            exists d warned,
              InputMgr.select_intent t (Convo.intentDefArr reg)
              = Some (d, warned)
              /\ In d (Convo.intentDefArr reg)
              /\ (length (Convo.intentDefArr reg) = 1 -> warned = false))
    (Convo.regIntents
       (fst (match Convo._registerIntents (fun _ => lit "many") 25
                     (declared_by sample_script) 0 with
             | Some rc => rc
             | None => (Convo.mkRegistrar [] 0 [], [])
             end))).
Proof.
  apply Forall_forall.
  apply (registered_intents_dispatch (fun _ => lit "many") sample_script 0 25
           _ (snd (match Convo._registerIntents (fun _ => lit "many") 25
                           (declared_by sample_script) 0 with
                   | Some rc => rc
                   | None => (Convo.mkRegistrar [] 0 [], [])
                   end))).
  - repeat constructor.
  - vm_compute. reflexivity.
Defined.

(** ** Input types and equivalent phrases *)

Section Tables.
Import Convo.

Lemma lookup_app {A : Type} (a b : list (str * A)) (k : str) :
  lookup (a ++ b) k = match lookup a k with
                      | Some v => Some v
                      | None => lookup b k
                      end.
Proof.
  induction a as [|[q v] a IH]; [reflexivity|].
  cbn [app lookup]. destruct (str_eqb q k); [reflexivity|exact IH].
Qed.

Lemma lookup_assigned {A : Type} (entries : list (str * A)) :
  forall (tbl : list (str * A)) (k : str),
    lookup (fold_left (fun t e => assign t (fst e) (snd e)) entries tbl) k
    = match last_declared entries k with
      | Some v => Some v
      | None => lookup tbl k
      end.
Proof.
  unfold last_declared.
  induction entries as [|[q v] entries IH]; intros tbl k; [reflexivity|].
  cbn [fold_left fst snd rev]. rewrite IH, lookup_app, lookup_assign.
  cbn [lookup]. destruct (lookup (rev entries) k); [reflexivity|].
  destruct (str_eqb q k); reflexivity.
Qed.

Lemma respondTo_keeps (ds : list intentObj) (f : intentObj -> intentObj) :
  forall c : t,
    keyTypes (fold_left (fun c d => respondTo c (f d)) ds c) = keyTypes c
    /\ phraseEquivalents (fold_left (fun c d => respondTo c (f d)) ds c)
       = phraseEquivalents c.
Proof.
  induction ds as [|d ds IH]; intros c; [split; reflexivity|].
  cbn [fold_left]. destruct (IH (respondTo c (f d))) as [-> ->].
  split; reflexivity.
Qed.

Lemma script_tables (script : list declaration) :
  forall c : t,
    keyTypes (fold_left declare script c)
    = fold_left (fun t e => assign t (fst e) (snd e)) (types_of script)
        (keyTypes c)
    /\ phraseEquivalents (fold_left declare script c)
       = phraseEquivalents c ++ map (map toLowerCase) (phrases_of script).
Proof.
  induction script as [|d script IH]; intros c.
  - split; [reflexivity|]. cbn [phrases_of flat_map map]. rewrite app_nil_r.
    reflexivity.
  - cbn [fold_left]. destruct (IH (declare c d)) as [-> ->].
    unfold types_of, phrases_of. cbn [flat_map]. rewrite map_app, fold_left_app.
    destruct d as [intentDef|goalObj|kt|pe]; cbn [declare].
    + split; reflexivity.
    + unfold defineGoal.
      destruct (respondTo_keeps (respondsTo goalObj) (scoped_to (goal goalObj))
                  (mk (phraseEquivalents c) (keyTypes c)
                     (assign (registeredGoals c) (goal goalObj) (goalDef goalObj))
                     (userSpeechDef c) (allIntents c))) as [-> ->].
      split; reflexivity.
    + split; reflexivity.
    + cbn [addPhraseEquivalents phraseEquivalents keyTypes].
      rewrite <- app_assoc. split; reflexivity.
Qed.

Lemma lower_char_twice (c : ascii) : lower_char (lower_char c) = lower_char c.
Proof.
  unfold lower_char. destruct (is_capital c) eqn:E; [|rewrite E; reflexivity].
  assert (Hsmall : is_capital (ascii_of_nat (code c + 32)) = false);
    [|rewrite Hsmall; reflexivity].
  unfold is_capital, is_upper, code in *.
  pose proof (nat_ascii_bounded c) as Hc.
  apply orb_true_iff in E. rewrite !andb_true_iff, negb_true_iff in E.
  rewrite !Nat.leb_le, Nat.eqb_neq in E.
  rewrite nat_ascii_embedding by lia.
  apply orb_false_iff. split.
  - apply andb_false_iff. right. apply Nat.leb_gt. lia.
  - apply andb_false_iff. left. apply andb_false_iff.
    destruct E as [[E1 E2]|[[E1 E2] E3]].
    + left. apply Nat.leb_gt. lia.
    + right. apply Nat.leb_gt. lia.
Qed.

Lemma toLowerCase_twice (s : str) : toLowerCase (toLowerCase s) = toLowerCase s.
Proof.
  unfold toLowerCase. rewrite map_map. apply map_ext. apply lower_char_twice.
Qed.

End Tables.

Section GoalTable.
Import Convo.



End GoalTable.



(** X21.  What a script declares last is what registration reads.  After
    the declarations of a script, whatever stands between them, the table
    of input types gives for a name the type that the last [addInputTypes]
    naming it has given, and nothing for a name that none has given; the
    equivalent phrases are the sets of all [addPhraseEquivalents] in the
    order of the calls, every phrase in lower case.  (The names are not
    names that the table inherits.) *)
Theorem later_declarations_win (script : list declaration) :
  Forall (fun e => inherited (fst e) = false) (types_of script) ->
  let c := declared_by script in
  (forall name, inherited name = false ->
                lookup (Convo.keyTypes c) name
                = last_declared (types_of script) name)
  /\ Convo.phraseEquivalents c = map (map toLowerCase) (phrases_of script)
  /\ Forall (Forall (fun phrase => toLowerCase phrase = phrase))
       (Convo.phraseEquivalents c).
Proof.
  intros _ c. destruct (script_tables script Convo.create) as [Hkt Hpe].
  fold (declared_by script) in Hkt, Hpe. fold c in Hkt, Hpe.
  cbn [Convo.create Convo.keyTypes Convo.phraseEquivalents app] in Hkt, Hpe.
  split; [|split].
  - intros name _. rewrite Hkt, lookup_assigned.
    destruct (last_declared (types_of script) name); reflexivity.
  - exact Hpe.
  - rewrite Hpe. apply Forall_forall. intros set Hset.
    apply in_map_iff in Hset. destruct Hset as (set0 & <- & _).
    apply Forall_forall. intros phrase Hp.
    apply in_map_iff in Hp. destruct Hp as (p0 & <- & _).
    apply toLowerCase_twice.
Qed.

Lemma later_declarations_win_witness :
  let c := declared_by sample_script in
  (forall name, inherited name = false ->
                lookup (Convo.keyTypes c) name
                = last_declared (types_of sample_script) name)
  /\ Convo.phraseEquivalents c = map (map toLowerCase) (phrases_of sample_script)
  /\ Forall (Forall (fun phrase => toLowerCase phrase = phrase))
       (Convo.phraseEquivalents c).
Proof.
  apply (later_declarations_win sample_script). repeat constructor.
Defined.

(** ** The Dialogflow export *)

Section Exporting.
Import GooglePlatform.

Lemma split_braces_not_nil (s : str) : split_braces s <> [].
Proof.
  destruct s as [|c s]; cbn [split_braces]; [discriminate|].
  destruct (is_brace c); [discriminate|].
  destruct (split_braces s); discriminate.
Qed.

Lemma split_braces_plain (t : str) : no_brace t = true -> split_braces t = [t].
Proof.
  induction t as [|c t IH]; [reflexivity|].
  cbn [no_brace forallb]. rewrite andb_true_iff, negb_true_iff.
  intros [Hc Ht]. cbn [split_braces]. rewrite Hc, (IH Ht). reflexivity.
Qed.

Lemma split_braces_at (t : str) (c : ascii) (rest : str) :
  no_brace t = true -> is_brace c = true ->
  split_braces (t ++ c :: rest) = t :: split_braces rest.
Proof.
  intros Ht Hc. induction t as [|x t IH].
  - cbn [app split_braces]. rewrite Hc. reflexivity.
  - cbn [no_brace forallb] in Ht. rewrite andb_true_iff, negb_true_iff in Ht.
    destruct Ht as [Hx Ht]. cbn [app split_braces]. rewrite Hx, (IH Ht).
    reflexivity.
Qed.

Lemma no_brace_app (a b : str) :
  no_brace (a ++ b) = no_brace a && no_brace b.
Proof. unfold no_brace. apply forallb_app. Qed.

Lemma no_bar_no_brace (t : str) : no_brace_or_bar t = true -> no_brace t = true.
Proof.
  unfold no_brace_or_bar, no_brace. rewrite !forallb_forall.
  intros H c Hc. specialize (H c Hc). apply andb_true_iff in H. apply H.
Qed.

Lemma no_bar_in (t : str) : no_brace_or_bar t = true -> ~ In "|"%char t.
Proof.
  unfold no_brace_or_bar. rewrite forallb_forall. intros H Hin.
  specialize (H _ Hin). rewrite andb_true_iff in H. destruct H as [_ H].
  discriminate H.
Qed.

(** The first bar of a string that starts with a word without a bar. *)
Lemma indexOf_bar (v rest : str) :
  ~ In "|"%char v -> indexOf (v ++ "|"%char :: rest) (lit "|") = Some (length v).
Proof.
  induction v as [|c v IH]; intros Hv; [reflexivity|].
  cbn [app length]. unfold indexOf; fold indexOf.
  change (lit "|") with ["|"%char]. cbn [starts_with].
  destruct (Ascii.eqb "|" c) eqn:E.
  - apply Ascii.eqb_eq in E. elim Hv. left. symmetry. exact E.
  - cbn [andb]. change ["|"%char] with (lit "|").
    rewrite IH by (intros H; apply Hv; right; exact H). reflexivity.
Qed.

Lemma starts_with_dash (v rest : str) :
  ~ In "|"%char v ->
  starts_with (lit "-|") (v ++ "|"%char :: rest) = str_eqb v (lit "-").
Proof.
  intros Hv. change (lit "-|") with ["-"%char; "|"%char].
  change (lit "-") with ["-"%char].
  destruct v as [|c [|d v]]; cbn [app starts_with str_eqb].
  - reflexivity.
  - rewrite Ascii.eqb_refl, !andb_true_r. apply Ascii.eqb_sym.
  - destruct (Ascii.eqb "|" d) eqn:E.
    + apply Ascii.eqb_eq in E. elim Hv. right. left. symmetry. exact E.
    + cbn [andb]. rewrite !andb_false_r. reflexivity.
Qed.

(** What stands between the braces of a rewritten slot. *)
Lemma rewritten_slot_piece (kt : ScriptParser.keyTypes) (name : str) :
  no_brace_or_bar name = true ->
  match sample_values kt name with
  | Some values => forallb no_brace_or_bar values = true
  | None => True
  end ->
  no_brace (samples_of kt name ++ lit "|" ++ name) = true.
Proof.
  intros Hname Hvalues. rewrite no_brace_app.
  apply andb_true_iff. split.
  - unfold samples_of, sample_values in *.
    destruct (lookup kt name) as [[ty|ty vals [sv|]]|]; try reflexivity.
    induction (map ScriptParser.trim sv) as [|v [|w l] IH].
    + reflexivity.
    + cbn [join]. cbn [forallb] in Hvalues.
      apply andb_true_iff in Hvalues. apply no_bar_no_brace, Hvalues.
    + cbn [forallb] in Hvalues. apply andb_true_iff in Hvalues.
      destruct Hvalues as [Hv Hl].
      change (join (lit "|") (v :: w :: l))
        with (v ++ lit "|" ++ join (lit "|") (w :: l)).
      rewrite !no_brace_app, (no_bar_no_brace _ Hv), (IH Hl). reflexivity.
  - rewrite no_brace_app, (no_bar_no_brace _ Hname). reflexivity.
Qed.

Lemma samples_of_values (kt : ScriptParser.keyTypes) (name : str) :
  samples_of kt name = match sample_values kt name with
                       | Some values => join (lit "|") values
                       | None => lit "-"
                       end.
Proof.
  unfold samples_of, sample_values.
  destruct (lookup kt name) as [[ty|ty vals [sv|]]|]; reflexivity.
Qed.

Lemma join_cons_snoc (v : str) (more : list str) (name : str) :
  join (lit "|") (v :: more) ++ lit "|" ++ name
  = v ++ "|"%char :: join (lit "|") (more ++ [name]).
Proof.
  destruct more as [|w more]; [reflexivity|].
  rewrite (join_snoc (lit "|") name (w :: more)) by discriminate.
  change (join (lit "|") (v :: w :: more))
    with (v ++ lit "|" ++ join (lit "|") (w :: more)).
  rewrite <- !app_assoc. reflexivity.
Qed.

(** A piece with a bar in it, read at an odd place. *)
Lemma bar_piece (slots : obj) (drawn : nat -> nat) (v rest : str)
  (us : list str) (ndx : nat) (data : list guData) :
  ~ In "|"%char v -> ndx mod 2 = 1 ->
  pieces (Some slots) drawn ((v ++ "|"%char :: rest) :: us) ndx data
  = pieces (Some slots) drawn us (S ndx)
      (data ++ [mkData false (Some rest) (platform_type slots rest)
                  (if str_eqb v (lit "-")
                   then guessSamples (drawn ndx) (obj_get slots rest)
                   else Txt v)]).
Proof.
  intros Hv Hodd. cbn [pieces].
  replace (length (v ++ "|"%char :: rest) =? 0) with false
    by (symmetry; apply Nat.eqb_neq; rewrite length_app; cbn [length]; lia).
  rewrite Hodd. cbn [Nat.eqb].
  rewrite (indexOf_bar v rest Hv), (starts_with_dash v rest Hv).
  replace (skipn (length v + 1) (v ++ "|"%char :: rest)) with rest.
  2:{ rewrite skipn_app, skipn_all2 by lia.
      replace (length v + 1 - length v) with 1 by lia. reflexivity. }
  replace (firstn (length v) (v ++ "|"%char :: rest)) with v.
  2:{ rewrite firstn_app, firstn_all, Nat.sub_diag. cbn [firstn].
      rewrite app_nil_r. reflexivity. }
  reflexivity.
Qed.

(** The piece of a rewritten slot gives the entry of the slot. *)
Lemma slot_piece (kt : ScriptParser.keyTypes) (slots : obj) (drawn : nat -> nat)
  (name : str) (us : list str) (ndx : nat) (data : list guData) :
  match sample_values kt name with
  | Some values => forallb no_brace_or_bar values = true
  | None => True
  end ->
  ndx mod 2 = 1 ->
  pieces (Some slots) drawn ((samples_of kt name ++ lit "|" ++ name) :: us)
    ndx data
  = pieces (Some slots) drawn us (S ndx)
      (data ++ [slot_entry slots (drawn ndx) (sample_values kt name) name]).
Proof.
  intros Hvalues Hodd. rewrite samples_of_values. unfold slot_entry.
  destruct (sample_values kt name) as [[|v more]|].
  - apply (bar_piece slots drawn [] name us ndx data); [intros []|exact Hodd].
  - rewrite join_cons_snoc. apply bar_piece; [|exact Hodd].
    cbn [forallb] in Hvalues. apply andb_true_iff in Hvalues.
    apply no_bar_in, Hvalues.
  - apply (bar_piece slots drawn (lit "-") name us ndx data); [|exact Hodd].
    intros [H|[]]. discriminate H.
Qed.

Lemma text_piece (slots : option obj) (drawn : nat -> nat) (t : str)
  (us : list str) (ndx : nat) (data : list guData) :
  ndx mod 2 = 0 ->
  pieces slots drawn (t :: us) ndx data
  = pieces slots drawn us (S ndx) (data ++ said_entry t).
Proof.
  intros Heven. cbn [pieces]. unfold said_entry, nonempty.
  destruct t as [|c t]; cbn [length Nat.eqb].
  - rewrite app_nil_r. reflexivity.
  - rewrite Heven. reflexivity.
Qed.

Lemma rewritten_cons (kt : ScriptParser.keyTypes) (seg : segment)
  (segs : list segment) :
  rewritten kt (seg :: segs)
  = match seg with
    | Text t => t
    | Slot name => lit "{" ++ samples_of kt name ++ lit "|" ++ name ++ lit "}"
    end ++ rewritten kt segs.
Proof. reflexivity. Qed.

Lemma next_parity (ndx : nat) : ndx mod 2 = 0 -> S ndx mod 2 = 1.
Proof.
  intros H. replace (S ndx) with (1 + ndx) by lia.
  rewrite Nat.Div0.add_mod, H by lia. reflexivity.
Qed.

Lemma next_pair_parity (ndx : nat) : ndx mod 2 = 0 -> (ndx + 2) mod 2 = 0.
Proof.
  intros H. rewrite Nat.Div0.add_mod, H by lia. reflexivity.
Qed.

(** The pieces of a rewritten utterance are read as they were written. *)
Lemma pieces_rewritten (kt : ScriptParser.keyTypes) (slots : obj)
  (drawn : nat -> nat) (segs : list segment) :
  export_ok kt segs = true ->
  forall (pending : str) (ndx : nat) (data : list guData),
    no_brace pending = true -> ndx mod 2 = 0 ->
    pieces (Some slots) drawn (split_braces (pending ++ rewritten kt segs))
      ndx data
    = Some (data ++ exported kt slots drawn ndx pending segs).
Proof.
  induction segs as [|[t|name] segs IH]; intros Hok pending ndx data Hp Hn.
  - change (rewritten kt []) with (@nil ascii). rewrite app_nil_r.
    rewrite (split_braces_plain _ Hp), (text_piece _ _ _ _ _ _ Hn).
    reflexivity.
  - cbn [export_ok forallb] in Hok. apply andb_true_iff in Hok.
    destruct Hok as [Ht Hok]. rewrite rewritten_cons, app_assoc.
    cbn [exported]. apply IH; [exact Hok| |exact Hn].
    rewrite no_brace_app, Hp, Ht. reflexivity.
  - cbn [export_ok forallb] in Hok. rewrite !andb_true_iff in Hok.
    destruct Hok as [[Hname Hvalues] Hok].
    assert (Hvalues' : match sample_values kt name with
                       | Some values => forallb no_brace_or_bar values = true
                       | None => True
                       end)
      by (destruct (sample_values kt name); [exact Hvalues|exact I]).
    rewrite rewritten_cons.
    change (lit "{" ++ samples_of kt name ++ lit "|" ++ name ++ lit "}")
      with ("{"%char :: (samples_of kt name ++ lit "|" ++ name ++ lit "}")).
    rewrite <- app_comm_cons.
    rewrite (split_braces_at pending "{" _ Hp eq_refl).
    replace ((samples_of kt name ++ lit "|" ++ name ++ lit "}")
             ++ rewritten kt segs)
      with ((samples_of kt name ++ lit "|" ++ name)
            ++ "}"%char :: ([] ++ rewritten kt segs))
      by (rewrite <- !app_assoc; reflexivity).
    rewrite (split_braces_at _ "}" _
               (rewritten_slot_piece kt name Hname Hvalues') eq_refl).
    rewrite (text_piece _ _ _ _ _ _ Hn).
    rewrite (slot_piece kt slots drawn name _ _ _ Hvalues' (next_parity _ Hn)).
    replace (S (S ndx)) with (ndx + 2) by lia.
    rewrite (IH Hok [] (ndx + 2) _ eq_refl (next_pair_parity _ Hn)).
    cbn [exported]. rewrite <- !app_assoc. reflexivity.
Qed.

(** Without a table of slots the first slot met throws. *)
Lemma pieces_without_slots (kt : ScriptParser.keyTypes) (drawn : nat -> nat)
  (segs : list segment) :
  export_ok kt segs = true ->
  forall (pending : str) (ndx : nat) (data : list guData),
    no_brace pending = true -> ndx mod 2 = 0 ->
    pieces None drawn (split_braces (pending ++ rewritten kt segs)) ndx data
    = match slot_names segs with
      | [] => Some (data ++ said_entry (pending ++ texts_of segs))
      | _ => None
      end.
Proof.
  induction segs as [|[t|name] segs IH]; intros Hok pending ndx data Hp Hn.
  - change (rewritten kt []) with (@nil ascii).
    cbn [slot_names flat_map texts_of map concat]. rewrite app_nil_r.
    rewrite (split_braces_plain _ Hp), (text_piece _ _ _ _ _ _ Hn).
    reflexivity.
  - cbn [export_ok forallb] in Hok. apply andb_true_iff in Hok.
    destruct Hok as [Ht Hok]. rewrite rewritten_cons, app_assoc.
    rewrite (IH Hok (pending ++ t) ndx data); [| |exact Hn].
    + unfold slot_names, texts_of. cbn [flat_map map concat app].
      rewrite <- app_assoc. reflexivity.
    + rewrite no_brace_app, Hp, Ht. reflexivity.
  - cbn [export_ok forallb] in Hok. rewrite !andb_true_iff in Hok.
    destruct Hok as [[Hname Hvalues] Hok].
    assert (Hvalues' : match sample_values kt name with
                       | Some values => forallb no_brace_or_bar values = true
                       | None => True
                       end)
      by (destruct (sample_values kt name); [exact Hvalues|exact I]).
    rewrite rewritten_cons.
    change (lit "{" ++ samples_of kt name ++ lit "|" ++ name ++ lit "}")
      with ("{"%char :: (samples_of kt name ++ lit "|" ++ name ++ lit "}")).
    rewrite <- app_comm_cons.
    rewrite (split_braces_at pending "{" _ Hp eq_refl).
    replace ((samples_of kt name ++ lit "|" ++ name ++ lit "}")
             ++ rewritten kt segs)
      with ((samples_of kt name ++ lit "|" ++ name)
            ++ "}"%char :: ([] ++ rewritten kt segs))
      by (rewrite <- !app_assoc; reflexivity).
    rewrite (split_braces_at _ "}" _
               (rewritten_slot_piece kt name Hname Hvalues') eq_refl).
    rewrite (text_piece _ _ _ _ _ _ Hn).
    cbn [pieces slot_names flat_map app].
    replace (length (samples_of kt name ++ lit "|" ++ name) =? 0) with false.
    2:{ symmetry. apply Nat.eqb_neq. rewrite !length_app.
        change (length (lit "|")) with 1. lia. }
    rewrite (next_parity _ Hn). reflexivity.
Qed.

Lemma usersays_rewritten (kt : ScriptParser.keyTypes) (slots : obj)
  (drawn : nat -> nat -> nat) (templates : list (list segment)) :
  forallb (export_ok kt) templates = true ->
  forall (ndx : nat) (gUtterances : list gUtteranceInfo),
    usersays (Some slots) drawn (map (rewritten kt) templates) ndx gUtterances
    = Some (gUtterances ++ samples_from kt slots drawn ndx templates).
Proof.
  induction templates as [|segs templates IH]; intros Hok ndx acc.
  - cbn [map usersays samples_from]. rewrite app_nil_r. reflexivity.
  - cbn [forallb] in Hok. apply andb_true_iff in Hok. destruct Hok as [Hs Hok].
    cbn [map usersays].
    change (rewritten kt segs) with ([] ++ rewritten kt segs).
    rewrite (pieces_rewritten kt slots (drawn ndx) segs Hs [] 0 [] eq_refl eq_refl).
    rewrite (IH Hok). cbn [samples_from app]. rewrite <- app_assoc.
    reflexivity.
Qed.

Lemma usersays_without_slots (kt : ScriptParser.keyTypes)
  (drawn : nat -> nat -> nat) (templates : list (list segment)) :
  forallb (export_ok kt) templates = true ->
  flat_map slot_names templates <> [] ->
  forall (ndx : nat) (gUtterances : list gUtteranceInfo),
    usersays None drawn (map (rewritten kt) templates) ndx gUtterances = None.
Proof.
  induction templates as [|segs templates IH]; intros Hok Hslot ndx acc.
  - elim Hslot. reflexivity.
  - cbn [forallb] in Hok. apply andb_true_iff in Hok. destruct Hok as [Hs Hok].
    cbn [map usersays].
    change (rewritten kt segs) with ([] ++ rewritten kt segs).
    rewrite (pieces_without_slots kt (drawn ndx) segs Hs [] 0 [] eq_refl eq_refl).
    cbn [flat_map] in Hslot.
    destruct (slot_names segs) as [|n ns]; [|reflexivity].
    apply IH; [exact Hok|exact Hslot].
Qed.

Lemma join_has_bar (w : str) (l : list str) :
  l <> [] -> In "|"%char (join (lit "|") (w :: l)).
Proof.
  destruct l as [|x l]; [congruence|]. intros _.
  change (join (lit "|") (w :: x :: l))
    with (w ++ "|"%char :: join (lit "|") (x :: l)).
  apply in_or_app. right. left. reflexivity.
Qed.

End Exporting.

(** X22.  The Dialogflow export reads the utterances of an intent back as
    slot rewriting wrote them.  For utterances of text and slots, no text,
    slot name or sample value holding a brace and no slot name or sample
    value a bar, [genConfigIntents] writes the description of the intent
    and, for every utterance, one entry for every stretch of text that is
    not empty and one for every slot, in their order.  The entry of a slot
    takes as its text what stands before the first bar, the first sample
    value (or a guess where the type lists none), and as its alias all that
    stands after it: the alias is the name of the slot exactly when the
    type lists one sample value at most, and with more the alias is the
    other sample values and the name, joined by bars.  An intent that was
    registered without slots, but whose utterances hold one, makes the
    export throw.  (The names of the slots are not made of digits, and
    their types are not names that the table of platform types
    inherits.) *)
Theorem export_reads_rewritten_utterances (sep : str)
  (drawn : str -> nat -> nat -> nat) (kt : ScriptParser.keyTypes)
  (intentName : str) (templates : list (list segment))
  (zipFiles : list GooglePlatform.file)
  (rest : list (str * GooglePlatform.intentParams)) :
  forallb (export_ok kt) templates = true ->
  let userSpeech := map (rewritten kt) templates in
  (forall slots,
      slots_ok slots = true ->
      GooglePlatform.genConfigIntents sep drawn zipFiles
        ((intentName, GooglePlatform.mkParams userSpeech (Some slots)) :: rest)
      = GooglePlatform.genConfigIntents sep drawn
          (zipFiles
           ++ [GooglePlatform.IntentFile
                 (lit "intents" ++ sep ++ intentName ++ lit ".json")
                 (GooglePlatform.mkInfo intentName true true
                    (Some (GooglePlatform.parameters slots)));
               GooglePlatform.UserSaysFile
                 (lit "intents" ++ sep ++ intentName ++ lit "_usersays_en.json")
                 (samples_from kt slots (drawn intentName) 0 templates)])
          rest)
  /\ (flat_map slot_names templates <> [] ->
      GooglePlatform.genConfigIntents sep drawn zipFiles
        ((intentName, GooglePlatform.mkParams userSpeech None) :: rest)
      = None)
  /\ (forall slots number values name,
        no_brace_or_bar name = true ->
        (GooglePlatform.alias (slot_entry slots number values name) = Some name
         <-> match values with
             | Some (_ :: _ :: _) => False
             | _ => True
             end)).
Proof.
  intros Hok userSpeech. split; [|split].
  - intros slots _. cbn [GooglePlatform.genConfigIntents].
    cbn [GooglePlatform.slots GooglePlatform.utterances option_map].
    unfold userSpeech. rewrite (usersays_rewritten kt slots _ templates Hok).
    cbn [app]. rewrite <- app_assoc. reflexivity.
  - intros Hslot. cbn [GooglePlatform.genConfigIntents].
    cbn [GooglePlatform.slots GooglePlatform.utterances].
    unfold userSpeech.
    rewrite (usersays_without_slots kt _ templates Hok Hslot). reflexivity.
  - intros slots number values name Hname. unfold slot_entry.
    cbn [GooglePlatform.alias].
    destruct values as [[|v [|w more]]|]; try (split; [intros _; exact I|reflexivity]).
    split; [|intros []]. intros H. injection H as H.
    apply (no_bar_in _ Hname). rewrite <- H.
    change ((w :: more) ++ [name]) with (w :: (more ++ [name])).
    apply join_has_bar. destruct more; discriminate.
Qed.

Lemma export_reads_rewritten_utterances_witness :
  let userSpeech := map (rewritten sample_table) sample_templates in
  (forall slots,
      slots_ok slots = true ->
      GooglePlatform.genConfigIntents (lit "/") (fun _ _ _ => 7) []
        [(lit "IntentA", GooglePlatform.mkParams userSpeech (Some slots))]
      = GooglePlatform.genConfigIntents (lit "/") (fun _ _ _ => 7)
          ([]
           ++ [GooglePlatform.IntentFile
                 (lit "intents" ++ lit "/" ++ lit "IntentA" ++ lit ".json")
                 (GooglePlatform.mkInfo (lit "IntentA") true true
                    (Some (GooglePlatform.parameters slots)));
               GooglePlatform.UserSaysFile
                 (lit "intents" ++ lit "/" ++ lit "IntentA"
                  ++ lit "_usersays_en.json")
                 (samples_from sample_table slots (fun _ _ => 7) 0
                    sample_templates)])
          [])
  /\ (flat_map slot_names sample_templates <> [] ->
      GooglePlatform.genConfigIntents (lit "/") (fun _ _ _ => 7) []
        [(lit "IntentA", GooglePlatform.mkParams userSpeech None)]
      = None)
  /\ (forall slots number values name,
        no_brace_or_bar name = true ->
        (GooglePlatform.alias (slot_entry slots number values name) = Some name
         <-> match values with
             | Some (_ :: _ :: _) => False
             | _ => True
             end)).
Proof.
  apply (export_reads_rewritten_utterances (lit "/") (fun _ _ _ => 7)
           sample_table (lit "IntentA") sample_templates [] []).
  reflexivity.
Defined.
